(* ===================================================================== *)
(*  japanese-read-helper: the furigana / ruby text-annotation engine      *)
(*                                                                       *)
(*  Shallow embedding of                                                 *)
(*    scripts/furigana_helper.py        (classifier, reading converter,  *)
(*                                       annotator, markup walker,       *)
(*                                       per-document dictionary)        *)
(*    scripts/epub-to-text-furigana.py  (dictionary accumulation)        *)
(*    scripts/extract-all-ruby.py       (unfiltered pair extraction)     *)
(*    scripts/extract-ruby-smart.py     (compound merge, okurigana)      *)
(*    scripts/utils/fix-ruby-newlines.py (line repair)                   *)
(*                                                                       *)
(*  A Python str is a sequence of Unicode code points: it is modelled as *)
(*  a list of integers, one per code point.  Dictionaries are finite     *)
(*  maps (gmap) where only the mapping matters and association lists     *)
(*  where the insertion order is observable.                             *)
(* ===================================================================== *)

From Stdlib Require Import ZArith List Bool Lia Ascii String.
From stdpp Require Import base option list gmap.

Local Open Scope Z_scope.

(* --------------------------------------------------------------------- *)
(*  Strings of code points                                               *)
(* --------------------------------------------------------------------- *)

Module Utf8.

  (* Literals of this file are written as UTF-8 text; [decode] turns the
     bytes of such a literal into the code points Python would see. *)

Definition byte_of (a : ascii) : Z := Z.of_N (N_of_ascii a).

Fixpoint bytes (s : string) : list Z :=
    match s with
    | EmptyString => []
    | String a s' => byte_of a :: bytes s'
    end.

Definition cont (b : Z) : Z := Z.land b 0x3F.

Fixpoint decode (bs : list Z) : list Z :=
    match bs with
    | [] => []
    | b1 :: r1 =>
      if b1 <? 0x80 then b1 :: decode r1
      else match r1 with
      | [] => [b1]
      | b2 :: r2 =>
        if b1 <? 0xE0 then
          (Z.shiftl (Z.land b1 0x1F) 6 + cont b2) :: decode r2
        else match r2 with
        | [] => [b1; b2]
        | b3 :: r3 =>
          if b1 <? 0xF0 then
            (Z.shiftl (Z.land b1 0x0F) 12 + Z.shiftl (cont b2) 6 + cont b3)
              :: decode r3
          else match r3 with
          | [] => [b1; b2; b3]
          | b4 :: r4 =>
            (Z.shiftl (Z.land b1 0x07) 18 + Z.shiftl (cont b2) 12
               + Z.shiftl (cont b3) 6 + cont b4) :: decode r4
          end
        end
      end
    end.

End Utf8.

(* [u "..."] is the Python string literal '...' *)
Definition u (s : string) : list Z := Utf8.decode (Utf8.bytes s).

(* [c1 "x"] is the one-character literal 'x' (its code point) *)
Definition c1 (s : string) : Z := hd 0 (u s).

Definition char_eqb (a b : Z) : bool := a =? b.

(* x in collection, for a collection of characters *)
Definition char_in (x : Z) (l : list Z) : bool := existsb (Z.eqb x) l.

Fixpoint str_eqb (a b : list Z) : bool :=
  match a, b with
  | [], [] => true
  | x :: a', y :: b' => (x =? y) && str_eqb a' b'
  | _, _ => false
  end.

(* x in collection, for a collection of strings *)
Definition str_in (x : list Z) (l : list (list Z)) : bool :=
  existsb (str_eqb x) l.

(* bool(s) of a Python string: non-empty *)
Definition truthy (s : list Z) : bool :=
  match s with [] => false | _ => true end.

(* str.isspace() on one character: the Unicode whitespace of CPython *)
Definition is_space (x : Z) : bool :=
  ((0x09 <=? x) && (x <=? 0x0D)) || ((0x1C <=? x) && (x <=? 0x20))
  || (x =? 0x85) || (x =? 0xA0) || (x =? 0x1680)
  || ((0x2000 <=? x) && (x <=? 0x200A))
  || (x =? 0x2028) || (x =? 0x2029) || (x =? 0x202F) || (x =? 0x205F)
  || (x =? 0x3000).

Fixpoint lstrip (s : list Z) : list Z :=
  match s with
  | [] => []
  | x :: s' => if is_space x then lstrip s' else s
  end.

Definition rstrip (s : list Z) : list Z := rev (lstrip (rev s)).

Definition strip (s : list Z) : list Z := rstrip (lstrip s).

Fixpoint startswith (s p : list Z) : bool :=
  match p, s with
  | [], _ => true
  | y :: p', x :: s' => (x =? y) && startswith s' p'
  | _ :: _, [] => false
  end.

Definition endswith (s p : list Z) : bool := startswith (rev s) (rev p).

(* s.startswith(tuple) / s.endswith(tuple) *)
Definition startswith_any (s : list Z) (ps : list (list Z)) : bool :=
  existsb (startswith s) ps.

Definition endswith_any (s : list Z) (ps : list (list Z)) : bool :=
  existsb (endswith s) ps.

(* s.split(sep) for a one-character separator: always at least one piece *)
Fixpoint split (sep : Z) (s : list Z) : list (list Z) :=
  match s with
  | [] => [[]]
  | x :: s' =>
    if x =? sep then [] :: split sep s'
    else match split sep s' with
         | [] => [[x]]
         | p :: ps => (x :: p) :: ps
         end
  end.

(* sep.join(pieces) *)
Fixpoint join (sep : list Z) (ps : list (list Z)) : list Z :=
  match ps with
  | [] => []
  | [p] => p
  | p :: ps' => p ++ sep ++ join sep ps'
  end.

(* a < b for two strings: the comparison of Python, code point by code
   point, a proper prefix being smaller *)
Fixpoint str_ltb (a b : list Z) : bool :=
  match a, b with
  | _, [] => false
  | [], _ :: _ => true
  | x :: a', y :: b' => (x <? y) || ((x =? y) && str_ltb a' b')
  end.

(* list.sort and sorted are stable and compare with < only; the stable
   sort of a list is unique, and is written here by insertion: an element
   goes behind the elements that are smaller, and before the others, which
   it preceded in the list *)
Fixpoint insert_sorted {A : Type} (lt : A -> A -> bool) (x : A) (l : list A) : list A :=
  match l with
  | [] => [x]
  | y :: l' => if lt y x then y :: insert_sorted lt x l' else x :: y :: l'
  end.

Definition stable_sort {A : Type} (lt : A -> A -> bool) (l : list A) : list A :=
  foldr (insert_sorted lt) [] l.

Definition NL : Z := 0x0A.
Definition TAB : Z := 0x09.

(* --------------------------------------------------------------------- *)
(*  furigana_helper.py: character classes                                *)
(* --------------------------------------------------------------------- *)

Definition N4_AND_LOWER_KANJI : list Z := Eval vm_compute in u
  ("一二三四五六七八九十百千万"
   ++ "日月火水木金土年今毎先来何時分半"
   ++ "人男女子学生先友私父母兄姉弟妹家族"
   ++ "本名前国語文字会社話読書見聞言食飲"
   ++ "行来帰入出会休立座歩走作使働買売"
   ++ "大小多少高安低長短新古若明暗白黒"
   ++ "赤青色好悪元気有無便利不正間違"
   ++ "右左上下中外内前後東西南北近遠"
   ++ "山川田町村市駅校店車道門室開閉"
   ++ "天雨雪花草木林森犬猫魚鳥肉米茶"
   ++ "朝昼夜晩午早遅週円度回番方力勉強"
   ++ "思知考教習問答分理解同意味物品者"
   ++ "手足目耳口体頭顔心声電話写真切持"
   ++ "貸借送返起寝着脱洗待取付始終住度")%string.

Definition is_kanji (ch : Z) : bool :=
  ((0x4E00 <=? ch) && (ch <=? 0x9FFF)) || ((0x3400 <=? ch) && (ch <=? 0x4DBF)).

Definition is_n3_plus_kanji (ch : Z) : bool :=
  is_kanji ch && negb (char_in ch N4_AND_LOWER_KANJI).

Definition has_any_n3_plus_kanji (text : list Z) : bool :=
  existsb is_n3_plus_kanji text.

(* --------------------------------------------------------------------- *)
(*  furigana_helper.py: FuriganaGenerator._katakana_to_hiragana          *)
(* --------------------------------------------------------------------- *)

Definition LONG_MARK : Z := Eval vm_compute in c1 "ー".

Definition HIRA_A : Z := Eval vm_compute in c1 "あ".
Definition HIRA_I : Z := Eval vm_compute in c1 "い".
Definition HIRA_U : Z := Eval vm_compute in c1 "う".
Definition HIRA_O : Z := Eval vm_compute in c1 "お".

Definition A_ROW : list Z := Eval vm_compute in u "あかがさざただなはばぱまやらわ".
Definition I_ROW : list Z := Eval vm_compute in u "いきぎしじちぢにひびぴみり".
Definition U_ROW : list Z := Eval vm_compute in u "うくぐすずつづぬふぶぷむゆる".
Definition E_ROW : list Z := Eval vm_compute in u "えけげせぜてでねへべぺめれ".
Definition O_ROW : list Z := Eval vm_compute in u "おこごそぞとどのほぼぽもよろを".
Definition SMALL_Y : list Z := Eval vm_compute in u "ゃゅょ".
Definition SMALL_VOWELS : list Z := Eval vm_compute in u "ぁぃぅぇぉ".

(* the dict literal {'ぁ': 'あ', 'ぃ': 'い', 'ぅ': 'う', 'ぇ': 'い', 'ぉ': 'う'} *)
Definition small_vowel_table : list (Z * Z) := Eval vm_compute in
  [(c1 "ぁ", c1 "あ"); (c1 "ぃ", c1 "い"); (c1 "ぅ", c1 "う");
   (c1 "ぇ", c1 "い"); (c1 "ぉ", c1 "う")].

Fixpoint table_get (k : Z) (t : list (Z * Z)) (dflt : Z) : Z :=
  match t with
  | [] => dflt
  | (k', v) :: t' => if k =? k' then v else table_get k t' dflt
  end.

Definition _get_vowel_for_long_mark (prev_char : Z) : Z :=
  if char_in prev_char A_ROW then HIRA_A
  else if char_in prev_char I_ROW then HIRA_I
  else if char_in prev_char U_ROW then HIRA_U
  else if char_in prev_char E_ROW then HIRA_I
  else if char_in prev_char O_ROW then HIRA_U
  else if char_in prev_char SMALL_Y then HIRA_U
  else if char_in prev_char SMALL_VOWELS
       then table_get prev_char small_vowel_table HIRA_U
  else HIRA_U.

(* the branch of the loop body that is not about the long-vowel mark *)
Definition kana_shift (code : Z) : Z :=
  if (0x30A1 <=? code) && (code <=? 0x30F6) then code - 0x60 else code.

(* One iteration of [for i, char in enumerate(text)]: the character
   appended to [result]. *)
Definition k2h_emit (preserve_long_vowel : bool) (i : nat) (result : list Z)
    (ch : Z) : Z :=
  if ch =? LONG_MARK then
    if preserve_long_vowel then LONG_MARK
    else if (0 <? Z.of_nat i) && truthy result
         then _get_vowel_for_long_mark (List.last result 0)
    else LONG_MARK
  else kana_shift ch.

Fixpoint k2h_loop (preserve_long_vowel : bool) (text : list Z) (i : nat)
    (result : list Z) : list Z :=
  match text with
  | [] => result
  | ch :: rest =>
    k2h_loop preserve_long_vowel rest (S i)
      (result ++ [k2h_emit preserve_long_vowel i result ch])
  end.

Definition _katakana_to_hiragana (text : list Z) (preserve_long_vowel : bool)
    : list Z :=
  k2h_loop preserve_long_vowel text 0 [].

(* The vowel that closes a long syllable, by the vowel row of the kana
   before the mark: あ after the a-row and small ぁ; い after the i-row, the
   e-row and small ぃ ぇ; う after every other character (u-row, o-row,
   small ゃ ゅ ょ ぅ ぉ, and anything that is not one of these kana).
   This is the table in closed form, to be compared with
   [_get_vowel_for_long_mark]. *)
Definition long_vowel_by_row (prev : Z) : Z :=
  if char_in prev (A_ROW ++ [c1 "ぁ"]) then HIRA_A
  else if char_in prev (I_ROW ++ E_ROW ++ [c1 "ぃ"; c1 "ぇ"]) then HIRA_I
  else HIRA_U.

(* every kana named by the vowel table lies in the hiragana block *)
Definition in_hiragana_block (x : Z) : bool := (0x3041 <=? x) && (x <=? 0x3096).

(* --------------------------------------------------------------------- *)
(*  furigana_helper.py: FuriganaGenerator.add_furigana                   *)
(* --------------------------------------------------------------------- *)

(* What one iteration appends to [result]: the bare surface, or the
   f-string <ruby>{surface}<rt>{hiragana_reading}</rt></ruby>. *)
Inductive AnnotatedSpan : Type :=
| Plain (surface : list Z)
| Ruby (surface reading : list Z).

Definition span_text (s : AnnotatedSpan) : list Z :=
  match s with
  | Plain surface => surface
  | Ruby surface reading =>
      u "<ruby>" ++ surface ++ u "<rt>" ++ reading ++ u "</rt></ruby>"
  end.

(* the span with a ruby replaced by its base *)
Definition span_base (s : AnnotatedSpan) : list Z :=
  match s with
  | Plain surface => surface
  | Ruby surface _ => surface
  end.

Definition is_ruby (s : AnnotatedSpan) : bool :=
  match s with Plain _ => false | Ruby _ _ => true end.

Definition EOS : list Z := Eval vm_compute in u "EOS".

(* the lines of the tokenizer output the loop does not skip *)
Definition is_token_line (line : list Z) : bool :=
  negb (str_eqb line EOS || negb (truthy line))
  && negb (length (split TAB line) <? 2)%nat.

Definition surface_of (line : list Z) : list Z := nth 0 (split TAB line) [].
Definition reading_of (line : list Z) : list Z := nth 1 (split TAB line) [].

Definition token_lines (parsed : list Z) : list (list Z) :=
  filter (fun l => is_token_line l = true) (split NL parsed).

Section FuriganaGenerator.

(* self.tagger.parse: the external morphological analyser *)
Variable tagger_parse : list Z -> list Z.
(* self.name_dictionary, self.preserve_long_vowel *)
Variable name_dictionary : gmap (list Z) (list Z).
Variable preserve_long_vowel : bool.

(* The body of [for line in parsed.split('\n')]: [None] when the iteration
   ends in [continue], otherwise the span appended to [result]. *)
Definition annotate_line (filter_n3_plus : bool) (line : list Z)
    : option AnnotatedSpan :=
  if str_eqb line EOS || negb (truthy line) then None
  else
    let parts := split TAB line in
    if (length parts <? 2)%nat then None
    else
      let surface := nth 0 parts [] in
      let has_kanji := existsb is_kanji surface in
      if bool_decide (is_Some (name_dictionary !! surface)) && has_kanji then
        let hiragana_reading := default [] (name_dictionary !! surface) in
        if filter_n3_plus then
          if has_any_n3_plus_kanji surface
          then Some (Ruby surface hiragana_reading)
          else Some (Plain surface)
        else Some (Ruby surface hiragana_reading)
      else if (2 <=? length parts)%nat && truthy (nth 1 parts []) then
        let reading := nth 1 parts [] in
        let hiragana_reading :=
          _katakana_to_hiragana reading preserve_long_vowel in
        if has_kanji then
          if filter_n3_plus then
            if has_any_n3_plus_kanji surface
            then Some (Ruby surface hiragana_reading)
            else Some (Plain surface)
          else Some (Ruby surface hiragana_reading)
        else Some (Plain surface)
      else Some (Plain surface).

(* the list [result] when the loop ends *)
Definition add_furigana_result (text : list Z) (filter_n3_plus : bool)
    : list AnnotatedSpan :=
  omap (annotate_line filter_n3_plus) (split NL (tagger_parse text)).

Definition add_furigana (text : list Z) (filter_n3_plus : bool) : list Z :=
  if negb (truthy text) || negb (truthy (strip text)) then text
  else join [] (map span_text (add_furigana_result text filter_n3_plus)).

(* The spans of the output: the text itself when it is returned at once. *)
Definition annotate (text : list Z) (filter_n3_plus : bool)
    : list AnnotatedSpan :=
  if negb (truthy text) || negb (truthy (strip text)) then [Plain text]
  else add_furigana_result text filter_n3_plus.

(* the test of the early return: the text is empty or blank *)
Definition blank (text : list Z) : bool :=
  negb (truthy text) || negb (truthy (strip text)).

(* the reading a glossed token carries *)
Definition gloss_reading (line : list Z) : list Z :=
  match name_dictionary !! surface_of line with
  | Some r => r
  | None => _katakana_to_hiragana (reading_of line) preserve_long_vowel
  end.

(* a reading is available for the token: from the dictionary or the tokenizer *)
Definition reading_available (line : list Z) : bool :=
  bool_decide (is_Some (name_dictionary !! surface_of line))
  || truthy (reading_of line).

End FuriganaGenerator.

(* The shape of the analyser's output: one line surface TAB reading per
   token, then the line EOS and a final newline. *)
Definition mecab_line (surface reading : list Z) : list Z :=
  surface ++ [TAB] ++ reading.

Definition mecab_output (lines : list (list Z)) : list Z :=
  join [NL] (lines ++ [EOS; []]).

(* --------------------------------------------------------------------- *)
(*  Parsed markup (the BeautifulSoup tree)                               *)
(* --------------------------------------------------------------------- *)

Set Warnings "-register-all".

(* The class of a string of the tree.  Every string is an instance of
   NavigableString or of one of its subclasses; the parser chooses the
   class: Comment, CData, Declaration, Doctype or ProcessingInstruction for
   what is no text, and for text the class that goes with the innermost
   rt, rp, style, script or template element the string is in.  A string
   keeps its class when it is moved. *)
Inductive StringKind : Type :=
| NavigableString
| CData
| Comment
| Declaration
| Doctype
| ProcessingInstruction
| RubyTextString
| RubyParenthesisString
| Stylesheet
| Script
| TemplateString.

#[global] Instance StringKind_eq_dec : EqDecision StringKind.
Proof. solve_decision. Defined.

(* A string with its class, or a Tag with its identity, its name, its
   attributes and its contents.  The identity stands for the Python
   object: the scripts keep references to the tags of the tree, and
   id(tag), while they change the tree.  The tags of a parsed document are
   distinct objects.  The soup itself is a Tag whose contents are the
   top-level nodes.  An attribute that may hold several values (class) is
   held as its values joined by a space, which is how it is written. *)
Inductive Node : Type :=
| Text (kind : StringKind) (s : list Z)
| Tag (id : nat) (name : list Z) (attrs : list (list Z * list Z))
      (children : list Node).

(* a string of the class NavigableString itself: plain text *)
Definition text (s : list Z) : Node := Text NavigableString s.

Definition soup (children : list Node) : Node :=
  Tag 0 (u "[document]") [] children.

(* shorthand for an element without attributes *)
Definition elem (name : string) (children : list Node) : Node :=
  Tag 0 (u name) [] children.

(* id(tag) *)
Definition tag_id (n : Node) : nat :=
  match n with
  | Text _ _ => 0%nat
  | Tag id _ _ _ => id
  end.

(* the identities of the tags at or below the node, in document order *)
Fixpoint tag_ids (n : Node) : list nat :=
  match n with
  | Text _ _ => []
  | Tag id _ _ children => id :: flat_map tag_ids children
  end.

(* A tree written out as a term, as the parser builds it: every tag is an
   object of its own, and is given here its rank in document order as its
   identity. *)
Fixpoint number_from (k : nat) (n : Node) : Node * nat :=
  match n with
  | Text _ _ => (n, k)
  | Tag _ name attrs children =>
    let '(children', k') :=
      (fix go (k : nat) (cs : list Node) : list Node * nat :=
         match cs with
         | [] => ([], k)
         | ch :: cs' =>
           let '(ch', k1) := number_from k ch in
           let '(cs'', k2) := go k1 cs' in
           (ch' :: cs'', k2)
         end) (S k) children in
    (Tag k name attrs children', k')
  end.

(* the tree whose first tag is the [k]-th tag of its document *)
Definition numbered (k : nat) (n : Node) : Node := fst (number_from k n).

Definition number (n : Node) : Node := numbered 0 n.

Definition tag_named (name : list Z) (n : Node) : bool :=
  match n with
  | Text _ _ => false
  | Tag _ name' _ _ => str_eqb name' name
  end.

Definition tag_named_any (names : list (list Z)) (n : Node) : bool :=
  match n with
  | Text _ _ => false
  | Tag _ name' _ _ => str_in name' names
  end.

Definition contents (n : Node) : list Node :=
  match n with
  | Text _ _ => []
  | Tag _ _ _ children => children
  end.

(* element.descendants: every node below the element, in document order *)
Fixpoint descendants (n : Node) : list Node :=
  match n with
  | Text _ _ => []
  | Tag _ _ _ children => flat_map (fun ch => ch :: descendants ch) children
  end.

(* element.find_all(name) and element.find(name) *)
Definition find_all (name : list Z) (n : Node) : list Node :=
  List.filter (tag_named name) (descendants n).

Definition find (name : list Z) (n : Node) : option Node :=
  head (find_all name n).

(* builder.string_containers of the HTML tree builders *)
Definition STRING_CONTAINERS : list (list Z * StringKind) := Eval vm_compute in
  [(u "rt", RubyTextString); (u "rp", RubyParenthesisString);
   (u "style", Stylesheet); (u "script", Script);
   (u "template", TemplateString)].

(* tag.interesting_string_types: the classes of the strings that count as
   the text of a tag of this name *)
Definition interesting_string_types (name : list Z) : list StringKind :=
  match List.find (fun e => str_eqb (fst e) name) STRING_CONTAINERS with
  | Some e => [snd e]
  | None => [NavigableString; CData]
  end.

(* element._all_strings(types=...): the strings at or below the element
   whose class is one of [types], in document order.  The class itself is
   compared, not its ancestors: the text of an rt is no text of the ruby
   around it. *)
Fixpoint all_strings (types : list StringKind) (n : Node) : list (list Z) :=
  match n with
  | Text kind s => if bool_decide (kind ∈ types) then [s] else []
  | Tag _ _ _ children => flat_map (all_strings types) children
  end.

(* element.get_text(): the strings of the interesting classes, joined.  (On
   a string, which the scripts never do, the classes are the default
   ones.) *)
Definition get_text (n : Node) : list Z :=
  match n with
  | Text _ _ => concat (all_strings [NavigableString; CData] n)
  | Tag _ name _ _ => concat (all_strings (interesting_string_types name) n)
  end.

(* ''.join(element.find_all(text=True, recursive=False)): the strings among
   the children, of whatever class *)
Definition own_text (n : Node) : list Z :=
  concat (map (fun ch => match ch with Text _ s => s | Tag _ _ _ _ => [] end)
              (contents n)).

(* str(tag): the serialisation of a node with the formatter minimal.  Text
   is written with & < > replaced by entities, except inside script and
   style; a comment, a CDATA section, a declaration are written between
   their marks, as they are.  The attributes are written in the order of
   their names; a value is quoted with double quotes, or with single
   quotes when it contains a double quote and no single quote.  A void
   element without contents is written <name/>. *)
Definition escape_char (x : Z) : list Z :=
  if x =? c1 "&" then u "&amp;"
  else if x =? c1 "<" then u "&lt;"
  else if x =? c1 ">" then u "&gt;"
  else [x].

Definition escape (s : list Z) : list Z := flat_map escape_char s.

Definition DQUOTE : Z := 0x22.
Definition SQUOTE : Z := 0x27.

Definition quoted_attribute_value (v : list Z) : list Z :=
  if char_in DQUOTE v then
    if char_in SQUOTE v then
      [DQUOTE]
      ++ flat_map (fun x => if x =? DQUOTE then u "&quot;" else [x]) v
      ++ [DQUOTE]
    else [SQUOTE] ++ v ++ [SQUOTE]
  else [DQUOTE] ++ v ++ [DQUOTE].

(* the order of the attributes: sorted(tag.attrs.items()).  The names of
   the attributes of a tag are distinct, so that the values are never
   compared. *)
Definition attr_ltb (a b : list Z * list Z) : bool := str_ltb (fst a) (fst b).

Definition attrs_str (attrs : list (list Z * list Z)) : list Z :=
  flat_map (fun kv => u " " ++ fst kv ++ u "=" ++ quoted_attribute_value (escape (snd kv)))
           (stable_sort attr_ltb attrs).

Definition CDATA_CONTAINING_TAGS : list (list Z) := Eval vm_compute in
  map u ["script"; "style"]%string.

(* string.output_ready(formatter), for a string whose parent is called
   [parent] *)
Definition output_ready (parent : list Z) (kind : StringKind) (s : list Z) : list Z :=
  match kind with
  | Comment => u "<!--" ++ s ++ u "-->"
  | CData => u "<![CDATA[" ++ s ++ u "]]>"
  | ProcessingInstruction => u "<?" ++ s ++ u ">"
  | Declaration => u "<?" ++ s ++ u "?>"
  | Doctype => u "<!DOCTYPE " ++ s ++ u ">" ++ [NL]
  | _ => if str_in parent CDATA_CONTAINING_TAGS then s else escape s
  end.

Definition VOID_ELEMENTS : list (list Z) := Eval vm_compute in
  map u ["area"; "base"; "br"; "col"; "embed"; "hr"; "img"; "input";
         "keygen"; "link"; "menuitem"; "meta"; "param"; "source"; "track";
         "wbr"; "basefont"; "bgsound"; "command"; "frame"; "image";
         "isindex"; "nextid"; "spacer"]%string.

(* the serialisation of a node whose parent is called [parent] *)
Fixpoint decode_in (parent : list Z) (n : Node) : list Z :=
  match n with
  | Text kind s => output_ready parent kind s
  | Tag _ name attrs children =>
    match children with
    | [] =>
      if str_in name VOID_ELEMENTS
      then u "<" ++ name ++ attrs_str attrs ++ u "/>"
      else u "<" ++ name ++ attrs_str attrs ++ u ">" ++ u "</" ++ name ++ u ">"
    | _ =>
      u "<" ++ name ++ attrs_str attrs ++ u ">"
        ++ concat (map (decode_in name) children)
        ++ u "</" ++ name ++ u ">"
    end
  end.

(* str(tag): the parent does not show in the serialisation of a tag *)
Definition decode (n : Node) : list Z := decode_in [] n.

(* --------------------------------------------------------------------- *)
(*  furigana_helper.py: extract_ruby_dictionary                          *)
(* --------------------------------------------------------------------- *)

(* collections.Counter keyed by (base_text, reading): the keys stay in
   the order of their first insertion *)
Definition pair_eqb (a b : list Z * list Z) : bool :=
  str_eqb (fst a) (fst b) && str_eqb (snd a) (snd b).

Fixpoint counter_incr (key : list Z * list Z)
    (frequency : list ((list Z * list Z) * nat)) : list ((list Z * list Z) * nat) :=
  match frequency with
  | [] => [(key, 1%nat)]
  | (k, n) :: rest =>
    if pair_eqb k key then (k, S n) :: rest
    else (k, n) :: counter_incr key rest
  end.

(* The body of [for ruby_tag in soup.find_all('ruby')]: the key counted
   by this iteration, if any. *)
Definition ruby_pair (ruby_tag : Node) : option (list Z * list Z) :=
  match find (u "rt") ruby_tag with
  | None => None
  | Some rt_tag =>
    let base_text := own_text ruby_tag in
    let reading := get_text rt_tag in
    if truthy base_text && truthy reading then Some (base_text, reading)
    else None
  end.

(* the state (ruby_dict, frequency) after one iteration *)
Definition ruby_loop_step
    (st : gmap (list Z) (list Z) * list ((list Z * list Z) * nat))
    (ruby_tag : Node)
    : gmap (list Z) (list Z) * list ((list Z * list Z) * nat) :=
  match ruby_pair ruby_tag with
  | None => st
  | Some (base_text, reading) =>
    (<[base_text := reading]> (fst st), counter_incr (base_text, reading) (snd st))
  end.

(* max(items, key=lambda x: x[1]): the first item with the largest count *)
Fixpoint max_by_count_from (best : list Z * nat) (items : list (list Z * nat))
    : list Z * nat :=
  match items with
  | [] => best
  | x :: rest =>
    if (snd best <? snd x)%nat then max_by_count_from x rest
    else max_by_count_from best rest
  end.

Definition max_by_count (items : list (list Z * nat)) : option (list Z * nat) :=
  match items with
  | [] => None
  | x :: rest => Some (max_by_count_from x rest)
  end.

(* [(reading, count) for (b, reading), count in frequency.items() if b == base_text] *)
Definition readings_for_base (frequency : list ((list Z * list Z) * nat))
    (base_text : list Z) : list (list Z * nat) :=
  map (fun e => (snd (fst e), snd e))
      (List.filter (fun e => str_eqb (fst (fst e)) base_text) frequency).

(* the loop over base_texts; the order of a set's iteration does not show
   in the resulting mapping, every base being assigned once *)
Definition final_dict_of (frequency : list ((list Z * list Z) * nat))
    : gmap (list Z) (list Z) :=
  foldr (fun base_text final_dict =>
           match max_by_count (readings_for_base frequency base_text) with
           | Some most_frequent => <[base_text := fst most_frequent]> final_dict
           | None => final_dict
           end)
        ∅ (map (fun e => fst (fst e)) frequency).

Definition extract_ruby_dictionary (html : Node) : gmap (list Z) (list Z) :=
  let st := foldl ruby_loop_step (∅, []) (find_all (u "ruby") html) in
  final_dict_of (snd st).

(* epub-to-text-furigana.py, pass 1 of process_epub_to_text.  A chapter
   whose content cannot be decoded or parsed raises inside the try block
   and is skipped: it is [None] here. *)
Definition build_name_dictionary (documents : list (option Node))
    : gmap (list Z) (list Z) :=
  foldl (fun name_dictionary item =>
           match item with
           | Some html => extract_ruby_dictionary html ∪ name_dictionary
           | None => name_dictionary
           end)
        ∅ documents.

(* The keys counted in a document, in document order, and how often a key
   occurs among them. *)
Definition ruby_pairs (html : Node) : list (list Z * list Z) :=
  omap ruby_pair (find_all (u "ruby") html).

Definition occurrences (key : list Z * list Z) (pairs : list (list Z * list Z)) : nat :=
  length (List.filter (pair_eqb key) pairs).

(* [a] is first seen before [b] is *)
Definition seen_before (pairs : list (list Z * list Z)) (a b : list Z * list Z) : Prop :=
  exists p1 p2, pairs = p1 ++ a :: p2 /\ ~ In b p1.

(* <ruby>base<rt>reading</rt></ruby>, as the parser gives it: the string in
   the rt is a RubyTextString *)
Definition ruby_node (base reading : list Z) : Node :=
  elem "ruby" [text base; elem "rt" [Text RubyTextString reading]].

(* Counter(pairs): counting the keys one after the other *)
Definition count_all (pairs : list (list Z * list Z)) : list ((list Z * list Z) * nat) :=
  foldl (fun frequency key => counter_incr key frequency) [] pairs.

(* --------------------------------------------------------------------- *)
(*  Positions in the tree                                                *)
(* --------------------------------------------------------------------- *)

(* A position in the tree is the list of child indices from the root.
   The scripts go from a tag to its siblings and to its contents, which is
   done here from its position; a tag the script holds a reference to is
   looked up by its identity, since it moves when the tree is changed. *)

Fixpoint node_at (n : Node) (p : list nat) : option Node :=
  match p with
  | [] => Some n
  | i :: p' =>
    match n with
    | Text _ _ => None
    | Tag _ _ _ children =>
      match children !! i with
      | Some ch => node_at ch p'
      | None => None
      end
    end
  end.

Fixpoint update_at (n : Node) (p : list nat) (new : Node) : Node :=
  match p with
  | [] => new
  | i :: p' =>
    match n with
    | Text _ _ => n
    | Tag id name attrs children =>
      match children !! i with
      | Some ch => Tag id name attrs (<[i := update_at ch p' new]> children)
      | None => n
      end
    end
  end.

(* where the tag with the identity [x] is in the tree, if it is there *)
Fixpoint path_of_id (x : nat) (n : Node) : option (list nat) :=
  match n with
  | Text _ _ => None
  | Tag id _ _ children =>
    if (id =? x)%nat then Some []
    else
      (fix go (i : nat) (cs : list Node) : option (list nat) :=
         match cs with
         | [] => None
         | ch :: cs' =>
           match path_of_id x ch with
           | Some p => Some (i :: p)
           | None => go (S i) cs'
           end
         end) 0%nat children
  end.

(* id(tag) for the tag at the position [p] *)
Definition id_at (root : Node) (p : list nat) : nat :=
  match node_at root p with
  | Some n => tag_id n
  | None => 0%nat
  end.

(* soup.find_all(name), as the list of the tags found: their identities,
   in document order *)
Definition find_all_ids (name : list Z) (n : Node) : list nat :=
  map tag_id (find_all name n).

(* the contents of the parent of the tag at [p], and the index of the tag *)
Definition siblings_at (root : Node) (p : list nat) : list Node * nat :=
  match node_at root (removelast p) with
  | Some parent => (contents parent, List.last p 0%nat)
  | None => ([], 0%nat)
  end.

(* tag.decompose() for every tag of find_all(name) *)
Fixpoint remove_all (name : list Z) (n : Node) : Node :=
  match n with
  | Text _ _ => n
  | Tag id nm attrs children =>
    Tag id nm attrs
      ((fix go (cs : list Node) : list Node :=
          match cs with
          | [] => []
          | ch :: cs' =>
            if tag_named name ch then go cs'
            else remove_all name ch :: go cs'
          end) children)
  end.

(* tag.find(name).extract(): the first tag called [name] in document order,
   whether it lies inside a tag called [block], and the element without
   it *)
Fixpoint pop_first (name block : list Z) (n : Node) : option (Node * bool * Node) :=
  match n with
  | Text _ _ => None
  | Tag id nm attrs children =>
    match
      (fix go (cs : list Node) : option (Node * bool * list Node) :=
         match cs with
         | [] => None
         | ch :: cs' =>
           if tag_named name ch then Some (ch, false, cs')
           else
             match pop_first name block ch with
             | Some (found, inside, ch') =>
                 Some (found, inside || tag_named block ch, ch' :: cs')
             | None =>
               match go cs' with
               | Some (found, inside, cs'') => Some (found, inside, ch :: cs'')
               | None => None
               end
             end
         end) children
    with
    | Some (found, inside, children') =>
        Some (found, inside, Tag id nm attrs children')
    | None => None
    end
  end.

Definition append_child (n : Node) (ch : Node) : Node :=
  match n with
  | Text _ _ => n
  | Tag id nm attrs children => Tag id nm attrs (children ++ [ch])
  end.

(* --------------------------------------------------------------------- *)
(*  extract-ruby-smart.py                                                *)
(* --------------------------------------------------------------------- *)

Module ExtractRubySmart.

(* KANJI_PATTERN.match(c) for one character *)
Definition KANJI_PATTERN (x : Z) : bool :=
  ((0x4E00 <=? x) && (x <=? 0x9FAF)) || ((0x3400 <=? x) && (x <=? 0x4DBF)).

(* the character class of HIRAGANA_PATTERN *)
Definition hiragana_class (x : Z) : bool :=
  ((0x3040 <=? x) && (x <=? 0x309F)) || (x =? 0x30FC).

Fixpoint take_while (p : Z -> bool) (s : list Z) : list Z :=
  match s with
  | [] => []
  | x :: s' => if p x then x :: take_while p s' else []
  end.

(* HIRAGANA_PATTERN.match(s): group(0) of the match, or None *)
Definition HIRAGANA_PATTERN (s : list Z) : option (list Z) :=
  match take_while hiragana_class s with
  | [] => None
  | run => Some run
  end.

Definition REPETITION_MARK : Z := Eval vm_compute in c1 "々".

Definition PARTICLES : list (list Z) := Eval vm_compute in
  map u ["は"; "が"; "を"; "に"; "で"; "と"; "も"; "の"; "へ"; "や";
         "か"; "ね"; "よ"; "わ"; "ば"; "ら"; "ぜ"; "ぞ"; "さ";
         "より"; "から"; "など"; "まで"; "だけ"; "ほど"; "くらい"; "ばかり"]%string.

Definition VALID_OKURIGANA : list (list Z) := Eval vm_compute in
  map u ["しい"; "かい"; "がい"; "さい"; "ない"; "らい"; "ゆい"; "くい"; "ぐい";
         "き"; "け";
         "さ"; "み"; "げ";
         "る"; "く"; "ぐ"; "す"; "つ"; "ぬ"; "ぶ"; "む"; "う";
         "った"; "って"; "んだ"; "んで"; "いた"; "いて"; "いだ"; "いで";
         "した"; "して"; "きた"; "きて";
         "ます"; "ません"; "ました"; "ましょう";
         "れる"; "られる"; "せる"; "させる";
         "ない"; "なかった"; "なく"; "ず";
         "たい"; "たく";
         "こう"; "そう"; "よう"; "まい";
         "える"; "ける"; "せる"; "てる"; "ねる"; "べる"; "める"; "れる"; "げる"; "でる";
         "いる"; "きる"; "じる"; "ちる"; "にる"; "ひる"; "びる"; "みる"; "りる";
         "わる"; "ある"; "うる"; "おる";
         "い"; "き"; "し"; "ち"; "り"; "え"; "れ";
         "め"; "た"; "て"; "だ"; "で"; "せ"; "べ"; "け"; "げ"; "ね";
         "み"; "ひ"; "び"; "ぎ"; "じ"; "ぴ"; "ぢ";
         "る"; "く"; "ぐ"; "す"; "つ"; "ぬ"; "ぶ"; "む"; "う"]%string.

Record WordEntry : Type := mkWordEntry {
  word : list Z;
  reading : list Z;
  source : list Z;
  note : list Z
}.

(* WordEntry(word=base, reading=reading), with the defaults of the class *)
Definition new_entry (base rd : list Z) : WordEntry :=
  mkWordEntry base rd (u "epub") [].

Definition is_all_kanji (text : list Z) : bool :=
  if negb (truthy text) then false
  else forallb (fun ch => KANJI_PATTERN ch || (ch =? REPETITION_MARK)) text.

(* extract_ruby_base(ruby_tag): the pair returned, and the tag as the
   call leaves it: without its rp tags, and with its first rt moved behind
   its other contents.  (An rt that was inside an rp is destroyed with the
   rp; what is appended is then an empty element.) *)
Definition extract_ruby_base (ruby_tag : Node) : (list Z * list Z) * Node :=
  if negb (tag_named (u "ruby") ruby_tag) then (([], []), ruby_tag)
  else
    match pop_first (u "rt") (u "rp") ruby_tag with
    | None => (([], []), ruby_tag)
    | Some (rt, inside_rp, without_rt) =>
      let rd := strip (get_text rt) in
      let without_rp := remove_all (u "rp") without_rt in
      let rt_copy :=
        if inside_rp then Tag (tag_id rt) [] [] [] else remove_all (u "rp") rt in
      let base := strip (get_text without_rp) in
      ((base, rd), append_child without_rp rt_copy)
    end.

(* the same call on the tag at position [p] of the tree *)
Definition extract_ruby_base_at (root : Node) (p : list nat)
    : (list Z * list Z) * Node :=
  match node_at root p with
  | Some ruby_tag =>
    let '(result, ruby_tag') := extract_ruby_base ruby_tag in
    (result, update_at root p ruby_tag')
  | None => (([], []), root)
  end.

(* The while loop of get_next_sibling_ruby over the siblings that follow
   the element; the result is the number of siblings skipped before the
   ruby tag found. *)
Fixpoint next_sibling_ruby (following : list Node) : option nat :=
  match following with
  | [] => None
  | Text _ s :: rest =>
    if truthy s then
      if negb (truthy (strip s)) then option_map S (next_sibling_ruby rest)
      else None
    else None
  | Tag _ name _ _ :: _ => if str_eqb name (u "ruby") then Some 0%nat else None
  end.

Definition get_next_sibling_ruby (root : Node) (p : list nat) : option (list nat) :=
  let '(siblings, i) := siblings_at root p in
  match next_sibling_ruby (drop (S i) siblings) with
  | Some k => Some (removelast p ++ [(S i + k)%nat])
  | None => None
  end.

Definition get_trailing_text (root : Node) (p : list nat) : list Z :=
  let '(siblings, i) := siblings_at root p in
  match siblings !! S i with
  | Some (Text _ s) => s
  | _ => []
  end.

(* id(ruby) in processed_rubies *)
Definition id_in (x : nat) (ids : list nat) : bool :=
  bool_decide (x ∈ ids).

(* HEURISTIC 1, the loop [while True].  Every iteration moves to a later
   sibling, so the number of siblings bounds the number of iterations. *)
Fixpoint compound_merge (fuel : nat) (root : Node) (current_ruby : list nat)
    (base rd : list Z) (processed_rubies : list nat)
    : Node * list nat * (list Z * list Z) * list nat :=
  match fuel with
  | O => (root, current_ruby, (base, rd), processed_rubies)
  | S fuel' =>
    match get_next_sibling_ruby root current_ruby with
    | None => (root, current_ruby, (base, rd), processed_rubies)
    | Some next_ruby =>
      let '((next_base, next_reading), root') := extract_ruby_base_at root next_ruby in
      if is_all_kanji base && is_all_kanji next_base then
        compound_merge fuel' root' next_ruby
          (base ++ next_base) (rd ++ next_reading)
          (id_at root next_ruby :: processed_rubies)
      else (root', current_ruby, (base, rd), processed_rubies)
    end
  end.

(* the loop [for i in range(min(len(candidate), 4), 1, -1)], entered at i *)
Fixpoint longest_match (i : nat) (candidate : list Z) : list Z :=
  match i with
  | O => []
  | S i' =>
    if (i <=? 1)%nat then []
    else
      let sub := take i candidate in
      if str_in sub VALID_OKURIGANA then sub
      else longest_match i' candidate
  end.

Definition VOLITIONAL_STEMS : list Z := Eval vm_compute in u "こそよろ".

(* HEURISTIC 2: [found_suffix] for the base and the text that follows *)
Definition okurigana_suffix (base trailing : list Z) : list Z :=
  match HIRAGANA_PATTERN trailing with
  | None => []
  | Some okurigana =>
    let candidate := take 4 okurigana in
    let found_suffix := longest_match (min (length candidate) 4) candidate in
    if negb (truthy found_suffix) && (1 <=? length candidate)%nat then
      let ch := take 1 candidate in
      if str_in ch VALID_OKURIGANA && negb (str_in ch PARTICLES) then ch
      else if str_eqb ch (u "う") && truthy base
              && char_in (List.last base 0) VOLITIONAL_STEMS
      then ch
      else found_suffix
    else found_suffix
  end.

Fixpoint words_has (base : list Z) (words : list (list Z * WordEntry)) : bool :=
  match words with
  | [] => false
  | (k, _) :: rest => str_eqb k base || words_has base rest
  end.

(* the state of the loop over the ruby tags: the tree, the dictionary
   [words] in insertion order, and the set [processed_rubies] *)
Definition loop_state : Type :=
  Node * list (list Z * WordEntry) * list nat.

(* The body of [for ruby in rubies], for the ruby tag with the identity
   [ruby].  A tag that was destroyed with an rp around it is no longer in
   the tree: extract_ruby_base returns two empty strings for it. *)
Definition ruby_step (st : loop_state) (ruby : nat) : loop_state :=
  let '(root, words, processed_rubies) := st in
  if id_in ruby processed_rubies then st
  else
    match path_of_id ruby root with
    | None => st
    | Some position =>
      let '((base, rd), root1) := extract_ruby_base_at root position in
      if negb (truthy base) || negb (truthy rd) then (root1, words, processed_rubies)
      else if startswith base [REPETITION_MARK] then (root1, words, processed_rubies)
      else
        let processed1 := ruby :: processed_rubies in
        let '(root2, current_ruby, (base2, rd2), processed2) :=
          compound_merge (length (fst (siblings_at root1 position))) root1 position
                         base rd processed1 in
        let trailing := get_trailing_text root2 current_ruby in
        let found_suffix := okurigana_suffix base2 trailing in
        let base3 := if truthy found_suffix then base2 ++ found_suffix else base2 in
        let rd3 := if truthy found_suffix then rd2 ++ found_suffix else rd2 in
        if negb (str_eqb base3 rd3) then
          if negb (words_has base3 words)
          then (root2, words ++ [(base3, new_entry base3 rd3)], processed2)
          else (root2, words, processed2)
        else (root2, words, processed2)
    end.

(* the entries of the returned dictionary, in insertion order *)
Definition extract_words_from_html (html : Node) : list WordEntry :=
  let rubies := find_all_ids (u "ruby") html in
  let '(_, words, _) := foldl ruby_step (html, [], []) rubies in
  map snd words.

End ExtractRubySmart.

(* What okurigana capture may append: an entry of the table of endings of
   one to four characters which, when it is a single character, is not a
   particle. *)
Definition capturable (p : list Z) : Prop :=
  In p ExtractRubySmart.VALID_OKURIGANA
  /\ (1 <= length p <= 4)%nat
  /\ (length p = 1%nat -> ~ In p ExtractRubySmart.PARTICLES).

(* the pair extract_ruby_base returns for a ruby tag *)
Definition ruby_base (ruby_tag : Node) : list Z :=
  fst (fst (ExtractRubySmart.extract_ruby_base ruby_tag)).

Definition ruby_reading (ruby_tag : Node) : list Z :=
  snd (fst (ExtractRubySmart.extract_ruby_base ruby_tag)).

(* a text node made of whitespace only *)
Definition blank_text (n : Node) : bool :=
  match n with
  | Text _ s => truthy s && negb (truthy (strip s))
  | Tag _ _ _ _ => false
  end.

(* A run of siblings that compound merge walks through: each item is the
   whitespace-only text nodes skipped and the ruby tag reached. *)
Definition run_nodes (items : list (list Node * Node)) : list Node :=
  flat_map (fun it => fst it ++ [snd it]) items.

Definition mergeable_item (it : list Node * Node) : bool :=
  forallb blank_text (fst it)
  && tag_named (u "ruby") (snd it)
  && ExtractRubySmart.is_all_kanji (ruby_base (snd it)).

(* get_trailing_text, read off the siblings that follow the element *)
Definition trailing_of (rest : list Node) : list Z :=
  match rest with
  | Text _ s :: _ => s
  | _ => []
  end.

(* base and reading of a run: those of its first ruby tag, then those of
   the ruby tags of its items *)
Definition run_base (first : Node) (items : list (list Node * Node)) : list Z :=
  ruby_base first ++ concat (map (fun it => ruby_base (snd it)) items).

Definition run_reading (first : Node) (items : list (list Node * Node)) : list Z :=
  ruby_reading first ++ concat (map (fun it => ruby_reading (snd it)) items).

(* the items are merged into the base: there is none, or the base is all
   kanji and every item is whitespace and a ruby tag whose base is all
   kanji *)
Definition merged_run (base : list Z) (items : list (list Node * Node)) : bool :=
  match items with
  | [] => true
  | _ => ExtractRubySmart.is_all_kanji base && forallb mergeable_item items
  end.

(* the loop of the compound merge stops at the siblings [rest]: no ruby
   tag follows, whitespace skipped, or the test of the merge fails *)
Definition merge_stops (base : list Z) (rest : list Node) : Prop :=
  match ExtractRubySmart.next_sibling_ruby rest with
  | None => True
  | Some k =>
    exists r, rest !! k = Some r
              /\ ExtractRubySmart.is_all_kanji base
                 && ExtractRubySmart.is_all_kanji (ruby_base r) = false
  end.

(* The tree has a run of ruby tags: the ruby tag [first] is child [i] of
   the element at [parent], where its identity finds it (as it does when
   the tags of the tree are distinct objects), and is followed among its
   siblings by the [items] of the run and then by [rest]. *)
Definition run_at (root : Node) (parent : list nat) (i : nat) (first : Node)
    (items : list (list Node * Node)) (rest : list Node) : Prop :=
  exists (id : nat) (nm : list Z) (at_ : list (list Z * list Z)) (sibs : list Node),
    node_at root parent = Some (Tag id nm at_ sibs)
    /\ sibs !! i = Some first
    /\ tag_named (u "ruby") first = true
    /\ path_of_id (tag_id first) root = Some (parent ++ [i])
    /\ drop (S i) sibs = run_nodes items ++ rest.

(* find_all('ruby') gives the ruby tags of the run first, and then the
   tags [later] *)
Definition run_comes_first (html : Node) (first : Node)
    (items : list (list Node * Node)) (later : list nat) : Prop :=
  find_all_ids (u "ruby") html
  = tag_id first :: map (fun it => tag_id (snd it)) items ++ later.

(* the entry the run gives: base and reading of the run, each with the
   okurigana found in the text that follows the run *)
Definition run_entry (first : Node) (items : list (list Node * Node))
    (rest : list Node) : ExtractRubySmart.WordEntry :=
  let found_suffix :=
    ExtractRubySmart.okurigana_suffix (run_base first items) (trailing_of rest) in
  ExtractRubySmart.new_entry (run_base first items ++ found_suffix)
                             (run_reading first items ++ found_suffix).

(* --------------------------------------------------------------------- *)
(*  extract-all-ruby.py: extract_all_ruby_from_epub                      *)
(* --------------------------------------------------------------------- *)

Module ExtractAllRuby.

Fixpoint pairs_has (kanji : list Z) (all_pairs : list (list Z * list Z)) : bool :=
  match all_pairs with
  | [] => false
  | (k, _) :: rest => str_eqb k kanji || pairs_has kanji rest
  end.

(* The body of [for ruby in soup.find_all('ruby')], for the ruby tag with
   the identity [ruby]; a tag that was destroyed with an rp around it is no
   longer in the tree, and has no rt.  After the two early [continue]s the
   statements are those of extract_ruby_base in extract-ruby-smart.py: the
   rp tags are removed, the rt is taken out, the text is read and the rt
   is appended again. *)
Definition ruby_step (st : Node * list (list Z * list Z)) (ruby : nat)
    : Node * list (list Z * list Z) :=
  let '(root, all_pairs) := st in
  match path_of_id ruby root with
  | None => st
  | Some position =>
    match node_at root position with
    | None => st
    | Some ruby_tag =>
      match find (u "rt") ruby_tag with
      | None => st
      | Some rt =>
        let rd := strip (get_text rt) in
        if negb (truthy rd) then st
        else
          let '((kanji, _), ruby_tag') := ExtractRubySmart.extract_ruby_base ruby_tag in
          let root' := update_at root position ruby_tag' in
          if truthy kanji && truthy rd && negb (str_eqb kanji rd) then
            if negb (pairs_has kanji all_pairs)
            then (root', all_pairs ++ [(kanji, rd)])
            else (root', all_pairs)
          else (root', all_pairs)
      end
    end
  end.

(* the loop over the documents of the book; a document that cannot be
   decoded or parsed ([None]) is skipped *)
Definition extract_all_ruby_from_epub (documents : list (option Node))
    : list (list Z * list Z) :=
  foldl (fun all_pairs item =>
           match item with
           | Some html =>
             snd (foldl ruby_step (html, all_pairs)
                        (find_all_ids (u "ruby") html))
           | None => all_pairs
           end)
        [] documents.

End ExtractAllRuby.

(* the RubyPair invariant *)
Definition ruby_pair_ok (p : list Z * list Z) : Prop :=
  fst p <> snd p /\ snd p <> [].

(* --------------------------------------------------------------------- *)
(*  utils/fix-ruby-newlines.py                                           *)
(* --------------------------------------------------------------------- *)

Module FixRubyNewlines.

(* the character class [一-龯㐀-䶿] *)
Definition kanji_class (x : Z) : bool :=
  ((0x4E00 <=? x) && (x <=? 0x9FAF)) || ((0x3400 <=? x) && (x <=? 0x4DBF)).

Definition hiragana_class (x : Z) : bool := (0x3040 <=? x) && (x <=? 0x309F).

(* In a pattern, $ matches at the end of the string and before a newline
   that ends the string: the string up to where $ may match last. *)
Definition before_final_newline (s : list Z) : list Z :=
  match rev s with
  | x :: r => if x =? NL then rev r else s
  | [] => s
  end.

Definition kanji_1_3 (s : list Z) : bool :=
  (1 <=? length s)%nat && (length s <=? 3)%nat && forallb kanji_class s.

(* KANJI_PATTERN.match(s), for ^[...]{1,3}$ *)
Definition KANJI_PATTERN (s : list Z) : bool :=
  kanji_1_3 s || kanji_1_3 (before_final_newline s).

(* KANJI_START.match(s), HIRAGANA_START.match(s) *)
Definition KANJI_START (s : list Z) : bool :=
  match s with x :: _ => kanji_class x | [] => false end.

Definition HIRAGANA_START (s : list Z) : bool :=
  match s with x :: _ => hiragana_class x | [] => false end.

Definition ends_in_kanji (s : list Z) : bool :=
  match rev s with x :: _ => kanji_class x | [] => false end.

(* KANJI_END.search(s), for [...]$ *)
Definition KANJI_END (s : list Z) : bool :=
  ends_in_kanji s || ends_in_kanji (before_final_newline s).

Definition punctuation : list (list Z) := Eval vm_compute in
  map u ["。"; "、"; "」"; "』"; "）"; ")"; "！"; "？"; "…"; "―"]%string.

Definition sentence_end : list (list Z) := Eval vm_compute in
  map u ["。"; "」"; "』"; "）"; ")"; "！"; "？"]%string.

Definition markers : list (list Z) := Eval vm_compute in
  map u ["<"; ">"; "＜"; "＞"]%string.

Definition markers_rule3 : list (list Z) := Eval vm_compute in
  map u ["<"; ">"; "＜"; "＞"; ">>"]%string.

Definition should_merge_with_next (current_line next_line : list Z) : bool :=
  let current := strip current_line in
  let next_l := strip next_line in
  if negb (truthy current) || negb (truthy next_l) then false
  else if KANJI_PATTERN current
          && (HIRAGANA_START next_l || KANJI_PATTERN next_l) then true
  else if KANJI_PATTERN next_l && negb (endswith_any current punctuation)
          && negb (startswith_any next_l markers) then true
  else if KANJI_END current && HIRAGANA_START next_l
          && negb (startswith_any next_l markers_rule3) then true
  else if negb (endswith_any current sentence_end) && KANJI_PATTERN next_l
          && negb (startswith_any next_l markers) then true
  else if endswith current (u "、") && KANJI_START next_l
          && negb (startswith_any next_l markers) then true
  else false.

Definition should_merge_with_prev (prev_line current_line : list Z) : bool :=
  let prev := strip prev_line in
  let current := strip current_line in
  if negb (truthy prev) || negb (truthy current) then false
  else if KANJI_PATTERN current
          && (truthy prev && negb (endswith_any prev punctuation))
          && negb (startswith_any current markers) then true
  else false.

(* The inner loop [while i + 1 < len(lines) and should_merge_with_next(...)]:
   [following] is lines[i+1:]. *)
Fixpoint merge_forward (current_line : list Z) (following : list (list Z))
    (i : nat) (changed : bool)
    : list Z * list (list Z) * nat * bool :=
  match following with
  | [] => (current_line, [], i, changed)
  | next_line :: following' =>
    if should_merge_with_next current_line next_line
    then merge_forward (rstrip current_line ++ strip next_line) following' (S i) true
    else (current_line, following, i, changed)
  end.

(* result[-1] = x *)
Definition set_last (result : list (list Z)) (x : list Z) : list (list Z) :=
  removelast result ++ [x].

Definition nonempty {A : Type} (l : list A) : bool :=
  match l with [] => false | _ => true end.

(* The loop [while i < len(lines)]: [remaining] is lines[i:].  An
   iteration consumes at least one line, so the number of lines bounds the
   number of iterations. *)
Fixpoint pass_loop (fuel : nat) (i : nat) (remaining : list (list Z))
    (result : list (list Z)) (changed : bool) : list (list Z) * bool :=
  match fuel with
  | O => (result, changed)
  | S fuel' =>
    match remaining with
    | [] => (result, changed)
    | current_line :: following =>
      if (0 <? i)%nat && nonempty result
         && should_merge_with_prev (List.last result []) current_line
      then
        pass_loop fuel' (S i) following
          (set_last result (List.last result [] ++ strip current_line)) true
      else
        let '(current_line', following', i', changed') :=
          merge_forward current_line following i changed in
        pass_loop fuel' (S i') following' (result ++ [current_line']) changed'
    end
  end.

(* one pass: the new lines and the flag [changed] *)
Definition one_pass (lines : list (list Z)) : list (list Z) * bool :=
  pass_loop (length lines) 0 lines [] false.

(* [for _ in range(max_passes)], with the break when nothing changed *)
Fixpoint passes (max_passes : nat) (lines : list (list Z)) : list (list Z) :=
  match max_passes with
  | O => lines
  | S n =>
    let '(result, changed) := one_pass lines in
    if changed then passes n result else result
  end.

Definition repair (lines : list (list Z)) : list (list Z) := passes 5 lines.

Definition fix_ruby_newlines (content : list Z) : list Z :=
  join [NL] (repair (split NL content)).

End FixRubyNewlines.

(* no two adjacent lines are merged by a pass *)
Fixpoint settled (lines : list (list Z)) : bool :=
  match lines with
  | a :: (b :: _) as rest =>
    negb (FixRubyNewlines.should_merge_with_next a b) && settled rest
  | _ => true
  end.

(* the last line of [result] is not merged with the line [x] *)
Definition joint_settled (result : list (list Z)) (x : list Z) : bool :=
  match result with
  | [] => true
  | _ => negb (FixRubyNewlines.should_merge_with_next (List.last result []) x)
  end.

(* a line holds no newline: what str.split gives *)
Definition one_line (l : list Z) : Prop := ~ In NL l.

(* --------------------------------------------------------------------- *)
(*  furigana_helper.py: preserve_existing_ruby                           *)
(* --------------------------------------------------------------------- *)

Definition NON_CONTENT : list (list Z) := Eval vm_compute in
  map u ["nav"; "script"; "style"; "meta"; "link"]%string.

Definition CONTAINERS : list (list Z) := Eval vm_compute in
  map u ["p"; "div"; "span"; "h1"; "h2"; "h3"; "h4"; "h5"; "h6"]%string.

Definition BLOCKS : list (list Z) := Eval vm_compute in
  map u ["p"; "h1"; "h2"; "h3"; "h4"; "h5"; "h6"]%string.

(* element.decompose() for every element of soup.find_all(names) *)
Fixpoint decompose_all (names : list (list Z)) (n : Node) : Node :=
  match n with
  | Text _ _ => n
  | Tag id nm attrs children =>
    Tag id nm attrs
      ((fix go (cs : list Node) : list Node :=
          match cs with
          | [] => []
          | ch :: cs' =>
            if tag_named_any names ch then go cs'
            else decompose_all names ch :: go cs'
          end) children)
  end.

(* img_tag.get('src', '') *)
Fixpoint attr_get (key : list Z) (attrs : list (list Z * list Z)) : list Z :=
  match attrs with
  | [] => []
  | (k, v) :: rest => if str_eqb k key then v else attr_get key rest
  end.

(* str(n) for a natural number *)
Fixpoint decimal_from (fuel n : nat) (acc : list Z) : list Z :=
  match fuel with
  | O => acc
  | S fuel' =>
    let acc' := (0x30 + Z.of_nat (n mod 10)) :: acc in
    if (n <? 10)%nat then acc' else decimal_from fuel' (n / 10) acc'
  end.

Definition decimal (n : nat) : list Z := decimal_from (S n) n [].

(* the placeholder that replaces the image counted [image_counter] *)
Definition image_placeholder (attrs : list (list Z * list Z)) (image_counter : nat)
    : list Z :=
  let img_src := attr_get (u "src") attrs in
  let img_filename :=
    if truthy img_src then List.last (split (c1 "/") img_src) []
    else u "image-" ++ decimal image_counter in
  [NL] ++ u "[IMAGE:" ++ img_filename ++ u "]" ++ [NL].

(* The loop [for img_tag in soup.find_all('img')]: the tree with every img
   replaced by its placeholder text, and the counter after the loop.  An
   img below another img is counted, and replaced in a subtree that is no
   longer part of the tree. *)
Fixpoint replace_images (image_counter : nat) (n : Node) : Node * nat :=
  match n with
  | Text _ _ => (n, image_counter)
  | Tag id nm attrs children =>
    if str_eqb nm (u "img") then
      (text (image_placeholder attrs (S image_counter)),
       (S image_counter + length (find_all (u "img") n))%nat)
    else
      let '(children', k) :=
        (fix go (k : nat) (cs : list Node) : list Node * nat :=
           match cs with
           | [] => ([], k)
           | ch :: cs' =>
             let '(ch', k1) := replace_images k ch in
             let '(cs'', k2) := go k1 cs' in
             (ch' :: cs'', k2)
           end) image_counter children in
      (Tag id nm attrs children', k)
  end.

(* re.sub(r'\n{3,}', '\n\n', text): a run of newlines is written out when
   it ends, as two newlines when it had three or more *)
Definition flush_newlines (pending : nat) : list Z :=
  if (3 <=? pending)%nat then [NL; NL] else repeat NL pending.

Fixpoint collapse_newlines_from (pending : nat) (s : list Z) : list Z :=
  match s with
  | [] => flush_newlines pending
  | x :: s' =>
    if x =? NL then collapse_newlines_from (S pending) s'
    else flush_newlines pending ++ x :: collapse_newlines_from 0 s'
  end.

Definition collapse_newlines (s : list Z) : list Z := collapse_newlines_from 0 s.

Section MarkupWalker.

(* generator.add_furigana *)
Variable generator_add_furigana : list Z -> bool -> list Z.
Variable filter_n3_plus : bool.

(* what the loop body appends to [result] for one child (nothing: the
   empty string) *)
Fixpoint extract_text_with_ruby (element : Node) : list Z :=
  match element with
  | Text _ _ => []
  | Tag _ _ _ children =>
    join []
      (map (fun child =>
              match child with
              | Text _ s =>
                let stripped := strip s in
                if truthy stripped then generator_add_furigana stripped filter_n3_plus
                else []
              | Tag _ name _ _ =>
                if str_eqb name (u "ruby") then decode child
                else if str_eqb name (u "rt") then []
                else if str_in name CONTAINERS then
                  let content := extract_text_with_ruby child in
                  if truthy (strip content) then
                    if str_in name BLOCKS then [NL] ++ content ++ [NL]
                    else content
                  else []
                else if str_eqb name (u "br") then [NL]
                else
                  let content := extract_text_with_ruby child in
                  if truthy (strip content) then content else []
              end)
           children)
  end.

(* the tree the traversal walks: without the non-content elements, the
   images replaced *)
Definition prepared (html : Node) : Node :=
  fst (replace_images 0 (decompose_all NON_CONTENT html)).

Definition preserve_existing_ruby (html : Node) : list Z :=
  let text := extract_text_with_ruby (prepared html) in
  let text := collapse_newlines text in
  strip text.

End MarkupWalker.






(* the preparation keeps the node: it is no non-content element and no
   image *)
Definition kept (d : Node) : bool :=
  negb (tag_named_any (u "img" :: NON_CONTENT) d).


(* What the traversal writes, piece by piece: the serialisation of a ruby
   element, or a string that is no such serialisation. *)
Inductive Piece : Type :=
| Verbatim (r : Node)
| Filler (s : list Z).







(* a filler piece is a line break or a string the annotator returned *)
Definition piece_ok (generator_add_furigana : list Z -> bool -> list Z)
    (filter_n3_plus : bool) (p : Piece) : Prop :=
  match p with
  | Verbatim _ => True
  | Filler s => s = [NL] \/ exists t, s = generator_add_furigana t filter_n3_plus
  end.

(* ===================================================================== *)
(*  Further functions of the scripts                                     *)
(*                                                                       *)
(*    sanitize_filename              (extract-all-ruby.py,               *)
(*                                    epub-to-text-furigana.py,          *)
(*                                    epub-to-text.py)                   *)
(*    clean_existing_ruby_tags       (furigana_helper.py)                *)
(*    scripts/add-furigana-to-text.py                                    *)
(*    scripts/utils/dedupe-rephrase-file.py                              *)
(*    scripts/migrate-ruby-registry.py                                   *)
(*    scripts/extract-ruby-from-epub.py, scripts/epub-to-text.py         *)
(* ===================================================================== *)

(* --------------------------------------------------------------------- *)
(*  sanitize_filename: the same function in the three scripts            *)
(* --------------------------------------------------------------------- *)

Definition SPACE : Z := 0x20.

(* the characters of the class of the first pattern: < > : / \ | ? * and
   the double quote *)
Definition INVALID_FILENAME_CHARS : list Z := Eval vm_compute in
  u "<>:" ++ [DQUOTE] ++ u "/\|?*".

(* re.sub(r'\s+', repl, s): every maximal run of whitespace is replaced by
   [repl]; [in_run] tells that the character before belongs to the run *)
Fixpoint sub_whitespace_runs (repl : list Z) (in_run : bool) (s : list Z) : list Z :=
  match s with
  | [] => []
  | x :: s' =>
    if is_space x
    then (if in_run then [] else repl) ++ sub_whitespace_runs repl true s'
    else x :: sub_whitespace_runs repl false s'
  end.

Definition sanitize_filename (title : list Z) : list Z :=
  let safe := List.filter (fun x => negb (char_in x INVALID_FILENAME_CHARS)) title in
  let safe := sub_whitespace_runs [SPACE] false safe in
  let safe := take 200 (strip safe) in
  if truthy safe then safe else u "untitled".

(* every whitespace character is a single space, and no two of them are
   adjacent; [after_space] tells that the character before is a space *)
Fixpoint single_spaced (after_space : bool) (s : list Z) : bool :=
  match s with
  | [] => true
  | x :: s' =>
    if is_space x then (x =? SPACE) && negb after_space && single_spaced true s'
    else single_spaced false s'
  end.

(* --------------------------------------------------------------------- *)
(*  furigana_helper.py: what _katakana_to_hiragana leaves                *)
(* --------------------------------------------------------------------- *)

(* the test 0x30A1 <= code <= 0x30F6 of the loop: a full-width katakana
   letter *)
Definition full_width_katakana (code : Z) : bool :=
  (0x30A1 <=? code) && (code <=? 0x30F6).

(* --------------------------------------------------------------------- *)
(*  What a text is made of, whitespace and line breaks apart              *)
(* --------------------------------------------------------------------- *)

(* the characters of a string that are not whitespace, in order *)
Definition visible (s : list Z) : list Z :=
  List.filter (fun x => negb (is_space x)) s.

Definition visible_lines (lines : list (list Z)) : list Z :=
  concat (map visible lines).

(* --------------------------------------------------------------------- *)
(*  Runs of line breaks                                                  *)
(* --------------------------------------------------------------------- *)

(* no three line breaks in a row, [run] line breaks coming just before
   the string *)
Fixpoint calm (run : nat) (s : list Z) : bool :=
  match s with
  | [] => true
  | x :: s' =>
    if x =? NL then (run <? 2)%nat && calm (S run) s' else calm 0 s'
  end.

(* --------------------------------------------------------------------- *)
(*  add-furigana-to-text.py                                              *)
(* --------------------------------------------------------------------- *)

(* sub in s, for two strings *)
Fixpoint contains (s sub : list Z) : bool :=
  startswith s sub
  || match s with
     | [] => false
     | _ :: s' => contains s' sub
     end.

Module AddFuriganaToText.

Section Processing.

(* generator.add_furigana *)
Variable generator_add_furigana : list Z -> bool -> list Z.
Variable filter_n3_plus : bool.

Definition add_furigana_to_line (line : list Z) : list Z :=
  if negb (truthy (strip line)) then line
  else if contains line (u "<ruby>") then line
  else generator_add_furigana line filter_n3_plus.

(* re.match on the stripped line, for the pattern of one of the marks < ＜
   followed by any whitespace: group(1) of the match, or None *)
Definition heading_prefix (stripped : list Z) : option (list Z) :=
  match stripped with
  | x :: rest =>
    if (x =? c1 "<") || (x =? c1 "＜")
    then Some (x :: ExtractRubySmart.take_while is_space rest)
    else None
  | [] => None
  end.

(* re.match on the stripped line, for the pattern of >> followed by any
   whitespace *)
Definition subitem_prefix (stripped : list Z) : option (list Z) :=
  if startswith stripped (u ">>")
  then Some (u ">>" ++ ExtractRubySmart.take_while is_space (drop 2 stripped))
  else None.

(* the body of the loop of process_rephrase_format: the line appended to
   result_lines *)
Definition rephrase_line (line : list Z) : list Z :=
  let stripped := strip line in
  if negb (truthy stripped) then line
  else if startswith stripped (u "<") && negb (startswith stripped (u "<ruby>")) then
    match heading_prefix stripped with
    | Some prefix =>
      let content_text := drop (length prefix) stripped in
      prefix ++ add_furigana_to_line content_text
    | None => line
    end
  else if startswith stripped (u ">>") then
    match subitem_prefix stripped with
    | Some prefix =>
      let content_text := drop (length prefix) stripped in
      prefix ++ add_furigana_to_line content_text
    | None => line
    end
  else add_furigana_to_line stripped.

Definition process_rephrase_format (content : list Z) : list Z :=
  join [NL] (map rephrase_line (split NL content)).

(* the body of the loop of process_plain_text *)
Definition plain_line (line : list Z) : list Z :=
  if negb (truthy (strip line)) then line
  else add_furigana_to_line line.

Definition process_plain_text (content : list Z) : list Z :=
  join [NL] (map plain_line (split NL content)).

(* re.search(r'^[<＜](?!ruby>)', content, re.MULTILINE): a line that starts
   with one of the two marks, not followed by ruby> *)
Definition heading_line (line : list Z) : bool :=
  match line with
  | x :: rest =>
    ((x =? c1 "<") || (x =? c1 "＜")) && negb (startswith rest (u "ruby>"))
  | [] => false
  end.

Definition detect_format (content : list Z) : bool :=
  let has_heading := existsb heading_line (split NL content) in
  let has_subitem := contains content (u ">>") in
  has_heading && has_subitem.

(* process_file: the text written, for the text read *)
Definition process_content (content : list Z) : list Z :=
  let is_rephrase := detect_format content in
  if is_rephrase then process_rephrase_format content
  else process_plain_text content.

End Processing.

End AddFuriganaToText.

(* --------------------------------------------------------------------- *)
(*  utils/dedupe-rephrase-file.py                                        *)
(* --------------------------------------------------------------------- *)

(* re.sub(pattern, '', s): [m] gives the length of the match of the
   pattern at the start of a string, if there is one; the text is read
   from left to right and a match is passed over ([skip] characters of it
   are still to pass). *)
Fixpoint remove_matches (m : list Z -> option nat) (skip : nat) (s : list Z)
    : list Z :=
  match s with
  | [] => []
  | x :: s' =>
    match skip with
    | S k => remove_matches m k s'
    | O =>
      match m s with
      | Some (S k) => remove_matches m k s'
      | _ => x :: remove_matches m 0 s'
      end
    end
  end.

Module DedupeRephrase.

(* what the pattern </?(?:ruby|rt|rb)> matches: one of six tags *)
Definition RUBY_MARKUP : list (list Z) := Eval vm_compute in
  map u ["</ruby>"; "</rt>"; "</rb>"; "<ruby>"; "<rt>"; "<rb>"]%string.

Definition match_markup (s : list Z) : option nat :=
  option_map (@length Z) (List.find (startswith s) RUBY_MARKUP).

Definition normalize_header (header : list Z) : list Z :=
  let text := remove_matches match_markup 0 header in
  let text := sub_whitespace_runs [] false text in
  text.

(* a section: the dict with the keys 'header', 'lines' and 'normalized' *)
Record RephraseSection : Type := mkSection {
  header : list Z;
  lines : list (list Z);
  normalized : list Z
}.

Definition PREAMBLE : list Z := Eval vm_compute in u "__PREAMBLE__".

(* section['lines'].append(line) *)
Definition add_line (section : RephraseSection) (line : list Z) : RephraseSection :=
  mkSection (header section) (lines section ++ [line]) (normalized section).

(* the test that opens the loop body, and the test on HTML tags below it *)
Definition section_start (stripped : list Z) : bool :=
  startswith stripped (u "< ")
  || (startswith stripped (u "<") && negb (startswith stripped (u "</"))).

Definition markup_start (stripped : list Z) : bool :=
  startswith stripped (u "<ruby") || startswith stripped (u "<rt")
  || startswith stripped (u "<rb").

(* the section a header line starts *)
Definition new_section (line : list Z) : RephraseSection :=
  let stripped := strip line in
  let header :=
    if startswith stripped (u "< ") then strip (drop 1 stripped)
    else strip (drop 1 stripped) in
  mkSection header [line] (normalize_header header).

(* The body of [for line in lines], on the state (sections,
   current_section).  A section is a dict that is changed in place; the
   current section is not yet in [sections] while lines are added to it. *)
Definition parse_step (st : list RephraseSection * option RephraseSection)
    (line : list Z) : list RephraseSection * option RephraseSection :=
  let '(sections, current_section) := st in
  let stripped := strip line in
  if section_start stripped then
    if markup_start stripped then
      match current_section with
      | Some current => (sections, Some (add_line current line))
      | None => st
      end
    else
      let sections :=
        match current_section with
        | Some current => sections ++ [current]
        | None => sections
        end in
      (sections, Some (new_section line))
  else
    match current_section with
    | Some current => (sections, Some (add_line current line))
    | None =>
      (* if sections or current_section: pass *)
      match sections with
      | _ :: _ => st
      | [] =>
        (* if not sections: ... else: sections[0]['lines'].append(line) *)
        match sections with
        | [] => (sections ++ [mkSection PREAMBLE [line] PREAMBLE], None)
        | first :: others => (add_line first line :: others, None)
        end
      end
    end.

(* the loop over the lines, and the last section added when it ends *)
Definition parse_lines (content_lines : list (list Z)) : list RephraseSection :=
  let '(sections, current_section) := foldl parse_step ([], None) content_lines in
  match current_section with
  | Some current => sections ++ [current]
  | None => sections
  end.

Definition parse_sections (content : list Z) : list RephraseSection :=
  parse_lines (split NL content).

(* the body of [for section in sections], on (seen, unique, removed) *)
Definition dedupe_step
    (st : gset (list Z) * list RephraseSection * list RephraseSection)
    (section : RephraseSection)
    : gset (list Z) * list RephraseSection * list RephraseSection :=
  let '(seen, unique, removed) := st in
  let norm := normalized section in
  if str_eqb norm PREAMBLE then (seen, unique ++ [section], removed)
  else if negb (bool_decide (norm ∈ seen))
       then ({[norm]} ∪ seen, unique ++ [section], removed)
  else (seen, unique, removed ++ [section]).

Definition find_duplicates (sections : list RephraseSection)
    : list RephraseSection * list RephraseSection :=
  let '(_, unique, removed) := foldl dedupe_step (∅, [], []) sections in
  (unique, removed).

Definition sections_to_content (sections : list RephraseSection) : list Z :=
  let all_lines := concat (map lines sections) in
  join [NL] all_lines.

(* check_bookmark_preserved; the bookmark is None or a string *)
Definition check_bookmark_preserved (content : list Z) (bookmark : option (list Z))
    : bool :=
  match bookmark with
  | None => true
  | Some text =>
    if str_eqb text [] then true
    else
      let normalized_bookmark := sub_whitespace_runs [] false text in
      let normalized_content := sub_whitespace_runs [] false content in
      contains normalized_content normalized_bookmark
  end.

(* process_file: the new content, for the content read *)
Definition new_content (content : list Z) : list Z :=
  let sections := parse_sections content in
  let '(unique, removed) := find_duplicates sections in
  sections_to_content unique.

End DedupeRephrase.

(* a header line: a line that starts a section *)
Definition header_line (line : list Z) : bool :=
  DedupeRephrase.section_start (strip line)
  && negb (DedupeRephrase.markup_start (strip line)).

(* The sections a list of lines is cut into, a section being open: a
   header line closes it and opens the next one, any other line is added
   to it. *)
Fixpoint sections_from (current : DedupeRephrase.RephraseSection)
    (content_lines : list (list Z)) : list DedupeRephrase.RephraseSection :=
  match content_lines with
  | [] => [current]
  | line :: rest =>
    if header_line line
    then current :: sections_from (DedupeRephrase.new_section line) rest
    else sections_from (DedupeRephrase.add_line current line) rest
  end.

(* the sections kept and removed, the headers in [seen] being met before *)
Fixpoint first_of_each (seen : gset (list Z))
    (sections : list DedupeRephrase.RephraseSection)
    : list DedupeRephrase.RephraseSection * list DedupeRephrase.RephraseSection :=
  match sections with
  | [] => ([], [])
  | section :: rest =>
    let norm := DedupeRephrase.normalized section in
    if str_eqb norm DedupeRephrase.PREAMBLE then
      let '(unique, removed) := first_of_each seen rest in
      (section :: unique, removed)
    else if negb (bool_decide (norm ∈ seen)) then
      let '(unique, removed) := first_of_each ({[norm]} ∪ seen) rest in
      (section :: unique, removed)
    else
      let '(unique, removed) := first_of_each seen rest in
      (unique, section :: removed)
  end.

(* a section that is not kept as a preamble: its normalized header is not
   the name of the preamble *)
Definition titled (s : DedupeRephrase.RephraseSection) : bool :=
  negb (str_eqb (DedupeRephrase.normalized s) DedupeRephrase.PREAMBLE).

(* The sections a list of lines is cut into, no section being open yet:
   a header line opens the first section; before it, a line that does not
   start a section becomes the preamble when there is no section yet, and
   is passed over otherwise, as is a line that starts with markup. *)
Fixpoint sections_before (sections : list DedupeRephrase.RephraseSection)
    (content_lines : list (list Z)) : list DedupeRephrase.RephraseSection :=
  match content_lines with
  | [] => sections
  | line :: rest =>
    if header_line line
    then sections ++ sections_from (DedupeRephrase.new_section line) rest
    else if DedupeRephrase.section_start (strip line)
    then sections_before sections rest
    else
      match sections with
      | [] =>
        sections_before
          [DedupeRephrase.mkSection DedupeRephrase.PREAMBLE [line]
                                    DedupeRephrase.PREAMBLE] rest
      | _ => sections_before sections rest
      end
  end.

(* the section read from a header line and the lines that follow it *)
Definition section_of (line : list Z) (body : list (list Z))
    : DedupeRephrase.RephraseSection :=
  DedupeRephrase.mkSection
    (DedupeRephrase.header (DedupeRephrase.new_section line))
    (line :: body)
    (DedupeRephrase.normalized (DedupeRephrase.new_section line)).

Definition titled_section (s : DedupeRephrase.RephraseSection) : Prop :=
  exists line body,
    s = section_of line body /\ header_line line = true
    /\ Forall (fun l => header_line l = false) body.

Definition preamble_section (s : DedupeRephrase.RephraseSection) : Prop :=
  exists line,
    s = DedupeRephrase.mkSection DedupeRephrase.PREAMBLE [line]
                                 DedupeRephrase.PREAMBLE
    /\ DedupeRephrase.section_start (strip line) = false.

(* what parse_sections returns: at most one preamble, of one line, and
   then sections that start with their header line *)
Definition parsed_shape (sections : list DedupeRephrase.RephraseSection) : Prop :=
  exists pre titled_sections,
    sections = pre ++ titled_sections
    /\ Forall titled_section titled_sections
    /\ (pre = [] \/ exists s, pre = [s] /\ preamble_section s).

(* At most one line comes before the first header line of the text, and
   that line does not start with <. *)
Definition starts_with_sections (content_lines : list (list Z)) : bool :=
  match content_lines with
  | line :: rest =>
    header_line line
    || (negb (DedupeRephrase.section_start (strip line))
        && match rest with
           | [] => true
           | next :: _ => header_line next
           end)
  | [] => false
  end.

(* the reading a span carries: none for a bare surface *)
Definition span_reading (s : AnnotatedSpan) : list Z :=
  match s with
  | Plain _ => []
  | Ruby _ rd => rd
  end.

Definition LT : Z := Eval vm_compute in c1 "<".
Definition GT : Z := Eval vm_compute in c1 ">".

(* neither the surface nor the reading of the span holds the character < *)
Definition span_without_lt (s : AnnotatedSpan) : Prop :=
  ~ In LT (span_base s) /\ ~ In LT (span_reading s).

(* --------------------------------------------------------------------- *)
(*  Patterns for ruby markup in text                                     *)
(* --------------------------------------------------------------------- *)

(* pattern.finditer(s) and re.sub(pattern, repl, s), for a pattern that
   matches no empty string.  [m] gives the match of the pattern at the
   start of a string, if there is one: its length, and what is kept of it
   (its groups, or the text that replaces it).  The text is read from left
   to right; a match is passed over before the next one is looked for
   ([skip] characters of it are still to pass). *)
Fixpoint find_matches {G : Type} (m : list Z -> option (nat * G)) (skip : nat)
    (s : list Z) : list G :=
  match s with
  | [] => []
  | x :: s' =>
    match skip with
    | S k => find_matches m k s'
    | O =>
      match m s with
      | Some (S k, g) => g :: find_matches m k s'
      | _ => find_matches m 0 s'
      end
    end
  end.

Fixpoint sub_matches (m : list Z -> option (nat * list Z)) (skip : nat)
    (s : list Z) : list Z :=
  match s with
  | [] => []
  | x :: s' =>
    match skip with
    | S k => sub_matches m k s'
    | O =>
      match m s with
      | Some (S k, repl) => repl ++ sub_matches m k s'
      | _ => x :: sub_matches m 0 s'
      end
    end
  end.

(* A lazy .*? before a closing text: the number of characters passed
   before the closing text is first found; the dot matches no line break. *)
Fixpoint lazy_until (closing : list Z) (s : list Z) : option nat :=
  if startswith s closing then Some 0%nat
  else
    match s with
    | [] => None
    | x :: s' => if x =? NL then None else option_map S (lazy_until closing s')
    end.

(* the classes [^<] and [^<>] *)
Definition not_lt (x : Z) : bool := negb (x =? LT).
Definition not_angle (x : Z) : bool := negb ((x =? LT) || (x =? GT)).

(* --------------------------------------------------------------------- *)
(*  furigana_helper.py: clean_existing_ruby_tags                         *)
(* --------------------------------------------------------------------- *)

(* The pattern of an innermost ruby element: <ruby>, a lazy run of
   characters other than < and > (group 1), <rt>, a lazy run of any
   characters, </rt></ruby>.  The run of group 1 can only end where <rt>
   starts, so it is the whole run of such characters. *)
Definition INNERMOST_RUBY (s : list Z) : option (nat * list Z) :=
  if startswith s (u "<ruby>") then
    let after_ruby := drop 6 s in
    let group1 := ExtractRubySmart.take_while not_angle after_ruby in
    let after_base := drop (length group1) after_ruby in
    if startswith after_base (u "<rt>") then
      match lazy_until (u "</rt></ruby>") (drop 4 after_base) with
      | Some k => Some ((6 + length group1 + 4 + k + 12)%nat, group1)
      | None => None
      end
    else None
  else None.

(* the pattern <rp>, a lazy run of any characters, </rp> *)
Definition RP_ELEMENT (s : list Z) : option nat :=
  if startswith s (u "<rp>") then
    match lazy_until (u "</rp>") (drop 4 s) with
    | Some k => Some (4 + k + 5)%nat
    | None => None
    end
  else None.

(* The loop [while len(cleaned) != prev_length].  A substitution never
   makes the text longer, so the loop goes on only while the text gets
   shorter: its length bounds the number of iterations. *)
Fixpoint clean_loop (fuel : nat) (cleaned : list Z) : list Z :=
  match fuel with
  | O => cleaned
  | S fuel' =>
    let prev_length := length cleaned in
    let cleaned := sub_matches INNERMOST_RUBY 0 cleaned in
    if (length cleaned =? prev_length)%nat then cleaned
    else clean_loop fuel' cleaned
  end.

Definition clean_existing_ruby_tags (text : list Z) : list Z :=
  let cleaned := clean_loop (S (length text)) text in
  remove_matches RP_ELEMENT 0 cleaned.

(* a span whose text the patterns read back: no < in a bare surface; no <
   and no > in the base of a ruby, no < and no line break in its reading *)
Definition span_readable (s : AnnotatedSpan) : Prop :=
  match s with
  | Plain surface => ~ In LT surface
  | Ruby surface rd =>
    ~ In LT surface /\ ~ In GT surface /\ ~ In LT rd /\ ~ In NL rd
  end.

(* --------------------------------------------------------------------- *)
(*  migrate-ruby-registry.py                                             *)
(* --------------------------------------------------------------------- *)

Module MigrateRubyRegistry.

(* RUBY_PATTERN: <ruby>, one or more characters other than < (group 1),
   <rt>, one or more characters other than < (group 2), </rt></ruby>.
   Each run is followed by <, so it is the whole run of such characters. *)
Definition RUBY_PATTERN (s : list Z) : option (nat * (list Z * list Z)) :=
  if startswith s (u "<ruby>") then
    let after_ruby := drop 6 s in
    let group1 := ExtractRubySmart.take_while not_lt after_ruby in
    if truthy group1 then
      let after_base := drop (length group1) after_ruby in
      if startswith after_base (u "<rt>") then
        let after_rt := drop 4 after_base in
        let group2 := ExtractRubySmart.take_while not_lt after_rt in
        if truthy group2 then
          if startswith (drop (length group2) after_rt) (u "</rt></ruby>")
          then Some ((6 + length group1 + 4 + length group2 + 12)%nat,
                     (group1, group2))
          else None
        else None
      else None
    else None
  else None.

(* pairs: the dict kanji -> (reading, count), in insertion order *)
Fixpoint pairs_get (kanji : list Z) (pairs : list (list Z * (list Z * nat)))
    : option (list Z * nat) :=
  match pairs with
  | [] => None
  | (k, v) :: rest => if str_eqb k kanji then Some v else pairs_get kanji rest
  end.

Fixpoint pairs_set (kanji : list Z) (v : list Z * nat)
    (pairs : list (list Z * (list Z * nat))) : list (list Z * (list Z * nat)) :=
  match pairs with
  | [] => [(kanji, v)]
  | (k, v0) :: rest =>
    if str_eqb k kanji then (k, v) :: rest else (k, v0) :: pairs_set kanji v rest
  end.

(* the body of [for match in RUBY_PATTERN.finditer(text)] *)
Definition pair_step (pairs : list (list Z * (list Z * nat)))
    (groups : list Z * list Z) : list (list Z * (list Z * nat)) :=
  let kanji := strip (fst groups) in
  let rd := strip (snd groups) in
  if negb (truthy kanji) || negb (truthy rd) then pairs
  else if str_eqb kanji rd then pairs
  else
    match pairs_get kanji pairs with
    | Some (existing_reading, count) =>
      if str_eqb existing_reading rd
      then pairs_set kanji (rd, (count + 1)%nat) pairs
      else pairs
    | None => pairs_set kanji (rd, 1%nat) pairs
    end.

Definition extract_ruby_pairs (text : list Z) : list (list Z * (list Z * nat)) :=
  foldl pair_step [] (find_matches RUBY_PATTERN 0 text).

End MigrateRubyRegistry.

(* the pair of a ruby span *)
Definition span_pair (s : AnnotatedSpan) : option (list Z * list Z) :=
  match s with
  | Plain _ => None
  | Ruby surface rd => Some (surface, rd)
  end.

(* a span RUBY_PATTERN reads back: no < in a bare surface; a base and a
   reading that are not empty and hold no < *)
Definition span_matchable (s : AnnotatedSpan) : Prop :=
  match s with
  | Plain surface => ~ In LT surface
  | Ruby surface rd =>
    surface <> [] /\ rd <> [] /\ ~ In LT surface /\ ~ In LT rd
  end.

(* the pairs the loop of extract_ruby_pairs does not pass over *)
Definition counted_pair (groups : list Z * list Z) : option (list Z * list Z) :=
  let kanji := strip (fst groups) in
  let rd := strip (snd groups) in
  if negb (truthy kanji) || negb (truthy rd) then None
  else if str_eqb kanji rd then None
  else Some (kanji, rd).

(* the reading first given for a base among pairs *)
Definition first_reading (kanji : list Z) (pairs : list (list Z * list Z))
    : option (list Z) :=
  option_map snd (List.find (fun p => str_eqb (fst p) kanji) pairs).

(* --------------------------------------------------------------------- *)
(*  epub-to-text.py: extract_ruby_pairs                                  *)
(* --------------------------------------------------------------------- *)

Module EpubToText.

(* The loop of extract_ruby_pairs has the statements of the loop over the
   ruby tags in extract_all_ruby_from_epub, and starts from an empty
   dictionary: the soup as the loop leaves it, and the pairs in insertion
   order. *)
Definition extract_ruby_pairs (soup : Node) : Node * list (list Z * list Z) :=
  foldl ExtractAllRuby.ruby_step (soup, []) (find_all_ids (u "ruby") soup).

End EpubToText.

(* --------------------------------------------------------------------- *)
(*  extract-ruby-from-epub.py: extract_ruby_from_html                    *)
(* --------------------------------------------------------------------- *)

Module ExtractRubyFromEpub.

Definition kanji_class (x : Z) : bool :=
  ((0x4E00 <=? x) && (x <=? 0x9FAF)) || ((0x3400 <=? x) && (x <=? 0x4DBF)).

Definition hiragana_class (x : Z) : bool := (0x3040 <=? x) && (x <=? 0x309F).
Definition katakana_class (x : Z) : bool := (0x30A0 <=? x) && (x <=? 0x30FF).

(* pattern.match(s) for a pattern ^[class]+$: one or more characters of
   the class up to the end of the string, or up to a line break that ends
   the string *)
Definition whole_run (class : Z -> bool) (s : list Z) : bool :=
  let run (t : list Z) := truthy t && forallb class t in
  run s || run (FixRubyNewlines.before_final_newline s).

Definition HIRAGANA_PATTERN (s : list Z) : bool := whole_run hiragana_class s.
Definition KATAKANA_PATTERN (s : list Z) : bool := whole_run katakana_class s.

(* KANJI_PATTERN.search(s): a run of kanji somewhere in the string *)
Definition KANJI_PATTERN (s : list Z) : bool := existsb kanji_class s.

Definition COMMON_WORDS : list (list Z) := Eval vm_compute in
  map u ["私"; "僕"; "俺"; "彼"; "彼女"; "今日"; "明日"; "昨日"; "今"; "何";
         "言"; "思"; "見"; "聞"; "知"; "行"; "来"; "出"; "入"; "持"; "使";
         "時"; "人"; "事"; "物"; "所"; "方"; "前"; "後"; "上"; "下"; "中";
         "大"; "小"; "新"; "古"; "良"; "悪"; "高"; "低"; "長"; "短";
         "一"; "二"; "三"; "四"; "五"; "六"; "七"; "八"; "九"; "十";
         "百"; "千"; "万"; "億"; "年"; "月"; "日"; "週"; "曜"]%string.

(* the body of [for ruby in soup.find_all('ruby')] *)
Definition ruby_step (st : Node * list (list Z * list Z)) (ruby : nat)
    : Node * list (list Z * list Z) :=
  let '(root, pairs) := st in
  match path_of_id ruby root with
  | None => st
  | Some position =>
    match node_at root position with
    | None => st
    | Some ruby_tag =>
      match find (u "rt") ruby_tag with
      | None => st
      | Some rt =>
        let rd := strip (get_text rt) in
        if negb (truthy rd) then st
        else
          let '((kanji, _), ruby_tag') := ExtractRubySmart.extract_ruby_base ruby_tag in
          let root' := update_at root position ruby_tag' in
          if negb (truthy kanji) || negb (truthy rd) || str_eqb kanji rd
          then (root', pairs)
          else if (length kanji =? 1)%nat then (root', pairs)
          else if HIRAGANA_PATTERN kanji then (root', pairs)
          else if KATAKANA_PATTERN kanji then (root', pairs)
          else if negb (KANJI_PATTERN kanji) then (root', pairs)
          else if str_in kanji COMMON_WORDS then (root', pairs)
          else if negb (ExtractAllRuby.pairs_has kanji pairs)
          then (root', pairs ++ [(kanji, rd)])
          else (root', pairs)
      end
    end
  end.

Definition extract_ruby_from_html (html : Node) : list (list Z * list Z) :=
  snd (foldl ruby_step (html, []) (find_all_ids (u "ruby") html)).

End ExtractRubyFromEpub.

(* the tests of extract_ruby_from_html on the base alone *)
Definition registry_word (kanji : list Z) : bool :=
  negb (length kanji =? 1)%nat
  && negb (ExtractRubyFromEpub.HIRAGANA_PATTERN kanji)
  && negb (ExtractRubyFromEpub.KATAKANA_PATTERN kanji)
  && ExtractRubyFromEpub.KANJI_PATTERN kanji
  && negb (str_in kanji ExtractRubyFromEpub.COMMON_WORDS).

(* --------------------------------------------------------------------- *)
(*  extract-ruby-smart.py: the entries of the dictionary                 *)
(* --------------------------------------------------------------------- *)

(* what holds of every entry of the dictionary of words *)
Definition entry_ok (e : ExtractRubySmart.WordEntry) : Prop :=
  ExtractRubySmart.word e <> []
  /\ ExtractRubySmart.reading e <> []
  /\ ExtractRubySmart.word e <> ExtractRubySmart.reading e
  /\ head (ExtractRubySmart.word e) <> Some ExtractRubySmart.REPETITION_MARK
  /\ ExtractRubySmart.source e = u "epub"
  /\ ExtractRubySmart.note e = [].

(* the dictionary during the loop: every key is the word of its entry,
   every entry is as it should be, and no key is there twice *)
Definition words_ok (words : list (list Z * ExtractRubySmart.WordEntry)) : Prop :=
  Forall (fun p => fst p = ExtractRubySmart.word (snd p) /\ entry_ok (snd p)) words
  /\ NoDup (map fst words).

(* --------------------------------------------------------------------- *)
(*  extract-all-ruby.py: update_registry                                 *)
(* --------------------------------------------------------------------- *)

Module UpdateRegistry.

(* an entry of ruby-registry.json *)
Record RegistryEntry : Type := mkRegistryEntry {
  kanji : list Z;
  reading : list Z;
  source : list Z;
  note : list Z
}.

(* the registry; what a suggestion is does not matter here *)
Record Registry (Suggestion : Type) : Type := mkRegistry {
  bookTitle : list Z;
  entries : list RegistryEntry;
  suggestions : list Suggestion
}.

Arguments mkRegistry {Suggestion} _ _ _.
Arguments bookTitle {Suggestion} _.
Arguments entries {Suggestion} _.
Arguments suggestions {Suggestion} _.

(* the order of the tuples (kanji, reading) *)
Definition item_ltb (p q : list Z * list Z) : bool :=
  str_ltb (fst p) (fst q) || (str_eqb (fst p) (fst q) && str_ltb (snd p) (snd q)).

(* key=lambda x: x['kanji'] *)
Definition kanji_ltb (e1 e2 : RegistryEntry) : bool :=
  str_ltb (kanji e1) (kanji e2).

(* the body of [for kanji, reading in sorted(pairs.items())] *)
Definition new_entry_step (existing_kanji : gset (list Z))
    (new_entries : list RegistryEntry) (item : list Z * list Z)
    : list RegistryEntry :=
  let '(kanji, reading) := item in
  if negb (bool_decide (kanji ∈ existing_kanji))
  then new_entries ++ [mkRegistryEntry kanji reading (u "epub") []]
  else new_entries.

(* [registry_file] is the registry read from ruby-registry.json, if the
   file exists.  The result is the registry written to the file, and the
   pair of numbers returned. *)
Definition update_registry {Suggestion : Type}
    (registry_file : option (Registry Suggestion))
    (pairs : list (list Z * list Z)) (book_title : list Z)
    : Registry Suggestion * (nat * nat) :=
  let registry :=
    match registry_file with
    | Some registry => registry
    | None => mkRegistry book_title [] []
    end in
  let existing_kanji : gset (list Z) := list_to_set (map kanji (entries registry)) in
  let new_entries :=
    foldl (new_entry_step existing_kanji) [] (stable_sort item_ltb pairs) in
  let entries' := stable_sort kanji_ltb (entries registry ++ new_entries) in
  (mkRegistry (bookTitle registry) entries' (suggestions registry),
   (length new_entries, length entries')).

End UpdateRegistry.

(* the entry update_registry makes of a pair whose kanji is not in the
   registry *)
Definition entry_of_item (old : list UpdateRegistry.RegistryEntry)
    (item : list Z * list Z) : option UpdateRegistry.RegistryEntry :=
  if bool_decide (fst item ∈ map UpdateRegistry.kanji old) then None
  else Some (UpdateRegistry.mkRegistryEntry (fst item) (snd item) (u "epub") []).

(* ascending: no element is smaller than the one before it *)
Fixpoint ascending {A : Type} (lt : A -> A -> bool) (l : list A) : bool :=
  match l with
  | [] => true
  | x :: l' =>
    match l' with
    | [] => true
    | y :: _ => negb (lt y x)
    end && ascending lt l'
  end.

(* --------------------------------------------------------------------- *)
(*  migrate-ruby-registry.py: filter_entries                             *)
(* --------------------------------------------------------------------- *)

(* str(n) for a number that is not negative *)
Fixpoint uint_str (d : Decimal.uint) : list Z :=
  match d with
  | Decimal.Nil => []
  | Decimal.D0 d' => 0x30 :: uint_str d'
  | Decimal.D1 d' => 0x31 :: uint_str d'
  | Decimal.D2 d' => 0x32 :: uint_str d'
  | Decimal.D3 d' => 0x33 :: uint_str d'
  | Decimal.D4 d' => 0x34 :: uint_str d'
  | Decimal.D5 d' => 0x35 :: uint_str d'
  | Decimal.D6 d' => 0x36 :: uint_str d'
  | Decimal.D7 d' => 0x37 :: uint_str d'
  | Decimal.D8 d' => 0x38 :: uint_str d'
  | Decimal.D9 d' => 0x39 :: uint_str d'
  end.

Definition str_of_nat (n : nat) : list Z := uint_str (Nat.to_uint n).

Module MigrateFilter.

Definition COMMON_SINGLE_KANJI : list (list Z) := Eval vm_compute in
  map u ["私"; "僕"; "俺"; "彼"; "今"; "何"; "時"; "人"; "事"; "物";
         "所"; "方"; "前"; "後"; "上"; "下"; "中"; "大"; "小"; "新";
         "古"; "良"; "悪"; "高"; "低"; "長"; "短"; "日"; "月"; "年";
         "言"; "思"; "見"; "聞"; "知"; "行"; "来"; "出"; "入"; "持";
         "一"; "二"; "三"; "四"; "五"; "六"; "七"; "八"; "九"; "十"]%string.

Definition COMMON_WORDS : list (list Z) := Eval vm_compute in
  map u ["本書"; "発刊"; "刊行"; "出版"; "株式"; "会社"; "研究"; "最後";
         "感謝"; "平成"; "令和"; "昭和"; "大正"; "明治"]%string.

(* the body of [for kanji, (reading, count) in pairs.items()] *)
Definition filter_step (min_occurrences : Z)
    (entries : list UpdateRegistry.RegistryEntry)
    (item : list Z * (list Z * nat)) : list UpdateRegistry.RegistryEntry :=
  let '(kanji, (reading, count)) := item in
  if (length kanji =? 1)%nat && str_in kanji COMMON_SINGLE_KANJI then entries
  else if str_in kanji COMMON_WORDS then entries
  else if Z.of_nat count <? min_occurrences then entries
  else entries ++ [UpdateRegistry.mkRegistryEntry kanji reading (u "text")
                     (if (1 <? count)%nat
                      then u "(" ++ str_of_nat count ++ u "x)"
                      else [])].

Definition filter_entries (pairs : list (list Z * (list Z * nat)))
    (min_occurrences : Z) : list UpdateRegistry.RegistryEntry :=
  stable_sort UpdateRegistry.kanji_ltb (foldl (filter_step min_occurrences) [] pairs).

End MigrateFilter.

(* the entry filter_entries makes of a pair that is not a common word *)
Definition entry_of_pair (item : list Z * (list Z * nat))
    : option UpdateRegistry.RegistryEntry :=
  let '(kanji, (reading, count)) := item in
  if ((length kanji =? 1)%nat && str_in kanji MigrateFilter.COMMON_SINGLE_KANJI)
     || str_in kanji MigrateFilter.COMMON_WORDS
  then None
  else Some (UpdateRegistry.mkRegistryEntry kanji reading (u "text")
               (if (1 <? count)%nat
                then u "(" ++ str_of_nat count ++ u "x)"
                else [])).
(* ===================================================================== *)
(*  Generic facts about the string primitives                            *)
(* ===================================================================== *)

Section StringFacts.

Lemma char_in_true (x : Z) (l : list Z) : char_in x l = true <-> In x l.
  Proof.
    unfold char_in. rewrite existsb_exists. split.
    - intros (y & Hy & E). apply Z.eqb_eq in E. now subst.
    - intros H. exists x. split; [exact H | apply Z.eqb_refl].
  Qed.

Lemma char_in_app (x : Z) (l1 l2 : list Z) :
    char_in x (l1 ++ l2) = char_in x l1 || char_in x l2.
  Proof. unfold char_in. apply existsb_app. Qed.

Lemma str_eqb_eq (a b : list Z) : str_eqb a b = true <-> a = b.
  Proof.
    revert b. induction a as [|x a IH]; intros [|y b]; simpl; split;
      try congruence; try reflexivity.
    - intros H. apply andb_true_iff in H as [H1 H2].
      apply Z.eqb_eq in H1. apply IH in H2. now subst.
    - intros H. injection H as -> ->. rewrite Z.eqb_refl. simpl. now apply IH.
  Qed.

Lemma str_eqb_refl (a : list Z) : str_eqb a a = true.
  Proof. now apply str_eqb_eq. Qed.

Lemma str_in_true (x : list Z) (l : list (list Z)) :
    str_in x l = true <-> In x l.
  Proof.
    unfold str_in. rewrite existsb_exists. split.
    - intros (y & Hy & E). apply str_eqb_eq in E. now subst.
    - intros H. exists x. split; [exact H | apply str_eqb_refl].
  Qed.

  (* A boolean property checked on every code point of an interval holds
     on the interval. *)
Lemma forallb_seqZ (P : Z -> bool) (lo len : Z) :
    forallb P (seqZ lo len) = true ->
    forall x, lo <= x < lo + len -> P x = true.
  Proof.
    intros H x Hx. rewrite forallb_forall in H. apply H.
    apply list_elem_of_In, elem_of_seqZ. lia.
  Qed.

  (* Membership in a table all of whose entries satisfy [Q]. *)
Lemma char_in_forallb (Q : Z -> bool) (l : list Z) (x : Z) :
    forallb Q l = true -> char_in x l = true -> Q x = true.
  Proof.
    intros H Hin. rewrite forallb_forall in H. apply H. now apply char_in_true.
  Qed.

End StringFacts.

(* ===================================================================== *)
(*  ReadingConverter                                                     *)
(* ===================================================================== *)

Example k2h_shiyo : _katakana_to_hiragana (u "シヨー") false = u "しよう".
Proof. vm_compute. reflexivity. Qed.

Example k2h_shi : _katakana_to_hiragana (u "シー") false = u "しい".
Proof. vm_compute. reflexivity. Qed.

Example k2h_keep : _katakana_to_hiragana (u "シー") true = u "しー".
Proof. vm_compute. reflexivity. Qed.

Section ReadingConverter.

Lemma vowel_table_agrees_in_block (x : Z) :
  0x3041 <= x < 0x3041 + 86 ->
  (_get_vowel_for_long_mark x =? long_vowel_by_row x) = true.
Proof.
  apply (forallb_seqZ (fun x => _get_vowel_for_long_mark x =? long_vowel_by_row x)).
  vm_compute. reflexivity.
Qed.

Lemma row_tables_in_block :
  forallb in_hiragana_block
    (A_ROW ++ I_ROW ++ U_ROW ++ E_ROW ++ O_ROW ++ SMALL_Y ++ SMALL_VOWELS)
  = true.
Proof. vm_compute. reflexivity. Qed.

Lemma outside_block_not_in_rows (x : Z) (l : list Z) :
  in_hiragana_block x = false ->
  (forall y, In y l ->
     In y (A_ROW ++ I_ROW ++ U_ROW ++ E_ROW ++ O_ROW ++ SMALL_Y ++ SMALL_VOWELS)) ->
  char_in x l = false.
Proof.
  intros Hx Hl. destruct (char_in x l) eqn:E; [|reflexivity].
  apply char_in_true in E. apply Hl in E.
  pose proof row_tables_in_block as H. rewrite forallb_forall in H.
  apply H in E. congruence.
Qed.

(* The code's chain of membership tests computes the closed-form table. *)
Lemma get_vowel_by_row (prev : Z) :
  _get_vowel_for_long_mark prev = long_vowel_by_row prev.
Proof.
  destruct (in_hiragana_block prev) eqn:B.
  - apply Z.eqb_eq, vowel_table_agrees_in_block.
    unfold in_hiragana_block in B. lia.
  - unfold _get_vowel_for_long_mark, long_vowel_by_row.
    rewrite !char_in_app.
    rewrite !(outside_block_not_in_rows prev) by
      (try exact B; intros y Hy; rewrite !in_app_iff; tauto).
    assert (char_in prev [c1 "ぁ"] = false) as ->.
    { apply outside_block_not_in_rows; [exact B|].
      intros y Hy. vm_compute in Hy. destruct Hy as [<-|[]]. vm_compute. tauto. }
    assert (char_in prev [c1 "ぃ"; c1 "ぇ"] = false) as ->.
    { apply outside_block_not_in_rows; [exact B|].
      intros y Hy. vm_compute in Hy. destruct Hy as [<-|[<-|[]]]; vm_compute; tauto. }
    reflexivity.
Qed.

(* The loop appends exactly one character per input character, and the
   character written at position k only depends on the k characters
   written before it. *)
Lemma k2h_loop_spec (p : bool) (text : list Z) :
  forall result : list Z,
    let out := k2h_loop p text (length result) result in
    length out = (length result + length text)%nat /\
    take (length result) out = result /\
    forall (j : nat) (ch : Z), text !! j = Some ch ->
      out !! (length result + j)%nat
      = Some (k2h_emit p (length result + j) (take (length result + j) out) ch).
Proof.
  induction text as [|ch0 rest IH]; intros result out.
  - subst out. simpl. repeat split.
    + lia.
    + apply firstn_all.
    + intros j ch H. destruct j; discriminate.
  - subst out. simpl.
    set (r' := result ++ [k2h_emit p (length result) result ch0]).
    assert (Hlen : length r' = S (length result)).
    { subst r'. rewrite length_app. simpl. lia. }
    specialize (IH r'). cbv zeta in IH. rewrite Hlen in IH.
    destruct IH as (L & T & E).
    assert (Tr : take (length result) (k2h_loop p rest (S (length result)) r') = result).
    { replace (length result) with (min (length result) (S (length result))) at 1 by lia.
      rewrite <- take_take. rewrite T. subst r'. rewrite take_app_length. reflexivity. }
    repeat split.
    + rewrite L. simpl. lia.
    + exact Tr.
    + intros [|j] ch H.
      * simpl in H. injection H as <-.
        rewrite Nat.add_0_r. rewrite Tr.
        rewrite <- (lookup_take_lt _ (S (length result))) by lia.
        rewrite T. subst r'. rewrite lookup_app_r by lia.
        rewrite Nat.sub_diag. reflexivity.
      * simpl in H. specialize (E j ch H).
        replace (length result + S j)%nat with (S (length result) + j)%nat by lia.
        exact E.
Qed.

Lemma k2h_positions (p : bool) (text : list Z) :
  let out := _katakana_to_hiragana text p in
  length out = length text /\
  forall (j : nat) (ch : Z), text !! j = Some ch ->
    out !! j = Some (k2h_emit p j (take j out) ch).
Proof.
  pose proof (k2h_loop_spec p text []) as H. cbv zeta in H. simpl in H.
  destruct H as (L & _ & E). split; [exact L | exact E].
Qed.

Lemma last_take_S (l : list Z) (i : nat) (x : Z) :
  l !! i = Some x -> List.last (take (S i) l) 0 = x /\ truthy (take (S i) l) = true.
Proof.
  intros H. rewrite (take_S_r _ _ _ H). split.
  - apply last_last.
  - destruct (take i l); reflexivity.
Qed.

(** C2 (as amended).  For every reading, [_katakana_to_hiragana] writes one
    character per input character.  A character other than the long-vowel
    mark is shifted from katakana to hiragana (or copied).  With
    [preserve_long_vowel] set, every long-vowel mark is copied.  Without it, a
    mark in first position is kept as the mark itself, and a mark in a later
    position becomes the vowel that the row table gives for the character
    written just before it: あ after the a-row and ぁ, い after the i-row, the
    e-row, ぃ and ぇ, and う after everything else (u-row, o-row, ゃ ゅ ょ, ぅ, ぉ
    and characters that are in no row). *)
Theorem katakana_to_hiragana_long_vowel (text : list Z) :
  let out := _katakana_to_hiragana text false in
  let kept := _katakana_to_hiragana text true in
  length out = length text /\ length kept = length text /\
  (forall (i : nat) (ch : Z), text !! i = Some ch -> ch <> LONG_MARK ->
     out !! i = Some (kana_shift ch) /\ kept !! i = Some (kana_shift ch)) /\
  (forall i : nat, text !! i = Some LONG_MARK -> kept !! i = Some LONG_MARK) /\
  (text !! 0%nat = Some LONG_MARK -> out !! 0%nat = Some LONG_MARK) /\
  (forall (i : nat) (prev : Z),
     text !! S i = Some LONG_MARK -> out !! i = Some prev ->
     out !! S i = Some (long_vowel_by_row prev)).
Proof.
  intros out kept.
  destruct (k2h_positions false text) as (Lo & Eo).
  destruct (k2h_positions true text) as (Lk & Ek).
  fold out in Lo, Eo. fold kept in Lk, Ek.
  split; [exact Lo|]. split; [exact Lk|]. split; [|split; [|split]].
  - intros i ch H Hne. rewrite (Eo i ch H), (Ek i ch H).
    unfold k2h_emit. apply Z.eqb_neq in Hne. rewrite Hne. split; reflexivity.
  - intros i H. rewrite (Ek i _ H). unfold k2h_emit.
    rewrite Z.eqb_refl. reflexivity.
  - intros H. rewrite (Eo 0%nat _ H). reflexivity.
  - intros i prev H Hp. rewrite (Eo (S i) _ H). unfold k2h_emit.
    rewrite Z.eqb_refl.
    destruct (last_take_S out i prev Hp) as (-> & ->).
    replace (0 <? Z.of_nat (S i)) with true by (symmetry; apply Z.ltb_lt; lia).
    simpl. rewrite get_vowel_by_row. reflexivity.
Qed.

(* The theorem at the reading フォーム: the mark follows ぉ and becomes う. *)
Lemma katakana_to_hiragana_long_vowel_witness :
  _katakana_to_hiragana (u "フォーム") false !! 2%nat = Some (c1 "う").
Proof.
  destruct (katakana_to_hiragana_long_vowel (u "フォーム"))
    as (_ & _ & _ & _ & _ & H).
  apply (H 1%nat (c1 "ぉ")); vm_compute; reflexivity.
Defined.

(* Counterexample to C2 as stated: a long-vowel mark with no character before it
    is kept (the claim says う), and after small ぉ the mark becomes う (the
    claim says the same vowel, お). *)
Lemma long_vowel_claim_counterexample :
  (_katakana_to_hiragana (u "ーカ") false = u "ーか"
   /\ u "ーか" <> u "うか")
  /\ (_katakana_to_hiragana (u "フォー") false = u "ふぉう"
      /\ u "ふぉう" <> u "ふぉお").
Proof.
  repeat split; try (vm_compute; reflexivity); vm_compute; discriminate.
Qed.

End ReadingConverter.

(* ===================================================================== *)
(*  FuriganaAnnotator                                                    *)
(* ===================================================================== *)

Example add_furigana_kanzaki :
  add_furigana
    (fun _ => mecab_output [mecab_line (u "神崎") (u "カンザキ"); mecab_line (u "は") (u "ハ")])
    ∅ false (u "神崎は") false
  = u "<ruby>神崎<rt>かんざき</rt></ruby>は".
Proof. vm_compute. reflexivity. Qed.

Example add_furigana_dictionary_first :
  add_furigana
    (fun _ => mecab_output [mecab_line (u "神崎") (u "カンザキ")])
    {[ u "神崎" := u "こうざき" ]} false (u "神崎") false
  = u "<ruby>神崎<rt>こうざき</rt></ruby>".
Proof. vm_compute. reflexivity. Qed.

Lemma join_nil_concat (ps : list (list Z)) : join [] ps = concat ps.
Proof.
  induction ps as [|p ps IH]; [reflexivity|].
  simpl. destruct ps as [|q ps'].
  - simpl. now rewrite app_nil_r.
  - rewrite IH. reflexivity.
Qed.

Section AnnotatorFacts.

Variable tagger_parse : list Z -> list Z.
Variable name_dictionary : gmap (list Z) (list Z).
Variable preserve_long_vowel : bool.

Local Abbreviation annotate_line' := (annotate_line name_dictionary preserve_long_vowel).
Local Abbreviation annotate' := (annotate tagger_parse name_dictionary preserve_long_vowel).
Local Abbreviation add_furigana' := (add_furigana tagger_parse name_dictionary preserve_long_vowel).

(* A line the loop skips appends nothing. *)
Lemma annotate_line_skipped (f : bool) (line : list Z) :
  is_token_line line = false -> annotate_line' f line = None.
Proof.
  unfold is_token_line, annotate_line.
  destruct (str_eqb line EOS || negb (truthy line)); [reflexivity|].
  simpl. destruct (length (split TAB line) <? 2)%nat; [reflexivity|discriminate].
Qed.

(* A token line appends exactly one span, and its base is the surface. *)
Lemma annotate_line_token (f : bool) (line : list Z) :
  is_token_line line = true ->
  exists s, annotate_line' f line = Some s /\ span_base s = surface_of line.
Proof.
  unfold is_token_line, annotate_line, surface_of.
  destruct (str_eqb line EOS || negb (truthy line)); [discriminate|].
  simpl. destruct (length (split TAB line) <? 2)%nat; [discriminate|].
  intros _.
  repeat match goal with
  | |- context [if ?b then _ else _] => destruct b
  end; eexists; split; reflexivity.
Qed.

Lemma result_bases (f : bool) (lines : list (list Z)) :
  map span_base (omap (annotate_line' f) lines)
  = map surface_of (filter (fun l => is_token_line l = true) lines).
Proof.
  induction lines as [|l lines IH]; [reflexivity|].
  rewrite filter_cons. simpl. destruct (is_token_line l) eqn:T.
  - destruct (annotate_line_token f l T) as (s & -> & B).
    rewrite decide_True by reflexivity. simpl. rewrite B. f_equal. exact IH.
  - rewrite (annotate_line_skipped f l T).
    rewrite decide_False by discriminate. exact IH.
Qed.

(* The span of a token line whose reading field is empty. *)
Lemma annotate_line_no_reading (f : bool) (line : list Z) :
  is_token_line line = true -> reading_of line = [] ->
  annotate_line' f line =
    Some (if bool_decide (is_Some (name_dictionary !! surface_of line))
             && existsb is_kanji (surface_of line)
             && (negb f || has_any_n3_plus_kanji (surface_of line))
          then Ruby (surface_of line)
                 (default [] (name_dictionary !! surface_of line))
          else Plain (surface_of line)).
Proof.
  unfold is_token_line, annotate_line, surface_of, reading_of.
  destruct (str_eqb line EOS || negb (truthy line)); [discriminate|].
  simpl. destruct (length (split TAB line) <? 2)%nat; [discriminate|].
  intros _ ->. simpl. rewrite andb_false_r.
  destruct (bool_decide _ && existsb _ _); simpl; [|reflexivity].
  destruct f; simpl; [|reflexivity].
  destruct (has_any_n3_plus_kanji _); reflexivity.
Qed.

Lemma has_any_n3_plus_kanji_true (surface : list Z) :
  has_any_n3_plus_kanji surface = true <->
  exists ch, In ch surface /\ is_kanji ch = true /\ ~ In ch N4_AND_LOWER_KANJI.
Proof.
  unfold has_any_n3_plus_kanji, is_n3_plus_kanji. rewrite existsb_exists.
  split.
  - intros (ch & Hin & H). apply andb_true_iff in H as [K N].
    exists ch. repeat split; [exact Hin|exact K|].
    intros Hn. apply char_in_true in Hn. rewrite Hn in N. discriminate.
  - intros (ch & Hin & K & N). exists ch. split; [exact Hin|].
    rewrite K. destruct (char_in ch N4_AND_LOWER_KANJI) eqn:E; [|reflexivity].
    apply char_in_true in E. contradiction.
Qed.

(* The span of a token line whose surface has a kanji, under the filter. *)
Lemma annotate_line_filtered (line : list Z) :
  is_token_line line = true ->
  existsb is_kanji (surface_of line) = true ->
  annotate_line' true line =
    Some (if has_any_n3_plus_kanji (surface_of line)
             && reading_available name_dictionary line
          then Ruby (surface_of line)
                 (gloss_reading name_dictionary preserve_long_vowel line)
          else Plain (surface_of line)).
Proof.
  unfold is_token_line, annotate_line, surface_of, reading_of,
    reading_available, gloss_reading, surface_of, reading_of.
  destruct (str_eqb line EOS || negb (truthy line)); [discriminate|].
  destruct (length (split TAB line) <? 2)%nat eqn:L; [discriminate|].
  assert (L2 : (2 <=? length (split TAB line))%nat = true).
  { apply Nat.leb_le. apply Nat.ltb_ge in L. exact L. }
  intros _ ->. rewrite L2. cbn [andb orb negb].
  destruct (name_dictionary !! nth 0 (split TAB line) []) as [r|] eqn:D.
  - rewrite bool_decide_eq_true_2 by (eexists; reflexivity).
    cbn [andb orb negb]. rewrite andb_true_r.
    destruct (has_any_n3_plus_kanji _); reflexivity.
  - rewrite bool_decide_eq_false_2 by (intros [x Hx]; discriminate).
    cbn [andb orb negb].
    destruct (truthy (nth 1 (split TAB line) [])); cbn [andb orb negb].
    + rewrite andb_true_r. destruct (has_any_n3_plus_kanji _); reflexivity.
    + rewrite andb_false_r. reflexivity.
Qed.

Lemma result_spans (f : bool) (lines : list (list Z)) :
  Forall2 (fun line s => annotate_line' f line = Some s
                         /\ span_base s = surface_of line)
          (filter (fun l => is_token_line l = true) lines)
          (omap (annotate_line' f) lines).
Proof.
  induction lines as [|l lines IH]; [constructor|].
  rewrite filter_cons.
  change (omap (annotate_line' f) (l :: lines))
    with (match annotate_line' f l with
          | Some s => s :: omap (annotate_line' f) lines
          | None => omap (annotate_line' f) lines
          end).
  destruct (is_token_line l) eqn:T.
  - destruct (annotate_line_token f l T) as (s & E & B). rewrite E.
    rewrite decide_True by reflexivity. constructor; [now split | exact IH].
  - rewrite (annotate_line_skipped f l T).
    rewrite decide_False by discriminate. exact IH.
Qed.

(** C1 (as amended).  A text that is empty or blank is returned at once, as
    it is.  Otherwise the tokens are the lines of the analyser's output
    that carry a surface and a reading field (other lines, EOS among them,
    are skipped), and the returned string is the concatenation of one span
    per token, in order, each with the surface of its token as its base.
    When the surfaces of the tokens concatenate to the text, and always
    when the text is blank, replacing every ruby span by its base gives
    back the text.  A token whose reading field is empty is emitted as its
    bare surface, except when its surface has a kanji and is a key of the
    name dictionary (and, under the filter, has a kanji outside the
    elementary set): then it is glossed with the dictionary's reading. *)
Theorem annotate_lossless (text : list Z) (f : bool) :
  add_furigana tagger_parse name_dictionary preserve_long_vowel text f
  = concat (map span_text (annotate tagger_parse name_dictionary preserve_long_vowel text f))
  /\ (blank text = true ->
      add_furigana tagger_parse name_dictionary preserve_long_vowel text f = text
      /\ annotate tagger_parse name_dictionary preserve_long_vowel text f = [Plain text])
  /\ (blank text = false ->
      Forall2 (fun line s =>
                 annotate_line name_dictionary preserve_long_vowel f line = Some s
                 /\ span_base s = surface_of line)
              (token_lines (tagger_parse text))
              (annotate tagger_parse name_dictionary preserve_long_vowel text f))
  /\ (blank text = true
      \/ concat (map surface_of (token_lines (tagger_parse text))) = text ->
      concat (map span_base (annotate tagger_parse name_dictionary preserve_long_vowel text f)) = text)
  /\ (forall line : list Z,
        is_token_line line = true -> reading_of line = [] ->
        annotate_line name_dictionary preserve_long_vowel f line =
          Some (if bool_decide (is_Some (name_dictionary !! surface_of line))
                   && existsb is_kanji (surface_of line)
                   && (negb f || has_any_n3_plus_kanji (surface_of line))
                then Ruby (surface_of line)
                       (default [] (name_dictionary !! surface_of line))
                else Plain (surface_of line))).
Proof.
  unfold add_furigana, annotate. fold (blank text).
  destruct (blank text) eqn:B.
  - split; [cbn [map concat span_text]; now rewrite app_nil_r|].
    split; [intros _; split; reflexivity|].
    split; [discriminate|].
    split; [intros _; cbn [map concat span_base]; now rewrite app_nil_r|].
    intros line T R. now apply annotate_line_no_reading.
  - split; [apply join_nil_concat|].
    split; [discriminate|].
    split; [intros _; unfold add_furigana_result, token_lines; apply result_spans|].
    split.
    + intros [H|Htile]; [discriminate|].
      unfold add_furigana_result. rewrite result_bases. exact Htile.
    + intros line T R. now apply annotate_line_no_reading.
Qed.

(** C4 (as amended).  Under the filter, a token whose surface has a kanji is
    emitted as a ruby span exactly when its surface has a kanji outside the
    elementary set and a reading is available for it (its surface is a key
    of the name dictionary, or its reading field is not empty); the ruby
    span carries the surface and that reading, and otherwise the bare
    surface is emitted.  In particular a token all of whose characters are
    in the elementary set is emitted bare. *)
Theorem filter_mode_gloss (line : list Z) :
  is_token_line line = true ->
  existsb is_kanji (surface_of line) = true ->
  exists s : AnnotatedSpan,
    annotate_line name_dictionary preserve_long_vowel true line = Some s
    /\ (is_ruby s = true <->
        (exists ch, In ch (surface_of line) /\ is_kanji ch = true
                    /\ ~ In ch N4_AND_LOWER_KANJI)
        /\ reading_available name_dictionary line = true)
    /\ (is_ruby s = true ->
        s = Ruby (surface_of line)
              (gloss_reading name_dictionary preserve_long_vowel line))
    /\ (is_ruby s = false -> s = Plain (surface_of line))
    /\ (Forall (fun ch => In ch N4_AND_LOWER_KANJI) (surface_of line) ->
        s = Plain (surface_of line)).
Proof.
  intros T K. rewrite (annotate_line_filtered line T K).
  eexists. split; [reflexivity|].
  destruct (has_any_n3_plus_kanji (surface_of line)) eqn:H.
  - apply has_any_n3_plus_kanji_true in H.
    destruct (reading_available name_dictionary line) eqn:R; cbn [andb is_ruby].
    + split; [|split; [|split]].
      * split; [intros _; split; [exact H|reflexivity] | reflexivity].
      * reflexivity.
      * discriminate.
      * intros F. destruct H as (ch & Hin & _ & N).
        rewrite List.Forall_forall in F. destruct (N (F ch Hin)).
    + split; [|split; [|split]].
      * split; [discriminate | intros (_ & ?); discriminate].
      * discriminate.
      * reflexivity.
      * reflexivity.
  - assert (N : ~ exists ch, In ch (surface_of line) /\ is_kanji ch = true
                             /\ ~ In ch N4_AND_LOWER_KANJI).
    { intros E. apply has_any_n3_plus_kanji_true in E. congruence. }
    cbn [andb is_ruby]. split; [|split; [|split]].
    + split; [discriminate | intros (E & _); destruct (N E)].
    + discriminate.
    + reflexivity.
    + reflexivity.
Qed.

End AnnotatorFacts.

(* The tokens of 神崎は tile the text: the spans give it back. *)
Lemma annotate_lossless_witness :
  concat (map span_base
    (annotate
       (fun _ => mecab_output [mecab_line (u "神崎") (u "カンザキ");
                               mecab_line (u "は") (u "ハ")])
       ∅ false (u "神崎は") false))
  = u "神崎は".
Proof.
  apply (proj1 (proj2 (proj2 (proj2
           (annotate_lossless
              (fun _ => mecab_output [mecab_line (u "神崎") (u "カンザキ");
                                      mecab_line (u "は") (u "ハ")])
              ∅ false (u "神崎は") false))))).
  right. vm_compute. reflexivity.
Defined.

(* Counterexample to C1 as stated: a token with no tokenizer reading whose surface is a
    key of the name dictionary is emitted with a gloss, not bare; and an
    output line that has no reading field at all (no tab) is skipped, so the
    token is not emitted and the text is not reconstructed. *)
Lemma absent_reading_counterexample :
  (annotate (fun _ => mecab_output [mecab_line (u "神崎") []])
     {[ u "神崎" := u "かんざき" ]} false (u "神崎") false
   = [Ruby (u "神崎") (u "かんざき")]
   /\ [Ruby (u "神崎") (u "かんざき")] <> [Plain (u "神崎")])
  /\ (add_furigana (fun _ => mecab_output [u "神崎"]) ∅ false (u "神崎") false = []
      /\ [] <> u "神崎").
Proof.
  repeat split; try (vm_compute; reflexivity); vm_compute; discriminate.
Qed.

(* 読む has the elementary kanji 読 only; 憂鬱 has kanji outside the set. *)
Lemma filter_mode_gloss_witness :
  exists s : AnnotatedSpan,
    annotate_line ∅ false true (mecab_line (u "憂鬱") (u "ユーウツ")) = Some s
    /\ is_ruby s = true.
Proof.
  destruct (filter_mode_gloss ∅ false (mecab_line (u "憂鬱") (u "ユーウツ")))
    as (s & E & I & _); [vm_compute; reflexivity .. |].
  exists s. split; [exact E|]. apply I. split.
  - exists (c1 "憂"). vm_compute. repeat split; [tauto|].
    intros H.
    repeat match goal with
    | H : _ \/ _ |- _ => destruct H as [H|H]; [discriminate H|]
    end. exact H.
  - vm_compute. reflexivity.
Defined.

(* Counterexample to C4 as stated: 行く contains く, a character outside the elementary
    set, yet under the filter it is emitted bare, because its only kanji 行
    is in the set. *)
Lemma filter_mode_counterexample :
  annotate_line ∅ false true (mecab_line (u "行く") (u "イク"))
    = Some (Plain (u "行く"))
  /\ existsb is_kanji (u "行く") = true
  /\ char_in (c1 "く") N4_AND_LOWER_KANJI = false
  /\ In (c1 "く") (u "行く").
Proof.
  repeat split; try (vm_compute; reflexivity). vm_compute. tauto.
Qed.

(* ===================================================================== *)
(*  NameDictionaryBuilder                                                *)
(* ===================================================================== *)

Example dictionary_most_frequent :
  extract_ruby_dictionary
    (soup [elem "p" [ruby_node (u "神崎") (u "こうざき");
                     text (u "と");
                     ruby_node (u "神崎") (u "かんざき");
                     ruby_node (u "神崎") (u "かんざき")]])
  !! u "神崎" = Some (u "かんざき").
Proof. vm_compute. reflexivity. Qed.

Example dictionary_tie_first_seen :
  extract_ruby_dictionary
    (soup [ruby_node (u "上手") (u "うわて"); ruby_node (u "上手") (u "じょうず")])
  !! u "上手" = Some (u "うわて").
Proof. vm_compute. reflexivity. Qed.

Example dictionary_last_document_wins :
  build_name_dictionary
    [Some (soup [ruby_node (u "神崎") (u "かんざき");
                 ruby_node (u "神崎") (u "かんざき");
                 ruby_node (u "神崎") (u "かんざき")]);
     None;
     Some (soup [ruby_node (u "神崎") (u "こうざき")])]
  !! u "神崎" = Some (u "こうざき").
Proof. vm_compute. reflexivity. Qed.

Section CounterFacts.

Implicit Types (key k : list Z * list Z) (pairs : list (list Z * list Z)).
Implicit Types (frequency : list ((list Z * list Z) * nat)).

Lemma pair_eqb_eq k1 k2 : pair_eqb k1 k2 = true <-> k1 = k2.
Proof.
  unfold pair_eqb. destruct k1 as [a b], k2 as [a' b']. simpl.
  rewrite andb_true_iff, !str_eqb_eq. split.
  - intros [-> ->]. reflexivity.
  - intros [= -> ->]. split; reflexivity.
Qed.

Lemma pair_eqb_refl k : pair_eqb k k = true.
Proof. now apply pair_eqb_eq. Qed.

Lemma pair_eqb_neq k1 k2 : pair_eqb k1 k2 = false <-> k1 <> k2.
Proof.
  split.
  - intros H E. apply pair_eqb_eq in E. congruence.
  - intros H. destruct (pair_eqb k1 k2) eqn:E; [|reflexivity].
    apply pair_eqb_eq in E. contradiction.
Qed.

Lemma occurrences_snoc key pairs k :
  occurrences key (pairs ++ [k])
  = (occurrences key pairs + (if pair_eqb key k then 1 else 0))%nat.
Proof.
  unfold occurrences. rewrite List.filter_app, length_app. simpl.
  destruct (pair_eqb key k); reflexivity.
Qed.

Lemma occurrences_pos key pairs :
  In key pairs <-> (0 < occurrences key pairs)%nat.
Proof.
  unfold occurrences. induction pairs as [|k pairs IH]; simpl.
  - split; [tauto | lia].
  - destruct (pair_eqb key k) eqn:E.
    + apply pair_eqb_eq in E. subst. simpl. split; [lia | tauto].
    + apply pair_eqb_neq in E. rewrite <- IH. split; [|tauto].
      intros [H|H]; [congruence | exact H].
Qed.

Lemma seen_before_snoc pairs k a b :
  seen_before pairs a b -> seen_before (pairs ++ [k]) a b.
Proof.
  intros (p1 & p2 & -> & H). exists p1, (p2 ++ [k]). split; [|exact H].
  now rewrite <- app_assoc.
Qed.

Lemma seen_before_new pairs a b :
  In a pairs -> ~ In b pairs -> seen_before (pairs ++ [b]) a b.
Proof.
  intros Ha Hb. apply in_split in Ha as (p1 & p2 & ->).
  exists p1, (p2 ++ [b]). split.
  - now rewrite <- app_assoc.
  - intros H. apply Hb. apply in_or_app. now left.
Qed.

(* Two different keys cannot each be first seen before the other. *)
Lemma seen_before_asym pairs a b :
  a <> b -> seen_before pairs a b -> seen_before pairs b a -> False.
Proof.
  intros Hab (p1 & p2 & E1 & N1) (q1 & q2 & E2 & N2). subst pairs.
  revert q1 E2 N2 N1. induction p1 as [|x p1 IH]; intros q1 E2 N2 N1.
  - destruct q1 as [|y q1]; simpl in E2.
    + injection E2 as E _. congruence.
    + injection E2 as E _. subst y. apply N2. now left.
  - destruct q1 as [|y q1]; simpl in E2.
    + injection E2 as E _. subst x. apply N1. now left.
    + injection E2 as E E'. subst y. apply (IH q1 E').
      * intros H. apply N2. now right.
      * intros H. apply N1. now right.
Qed.

(* The keys of a counter after one more key is counted. *)
Lemma counter_incr_keys key frequency :
  map fst (counter_incr key frequency)
  = if decide (key ∈ map fst frequency) then map fst frequency
    else map fst frequency ++ [key].
Proof.
  induction frequency as [|[k n] rest IH].
  - case_decide as H; [|reflexivity]. now apply elem_of_nil in H.
  - cbn [counter_incr map fst]. destruct (pair_eqb k key) eqn:E.
    + clear IH. apply pair_eqb_eq in E. subst. case_decide as H; [reflexivity|].
      exfalso. apply H. apply elem_of_cons. now left.
    + apply pair_eqb_neq in E. cbn [map fst]. rewrite IH. clear IH.
      destruct (decide (key ∈ map fst rest)) as [Hi|Hi];
        destruct (decide (key ∈ k :: map fst rest)) as [Hj|Hj]; try reflexivity.
      * exfalso. apply Hj. apply elem_of_cons. now right.
      * exfalso. apply elem_of_cons in Hj as [?|?]; [congruence | contradiction].
Qed.

(* The entries of a counter after one more key is counted. *)
Lemma counter_incr_entries key frequency k n :
  NoDup (map fst frequency) ->
  In (k, n) (counter_incr key frequency) <->
  (k <> key /\ In (k, n) frequency)
  \/ (k = key /\ exists m, n = S m /\ (In (key, m) frequency
                                      \/ (m = 0%nat /\ ~ In key (map fst frequency)))).
Proof.
  induction frequency as [|[k0 n0] rest IH]; intros ND; simpl.
  - split.
    + intros [[= <- <-]|[]]. right. split; [reflexivity|].
      exists 0%nat. split; [reflexivity|]. right. split; [reflexivity | tauto].
    + intros [[_ []]|(-> & m & -> & [[]|(-> & _)])]. now left.
  - apply NoDup_cons in ND as [Hk0 ND]. specialize (IH ND).
    assert (Hk0' : ~ In k0 (map fst rest)) by (now rewrite <- list_elem_of_In).
    clear Hk0. rename Hk0' into Hk0.
    destruct (pair_eqb k0 key) eqn:E.
    + apply pair_eqb_eq in E. subst k0. simpl. split.
      * intros [[= <- <-]|H].
        -- right. split; [reflexivity|]. exists n0. split; [reflexivity|].
           left. now left.
        -- left. split; [|now right]. intros ->. apply Hk0.
           apply (in_map fst) in H. exact H.
      * intros [(Hne & [[= <- <-]|H])|(-> & m & -> & [[[= <-]|H]|(-> & H)])].
        -- congruence.
        -- now right.
        -- now left.
        -- exfalso. apply Hk0. apply (in_map fst) in H. exact H.
        -- exfalso. apply H. now left.
    + apply pair_eqb_neq in E. simpl. rewrite IH. split.
      * intros [[= <- <-]|[(Hne & H)|(-> & m & -> & [H|(-> & H)])]].
        -- left. split; [exact E | now left].
        -- left. split; [exact Hne | now right].
        -- right. split; [reflexivity|]. exists m. split; [reflexivity|].
           left. now right.
        -- right. split; [reflexivity|]. exists 0%nat. split; [reflexivity|].
           right. split; [reflexivity|]. intros [?|?]; [congruence | contradiction].
      * intros [(Hne & [[= <- <-]|H])|(-> & m & -> & [[[= Hk _]|H]|(-> & H)])].
        -- now left.
        -- right. left. split; assumption.
        -- congruence.
        -- right. right. split; [reflexivity|]. exists m. split; [reflexivity|].
           now left.
        -- right. right. split; [reflexivity|]. exists 0%nat.
           split; [reflexivity|]. right. split; [reflexivity|]. tauto.
Qed.

Lemma count_all_snoc pairs k :
  count_all (pairs ++ [k]) = counter_incr k (count_all pairs).
Proof. unfold count_all. now rewrite foldl_app. Qed.

Lemma occurrences_zero key pairs : ~ In key pairs -> occurrences key pairs = 0%nat.
Proof.
  intros H. destruct (occurrences key pairs) eqn:E; [reflexivity|].
  exfalso. apply H. apply occurrences_pos. lia.
Qed.

(* What a counter holds: every key seen, once, with the number of times it
   was seen, the keys in the order in which they were first seen. *)
Lemma count_all_inv pairs :
  NoDup (map fst (count_all pairs))
  /\ (forall k n, In (k, n) (count_all pairs)
                  <-> In k pairs /\ n = occurrences k pairs)
  /\ (forall l1 a l2 b, map fst (count_all pairs) = l1 ++ a :: l2 ->
                        In b l2 -> seen_before pairs a b).
Proof.
  induction pairs as [|k pairs IH] using rev_ind.
  - split; [constructor|]. split.
    + intros k n. simpl. tauto.
    + intros l1 a l2 b H. destruct l1; discriminate.
  - destruct IH as (ND & Ent & Ord). rewrite count_all_snoc.
    assert (Keys : forall k0, In k0 (map fst (count_all pairs)) <-> In k0 pairs).
    { intros k0. rewrite in_map_iff. split.
      - intros ([k1 n] & <- & H). now apply Ent in H.
      - intros H. exists (k0, occurrences k0 pairs). split; [reflexivity|].
        apply Ent. split; [exact H | reflexivity]. }
    split; [|split].
    + rewrite counter_incr_keys. case_decide as Hk; [exact ND|].
      apply NoDup_app. split; [exact ND|]. split.
      * intros x Hx Hx'. apply list_elem_of_singleton in Hx'. congruence.
      * apply NoDup_singleton.
    + intros k0 n. rewrite (counter_incr_entries _ _ _ _ ND).
      rewrite occurrences_snoc, in_app_iff. simpl. split.
      * intros [(Hne & H)|(-> & m & -> & [H|(-> & H)])].
        -- apply Ent in H as (Hin & ->).
           replace (pair_eqb k0 k) with false by (symmetry; now apply pair_eqb_neq).
           split; [now left | lia].
        -- apply Ent in H as (Hin & ->). rewrite pair_eqb_refl.
           split; [now left | lia].
        -- rewrite pair_eqb_refl. rewrite occurrences_zero by (now rewrite <- Keys).
           split; [right; now left | reflexivity].
      * intros (Hin & ->). destruct (pair_eqb k0 k) eqn:E.
        -- apply pair_eqb_eq in E. subst k0. right. split; [reflexivity|].
           exists (occurrences k pairs). split; [lia|].
           destruct (decide (k ∈ pairs)) as [Hk|Hk]; rewrite list_elem_of_In in Hk.
           ++ left. apply Ent. split; [exact Hk | reflexivity].
           ++ right. split; [now apply occurrences_zero | now rewrite Keys].
        -- apply pair_eqb_neq in E. left. split; [exact E|]. apply Ent.
           split; [|lia]. destruct Hin as [H|[H|[]]]; [exact H | congruence].
    + intros l1 a l2 b. rewrite counter_incr_keys.
      case_decide as Hk.
      * intros H Hb. apply seen_before_snoc. eapply Ord; eassumption.
      * rewrite list_elem_of_In, Keys in Hk. intros H Hb.
        revert H Hb. induction l2 as [|z l2' _] using rev_ind; intros H Hb;
          [destruct Hb|].
        rewrite app_comm_cons, app_assoc in H.
        apply app_inj_tail in H as [H ->].
        apply in_app_iff in Hb as [Hb|[<-|[]]].
        -- apply seen_before_snoc. eapply Ord; eassumption.
        -- apply seen_before_new; [|exact Hk].
           apply Keys. rewrite H. apply in_or_app. right. now left.
Qed.

End CounterFacts.

Section DictionaryFacts.

Implicit Types (pairs : list (list Z * list Z)).
Implicit Types (frequency : list ((list Z * list Z) * nat)).

(* max returns the first item among those with the largest count. *)
Lemma max_by_count_from_spec (rest before seen : list (list Z * nat))
    (best : list Z * nat) :
  (forall x, In x before -> (snd x < snd best)%nat) ->
  (forall x, In x seen -> (snd x <= snd best)%nat) ->
  exists l1 l2,
    before ++ best :: seen ++ rest = l1 ++ max_by_count_from best rest :: l2
    /\ (forall x, In x l1 -> (snd x < snd (max_by_count_from best rest))%nat)
    /\ (forall x, In x l2 -> (snd x <= snd (max_by_count_from best rest))%nat).
Proof.
  revert before seen best.
  induction rest as [|x rest IH]; intros before seen best Hb Hs.
  - exists before, seen. rewrite app_nil_r. auto.
  - simpl. destruct (snd best <? snd x)%nat eqn:E.
    + apply Nat.ltb_lt in E.
      destruct (IH (before ++ best :: seen) [] x) as (l1 & l2 & Eq & H1 & H2).
      * intros y Hy. apply in_app_iff in Hy as [Hy|[<-|Hy]].
        -- specialize (Hb y Hy). lia.
        -- exact E.
        -- specialize (Hs y Hy). lia.
      * intros y [].
      * exists l1, l2. split; [|auto]. rewrite <- Eq. simpl.
        rewrite <- app_assoc. reflexivity.
    + apply Nat.ltb_ge in E.
      destruct (IH before (seen ++ [x]) best) as (l1 & l2 & Eq & H1 & H2).
      * exact Hb.
      * intros y Hy. apply in_app_iff in Hy as [Hy|[<-|[]]]; auto.
      * exists l1, l2. split; [|auto]. rewrite <- Eq.
        rewrite <- app_assoc. reflexivity.
Qed.

Lemma max_by_count_spec (items : list (list Z * nat)) (best : list Z * nat) :
  max_by_count items = Some best ->
  exists l1 l2, items = l1 ++ best :: l2
    /\ (forall x, In x l1 -> (snd x < snd best)%nat)
    /\ (forall x, In x l2 -> (snd x <= snd best)%nat).
Proof.
  destruct items as [|x rest]; [discriminate|]. intros [= <-].
  destruct (max_by_count_from_spec rest [] [] x) as (l1 & l2 & E & H);
    [intros y [] | intros y [] |].
  exists l1, l2. split; [exact E | exact H].
Qed.

(* Positions in a filtered and mapped list come from positions in the list. *)
Lemma map_filter_split {A B : Type} (f : A -> B) (p : A -> bool)
    (l : list A) (l1 l2 : list B) (x : B) :
  map f (List.filter p l) = l1 ++ x :: l2 ->
  exists a1 e a2, l = a1 ++ e :: a2 /\ p e = true /\ f e = x
    /\ map f (List.filter p a1) = l1 /\ map f (List.filter p a2) = l2.
Proof.
  revert l1. induction l as [|y l IH]; intros l1 H.
  - destruct l1; discriminate.
  - simpl in H. destruct (p y) eqn:E.
    + destruct l1 as [|z l1]; simpl in H.
      * injection H as H1 H2. exists [], y, l. simpl. auto.
      * injection H as H1 H2. destruct (IH l1 H2) as (a1 & e & a2 & -> & ? & ? & ? & ?).
        exists (y :: a1), e, a2. simpl. rewrite E. simpl.
        repeat split; try assumption. now f_equal.
    + destruct (IH l1 H) as (a1 & e & a2 & -> & ? & ? & ? & ?).
      exists (y :: a1), e, a2. simpl. rewrite E. auto.
Qed.

Lemma ruby_loop_counts (rubies : list Node)
    (st : gmap (list Z) (list Z) * list ((list Z * list Z) * nat)) :
  snd (foldl ruby_loop_step st rubies)
  = foldl (fun frequency key => counter_incr key frequency) (snd st)
          (omap ruby_pair rubies).
Proof.
  revert st. induction rubies as [|r rubies IH]; intros st; [reflexivity|].
  simpl. rewrite IH. unfold ruby_loop_step.
  destruct (ruby_pair r) as [[b rd]|]; reflexivity.
Qed.

Lemma extract_ruby_dictionary_counts (html : Node) :
  extract_ruby_dictionary html = final_dict_of (count_all (ruby_pairs html)).
Proof.
  unfold extract_ruby_dictionary. cbv zeta. now rewrite ruby_loop_counts.
Qed.

(* Every base of the counter is assigned its most frequent reading. *)
Lemma final_dict_lookup frequency (t : list Z) :
  final_dict_of frequency !! t
  = if decide (t ∈ map (fun e => fst (fst e)) frequency)
    then fst <$> max_by_count (readings_for_base frequency t)
    else None.
Proof.
  unfold final_dict_of.
  generalize (map (fun e => fst (fst e)) frequency) as bases.
  induction bases as [|b bases IH].
  - cbn [foldr]. rewrite lookup_empty.
    destruct (decide (t ∈ [])) as [H|H]; [|reflexivity].
    now apply elem_of_nil in H.
  - cbn [foldr].
    destruct (decide (b = t)) as [->|Hne].
    + rewrite decide_True by (apply elem_of_cons; now left).
      destruct (max_by_count (readings_for_base frequency t)) as [mf|] eqn:M.
      * now rewrite lookup_insert_eq.
      * rewrite IH. case_decide; reflexivity.
    + assert (L : forall m : gmap (list Z) (list Z),
                match max_by_count (readings_for_base frequency b) with
                | Some mf => <[b := fst mf]> m
                | None => m
                end !! t = m !! t).
      { intros m. destruct (max_by_count (readings_for_base frequency b)); [|reflexivity].
        now apply lookup_insert_ne. }
      rewrite L, IH.
      destruct (decide (t ∈ bases)) as [Hi|Hi];
        destruct (decide (t ∈ b :: bases)) as [Hj|Hj]; try reflexivity.
      * exfalso. apply Hj. apply elem_of_cons. now right.
      * exfalso. apply elem_of_cons in Hj as [?|?]; [congruence | contradiction].
Qed.

(* The reading chosen for a term of one document: one of its readings,
   counted at least as often as every other, and first seen before every
   other reading counted as often. *)
Lemma extract_ruby_dictionary_chosen (html : Node) (t r : list Z) :
  extract_ruby_dictionary html !! t = Some r ->
  In (t, r) (ruby_pairs html)
  /\ forall r', r' <> r -> In (t, r') (ruby_pairs html) ->
       (occurrences (t, r') (ruby_pairs html)
          < occurrences (t, r) (ruby_pairs html))%nat
       \/ (occurrences (t, r') (ruby_pairs html)
             = occurrences (t, r) (ruby_pairs html)
           /\ seen_before (ruby_pairs html) (t, r) (t, r')).
Proof.
  rewrite extract_ruby_dictionary_counts, final_dict_lookup.
  set (P := ruby_pairs html).
  destruct (count_all_inv P) as (ND & Ent & Ord).
  case_decide as Hb; [|discriminate].
  destruct (max_by_count (readings_for_base (count_all P) t)) as [[r0 c]|] eqn:M;
    [|discriminate].
  intros [= <-].
  apply max_by_count_spec in M as (l1 & l2 & E & H1 & H2).
  unfold readings_for_base in E.
  apply map_filter_split in E as (a1 & [[t0 r1] c1] & a2 & EF & Pe & Fe & E1 & E2).
  simpl in Pe, Fe. apply str_eqb_eq in Pe. injection Fe as -> ->. subst t0.
  assert (He : In ((t, r0), c) (count_all P)).
  { rewrite EF. apply in_or_app. right. now left. }
  apply Ent in He as (Hin & Hc). split; [exact Hin|].
  intros r' Hne Hin'.
  assert (He' : In ((t, r'), occurrences (t, r') P) (count_all P)).
  { apply Ent. split; [exact Hin' | reflexivity]. }
  rewrite EF in He'. apply in_app_iff in He' as [He'|[He'|He']].
  - left. rewrite <- Hc. apply (H1 (r', occurrences (t, r') P)).
    rewrite <- E1. apply in_map_iff. exists ((t, r'), occurrences (t, r') P).
    split; [reflexivity|]. apply filter_In. split; [exact He'|].
    simpl. apply str_eqb_refl.
  - injection He' as E _. congruence.
  - assert (Hle : (occurrences (t, r') P <= c)%nat).
    { apply (H2 (r', occurrences (t, r') P)).
      rewrite <- E2. apply in_map_iff. exists ((t, r'), occurrences (t, r') P).
      split; [reflexivity|]. apply filter_In. split; [exact He'|].
      simpl. apply str_eqb_refl. }
    rewrite <- Hc.
    destruct (Nat.eq_dec (occurrences (t, r') P) c) as [Heq|Hneq]; [|left; lia].
    right. split; [exact Heq|].
    apply (Ord (map fst a1) (t, r0) (map fst a2) (t, r')).
    + rewrite EF, map_app. reflexivity.
    + apply (in_map fst) in He'. exact He'.
Qed.

(* A term with a reading in the document is assigned a reading. *)
Lemma extract_ruby_dictionary_defined (html : Node) (t r : list Z) :
  In (t, r) (ruby_pairs html) ->
  exists r0, extract_ruby_dictionary html !! t = Some r0.
Proof.
  intros Hin. rewrite extract_ruby_dictionary_counts, final_dict_lookup.
  set (P := ruby_pairs html) in *.
  destruct (count_all_inv P) as (ND & Ent & Ord).
  assert (He : In ((t, r), occurrences (t, r) P) (count_all P)).
  { apply Ent. split; [exact Hin | reflexivity]. }
  rewrite decide_True.
  - unfold readings_for_base.
    destruct (List.filter (fun e => str_eqb (fst (fst e)) t) (count_all P))
      as [|e l] eqn:F.
    + exfalso. assert (H : In ((t, r), occurrences (t, r) P) []).
      { rewrite <- F. apply filter_In. split; [exact He|]. simpl. apply str_eqb_refl. }
      destruct H.
    + simpl. eexists. reflexivity.
  - apply list_elem_of_In. apply in_map_iff.
    exists ((t, r), occurrences (t, r) P). split; [reflexivity | exact He].
Qed.

(** C3 (as amended).  Within one document, a term is mapped to the reading
    with the highest occurrence count among the readings the document gives
    it, a tie being resolved in favour of the reading seen first.  Across
    the documents of a collection nothing is accumulated: every document
    that can be parsed overwrites the readings of the terms it contains, so
    a term is mapped to the reading chosen by the last document that
    contains it; a document that cannot be parsed changes nothing. *)
Theorem name_dictionary_resolution :
  (forall (html : Node) (t r : list Z),
     extract_ruby_dictionary html !! t = Some r <->
     In (t, r) (ruby_pairs html)
     /\ forall r', r' <> r -> In (t, r') (ruby_pairs html) ->
          (occurrences (t, r') (ruby_pairs html)
             < occurrences (t, r) (ruby_pairs html))%nat
          \/ (occurrences (t, r') (ruby_pairs html)
                = occurrences (t, r) (ruby_pairs html)
              /\ seen_before (ruby_pairs html) (t, r) (t, r')))
  /\ build_name_dictionary [] = ∅
  /\ (forall documents : list (option Node),
        build_name_dictionary (documents ++ [None])
        = build_name_dictionary documents)
  /\ (forall (documents : list (option Node)) (html : Node) (t : list Z),
        build_name_dictionary (documents ++ [Some html]) !! t
        = match extract_ruby_dictionary html !! t with
          | Some r => Some r
          | None => build_name_dictionary documents !! t
          end).
Proof.
  split; [|split; [|split]].
  - intros html t r. split; [apply extract_ruby_dictionary_chosen|].
    intros (Hin & Hbest).
    destruct (extract_ruby_dictionary_defined html t r Hin) as (r0 & E).
    rewrite E. f_equal.
    destruct (decide (r0 = r)) as [->|Hne]; [reflexivity|exfalso].
    apply extract_ruby_dictionary_chosen in E as (Hin0 & Hbest0).
    assert (Hne' : r <> r0) by congruence.
    assert (Hk : (t, r) <> (t, r0)) by congruence.
    destruct (Hbest r0 Hne Hin0) as [L|(Eq & S)];
      destruct (Hbest0 r Hne' Hin) as [L'|(Eq' & S')]; try lia.
    exact (seen_before_asym _ _ _ Hk S S').
  - reflexivity.
  - intros documents. unfold build_name_dictionary. now rewrite foldl_app.
  - intros documents html t. unfold build_name_dictionary.
    rewrite foldl_app. cbn [foldl]. rewrite lookup_union.
    destruct (extract_ruby_dictionary html !! t) as [r|];
      destruct (foldl _ ∅ documents !! t); reflexivity.
Qed.

End DictionaryFacts.

(* Counterexample to C3 as stated: the counts are not accumulated across documents.
    神崎 is read かんざき three times in the first document and こうざき once
    in the second; the dictionary keeps こうざき. *)
Lemma name_dictionary_counterexample :
  let doc1 := soup [ruby_node (u "神崎") (u "かんざき");
                    ruby_node (u "神崎") (u "かんざき");
                    ruby_node (u "神崎") (u "かんざき")] in
  let doc2 := soup [ruby_node (u "神崎") (u "こうざき")] in
  build_name_dictionary [Some doc1; Some doc2] !! u "神崎" = Some (u "こうざき")
  /\ occurrences (u "神崎", u "かんざき") (ruby_pairs doc1 ++ ruby_pairs doc2) = 3%nat
  /\ occurrences (u "神崎", u "こうざき") (ruby_pairs doc1 ++ ruby_pairs doc2) = 1%nat.
Proof. vm_compute. repeat split; reflexivity. Qed.

(* ===================================================================== *)
(*  VocabularyMerger                                                     *)
(* ===================================================================== *)

Example rusu_merged :
  ExtractRubySmart.extract_words_from_html
    (number (soup [elem "p" [ruby_node (u "留") (u "と"); ruby_node (u "守") (u "もり")]]))
  = [ExtractRubySmart.new_entry (u "留守") (u "ともり")].
Proof. vm_compute. reflexivity. Qed.

Example itta_captured :
  ExtractRubySmart.extract_words_from_html
    (number (soup [elem "p" [ruby_node (u "行") (u "い"); text (u "った。")]]))
  = [ExtractRubySmart.new_entry (u "行った") (u "いった")].
Proof. vm_compute. reflexivity. Qed.

Section OkuriganaFacts.

Import ExtractRubySmart.

Lemma take_while_prefix (p : Z -> bool) (s : list Z) :
  exists rest, s = take_while p s ++ rest.
Proof.
  induction s as [|x s IH]; simpl.
  - exists []. reflexivity.
  - destruct (p x).
    + destruct IH as (rest & E). exists rest. simpl. now f_equal.
    + exists (x :: s). reflexivity.
Qed.

(* A prefix made of characters of the class lies inside the run. *)
Lemma take_while_take (p : Z -> bool) (s q rest : list Z) :
  s = q ++ rest -> forallb p q = true ->
  take (length q) (take_while p s) = q.
Proof.
  intros -> H. induction q as [|x q IH]; simpl.
  - reflexivity.
  - simpl in H. apply andb_true_iff in H as [Hx Hq]. rewrite Hx. simpl.
    f_equal. now apply IH.
Qed.

Lemma valid_okurigana_hiragana :
  forallb (forallb hiragana_class) VALID_OKURIGANA = true.
Proof. vm_compute. reflexivity. Qed.

Lemma valid_is_hiragana (p : list Z) :
  In p VALID_OKURIGANA -> forallb hiragana_class p = true.
Proof.
  intros H. pose proof valid_okurigana_hiragana as V.
  rewrite forallb_forall in V. now apply V.
Qed.

(* What the descending loop returns: nothing, or an ending of at least two
   characters that is a prefix of the candidate. *)
Lemma longest_match_sound (i : nat) (candidate : list Z) :
  (i <= length candidate)%nat ->
  longest_match i candidate = []
  \/ exists k, (2 <= k <= i)%nat
       /\ longest_match i candidate = take k candidate
       /\ In (take k candidate) VALID_OKURIGANA.
Proof.
  induction i as [|i IH]; intros Hi; [now left|].
  cbn [longest_match]. destruct (S i <=? 1)%nat eqn:E; [now left|].
  apply Nat.leb_gt in E.
  destruct (str_in (take (S i) candidate) VALID_OKURIGANA) eqn:V.
  - right. exists (S i). split; [lia|]. split; [reflexivity|].
    now apply str_in_true.
  - destruct IH as [H|(k & Hk & H1 & H2)]; [lia | now left |].
    right. exists k. split; [lia|]. split; assumption.
Qed.

(* No ending of two or more characters that fits is longer than the one
   the loop returns. *)
Lemma longest_match_longest (i k : nat) (candidate : list Z) :
  (i <= length candidate)%nat -> (2 <= k <= i)%nat ->
  In (take k candidate) VALID_OKURIGANA ->
  (k <= length (longest_match i candidate))%nat.
Proof.
  induction i as [|i IH]; intros Hi Hk Hin; [lia|].
  cbn [longest_match]. destruct (S i <=? 1)%nat eqn:E.
  - apply Nat.leb_le in E. lia.
  - destruct (str_in (take (S i) candidate) VALID_OKURIGANA) eqn:V.
    + rewrite length_take. lia.
    + destruct (Nat.eq_dec k (S i)) as [->|Hne].
      * apply str_in_true in Hin. congruence.
      * apply IH; [lia | lia | exact Hin].
Qed.

Lemma u_not_particle : str_in (u "う") PARTICLES = false.
Proof. vm_compute. reflexivity. Qed.

Lemma u_valid : In (u "う") VALID_OKURIGANA.
Proof. apply str_in_true. vm_compute. reflexivity. Qed.

Lemma not_str_in (x : list Z) (l : list (list Z)) :
  str_in x l = false <-> ~ In x l.
Proof.
  rewrite <- str_in_true. destruct (str_in x l); split; try congruence; tauto.
Qed.

(* What [found_suffix] is when the trailing text starts with a run of
   hiragana: the candidate and the two stages of the search. *)
Lemma okurigana_suffix_cases (base trailing : list Z) :
  okurigana_suffix base trailing = []
  \/ exists k, (1 <= k <= 4)%nat
       /\ okurigana_suffix base trailing = take k trailing
       /\ length (take k trailing) = k
       /\ capturable (take k trailing).
Proof.
  unfold okurigana_suffix, HIRAGANA_PATTERN.
  destruct (take_while_prefix hiragana_class trailing) as (rest & Etr).
  remember (take_while hiragana_class trailing) as run0 eqn:Erun.
  destruct run0 as [|x run']; [now left|].
  clear Erun. cbv zeta. set (run := x :: run') in *.
  assert (Hrun : (1 <= length run)%nat) by (subst run; simpl; lia).
  set (candidate := take 4 run).
  assert (Hlen : length candidate = (4 `min` length run)%nat)
    by (subst candidate; apply length_take).
  assert (Hc4 : (length candidate <= 4)%nat) by lia.
  assert (Hc1 : (1 <= length candidate)%nat) by lia.
  assert (Hpre : forall k, (k <= length candidate)%nat ->
            take k candidate = take k trailing /\ length (take k trailing) = k).
  { intros k Hk. subst candidate. rewrite take_take.
    replace (k `min` 4)%nat with k by lia.
    rewrite Etr. rewrite take_app_le by lia. split; [reflexivity|].
    rewrite length_take. lia. }
  replace (length candidate `min` 4)%nat with (length candidate) by lia.
  destruct (longest_match_sound (length candidate) candidate (Nat.le_refl _))
    as [E0|(k & Hk & Ek & Vk)].
  - rewrite E0. cbn [truthy negb andb].
    replace (1 <=? length candidate)%nat with true by (symmetry; now apply Nat.leb_le).
    destruct (Hpre 1%nat Hc1) as (P1 & L1).
    destruct (str_in (take 1 candidate) VALID_OKURIGANA
              && negb (str_in (take 1 candidate) PARTICLES)) eqn:F.
    + apply andb_true_iff in F as [V N]. apply negb_true_iff in N.
      right. exists 1%nat. split; [lia|]. rewrite <- P1.
      split; [reflexivity|]. split; [now rewrite P1|].
      split; [now apply str_in_true|]. split; [rewrite P1; lia|].
      intros _. now apply not_str_in.
    + destruct (str_eqb (take 1 candidate) (u "う") && truthy base
                && char_in (List.last base 0) VOLITIONAL_STEMS) eqn:G; [|now left].
      apply andb_true_iff in G as [G _]. apply andb_true_iff in G as [G _].
      apply str_eqb_eq in G.
      right. exists 1%nat. split; [lia|]. rewrite <- P1.
      split; [reflexivity|]. split; [now rewrite P1|]. rewrite G.
      split; [exact u_valid|]. split; [simpl; lia|].
      intros _. apply not_str_in. exact u_not_particle.
  - destruct (Hpre k ltac:(lia)) as (Pk & Lk).
    assert (T : truthy (longest_match (length candidate) candidate) = true).
    { rewrite Ek, Pk. destruct (take k trailing) eqn:E; [simpl in Lk; lia | reflexivity]. }
    rewrite T. cbn [negb andb].
    right. exists k. split; [lia|]. rewrite Ek, Pk.
    split; [reflexivity|]. split; [exact Lk|].
    split; [now rewrite <- Pk|]. split; [lia|]. intros H. lia.
Qed.

Lemma truthy_length (s : list Z) : truthy s = true <-> (1 <= length s)%nat.
Proof. destruct s; simpl; split; intros; try lia; congruence. Qed.

(* No ending that may be captured and starts the trailing text is longer
   than [found_suffix]. *)
Lemma okurigana_suffix_longest (base trailing p rest : list Z) :
  trailing = p ++ rest -> capturable p ->
  (length p <= length (okurigana_suffix base trailing))%nat.
Proof.
  intros Etr (V & (K1 & K4) & NP).
  pose proof (valid_is_hiragana p V) as Hh.
  pose proof (take_while_take hiragana_class trailing p rest Etr Hh) as Hp.
  unfold okurigana_suffix, HIRAGANA_PATTERN.
  remember (take_while hiragana_class trailing) as run0 eqn:Erun.
  assert (Hrl : (length p <= length run0)%nat).
  { rewrite <- Hp at 1. rewrite length_take. lia. }
  destruct run0 as [|x run']; [simpl in Hrl; lia|].
  clear Erun. cbv zeta. set (run := x :: run') in *.
  set (candidate := take 4 run).
  assert (Hlen : length candidate = (4 `min` length run)%nat)
    by (subst candidate; apply length_take).
  assert (Hpc : take (length p) candidate = p).
  { subst candidate. rewrite take_take.
    replace (length p `min` 4)%nat with (length p) by lia. exact Hp. }
  replace (length candidate `min` 4)%nat with (length candidate) by lia.
  set (found := longest_match (length candidate) candidate).
  destruct (truthy found) eqn:T; cbn [negb andb].
  - apply truthy_length in T.
    destruct (Nat.eq_dec (length p) 1%nat) as [E1|N1]; [lia|].
    apply (longest_match_longest (length candidate) (length p) candidate);
      [lia | lia | now rewrite Hpc].
  - replace (1 <=? length candidate)%nat with true
      by (symmetry; apply Nat.leb_le; lia).
    destruct (Nat.eq_dec (length p) 1%nat) as [E1|N1].
    + rewrite E1 in Hpc. rewrite Hpc.
      replace (str_in p VALID_OKURIGANA) with true
        by (symmetry; now apply str_in_true).
      replace (str_in p PARTICLES) with false
        by (symmetry; apply not_str_in; now apply NP).
      cbn [negb andb]. lia.
    + exfalso.
      assert (H : (length p <= length found)%nat).
      { apply (longest_match_longest (length candidate) (length p) candidate);
          [lia | lia | now rewrite Hpc]. }
      assert (truthy found = true) by (apply truthy_length; lia). congruence.
Qed.

(* Counterexample to C8 as stated: で is an entry of the table of endings and starts
    the text after 何, but it is a particle and is not appended. *)
Lemma okurigana_particle_counterexample :
  extract_words_from_html
    (number (soup [elem "p" [ruby_node (u "何") (u "なん"); text (u "で。")]]))
  = [new_entry (u "何") (u "なん")]
  /\ [new_entry (u "何") (u "なん")] <> [new_entry (u "何で") (u "なんで")]
  /\ str_in (u "で") VALID_OKURIGANA = true
  /\ take 1 (u "で。") = u "で".
Proof.
  repeat split; try (vm_compute; reflexivity). vm_compute. discriminate.
Qed.

End OkuriganaFacts.

Section TreePositions.

(* induction on the tree, with the hypothesis for every child *)
Lemma Node_ind_nested (P : Node -> Prop) :
  (forall kind s, P (Text kind s)) ->
  (forall id name attrs children, Forall P children -> P (Tag id name attrs children)) ->
  forall n, P n.
Proof.
  intros HT HG. fix IH 1. intros [s|id name attrs children].
  - apply HT.
  - apply HG. induction children as [|ch children IHc]; constructor.
    + apply IH.
    + exact IHc.
Qed.

Lemma node_at_app (root : Node) (p q : list nat) :
  node_at root (p ++ q)
  = match node_at root p with Some n => node_at n q | None => None end.
Proof.
  revert root. induction p as [|i p IH]; intros root; [reflexivity|].
  simpl. destruct root as [s|id nm at_ cs]; [reflexivity|].
  destruct (cs !! i); [apply IH | reflexivity].
Qed.

Lemma node_at_child (root : Node) (parent : list nat) (id : nat) (nm : list Z)
    (at_ : list (list Z * list Z)) (sibs : list Node) (j : nat) :
  node_at root parent = Some (Tag id nm at_ sibs) ->
  node_at root (parent ++ [j]) = sibs !! j.
Proof.
  intros H. rewrite node_at_app, H. simpl. destruct (sibs !! j); reflexivity.
Qed.

Lemma siblings_at_child (root : Node) (parent : list nat) (id : nat) (nm : list Z)
    (at_ : list (list Z * list Z)) (sibs : list Node) (j : nat) :
  node_at root parent = Some (Tag id nm at_ sibs) ->
  siblings_at root (parent ++ [j]) = (sibs, j).
Proof.
  intros H. unfold siblings_at. rewrite removelast_last, H, last_last.
  reflexivity.
Qed.

(* Replacing a child leaves its parent in place, with that child replaced. *)
Lemma node_at_update_child (root : Node) (parent : list nat) (id : nat) (nm : list Z)
    (at_ : list (list Z * list Z)) (sibs : list Node) (j : nat) (c c' : Node) :
  node_at root parent = Some (Tag id nm at_ sibs) ->
  sibs !! j = Some c ->
  node_at (update_at root (parent ++ [j]) c') parent
  = Some (Tag id nm at_ (<[j := c']> sibs)).
Proof.
  revert root. induction parent as [|a parent IH]; intros root H Hj.
  - simpl in H. injection H as ->. simpl. rewrite Hj. reflexivity.
  - simpl in H. destruct root as [s|i0 n0 a0 cs]; [discriminate|].
    destruct (cs !! a) as [ch|] eqn:Ea; [|discriminate].
    simpl. rewrite Ea. simpl.
    rewrite list_lookup_insert_eq by (now apply lookup_lt_Some in Ea).
    now apply IH.
Qed.

Lemma lookup_In {A : Type} (l : list A) (i : nat) (x : A) :
  l !! i = Some x -> In x l.
Proof. intros H. apply list_elem_of_In. exact (list_elem_of_lookup_2 l i x H). Qed.

(* The tag at a position is among the tags of the tree. *)
Lemma node_at_tag_ids (root : Node) (p : list nat) (n : Node) (name : list Z) :
  node_at root p = Some n -> tag_named name n = true ->
  In (tag_id n) (tag_ids root).
Proof.
  revert root. induction p as [|i p IH]; intros root H Hn.
  - injection H as ->. destruct n as [k s|x nm at_ cs]; [discriminate|].
    now left.
  - destruct root as [k s|x nm at_ cs]; [discriminate|]. cbn [node_at] in H.
    destruct (cs !! i) as [ch|] eqn:Ei; [|discriminate].
    cbn [tag_ids]. right. apply in_flat_map. exists ch.
    split; [exact (lookup_In _ _ _ Ei) | now apply IH].
Qed.

(* A tag that is found is among the tags of the tree. *)
Lemma path_of_id_tag_ids (x : nat) (root : Node) (p : list nat) :
  path_of_id x root = Some p -> In x (tag_ids root).
Proof.
  revert p. induction root as [k s|y nm at_ cs IH] using Node_ind_nested;
    intros p; [discriminate|].
  cbn [path_of_id tag_ids]. destruct (Nat.eqb_spec y x) as [->|Hne]; [now left|].
  intros H. right. revert H. generalize 0%nat.
  induction IH as [|ch cs Hch _ IHcs]; intros k; [discriminate|].
  cbn [flat_map]. destruct (path_of_id x ch) as [q|] eqn:Eq.
  - intros _. apply in_or_app. left. now apply (Hch q).
  - intros H. apply in_or_app. right. now apply (IHcs (S k)).
Qed.

(* The tags of a tree being distinct objects, the tag at a position is
   found, by its identity, at that position. *)
Lemma path_of_id_node_at (root : Node) (p : list nat) (n : Node) :
  NoDup (tag_ids root) ->
  node_at root p = Some n -> tag_named (u "ruby") n = true ->
  path_of_id (tag_id n) root = Some p.
Proof.
  revert root. induction p as [|i p IH]; intros root Hids H Hn.
  - injection H as ->. destruct n as [k s|x nm at_ cs]; [discriminate|].
    cbn [path_of_id tag_id]. now rewrite Nat.eqb_refl.
  - destruct root as [k s|y nm at_ cs]; [discriminate|]. cbn [node_at] in H.
    destruct (cs !! i) as [ch|] eqn:Ei; [|discriminate].
    cbn [tag_ids] in Hids. apply NoDup_cons in Hids as [Hy Hids].
    pose proof (node_at_tag_ids ch p n _ H Hn) as Hin.
    cbn [path_of_id].
    destruct (Nat.eqb_spec y (tag_id n)) as [E|_].
    { exfalso. apply Hy. rewrite E. apply list_elem_of_In, in_flat_map.
      exists ch. split; [|exact Hin].
      exact (lookup_In _ _ _ Ei). }
    assert (G : forall (cs : list Node) (i k : nat),
               cs !! i = Some ch -> NoDup (flat_map tag_ids cs) ->
               (fix go (i : nat) (cs : list Node) : option (list nat) :=
                  match cs with
                  | [] => None
                  | ch :: cs' =>
                    match path_of_id (tag_id n) ch with
                    | Some p => Some (i :: p)
                    | None => go (S i) cs'
                    end
                  end) k cs = Some ((k + i)%nat :: p)).
    { clear Ei Hids Hy cs. induction cs as [|c cs IHcs]; intros j k Ej Hnd;
        [discriminate|].
      cbn [flat_map] in Hnd. apply NoDup_app in Hnd as (Hc & Hdis & Hcs).
      destruct j as [|j].
      - injection Ej as ->. rewrite (IH ch Hc H Hn). now rewrite Nat.add_0_r.
      - cbn [lookup list_lookup] in Ej.
        destruct (path_of_id (tag_id n) c) as [q|] eqn:Eq.
        + exfalso. apply path_of_id_tag_ids in Eq.
          apply (Hdis (tag_id n)); [now apply list_elem_of_In|].
          apply list_elem_of_In, in_flat_map. exists ch. split; [|exact Hin].
          exact (lookup_In _ _ _ Ej).
        + rewrite (IHcs j (S k) Ej Hcs). f_equal. f_equal. lia. }
    exact (G cs i 0%nat Ei Hids).
Qed.

End TreePositions.

Section CompoundMerge.

Import ExtractRubySmart.

Lemma is_all_kanji_app (a b : list Z) :
  is_all_kanji a = true -> is_all_kanji b = true -> is_all_kanji (a ++ b) = true.
Proof.
  unfold is_all_kanji. destruct a as [|x a]; [discriminate|].
  destruct b as [|y b]; [discriminate|].
  cbn [truthy negb app forallb]. intros Ha Hb.
  apply andb_true_iff in Ha as [Hx Ha]. rewrite Hx. cbn [andb].
  rewrite forallb_app, Ha. cbn [andb forallb]. exact Hb.
Qed.

(* The search for the next ruby sibling skips the whitespace of an item. *)
Lemma next_sibling_ruby_item (gap : list Node) (r : Node) (more : list Node) :
  forallb blank_text gap = true -> tag_named (u "ruby") r = true ->
  next_sibling_ruby (gap ++ r :: more) = Some (length gap).
Proof.
  intros Hg Hr. induction gap as [|g gap IH]; simpl.
  - destruct r as [s|id nm at_ cs]; [discriminate|]. simpl in Hr.
    now rewrite Hr.
  - simpl in Hg. apply andb_true_iff in Hg as [Hb Hg].
    destruct g as [s|id nm at_ cs]; [|discriminate]. simpl in Hb.
    apply andb_true_iff in Hb as [H1 H2]. rewrite H1, H2.
    rewrite (IH Hg). reflexivity.
Qed.

Lemma extract_ruby_base_at_node (root : Node) (p : list nat) (r : Node) :
  node_at root p = Some r ->
  extract_ruby_base_at root p
  = ((ruby_base r, ruby_reading r),
     update_at root p (snd (extract_ruby_base r))).
Proof.
  intros H. unfold extract_ruby_base_at, ruby_base, ruby_reading. rewrite H.
  destruct (extract_ruby_base r) as [[b rd] r']. reflexivity.
Qed.

Lemma run_nodes_length (items : list (list Node * Node)) :
  (length items <= length (run_nodes items))%nat.
Proof.
  induction items as [|[gap r] items IH]; [simpl; lia|].
  cbn [run_nodes flat_map fst snd length]. fold (run_nodes items).
  rewrite !length_app. cbn [length]. lia.
Qed.

End CompoundMerge.

Section RunOfRubies.

Import ExtractRubySmart.

Lemma extract_ruby_base_tag (r : Node) :
  tag_named (u "ruby") r = true ->
  exists id nm at_ cs, snd (extract_ruby_base r) = Tag id nm at_ cs.
Proof.
  intros H. unfold extract_ruby_base. rewrite H. cbn [negb].
  destruct r as [k s|id nm at_ cs]; [discriminate|].
  destruct (pop_first (u "rt") (u "rp") (Tag id nm at_ cs)) as [[[rt inside] without]|] eqn:E;
    [|cbn [snd]; eauto].
  cbn [snd]. cbn [pop_first] in E.
  match type of E with
  | match ?g with _ => _ end = _ => destruct g as [[[f i0] cs']|]; [|discriminate]
  end.
  injection E as <- <- <-. cbn [remove_all append_child]. eauto.
Qed.

Lemma next_sibling_ruby_found (l : list Node) (k : nat) :
  next_sibling_ruby l = Some k ->
  exists r, l !! k = Some r /\ tag_named (u "ruby") r = true.
Proof.
  revert k. induction l as [|n l IH]; intros k; [discriminate|].
  cbn [next_sibling_ruby]. destruct n as [kind s|id nm at_ cs].
  - destruct (truthy s); [|discriminate].
    destruct (negb (truthy (strip s))); [|discriminate].
    destruct (next_sibling_ruby l) as [k'|]; [|discriminate].
    intros [= <-]. destruct (IH k' eq_refl) as (r & Hr & Hn). now exists r.
  - destruct (str_eqb nm (u "ruby")) eqn:E; [|discriminate].
    intros [= <-]. exists (Tag id nm at_ cs). split; [reflexivity | exact E].
Qed.

Lemma trailing_of_insert (rest : list Node) (k : nat) (r r' : Node) :
  rest !! k = Some r -> tag_named (u "ruby") r = true ->
  (exists id nm at_ cs, r' = Tag id nm at_ cs) ->
  trailing_of (<[k := r']> rest) = trailing_of rest.
Proof.
  intros Hk Hr (id & nm & at_ & cs & ->).
  destruct rest as [|n rest]; [reflexivity|].
  destruct k as [|k]; [|reflexivity].
  injection Hk as ->. destruct r; [discriminate | reflexivity].
Qed.

Lemma get_trailing_text_child (root : Node) (parent : list nat) (id : nat) (nm : list Z)
    (at_ : list (list Z * list Z)) (sibs : list Node) (j : nat) :
  node_at root parent = Some (Tag id nm at_ sibs) ->
  get_trailing_text root (parent ++ [j]) = trailing_of (drop (S j) sibs).
Proof.
  intros H. unfold get_trailing_text.
  rewrite (siblings_at_child _ _ _ _ _ _ _ H).
  assert (E : sibs !! S j = drop (S j) sibs !! 0%nat)
    by (rewrite lookup_drop; f_equal; lia).
  rewrite E. destruct (drop (S j) sibs) as [|n l]; [reflexivity|].
  destruct n; reflexivity.
Qed.

(* The loop of the compound merge over a run: the state it ends in. *)
Lemma compound_merge_trace (parent : list nat) (id : nat) (nm : list Z)
    (at_ : list (list Z * list Z)) (rest : list Node)
    (items : list (list Node * Node)) :
  forall (fuel : nat) (root : Node) (sibs : list Node) (i : nat)
         (base rd : list Z) (processed : list nat),
    (length items < fuel)%nat ->
    node_at root parent = Some (Tag id nm at_ sibs) ->
    drop (S i) sibs = run_nodes items ++ rest ->
    merged_run base items = true ->
    merge_stops (base ++ concat (map (fun it => ruby_base (snd it)) items)) rest ->
    exists (root2 : Node) (sibs2 : list Node),
      compound_merge fuel root (parent ++ [i]) base rd processed
      = (root2, parent ++ [(i + length (run_nodes items))%nat],
         (base ++ concat (map (fun it => ruby_base (snd it)) items),
          rd ++ concat (map (fun it => ruby_reading (snd it)) items)),
         rev (map (fun it => tag_id (snd it)) items) ++ processed)
      /\ node_at root2 parent = Some (Tag id nm at_ sibs2)
      /\ trailing_of (drop (S (i + length (run_nodes items))) sibs2)
         = trailing_of rest.
Proof.
  induction items as [|[gap r] items IH];
    intros fuel root sibs i base rd processed Hfuel Hpar Hdrop Hrun Hstop.
  - cbn [map concat run_nodes flat_map length rev app] in *.
    rewrite !app_nil_r in *. rewrite Nat.add_0_r.
    destruct fuel as [|fuel]; [lia|].
    cbn [compound_merge]. unfold get_next_sibling_ruby.
    rewrite (siblings_at_child _ _ _ _ _ _ _ Hpar), Hdrop.
    unfold merge_stops in Hstop.
    destruct (next_sibling_ruby rest) as [k|] eqn:Hn.
    + destruct Hstop as (r & Hr & Htest). rewrite removelast_last.
      destruct (next_sibling_ruby_found rest k Hn) as (r0 & Hr0 & Hname).
      assert (r0 = r) by congruence. subst r0.
      assert (Hs : sibs !! (S i + k)%nat = Some r).
      { rewrite <- Hr, <- Hdrop. now rewrite lookup_drop. }
      rewrite (extract_ruby_base_at_node root _ r)
        by (now rewrite (node_at_child _ _ _ _ _ _ _ Hpar)).
      fold (ruby_base r) in Htest. rewrite Htest.
      set (r' := snd (extract_ruby_base r)).
      exists (update_at root (parent ++ [(S i + k)%nat]) r'),
             (<[(S i + k)%nat := r']> sibs).
      split; [reflexivity|].
      split; [exact (node_at_update_child root parent id nm at_ sibs _ r r' Hpar Hs)|].
      rewrite drop_insert_ge by lia.
      replace (S i + k - S i)%nat with k by lia. rewrite Hdrop.
      apply (trailing_of_insert rest k r r' Hr Hname).
      apply (extract_ruby_base_tag r Hname).
    + exists root, sibs. split; [reflexivity|]. split; [exact Hpar|].
      now rewrite Hdrop.
  - cbn [merged_run] in Hrun. apply andb_true_iff in Hrun as [Hbase Hok].
    cbn [forallb] in Hok. apply andb_true_iff in Hok as [Hit Hok].
    unfold mergeable_item in Hit. cbn [fst snd] in Hit.
    apply andb_true_iff in Hit as [Hit Hk]. apply andb_true_iff in Hit as [Hg Hr].
    destruct fuel as [|fuel]; [cbn [length] in Hfuel; lia|].
    cbn [compound_merge]. unfold get_next_sibling_ruby.
    rewrite (siblings_at_child _ _ _ _ _ _ _ Hpar).
    cbn [run_nodes flat_map fst snd] in Hdrop. fold (run_nodes items) in Hdrop.
    rewrite <- !app_assoc in Hdrop. cbn [app] in Hdrop.
    rewrite Hdrop, (next_sibling_ruby_item gap r _ Hg Hr), removelast_last.
    set (j := (S i + length gap)%nat).
    assert (Hs : sibs !! j = Some r).
    { subst j. rewrite <- lookup_drop, Hdrop.
      rewrite lookup_app_r by lia. now rewrite Nat.sub_diag. }
    rewrite (extract_ruby_base_at_node root _ r)
      by (now rewrite (node_at_child _ _ _ _ _ _ _ Hpar)).
    rewrite Hbase, Hk. cbn [andb].
    set (r' := snd (extract_ruby_base r)).
    pose proof (node_at_update_child root parent id nm at_ sibs j r r' Hpar Hs) as Hpar'.
    assert (Hdrop' : drop (S j) (<[j := r']> sibs) = run_nodes items ++ rest).
    { rewrite drop_insert_lt by lia. subst j.
      replace (S (S i + length gap)) with (S i + (length gap + 1))%nat by lia.
      rewrite <- drop_drop, Hdrop.
      replace (gap ++ r :: run_nodes items ++ rest)
        with ((gap ++ [r]) ++ run_nodes items ++ rest)
        by (now rewrite <- app_assoc).
      rewrite drop_app_length'; [reflexivity|].
      rewrite length_app. cbn [length]. lia. }
    assert (Hrun' : merged_run (base ++ ruby_base r) items = true).
    { destruct items as [|it items']; [reflexivity|].
      cbn [merged_run]. rewrite (is_all_kanji_app _ _ Hbase Hk). exact Hok. }
    assert (Hstop' : merge_stops
                       ((base ++ ruby_base r)
                          ++ concat (map (fun it => ruby_base (snd it)) items)) rest).
    { cbn [map concat snd] in Hstop. now rewrite <- app_assoc. }
    assert (Eid : id_at root (parent ++ [j]) = tag_id r).
    { unfold id_at. now rewrite (node_at_child _ _ _ _ _ _ _ Hpar), Hs. }
    rewrite Eid.
    destruct (IH fuel _ _ j (base ++ ruby_base r) (rd ++ ruby_reading r)
                 (tag_id r :: processed) ltac:(cbn [length] in Hfuel; lia)
                 Hpar' Hdrop' Hrun' Hstop') as (root2 & sibs2 & E & Hp2 & Ht2).
    exists root2, sibs2.
    assert (Elen : (i + length (run_nodes ((gap, r) :: items)))%nat
                   = (j + length (run_nodes items))%nat).
    { subst j. cbn [run_nodes flat_map fst snd]. fold (run_nodes items).
      rewrite !length_app. cbn [length]. lia. }
    rewrite Elen. split; [|split; [exact Hp2 | exact Ht2]].
    rewrite E. cbn [map concat snd fst rev].
    rewrite <- !app_assoc. reflexivity.
Qed.

Lemma id_in_true (x : nat) (ids : list nat) :
  id_in x ids = true <-> In x ids.
Proof.
  unfold id_in. rewrite bool_decide_eq_true. apply list_elem_of_In.
Qed.

(* One iteration of the loop over the ruby tags, at the first ruby tag of
   a run that is not processed yet: the entry of the run is added, unless
   its word is its reading or is in the dictionary, and the ruby tags of
   the run are processed. *)
Lemma ruby_step_run (root : Node) (words : list (list Z * WordEntry))
    (processed : list nat) (parent : list nat) (i : nat) (first : Node)
    (items : list (list Node * Node)) (rest : list Node) :
  run_at root parent i first items rest ->
  id_in (tag_id first) processed = false ->
  truthy (ruby_base first) = true ->
  truthy (ruby_reading first) = true ->
  startswith (ruby_base first) [REPETITION_MARK] = false ->
  merged_run (ruby_base first) items = true ->
  merge_stops (run_base first items) rest ->
  let e := run_entry first items rest in
  exists root2 : Node,
    ruby_step (root, words, processed) (tag_id first)
    = (root2,
       (if negb (str_eqb (word e) (reading e)) && negb (words_has (word e) words)
        then words ++ [(word e, e)] else words),
       rev (map (fun it => tag_id (snd it)) items) ++ tag_id first :: processed).
Proof.
  intros (id & nm & at_ & sibs & Hpar & Hi & Hname & Hwhere & Hdrop)
         Hnew Tb Tr Hm Hrun Hstop e.
  unfold ruby_step. rewrite Hnew, Hwhere.
  rewrite (extract_ruby_base_at_node root _ first)
    by (now rewrite (node_at_child _ _ _ _ _ _ _ Hpar)).
  rewrite Tb, Tr, Hm. cbn [negb orb].
  set (first' := snd (extract_ruby_base first)).
  pose proof (node_at_update_child root parent id nm at_ sibs i first first' Hpar Hi)
    as Hpar1.
  assert (Hdrop1 : drop (S i) (<[i := first']> sibs) = run_nodes items ++ rest)
    by (rewrite drop_insert_lt by lia; exact Hdrop).
  rewrite (siblings_at_child _ _ _ _ _ _ _ Hpar1). cbn [fst].
  assert (Hfuel : (length items < length (<[i := first']> sibs))%nat).
  { rewrite length_insert. pose proof (run_nodes_length items) as H1.
    assert (H2 : length (drop (S i) sibs) = length (run_nodes items ++ rest))
      by (now rewrite Hdrop).
    rewrite length_drop, length_app in H2.
    apply lookup_lt_Some in Hi. lia. }
  destruct (compound_merge_trace parent id nm at_ rest items _ _ _ i
              (ruby_base first) (ruby_reading first) (tag_id first :: processed)
              Hfuel Hpar1 Hdrop1 Hrun Hstop) as (root2 & sibs2 & E & Hp2 & Ht2).
  rewrite E. rewrite (get_trailing_text_child root2 parent id nm at_ sibs2 _ Hp2), Ht2.
  fold (run_base first items) (run_reading first items).
  set (found_suffix := okurigana_suffix (run_base first items) (trailing_of rest)).
  assert (Ew : (if truthy found_suffix then run_base first items ++ found_suffix
                else run_base first items) = word e).
  { subst e. unfold run_entry. fold found_suffix. cbn [new_entry word].
    destruct found_suffix; [now rewrite app_nil_r | reflexivity]. }
  assert (Er : (if truthy found_suffix then run_reading first items ++ found_suffix
                else run_reading first items) = reading e).
  { subst e. unfold run_entry. fold found_suffix. cbn [new_entry reading].
    destruct found_suffix; [now rewrite app_nil_r | reflexivity]. }
  rewrite Ew, Er. exists root2.
  assert (Ee : new_entry (word e) (reading e) = e) by reflexivity.
  rewrite Ee.
  destruct (str_eqb (word e) (reading e)); cbn [negb andb]; [reflexivity|].
  destruct (words_has (word e) words); reflexivity.
Qed.

(* a ruby tag that is processed is passed over *)
Lemma ruby_step_processed (st : loop_state) (ruby : nat) :
  id_in ruby (snd st) = true -> ruby_step st ruby = st.
Proof.
  destruct st as [[root words] processed]. cbn [snd]. intros H.
  unfold ruby_step. now rewrite H.
Qed.

Lemma ruby_loop_processed (rubies : list nat) (st : loop_state) :
  Forall (fun q => id_in q (snd st) = true) rubies ->
  foldl ruby_step st rubies = st.
Proof.
  induction 1 as [|q rubies Hq _ IH]; [reflexivity|].
  cbn [foldl]. now rewrite (ruby_step_processed st q Hq).
Qed.

(* the dictionary only grows *)
Lemma ruby_step_grows (st : loop_state) (ruby : nat) :
  exists more, snd (fst (ruby_step st ruby)) = snd (fst st) ++ more.
Proof.
  destruct st as [[root words] processed]. cbn [fst snd].
  assert (Same : exists more, words = words ++ more)
    by (exists []; now rewrite app_nil_r).
  unfold ruby_step.
  destruct (id_in ruby processed); [exact Same|].
  destruct (path_of_id ruby root) as [position|]; [|exact Same].
  destruct (extract_ruby_base_at root position) as [[base rd] root1].
  destruct (negb (truthy base) || negb (truthy rd)); [exact Same|].
  destruct (startswith base [REPETITION_MARK]); [exact Same|].
  destruct (compound_merge _ root1 position base rd (ruby :: processed))
    as [[[root2 current_ruby] [base2 rd2]] processed2].
  destruct (negb (str_eqb _ _)); [|exact Same].
  destruct (negb (words_has _ words)); [|exact Same].
  cbn [fst snd]. now eexists.
Qed.

Lemma ruby_loop_grows (rubies : list nat) :
  forall st : loop_state,
    exists more, snd (fst (foldl ruby_step st rubies)) = snd (fst st) ++ more.
Proof.
  induction rubies as [|q rubies IH]; intros st.
  - exists []. now rewrite app_nil_r.
  - cbn [foldl]. destruct (ruby_step_grows st q) as (m1 & E1).
    destruct (IH (ruby_step st q)) as (m2 & E2).
    exists (m1 ++ m2). now rewrite E2, E1, <- app_assoc.
Qed.

(* The dictionary of a document that begins with a run of ruby tags: the
   entry of the run comes first, and is the only one when the document has
   no other ruby tag. *)
Lemma run_words (html : Node) (parent : list nat) (i : nat) (first : Node)
    (items : list (list Node * Node)) (rest : list Node) (later : list nat) :
  run_at html parent i first items rest ->
  run_comes_first html first items later ->
  truthy (ruby_base first) = true ->
  truthy (ruby_reading first) = true ->
  startswith (ruby_base first) [REPETITION_MARK] = false ->
  merged_run (ruby_base first) items = true ->
  merge_stops (run_base first items) rest ->
  let e := run_entry first items rest in
  exists more : list WordEntry,
    extract_words_from_html html
    = (if str_eqb (word e) (reading e) then [] else [e]) ++ more
    /\ (later = [] -> more = []).
Proof.
  intros Hat Hall Tb Tr Hm Hrun Hstop e.
  unfold extract_words_from_html. rewrite Hall.
  cbn [foldl]. rewrite foldl_app.
  destruct (ruby_step_run html [] [] parent i first items rest
              Hat eq_refl Tb Tr Hm Hrun Hstop) as (root2 & E).
  fold e in E. rewrite E. cbn [words_has negb andb app].
  rewrite andb_true_r.
  set (st1 := (root2, _, _)).
  assert (Hskip : foldl ruby_step st1 (map (fun it => tag_id (snd it)) items) = st1).
  { apply ruby_loop_processed. apply List.Forall_forall. intros q Hq.
    apply id_in_true. subst st1. cbn [snd].
    apply in_or_app. left. now apply in_rev in Hq. }
  rewrite Hskip.
  destruct (ruby_loop_grows later st1) as (more & Emore).
  destruct (foldl ruby_step st1 later) as [[root3 words3] processed3] eqn:El.
  cbn [fst snd] in Emore. subst st1. cbn [fst snd] in Emore.
  exists (map snd more). split.
  - rewrite Emore, map_app. f_equal.
    destruct (str_eqb (word e) (reading e)); reflexivity.
  - intros ->. cbn [foldl] in El. injection El as _ Ew _.
    set (w1 := if negb (str_eqb (word e) (reading e)) then [(word e, e)] else [])
      in *.
    assert (Ew' : w1 ++ [] = w1 ++ more)
      by (rewrite app_nil_r, <- Emore; exact Ew).
    apply app_inv_head in Ew'. now subst more.
Qed.

(* The tags of the tree being distinct objects, a ruby tag is found by its
   identity where it is. *)
Lemma run_at_distinct (root : Node) (parent : list nat) (id : nat) (nm : list Z)
    (at_ : list (list Z * list Z)) (sibs : list Node) (i : nat) (first : Node)
    (items : list (list Node * Node)) (rest : list Node) :
  NoDup (tag_ids root) ->
  node_at root parent = Some (Tag id nm at_ sibs) ->
  sibs !! i = Some first ->
  tag_named (u "ruby") first = true ->
  drop (S i) sibs = run_nodes items ++ rest ->
  run_at root parent i first items rest.
Proof.
  intros Hids Hpar Hi Hname Hdrop. exists id, nm, at_, sibs.
  repeat split; try assumption.
  apply (path_of_id_node_at root _ first Hids); [|exact Hname].
  now rewrite (node_at_child _ _ _ _ _ _ _ Hpar).
Qed.

End RunOfRubies.

Section VocabularyEntries.

Import ExtractRubySmart.

Lemma is_all_kanji_truthy (s : list Z) : is_all_kanji s = true -> truthy s = true.
Proof. unfold is_all_kanji. destruct s; [discriminate | reflexivity]. Qed.

(* A hiragana character alone before something that is no hiragana: the
   candidate is this character. *)
Lemma okurigana_suffix_lone (base after : list Z) (ch : Z) :
  take_while hiragana_class after = [] ->
  okurigana_suffix base (ch :: after)
  = if hiragana_class ch then
      if str_in [ch] VALID_OKURIGANA && negb (str_in [ch] PARTICLES) then [ch]
      else if str_eqb [ch] (u "う") && truthy base
              && char_in (List.last base 0) VOLITIONAL_STEMS
      then [ch]
      else []
    else [].
Proof.
  intros Ha. unfold okurigana_suffix, HIRAGANA_PATTERN. cbn [take_while].
  destruct (hiragana_class ch); [|reflexivity].
  rewrite Ha. reflexivity.
Qed.

Lemma lone_particle (base after : list Z) (ch : Z) :
  take_while hiragana_class after = [] ->
  str_in [ch] PARTICLES = true ->
  okurigana_suffix base (ch :: after) = [].
Proof.
  intros Ha Hp. rewrite (okurigana_suffix_lone base after ch Ha).
  destruct (hiragana_class ch); [|reflexivity].
  rewrite Hp, andb_false_r.
  destruct (str_eqb [ch] (u "う")) eqn:E; [|reflexivity].
  apply str_eqb_eq in E. rewrite E, u_not_particle in Hp. discriminate.
Qed.

Lemma lone_u (base after : list Z) :
  take_while hiragana_class after = [] ->
  okurigana_suffix base (u "う" ++ after) = u "う".
Proof.
  intros Ha. exact (okurigana_suffix_lone base after (c1 "う") Ha).
Qed.

(** C7 (as amended).  Compound merge, started at a ruby node whose base is
    made of characters of the class of the script (U+4E00 to U+9FAF,
    U+3400 to U+4DBF) and of repetition marks: as long as the next
    sibling, whitespace-only strings skipped, is a ruby node with such a
    base, its base and its reading are appended.  A run of such siblings
    makes one entry, the concatenation of the bases read as the
    concatenation of the readings, each followed by the okurigana found
    after the run: the iteration of the loop at the first node of the run
    adds that entry, unless its word is its reading or is in the
    dictionary already, and marks the nodes of the run as processed.  It
    is the first entry of the dictionary when the run comes first in the
    document, and the only one when the document has no other ruby node.
    The two adjacent nodes 留 read と and 守 read もり give the single entry
    留守 read ともり. *)
Theorem compound_merge_run (root : Node) (words : list (list Z * WordEntry))
    (processed_rubies : list nat) (parent : list nat) (i : nat)
    (first : Node) (items : list (list Node * Node)) (rest : list Node) :
  run_at root parent i first items rest ->
  id_in (tag_id first) processed_rubies = false ->
  is_all_kanji (ruby_base first) = true ->
  truthy (ruby_reading first) = true ->
  startswith (ruby_base first) [REPETITION_MARK] = false ->
  forallb mergeable_item items = true ->
  merge_stops (run_base first items) rest ->
  let found_suffix := okurigana_suffix (run_base first items) (trailing_of rest) in
  let base := ruby_base first
                ++ concat (map (fun it => ruby_base (snd it)) items) ++ found_suffix in
  let rd := ruby_reading first
              ++ concat (map (fun it => ruby_reading (snd it)) items) ++ found_suffix in
  (exists root2 : Node,
     ruby_step (root, words, processed_rubies) (tag_id first)
     = (root2,
        (if negb (str_eqb base rd) && negb (words_has base words)
         then words ++ [(base, new_entry base rd)] else words),
        rev (map (fun it => tag_id (snd it)) items)
          ++ tag_id first :: processed_rubies))
  /\ (forall later : list nat,
        run_comes_first root first items later ->
        exists more : list WordEntry,
          extract_words_from_html root
          = (if str_eqb base rd then [] else [new_entry base rd]) ++ more
          /\ (later = [] -> more = []))
  /\ extract_words_from_html
       (number (soup [elem "p" [ruby_node (u "留") (u "と"); ruby_node (u "守") (u "もり")]]))
     = [new_entry (u "留守") (u "ともり")].
Proof.
  intros Hat Hnew Hk Tr Hm Hitems Hstop found_suffix base rd.
  assert (Hmerged : merged_run (ruby_base first) items = true).
  { destruct items as [|it items']; [reflexivity|].
    cbn [merged_run]. now rewrite Hk. }
  assert (Eb : word (run_entry first items rest) = base).
  { unfold run_entry. fold found_suffix. cbn [new_entry word].
    subst base. unfold run_base. now rewrite <- app_assoc. }
  assert (Er : reading (run_entry first items rest) = rd).
  { unfold run_entry. fold found_suffix. cbn [new_entry reading].
    subst rd. unfold run_reading. now rewrite <- app_assoc. }
  assert (Ee : run_entry first items rest = new_entry base rd).
  { rewrite <- Eb, <- Er. reflexivity. }
  split; [|split; [|vm_compute; reflexivity]].
  - destruct (ruby_step_run root words processed_rubies parent i first items rest
                Hat Hnew (is_all_kanji_truthy _ Hk) Tr Hm Hmerged Hstop)
      as (root2 & E).
    exists root2. rewrite E, Eb, Er, Ee. reflexivity.
  - intros later Hall.
    destruct (run_words root parent i first items rest later Hat Hall
                (is_all_kanji_truthy _ Hk) Tr Hm Hmerged Hstop) as (more & E & Hl).
    exists more. split; [|exact Hl]. rewrite E, Eb, Er, Ee. reflexivity.
Qed.

(** C8 (as amended).  Okurigana capture appends to the base and to the
    reading of the (possibly merged) ruby node the longest prefix of the
    text that follows it, of at most four characters, that is an entry of
    the table of endings and, when it is a single character, is not a
    particle; it appends nothing when there is no such prefix (in
    particular when the text does not start with hiragana).  The entry of
    the dictionary is made of the base and the reading so extended: the
    iteration of the loop at the node adds it, unless its word is its
    reading or is in the dictionary already, and it is the first entry of
    the dictionary when the node comes first in the document.  A ruby node
    行 read い followed by the text った gives the entry 行った read いった, by
    the match of two characters. *)
Theorem okurigana_longest_match (root : Node) (words : list (list Z * WordEntry))
    (processed_rubies : list nat) (parent : list nat) (i : nat)
    (first : Node) (items : list (list Node * Node)) (rest : list Node) :
  run_at root parent i first items rest ->
  id_in (tag_id first) processed_rubies = false ->
  truthy (ruby_base first) = true ->
  truthy (ruby_reading first) = true ->
  startswith (ruby_base first) [REPETITION_MARK] = false ->
  merged_run (ruby_base first) items = true ->
  merge_stops (run_base first items) rest ->
  let trailing := trailing_of rest in
  (exists found_suffix : list Z,
     let base := run_base first items ++ found_suffix in
     let rd := run_reading first items ++ found_suffix in
     (found_suffix = []
      \/ exists k, (1 <= k <= 4)%nat
           /\ found_suffix = take k trailing
           /\ length found_suffix = k
           /\ capturable found_suffix)
     /\ (forall p after : list Z,
           trailing = p ++ after -> capturable p ->
           (length p <= length found_suffix)%nat)
     /\ (exists root2 : Node,
           ruby_step (root, words, processed_rubies) (tag_id first)
           = (root2,
              (if negb (str_eqb base rd) && negb (words_has base words)
               then words ++ [(base, new_entry base rd)] else words),
              rev (map (fun it => tag_id (snd it)) items)
                ++ tag_id first :: processed_rubies))
     /\ (forall later : list nat,
           run_comes_first root first items later ->
           exists more : list WordEntry,
             extract_words_from_html root
             = (if str_eqb base rd then [] else [new_entry base rd]) ++ more
             /\ (later = [] -> more = [])))
  /\ extract_words_from_html
       (number (soup [elem "p" [ruby_node (u "行") (u "い"); text (u "った")]]))
     = [new_entry (u "行った") (u "いった")].
Proof.
  intros Hat Hnew Tb Tr Hm Hmerged Hstop trailing.
  split; [|vm_compute; reflexivity].
  exists (okurigana_suffix (run_base first items) trailing).
  split; [|split; [|split]].
  - destruct (okurigana_suffix_cases (run_base first items) trailing)
      as [E|(k & Hk & E & L & C)]; [now left|].
    right. exists k. rewrite E. auto.
  - intros p after. apply okurigana_suffix_longest.
  - destruct (ruby_step_run root words processed_rubies parent i first items rest
                Hat Hnew Tb Tr Hm Hmerged Hstop) as (root2 & E).
    exists root2. exact E.
  - intros later Hall.
    destruct (run_words root parent i first items rest later Hat Hall
                Tb Tr Hm Hmerged Hstop) as (more & E & Hl).
    exists more. split; [exact E | exact Hl].
Qed.

(** C10.  A single character appended by okurigana capture is never a
    particle, although で ね and さ are entries of the table of endings: when
    the text after the (possibly merged) ruby node is one hiragana
    character that is a particle (で or ね, say) followed by something that
    is no hiragana, nothing is appended to the base and the reading of the
    entry.  When that character is う, it is appended to both, whatever the
    base, so in particular when the base ends in こ そ よ or ろ.  The entry is
    the one the iteration of the loop at the node adds, unless its word is
    its reading or is in the dictionary already, and the first entry of
    the dictionary when the node comes first in the document. *)
Theorem particle_never_captured (root : Node) (words : list (list Z * WordEntry))
    (processed_rubies : list nat) (parent : list nat) (i : nat)
    (first : Node) (items : list (list Node * Node)) (rest : list Node)
    (ch : Z) (after : list Z) :
  run_at root parent i first items rest ->
  id_in (tag_id first) processed_rubies = false ->
  truthy (ruby_base first) = true ->
  truthy (ruby_reading first) = true ->
  startswith (ruby_base first) [REPETITION_MARK] = false ->
  merged_run (ruby_base first) items = true ->
  merge_stops (run_base first items) rest ->
  trailing_of rest = ch :: after ->
  take_while hiragana_class after = [] ->
  str_in [ch] PARTICLES = true \/ ch = c1 "う" ->
  let appended := if str_in [ch] PARTICLES then [] else u "う" in
  let base := run_base first items ++ appended in
  let rd := run_reading first items ++ appended in
  (exists root2 : Node,
     ruby_step (root, words, processed_rubies) (tag_id first)
     = (root2,
        (if negb (str_eqb base rd) && negb (words_has base words)
         then words ++ [(base, new_entry base rd)] else words),
        rev (map (fun it => tag_id (snd it)) items)
          ++ tag_id first :: processed_rubies))
  /\ (forall later : list nat,
        run_comes_first root first items later ->
        exists more : list WordEntry,
          extract_words_from_html root
          = (if str_eqb base rd then [] else [new_entry base rd]) ++ more
          /\ (later = [] -> more = []))
  /\ (forall (base trailing : list Z) (x : Z),
        okurigana_suffix base trailing = [x] -> str_in [x] PARTICLES = false)
  /\ (str_in (u "で") VALID_OKURIGANA = true /\ str_in (u "で") PARTICLES = true
      /\ str_in (u "ね") VALID_OKURIGANA = true /\ str_in (u "ね") PARTICLES = true
      /\ str_in (u "う") PARTICLES = false).
Proof.
  intros Hat Hnew Tb Tr Hm Hmerged Hstop Htr Hafter Hch appended base rd.
  assert (Ea : okurigana_suffix (run_base first items) (trailing_of rest) = appended).
  { subst appended. rewrite Htr. destruct Hch as [Hp| ->].
    - rewrite Hp. exact (lone_particle _ after ch Hafter Hp).
    - change [c1 "う"] with (u "う"). rewrite u_not_particle.
      exact (lone_u _ after Hafter). }
  assert (Ee : run_entry first items rest = new_entry base rd).
  { unfold run_entry. rewrite Ea. reflexivity. }
  split; [|split; [|split]].
  - destruct (ruby_step_run root words processed_rubies parent i first items rest
                Hat Hnew Tb Tr Hm Hmerged Hstop) as (root2 & E).
    exists root2. rewrite E, Ee. reflexivity.
  - intros later Hall.
    destruct (run_words root parent i first items rest later Hat Hall
                Tb Tr Hm Hmerged Hstop) as (more & E & Hl).
    exists more. split; [|exact Hl]. rewrite E, Ee. reflexivity.
  - intros base0 trailing x H.
    destruct (okurigana_suffix_cases base0 trailing) as [E0|(k & Hk & E0 & L & C)].
    + congruence.
    + rewrite E0 in H. rewrite H in C, L. destruct C as (_ & _ & NP).
      apply not_str_in. apply NP. reflexivity.
  - vm_compute. repeat split; reflexivity.
Qed.

End VocabularyEntries.

(* The run 留 守 with a line break between the two ruby nodes, followed by
   the text 番 and, in another paragraph, by a ruby node that is not
   merged. *)
Lemma compound_merge_run_witness :
  exists more : list ExtractRubySmart.WordEntry,
    ExtractRubySmart.extract_words_from_html
      (number (soup [elem "p" [ruby_node (u "留") (u "と"); text [NL; 0x20];
                               ruby_node (u "守") (u "もり"); text (u "番")];
                     elem "p" [ruby_node (u "猫") (u "ねこ")]]))
    = [ExtractRubySmart.new_entry (u "留守") (u "ともり")] ++ more.
Proof.
  destruct (compound_merge_run
              (number (soup [elem "p" [ruby_node (u "留") (u "と"); text [NL; 0x20];
                                       ruby_node (u "守") (u "もり"); text (u "番")];
                             elem "p" [ruby_node (u "猫") (u "ねこ")]]))
              [] [] [0%nat] 0%nat (numbered 2 (ruby_node (u "留") (u "と")))
              [([text [NL; 0x20]], numbered 4 (ruby_node (u "守") (u "もり")))]
              [text (u "番")]) as (_ & Hdoc & _).
  - exists 1%nat, (u "p"), [],
      [numbered 2 (ruby_node (u "留") (u "と")); text [NL; 0x20];
       numbered 4 (ruby_node (u "守") (u "もり")); text (u "番")].
    repeat split; vm_compute; reflexivity.
  - vm_compute. reflexivity.
  - vm_compute. reflexivity.
  - vm_compute. reflexivity.
  - vm_compute. reflexivity.
  - vm_compute. reflexivity.
  - vm_compute. exact I.
  - destruct (Hdoc [7%nat] ltac:(vm_compute; reflexivity)) as (more & E & _).
    exists more. exact E.
Defined.

(* Counterexample to C7 as stated: U+9FB0 is a kanji (it lies in U+4E00 to
   U+9FFF) but is outside the class of the script, which ends at U+9FAF:
   two adjacent ruby nodes whose bases are entirely kanji are not merged. *)
Lemma kanji_not_merged_counterexample :
  let html := number (soup [elem "p" [ruby_node [0x9FB0] (u "と");
                                      ruby_node (u "守") (u "もり")]]) in
  Forall (fun ch => is_kanji ch = true) ([0x9FB0] ++ u "守")
  /\ ExtractRubySmart.extract_words_from_html html
     = [ExtractRubySmart.new_entry [0x9FB0] (u "と");
        ExtractRubySmart.new_entry (u "守") (u "もり")]
  /\ ExtractRubySmart.extract_words_from_html html
     <> [ExtractRubySmart.new_entry ([0x9FB0] ++ u "守") (u "ともり")].
Proof.
  split; [|split].
  - repeat constructor.
  - vm_compute. reflexivity.
  - intros H. apply (f_equal (@length _)) in H. vm_compute in H. discriminate H.
Qed.

(* った is an ending that may be captured after 行, and no longer one is. *)
Lemma okurigana_longest_match_witness :
  ExtractRubySmart.extract_words_from_html
    (number (soup [elem "p" [ruby_node (u "行") (u "い"); text (u "った。")]]))
  = [ExtractRubySmart.new_entry (u "行った") (u "いった")].
Proof.
  destruct (okurigana_longest_match
              (number (soup [elem "p" [ruby_node (u "行") (u "い"); text (u "った。")]]))
              [] [] [0%nat] 0%nat (numbered 2 (ruby_node (u "行") (u "い"))) []
              [text (u "った。")])
    as ((sfx & Hs & Hlong & _ & Hdoc) & _).
  - exists 1%nat, (u "p"), [],
      [numbered 2 (ruby_node (u "行") (u "い")); text (u "った。")].
    repeat split; vm_compute; reflexivity.
  - vm_compute. reflexivity.
  - vm_compute. reflexivity.
  - vm_compute. reflexivity.
  - vm_compute. reflexivity.
  - vm_compute. reflexivity.
  - vm_compute. exact I.
  - destruct (Hdoc [] ltac:(vm_compute; reflexivity)) as (more & E & Hl).
    rewrite (Hl eq_refl), app_nil_r in E.
    assert (L : (2 <= length sfx)%nat).
    { apply (Hlong (u "った") (u "。")); [vm_compute; reflexivity|].
      split; [apply str_in_true; vm_compute; reflexivity|].
      split; [vm_compute; lia|]. intros H. vm_compute in H. discriminate. }
    destruct Hs as [->|(k & Hk & Ek & Lk & C)]; [cbn [length] in L; lia|].
    assert (K : k = 2%nat \/ k = 3%nat \/ k = 4%nat) by lia.
    destruct K as [->|[->| ->]].
    + rewrite Ek in E. exact E.
    + rewrite Ek in C. destruct C as (V & _).
      apply str_in_true in V. vm_compute in V. discriminate V.
    + rewrite Ek in Lk. vm_compute in Lk. discriminate Lk.
Defined.

(* 何 followed by で: the particle is not appended. *)
Lemma particle_never_captured_witness :
  ExtractRubySmart.extract_words_from_html
    (number (soup [elem "p" [ruby_node (u "何") (u "なん"); text (u "で。")]]))
  = [ExtractRubySmart.new_entry (u "何") (u "なん")].
Proof.
  destruct (particle_never_captured
              (number (soup [elem "p" [ruby_node (u "何") (u "なん"); text (u "で。")]]))
              [] [] [0%nat] 0%nat (numbered 2 (ruby_node (u "何") (u "なん"))) []
              [text (u "で。")] (c1 "で") (u "。")) as (_ & Hdoc & _).
  - exists 1%nat, (u "p"), [],
      [numbered 2 (ruby_node (u "何") (u "なん")); text (u "で。")].
    repeat split; vm_compute; reflexivity.
  - vm_compute. reflexivity.
  - vm_compute. reflexivity.
  - vm_compute. reflexivity.
  - vm_compute. reflexivity.
  - vm_compute. reflexivity.
  - vm_compute. exact I.
  - vm_compute. reflexivity.
  - vm_compute. reflexivity.
  - left. vm_compute. reflexivity.
  - destruct (Hdoc [] ltac:(vm_compute; reflexivity)) as (more & E & Hl).
    rewrite (Hl eq_refl), app_nil_r in E. exact E.
Defined.

(* ===================================================================== *)
(*  RubyPair                                                             *)
(* ===================================================================== *)

Section RubyPairs.

Lemma all_ruby_step_ok (st : Node * list (list Z * list Z)) (ruby : nat) :
  Forall ruby_pair_ok (snd st) ->
  Forall ruby_pair_ok (snd (ExtractAllRuby.ruby_step st ruby)).
Proof.
  destruct st as [root all_pairs]. intros H. unfold ExtractAllRuby.ruby_step.
  destruct (path_of_id ruby root) as [position|]; [|exact H].
  destruct (node_at root position) as [ruby_tag|]; [|exact H].
  destruct (find (u "rt") ruby_tag) as [rt|]; [|exact H].
  destruct (truthy (strip (get_text rt))) eqn:T; [|exact H].
  cbn [negb]. destruct (ExtractRubySmart.extract_ruby_base ruby_tag) as [[kanji x] r'].
  destruct (truthy kanji && true && negb (str_eqb kanji (strip (get_text rt)))) eqn:G;
    [|exact H].
  destruct (negb (ExtractAllRuby.pairs_has kanji all_pairs)); [|exact H].
  cbn [snd]. apply Forall_app. split; [exact H|].
  apply Forall_cons. split; [|constructor].
  apply andb_true_iff in G as [_ G]. apply negb_true_iff in G.
  split; cbn [fst snd].
  - intros E. apply str_eqb_eq in E. congruence.
  - intros E. rewrite E in T. discriminate.
Qed.

Lemma all_ruby_loop_ok (rubies : list nat) (st : Node * list (list Z * list Z)) :
  Forall ruby_pair_ok (snd st) ->
  Forall ruby_pair_ok (snd (foldl ExtractAllRuby.ruby_step st rubies)).
Proof.
  revert st. induction rubies as [|r rubies IH]; intros st H; [exact H|].
  simpl. apply IH. now apply all_ruby_step_ok.
Qed.

(** C9.  Every pair extract_all_ruby_from_epub stores has a base different
    from its reading and a non-empty reading.  The dictionary-building
    extraction only tests that base and reading are non-empty, which every
    pair it stores is: for the ruby node かな read かな it stores the pair
    whose base equals its reading. *)
Theorem ruby_pair_invariant :
  (forall documents : list (option Node),
     Forall ruby_pair_ok (ExtractAllRuby.extract_all_ruby_from_epub documents))
  /\ (forall (html : Node) (base rd : list Z),
        extract_ruby_dictionary html !! base = Some rd -> base <> [] /\ rd <> [])
  /\ extract_ruby_dictionary (soup [elem "p" [ruby_node (u "かな") (u "かな")]])
       !! u "かな" = Some (u "かな").
Proof.
  split; [|split].
  - intros documents. unfold ExtractAllRuby.extract_all_ruby_from_epub.
    induction documents as [|d documents IH] using rev_ind; [constructor|].
    rewrite foldl_app. cbn [foldl]. destruct d as [html|]; [|exact IH].
    apply (all_ruby_loop_ok _ (html, _)). exact IH.
  - intros html base rd H.
    apply extract_ruby_dictionary_chosen in H as (Hin & _).
    unfold ruby_pairs in Hin. apply list_elem_of_In, list_elem_of_omap in Hin.
    destruct Hin as (r & _ & Hr). unfold ruby_pair in Hr.
    destruct (find (u "rt") r) as [rt|]; [|discriminate].
    destruct (truthy (own_text r) && truthy (get_text rt)) eqn:T; [|discriminate].
    injection Hr as <- <-. apply andb_true_iff in T as [T1 T2].
    split; intros E; rewrite E in *; discriminate.
  - vm_compute. reflexivity.
Qed.

End RubyPairs.

(* ===================================================================== *)
(*  LineRepair                                                           *)
(* ===================================================================== *)

Example fix_fusuma :
  FixRubyNewlines.fix_ruby_newlines (u "襖
を開け閉めする
") = u "襖を開け閉めする
".
Proof. vm_compute. reflexivity. Qed.

Section StripFacts.

Lemma lstrip_head (s : list Z) (x : Z) (r : list Z) :
  lstrip s = x :: r -> is_space x = false.
Proof.
  induction s as [|y s IH]; simpl; [discriminate|].
  destruct (is_space y) eqn:E; [exact IH|]. intros [= <- _]. exact E.
Qed.

Lemma lstrip_fixed (s : list Z) (x : Z) (r : list Z) :
  s = x :: r -> is_space x = false -> lstrip s = s.
Proof. intros -> H. simpl. now rewrite H. Qed.

Lemma lstrip_idem (s : list Z) : lstrip (lstrip s) = lstrip s.
Proof.
  destruct (lstrip s) as [|x r] eqn:E; [reflexivity|].
  apply (lstrip_fixed _ x r eq_refl). now apply (lstrip_head s x r).
Qed.

Lemma lstrip_app (a b : list Z) :
  lstrip (a ++ b) = if truthy (lstrip a) then lstrip a ++ b else lstrip b.
Proof.
  induction a as [|x a IH]; simpl; [reflexivity|].
  destruct (is_space x); [exact IH | reflexivity].
Qed.

Lemma rstrip_app (a b : list Z) :
  rstrip (a ++ b) = if truthy (rstrip b) then a ++ rstrip b else rstrip a.
Proof.
  unfold rstrip. rewrite rev_app_distr, lstrip_app.
  destruct (lstrip (rev b)) as [|x r] eqn:E.
  - reflexivity.
  - cbn [truthy]. rewrite rev_app_distr, rev_involutive.
    assert (truthy (rev (x :: r)) = true) as ->
      by (simpl; destruct (rev r); reflexivity).
    reflexivity.
Qed.

Lemma rstrip_idem (s : list Z) : rstrip (rstrip s) = rstrip s.
Proof. unfold rstrip. now rewrite rev_involutive, lstrip_idem. Qed.

Lemma rstrip_nil : rstrip [] = [].
Proof. reflexivity. Qed.

(* the last character of a right-stripped string is not whitespace *)
Lemma rstrip_last (s : list Z) (x : Z) (r : list Z) :
  rev (rstrip s) = x :: r -> is_space x = false.
Proof. unfold rstrip. rewrite rev_involutive. apply lstrip_head. Qed.

Lemma rstrip_cons (x : Z) (s : list Z) :
  rstrip (x :: s)
  = if truthy (rstrip s) then x :: rstrip s
    else if is_space x then [] else [x].
Proof.
  change (x :: s) with ([x] ++ s). rewrite rstrip_app.
  destruct (truthy (rstrip s)); [reflexivity|].
  unfold rstrip. simpl. destruct (is_space x); reflexivity.
Qed.

Lemma lstrip_rstrip (s : list Z) : lstrip (rstrip s) = rstrip (lstrip s).
Proof.
  induction s as [|x s IH]; [reflexivity|].
  rewrite rstrip_cons. cbn [lstrip]. destruct (is_space x) eqn:E.
  - destruct (truthy (rstrip s)) eqn:T.
    + cbn [lstrip]. rewrite E. exact IH.
    + rewrite <- IH. destruct (rstrip s); [reflexivity | discriminate].
  - rewrite rstrip_cons.
    destruct (truthy (rstrip s)); cbn [lstrip]; rewrite E; reflexivity.
Qed.

Lemma strip_idem (s : list Z) : strip (strip s) = strip s.
Proof.
  unfold strip. rewrite lstrip_rstrip, lstrip_idem. apply rstrip_idem.
Qed.

Lemma strip_last (s : list Z) (x : Z) (r : list Z) :
  rev (strip s) = x :: r -> is_space x = false.
Proof. unfold strip. apply rstrip_last. Qed.

(* The text of a merged line: the stripped current line, then the
   stripped next line. *)
Lemma strip_merged (cur nxt : list Z) :
  strip cur <> [] -> strip nxt <> [] ->
  strip (rstrip cur ++ strip nxt) = strip cur ++ strip nxt.
Proof.
  intros Hc Hn. unfold strip at 1. rewrite lstrip_app, lstrip_rstrip.
  fold (strip cur). destruct (strip cur) as [|x r] eqn:E; [congruence|].
  cbn [truthy]. rewrite rstrip_app.
  assert (Hs : rstrip (strip nxt) = strip nxt)
    by (unfold strip; apply rstrip_idem).
  rewrite Hs. destruct (strip nxt); [congruence | reflexivity].
Qed.

Lemma lstrip_incl (s : list Z) (x : Z) : In x (lstrip s) -> In x s.
Proof.
  induction s as [|y s IH]; simpl; [tauto|].
  destruct (is_space y); [intros H; right; now apply IH | tauto].
Qed.

Lemma rstrip_incl (s : list Z) (x : Z) : In x (rstrip s) -> In x s.
Proof.
  unfold rstrip. intros H. apply in_rev in H. apply lstrip_incl in H.
  now apply in_rev.
Qed.

Lemma strip_incl (s : list Z) (x : Z) : In x (strip s) -> In x s.
Proof. unfold strip. intros H. now apply lstrip_incl, rstrip_incl. Qed.

End StripFacts.

Section MergeRules.

Import FixRubyNewlines.

Lemma newline_is_space : is_space NL = true.
Proof. reflexivity. Qed.

(* On a stripped line the pattern ^[...]{1,3}$ has no final newline to skip. *)
Lemma KANJI_PATTERN_strip (s : list Z) :
  KANJI_PATTERN (strip s) = kanji_1_3 (strip s).
Proof.
  unfold KANJI_PATTERN, before_final_newline.
  destruct (rev (strip s)) as [|x r] eqn:E; [apply orb_diag|].
  pose proof (strip_last s x r E) as Hx.
  destruct (x =? NL) eqn:N; [|apply orb_diag].
  apply Z.eqb_eq in N. subst x. rewrite newline_is_space in Hx. discriminate.
Qed.

Lemma kanji_1_3_prefix (n more : list Z) :
  n <> [] -> kanji_1_3 (n ++ more) = true -> kanji_1_3 n = true.
Proof.
  intros Hn. unfold kanji_1_3. rewrite length_app, forallb_app.
  intros H. apply andb_true_iff in H as [H Hf]. apply andb_true_iff in H as [_ H3].
  apply andb_true_iff in Hf as [Hf _]. apply Nat.leb_le in H3.
  rewrite Hf, andb_true_r. apply andb_true_iff. split; apply Nat.leb_le.
  - destruct n; [congruence | simpl; lia].
  - lia.
Qed.

Lemma startswith_nil (s : list Z) : startswith s [] = true.
Proof. destruct s; reflexivity. Qed.

Lemma starts_prefix (n more : list Z) :
  n <> [] ->
  truthy (n ++ more) = truthy n
  /\ HIRAGANA_START (n ++ more) = HIRAGANA_START n
  /\ KANJI_START (n ++ more) = KANJI_START n
  /\ startswith_any (n ++ more) markers = startswith_any n markers
  /\ startswith_any (n ++ more) markers_rule3 = startswith_any n markers_rule3.
Proof.
  intros Hn. destruct n as [|x t]; [congruence|].
  split; [reflexivity|]. split; [reflexivity|]. split; [reflexivity|]. split.
  - unfold startswith_any, markers. cbn [existsb startswith app].
    rewrite !startswith_nil. reflexivity.
  - unfold startswith_any, markers_rule3. cbn [existsb startswith app].
    rewrite !startswith_nil.
    destruct (x =? 60), (x =? 62), (x =? 65308), (x =? 65310); reflexivity.
Qed.

(* A line that would be merged when it is extended is merged as it is. *)
Lemma should_merge_with_next_prefix (cur a b more : list Z) :
  strip a <> [] -> strip b = strip a ++ more ->
  should_merge_with_next cur b = true -> should_merge_with_next cur a = true.
Proof.
  intros Ha Hb. unfold should_merge_with_next. cbv zeta.
  rewrite !(KANJI_PATTERN_strip b), !(KANJI_PATTERN_strip a), Hb.
  destruct (starts_prefix (strip a) more Ha) as (-> & -> & -> & -> & ->).
  pose proof (kanji_1_3_prefix (strip a) more Ha) as HP.
  destruct (kanji_1_3 (strip a ++ more)) eqn:P'.
  - rewrite (HP eq_refl). tauto.
  - clear HP.
    generalize (truthy (strip cur)) (truthy (strip a))
      (KANJI_PATTERN (strip cur)) (HIRAGANA_START (strip a))
      (kanji_1_3 (strip a)) (endswith_any (strip cur) punctuation)
      (startswith_any (strip a) markers) (KANJI_END (strip cur))
      (startswith_any (strip a) markers_rule3)
      (endswith_any (strip cur) sentence_end)
      (endswith (strip cur) (u "、")) (KANJI_START (strip a)).
    intros b1 b2 b3 b4 b5 b6 b7 b8 b9 b10 b11 b12.
    destruct b1, b2, b3, b4, b5, b6, b7, b8, b9, b10, b11, b12;
      cbn [negb andb orb]; congruence.
Qed.

(* The backward rule is the second forward rule. *)
Lemma should_merge_with_prev_next (prev cur : list Z) :
  should_merge_with_prev prev cur = true ->
  should_merge_with_next prev cur = true.
Proof.
  unfold should_merge_with_prev, should_merge_with_next. cbv zeta.
  generalize (truthy (strip prev)) (truthy (strip cur))
    (KANJI_PATTERN (strip prev)) (HIRAGANA_START (strip cur))
    (KANJI_PATTERN (strip cur)) (endswith_any (strip prev) punctuation)
    (startswith_any (strip cur) markers) (KANJI_END (strip prev))
    (startswith_any (strip cur) markers_rule3)
    (endswith_any (strip prev) sentence_end)
    (endswith (strip prev) (u "、")) (KANJI_START (strip cur)).
  intros b1 b2 b3 b4 b5 b6 b7 b8 b9 b10 b11 b12.
  destruct b1, b2, b3, b4, b5, b6, b7, b8, b9, b10, b11, b12;
    cbn [negb andb orb]; congruence.
Qed.

(* A merge only happens between two lines that are not blank. *)
Lemma should_merge_with_next_nonblank (cur nxt : list Z) :
  should_merge_with_next cur nxt = true -> strip cur <> [] /\ strip nxt <> [].
Proof.
  unfold should_merge_with_next. cbv zeta.
  destruct (strip cur); [discriminate|]. destruct (strip nxt); [discriminate|].
  intros _. split; discriminate.
Qed.

End MergeRules.

Section PassFacts.

Import FixRubyNewlines.

(* What the inner loop returns: the lines left start with a line the
   merged line is not merged with; the merged line extends the text of
   the line it started from; and it is made of characters of the lines. *)
Lemma merge_forward_spec (following : list (list Z)) :
  forall (cur : list Z) (i : nat) (ch : bool)
         (cur' : list Z) (following' : list (list Z)) (i' : nat) (ch' : bool),
    merge_forward cur following i ch = (cur', following', i', ch') ->
    (exists merged, following = merged ++ following'
       /\ forall x, In x cur' -> In x cur \/ exists l, In l merged /\ In x l)
    /\ match following' with
       | [] => True
       | n :: _ => should_merge_with_next cur' n = false
       end
    /\ (cur' = cur
        \/ (strip cur <> [] /\ exists more, strip cur' = strip cur ++ more))
    /\ (ch' = ch \/ ch' = true).
Proof.
  induction following as [|nxt following IH];
    intros cur i ch cur' following' i' ch' H.
  - simpl in H. injection H as <- <- <- <-.
    split; [exists []; split; [reflexivity | tauto]|]. auto.
  - simpl in H. destruct (should_merge_with_next cur nxt) eqn:M.
    + destruct (should_merge_with_next_nonblank cur nxt M) as (Hc & Hn).
      apply IH in H as ((merged & E & Hin) & Hexit & Hstrip & Hch).
      split; [|split; [exact Hexit|split]].
      * exists (nxt :: merged). split; [simpl; now f_equal|].
        intros x Hx. apply Hin in Hx as [Hx|(l & Hl & Hx)].
        -- apply in_app_iff in Hx as [Hx|Hx].
           ++ left. now apply rstrip_incl.
           ++ right. exists nxt. split; [now left | now apply strip_incl].
        -- right. exists l. split; [now right | exact Hx].
      * right. split; [exact Hc|].
        destruct Hstrip as [->|(_ & more & ->)].
        -- exists (strip nxt). now apply strip_merged.
        -- exists (strip nxt ++ more). rewrite strip_merged by assumption.
           now rewrite <- app_assoc.
      * right. now destruct Hch.
    + injection H as <- <- <- <-.
      split; [exists []; split; [reflexivity | tauto]|].
      split; [exact M|]. auto.
Qed.

Lemma settled_cons (a : list Z) (rest : list (list Z)) :
  settled (a :: rest)
  = match rest with
    | [] => true
    | b :: _ => negb (should_merge_with_next a b) && settled rest
    end.
Proof. destruct rest; reflexivity. Qed.

Lemma settled_app (l1 l2 : list (list Z)) :
  settled (l1 ++ l2)
  = settled l1 && settled l2
    && match l2 with [] => true | x :: _ => joint_settled l1 x end.
Proof.
  induction l1 as [|a l1 IH].
  - simpl. destruct l2; [reflexivity|]. now rewrite !andb_true_r.
  - destruct l1 as [|b l1].
    + destruct l2 as [|x l2]; [reflexivity|].
      change (settled ([a] ++ x :: l2))
        with (negb (should_merge_with_next a x) && settled (x :: l2)).
      cbn [joint_settled List.last settled]. cbn [andb]. apply andb_comm.
    + change (settled ((a :: b :: l1) ++ l2))
        with (negb (should_merge_with_next a b) && settled ((b :: l1) ++ l2)).
      rewrite IH.
      change (settled (a :: b :: l1))
        with (negb (should_merge_with_next a b) && settled (b :: l1)).
      destruct l2 as [|x l2].
      * now rewrite !andb_assoc.
      * change (joint_settled (a :: b :: l1) x) with (joint_settled (b :: l1) x).
        now rewrite !andb_assoc.
Qed.

Lemma joint_settled_snoc (result : list (list Z)) (x n : list Z) :
  joint_settled (result ++ [x]) n = negb (should_merge_with_next x n).
Proof.
  unfold joint_settled. rewrite last_last.
  destruct result; reflexivity.
Qed.

(* Under the condition the loop maintains, the backward merge is never
   taken. *)
Lemma prev_branch_not_taken (i : nat) (result : list (list Z)) (cur : list Z) :
  joint_settled result cur = true ->
  (0 <? i)%nat && nonempty result
    && should_merge_with_prev (List.last result []) cur = false.
Proof.
  intros J. destruct result as [|r result]; [now rewrite andb_false_r|].
  cbn [joint_settled] in J. apply negb_true_iff in J.
  destruct (should_merge_with_prev (List.last (r :: result) []) cur) eqn:P;
    [|now rewrite andb_false_r].
  apply should_merge_with_prev_next in P. congruence.
Qed.

(* The merged line is not merged with the line before it either. *)
Lemma joint_settled_merged (result : list (list Z)) (l cur' : list Z) :
  joint_settled result l = true ->
  cur' = l \/ (strip l <> [] /\ exists more, strip cur' = strip l ++ more) ->
  joint_settled result cur' = true.
Proof.
  intros J [->|(Hl & more & E)]; [exact J|].
  destruct result as [|r result]; [reflexivity|].
  cbn [joint_settled] in *. apply negb_true_iff in J. apply negb_true_iff.
  destruct (should_merge_with_next (List.last (r :: result) []) cur') eqn:M;
    [|reflexivity].
  apply (should_merge_with_next_prefix _ l cur' more Hl E) in M. congruence.
Qed.

(* One pass, from any state the loop reaches: no two adjacent lines of
   the result are merged by a further pass, the result has a line when
   there was one, and its lines are lines. *)
Lemma pass_loop_settled (fuel : nat) :
  forall (i : nat) (remaining result : list (list Z)) (changed : bool),
    (length remaining <= fuel)%nat ->
    settled result = true ->
    match remaining with [] => True | l :: _ => joint_settled result l = true end ->
    let out := fst (pass_loop fuel i remaining result changed) in
    settled out = true
    /\ (result ++ remaining <> [] -> out <> [])
    /\ (Forall one_line result -> Forall one_line remaining -> Forall one_line out).
Proof.
  induction fuel as [|fuel IH]; intros i remaining result changed Hf Hs Hj out.
  - destruct remaining; [|simpl in Hf; lia]. subst out. simpl.
    rewrite app_nil_r. auto.
  - destruct remaining as [|l following].
    + subst out. simpl. rewrite app_nil_r. auto.
    + subst out. cbn [pass_loop]. rewrite (prev_branch_not_taken i result l Hj).
      destruct (merge_forward l following i changed)
        as [[[cur' following'] i'] ch'] eqn:MF.
      apply merge_forward_spec in MF
        as ((merged & E & Hin) & Hexit & Hstrip & _).
      assert (Hs' : settled (result ++ [cur']) = true).
      { rewrite settled_app, Hs. cbn [settled andb].
        now apply (joint_settled_merged result l cur'). }
      assert (Hj' : match following' with
                    | [] => True
                    | n :: _ => joint_settled (result ++ [cur']) n = true
                    end).
      { destruct following' as [|n f]; [exact I|].
        rewrite joint_settled_snoc. now rewrite Hexit. }
      assert (Hf' : (length following' <= fuel)%nat).
      { simpl in Hf. rewrite E, length_app in Hf. lia. }
      destruct (IH (S i') following' (result ++ [cur']) ch' Hf' Hs' Hj')
        as (R1 & R2 & R3).
      split; [exact R1|]. split.
      * intros _. apply R2. intros H. apply app_eq_nil in H as [H _].
        now apply app_eq_nil in H as [_ H].
      * intros Q1 Q2. apply Forall_cons in Q2 as [Ql Qf].
        rewrite E in Qf. apply Forall_app in Qf as [Qm Qf'].
        apply R3; [|exact Qf']. apply Forall_app. split; [exact Q1|].
        apply Forall_cons. split; [|constructor].
        intros Hx. apply Hin in Hx as [Hx|(m & Hm & Hx)]; [now apply Ql|].
        rewrite Forall_forall in Qm. apply (Qm m); [|exact Hx].
        now apply list_elem_of_In.
Qed.

(* A pass over lines none of which is merged with the next changes
   nothing. *)
Lemma pass_loop_id (fuel : nat) :
  forall (i : nat) (remaining result : list (list Z)) (changed : bool),
    (length remaining <= fuel)%nat ->
    settled (result ++ remaining) = true ->
    pass_loop fuel i remaining result changed = (result ++ remaining, changed).
Proof.
  induction fuel as [|fuel IH]; intros i remaining result changed Hf Hs.
  - destruct remaining; [|simpl in Hf; lia]. simpl. now rewrite app_nil_r.
  - destruct remaining as [|l following]; [simpl; now rewrite app_nil_r|].
    cbn [pass_loop].
    pose proof Hs as Hs0. rewrite settled_app in Hs0.
    apply andb_true_iff in Hs0 as [Hs0 Hj].
    apply andb_true_iff in Hs0 as [_ Hl].
    rewrite (prev_branch_not_taken i result l Hj).
    assert (MF : merge_forward l following i changed = (l, following, i, changed)).
    { destruct following as [|n f]; [reflexivity|].
      rewrite settled_cons in Hl. apply andb_true_iff in Hl as [Hn _].
      apply negb_true_iff in Hn. simpl. now rewrite Hn. }
    rewrite MF. rewrite IH.
    + now rewrite <- app_assoc.
    + simpl in Hf. lia.
    + now rewrite <- app_assoc.
Qed.

End PassFacts.

Section SplitJoin.

Lemma split_nonempty (sep : Z) (s : list Z) : split sep s <> [].
Proof.
  induction s as [|x s IH]; simpl; [discriminate|].
  destruct (x =? sep); [discriminate|]. destruct (split sep s); discriminate.
Qed.

Lemma join_split (s : list Z) : join [NL] (split NL s) = s.
Proof.
  induction s as [|x s IH]; [reflexivity|].
  cbn [split]. pose proof (split_nonempty NL s) as Hne.
  destruct (x =? NL) eqn:E.
  - apply Z.eqb_eq in E. subst x.
    destruct (split NL s) as [|p ps] eqn:S; [congruence|].
    change (join [NL] ([] :: p :: ps)) with ([] ++ [NL] ++ join [NL] (p :: ps)).
    now rewrite IH.
  - destruct (split NL s) as [|p ps] eqn:S; [congruence|].
    destruct ps as [|q ps].
    + simpl in IH. simpl. now rewrite IH.
    + change (join [NL] ((x :: p) :: q :: ps))
        with (x :: (p ++ [NL] ++ join [NL] (q :: ps))).
      change (join [NL] (p :: q :: ps))
        with (p ++ [NL] ++ join [NL] (q :: ps)) in IH.
      now rewrite IH.
Qed.

Lemma split_lines (s : list Z) : Forall one_line (split NL s).
Proof.
  induction s as [|x s IH]; cbn [split].
  - apply Forall_cons. split; [intros [] | constructor].
  - destruct (x =? NL) eqn:E.
    + apply Forall_cons. split; [intros [] | exact IH].
    + pose proof (split_nonempty NL s) as Hne.
      destruct (split NL s) as [|p ps]; [congruence|].
      apply Forall_cons in IH as [Hp Hps]. apply Forall_cons. split; [|exact Hps].
      intros [H|H]; [|now apply Hp]. subst x. now rewrite Z.eqb_refl in E.
Qed.

Lemma split_line_then (p rest : list Z) :
  one_line p -> split NL (p ++ NL :: rest) = p :: split NL rest.
Proof.
  intros Hp. induction p as [|x p IH]; cbn [app split].
  - rewrite Z.eqb_refl. reflexivity.
  - destruct (x =? NL) eqn:E.
    + apply Z.eqb_eq in E. exfalso. apply Hp. now left.
    + rewrite IH; [reflexivity|]. intros H. apply Hp. now right.
Qed.

Lemma split_one_line (p : list Z) : one_line p -> split NL p = [p].
Proof.
  intros Hp. induction p as [|x p IH]; [reflexivity|]. cbn [split].
  destruct (x =? NL) eqn:E.
  - apply Z.eqb_eq in E. exfalso. apply Hp. now left.
  - rewrite IH; [reflexivity|]. intros H. apply Hp. now right.
Qed.

Lemma split_join (ps : list (list Z)) :
  ps <> [] -> Forall one_line ps -> split NL (join [NL] ps) = ps.
Proof.
  induction ps as [|p ps IH]; [congruence|]. intros _ H.
  apply Forall_cons in H as [Hp Hps]. destruct ps as [|q ps].
  - simpl. now apply split_one_line.
  - change (join [NL] (p :: q :: ps)) with (p ++ NL :: join [NL] (q :: ps)).
    rewrite (split_line_then p _ Hp). f_equal.
    apply IH; [discriminate | exact Hps].
Qed.

End SplitJoin.

Section LineRepair.

Import FixRubyNewlines.

Lemma one_pass_settled (lines : list (list Z)) :
  settled (fst (one_pass lines)) = true
  /\ (lines <> [] -> fst (one_pass lines) <> [])
  /\ (Forall one_line lines -> Forall one_line (fst (one_pass lines))).
Proof.
  unfold one_pass.
  destruct (pass_loop_settled (length lines) 0 lines [] false
              (Nat.le_refl _) eq_refl) as (H1 & H2 & H3).
  - destruct lines; [exact I | reflexivity].
  - split; [exact H1|]. split; [exact H2|]. intros H. apply H3; [constructor | exact H].
Qed.

Lemma one_pass_id (lines : list (list Z)) :
  settled lines = true -> one_pass lines = (lines, false).
Proof.
  intros H. unfold one_pass. now rewrite pass_loop_id.
Qed.

(* The second pass never changes anything: the loop stops there. *)
Lemma repair_one_pass (lines : list (list Z)) :
  repair lines = fst (one_pass lines).
Proof.
  unfold repair. cbn [passes].
  destruct (one_pass_settled lines) as (Hs & _).
  destruct (one_pass lines) as [result changed]. cbn [fst] in *.
  destruct changed; [|reflexivity].
  now rewrite (one_pass_id result Hs).
Qed.

(** C6.  Repairing twice gives what repairing once gives, on lists of lines
    and on file contents.  Where no line is merged with the next one by
    any rule (the backward rule only applies where the second forward rule
    does), the result is the input. *)
Theorem line_repair_idempotent :
  (forall lines : list (list Z), repair (repair lines) = repair lines)
  /\ (forall content : list Z,
        fix_ruby_newlines (fix_ruby_newlines content) = fix_ruby_newlines content)
  /\ (forall lines : list (list Z), settled lines = true -> repair lines = lines)
  /\ (forall content : list Z,
        settled (split NL content) = true -> fix_ruby_newlines content = content)
  /\ (forall prev cur : list Z,
        should_merge_with_prev prev cur = true ->
        should_merge_with_next prev cur = true).
Proof.
  assert (Hid : forall lines, settled lines = true -> repair lines = lines).
  { intros lines H. rewrite repair_one_pass, (one_pass_id lines H). reflexivity. }
  assert (Hrr : forall lines, repair (repair lines) = repair lines).
  { intros lines. apply Hid. rewrite repair_one_pass.
    apply (one_pass_settled lines). }
  split; [exact Hrr|]. split; [|split; [exact Hid|split]].
  - intros content. unfold fix_ruby_newlines.
    rewrite split_join; [now rewrite Hrr| |].
    + rewrite repair_one_pass. apply (one_pass_settled (split NL content)).
      apply split_nonempty.
    + rewrite repair_one_pass. apply (one_pass_settled (split NL content)).
      apply split_lines.
  - intros content H. unfold fix_ruby_newlines. rewrite (Hid _ H).
    apply join_split.
  - apply should_merge_with_prev_next.
Qed.

End LineRepair.

(* ===================================================================== *)
(*  MarkupWalker                                                         *)
(* ===================================================================== *)

Example walk_paragraph :
  preserve_existing_ruby
    (add_furigana
       (fun text =>
          if str_eqb text (u "と猫")
          then mecab_output [mecab_line (u "と") (u "ト"); mecab_line (u "猫") (u "ネコ")]
          else mecab_output [mecab_line text []])
       ∅ false)
    false
    (soup [elem "p" [ruby_node (u "神崎") (u "かんざき"); text (u "と猫")];
           elem "script" [text (u "x")];
           Tag 0 (u "img") [(u "src", u "a/b.png")] []])
  = u "<ruby>神崎<rt>かんざき</rt></ruby>と<ruby>猫<rt>ねこ</rt></ruby>" ++ [NL]
    ++ u "[IMAGE:b.png]".
Proof. vm_compute. reflexivity. Qed.

Example image_without_source :
  preserve_existing_ruby
    (add_furigana (fun text => mecab_output [mecab_line text []]) ∅ false) false
    (soup [elem "p" [text (u "a")]; elem "img" []; Tag 0 (u "img") [(u "alt", u "x")] []])
  = u "a" ++ [NL] ++ u "[IMAGE:image-1]" ++ u "[IMAGE:image-2]".
Proof. vm_compute. reflexivity. Qed.

Example decimal_120 : decimal 120 = u "120".
Proof. vm_compute. reflexivity. Qed.

Example collapse_four_newlines :
  collapse_newlines (u "a" ++ [NL; NL; NL; NL] ++ u "b" ++ [NL; NL] ++ u "c")
  = u "a" ++ [NL; NL] ++ u "b" ++ [NL; NL] ++ u "c".
Proof. vm_compute. reflexivity. Qed.

Section WalkerFacts.









End WalkerFacts.

Section WalkerTraversal.

Variable generator_add_furigana : list Z -> bool -> list Z.
Variable filter_n3_plus : bool.







End WalkerTraversal.

Section Preparation.






Lemma decompose_name (names : list (list Z)) (n : Node) (x : list Z) :
  tag_named x (decompose_all names n) = tag_named x n.
Proof. destruct n; reflexivity. Qed.









End Preparation.

Section WalkerGenerators.

Variables gen1 gen2 : list Z -> bool -> list Z.
Variable filter_n3_plus : bool.


End WalkerGenerators.

Section WalkerOnce.

Variable generator_add_furigana : list Z -> bool -> list Z.
Variable filter_n3_plus : bool.



Local Abbreviation walk := (extract_text_with_ruby generator_add_furigana filter_n3_plus).
Local Abbreviation ok := (piece_ok generator_add_furigana filter_n3_plus).






End WalkerOnce.

Section WeaveCleanUp.






End WeaveCleanUp.


(* A ruby element with two attributes, a comment and a second rt: the
   attributes are written in the order of their names, and the element is
   written once. *)
Example walk_ruby_attributes :
  preserve_existing_ruby
    (add_furigana (fun text => mecab_output [mecab_line text []]) ∅ false) false
    (soup [elem "p" [Tag 0 (u "ruby") [(u "lang", u "ja"); (u "class", u "a")]
                       [text (u "漢"); Text Comment (u "c");
                        elem "rt" [Text RubyTextString (u "かん")]];
                     text (u "と")]])
  = u "<ruby class=" ++ [DQUOTE] ++ u "a" ++ [DQUOTE] ++ u " lang=" ++ [DQUOTE]
      ++ u "ja" ++ [DQUOTE] ++ u ">漢<!--c--><rt>かん</rt></ruby>と".
Proof. vm_compute. reflexivity. Qed.



(* ===================================================================== *)
(*  The theorems at concrete inputs                                      *)
(* ===================================================================== *)

(* 上手 is read うわて then じょうず, once each: the first reading is kept,
   and it is one of the readings of the document. *)
Lemma name_dictionary_resolution_witness :
  In (u "上手", u "うわて")
     (ruby_pairs (soup [ruby_node (u "上手") (u "うわて");
                        ruby_node (u "上手") (u "じょうず")])).
Proof.
  apply (proj1 name_dictionary_resolution
           (soup [ruby_node (u "上手") (u "うわて"); ruby_node (u "上手") (u "じょうず")])
           (u "上手") (u "うわて")).
  vm_compute. reflexivity.
Defined.


(* Two sentences that end in 。 are left as they are. *)
Lemma line_repair_idempotent_witness :
  FixRubyNewlines.repair [u "今日は晴れ。"; u "明日は雨。"]
  = [u "今日は晴れ。"; u "明日は雨。"].
Proof.
  apply (proj1 (proj2 (proj2 line_repair_idempotent))).
  vm_compute. reflexivity.
Defined.

(* ===================================================================== *)
(*  sanitize_filename                                                    *)
(* ===================================================================== *)

Section FileNames.

(* a stripped string is a part of the string: whitespace is cut on both
   sides *)
Lemma lstrip_suffix (s : list Z) :
  exists w, s = w ++ lstrip s /\ forallb is_space w = true.
Proof.
  induction s as [|x s (w & E & W)]; [now exists []|].
  cbn [lstrip]. destruct (is_space x) eqn:S.
  - exists (x :: w). cbn [app forallb]. rewrite S, W. split; [now f_equal | reflexivity].
  - now exists [].
Qed.

Lemma rstrip_prefix (s : list Z) :
  exists w, s = rstrip s ++ w /\ forallb is_space w = true.
Proof.
  destruct (lstrip_suffix (rev s)) as (w & E & W).
  exists (rev w). split.
  - unfold rstrip. rewrite <- rev_app_distr, <- E. now rewrite rev_involutive.
  - rewrite forallb_forall in *. intros x H. apply W. now apply in_rev.
Qed.

Lemma strip_infix (s : list Z) :
  exists w1 w2, s = w1 ++ strip s ++ w2
                /\ forallb is_space w1 = true /\ forallb is_space w2 = true.
Proof.
  destruct (lstrip_suffix s) as (w1 & E1 & W1).
  destruct (rstrip_prefix (lstrip s)) as (w2 & E2 & W2).
  exists w1, w2. unfold strip. rewrite <- E2. auto.
Qed.

Lemma strip_head (s : list Z) (x : Z) (r : list Z) :
  strip s = x :: r -> is_space x = false.
Proof.
  unfold strip. rewrite <- lstrip_rstrip. apply lstrip_head.
Qed.

Lemma single_spaced_weaken (b : bool) (s : list Z) :
  single_spaced b s = true -> single_spaced false s = true.
Proof.
  destruct s as [|x s]; [reflexivity|]. cbn [single_spaced].
  destruct (is_space x); [|auto]. destruct b; [|auto].
  rewrite andb_false_r. discriminate.
Qed.

Lemma single_spaced_suffix (b : bool) (a s : list Z) :
  single_spaced b (a ++ s) = true -> single_spaced false s = true.
Proof.
  revert b. induction a as [|x a IH]; intros b; cbn [app].
  - apply single_spaced_weaken.
  - cbn [single_spaced]. destruct (is_space x); [|apply IH].
    intros H. apply andb_true_iff in H as [_ H]. now apply IH in H.
Qed.

Lemma single_spaced_prefix (b : bool) (s a : list Z) :
  single_spaced b (s ++ a) = true -> single_spaced b s = true.
Proof.
  revert b. induction s as [|x s IH]; intros b; [reflexivity|].
  cbn [app single_spaced]. destruct (is_space x); [|apply IH].
  intros H. apply andb_true_iff in H as [H1 H]. rewrite H1. now apply IH in H.
Qed.

Lemma sub_whitespace_runs_spaced (b : bool) (s : list Z) :
  single_spaced b (sub_whitespace_runs [SPACE] b s) = true.
Proof.
  revert b. induction s as [|x s IH]; intros b; [reflexivity|].
  cbn [sub_whitespace_runs]. destruct (is_space x) eqn:S.
  - destruct b; cbn [app]; [apply IH|].
    cbn [single_spaced]. change (is_space SPACE) with true.
    cbn [negb andb]. rewrite Z.eqb_refl. apply IH.
  - cbn [single_spaced]. rewrite S. apply IH.
Qed.

Lemma sub_whitespace_runs_in (repl : list Z) (b : bool) (s : list Z) (x : Z) :
  In x (sub_whitespace_runs repl b s) -> In x s \/ In x repl.
Proof.
  revert b. induction s as [|y s IH]; intros b; cbn [sub_whitespace_runs]; [tauto|].
  destruct (is_space y).
  - intros H. apply in_app_or in H as [H|H].
    + destruct b; [destruct H | now right].
    + destruct (IH _ H); [left; now right | now right].
  - intros [H|H]; [left; now left|].
    destruct (IH _ H); [left; now right | now right].
Qed.

Lemma single_spaced_lookup (b : bool) (s : list Z) (i : nat) (x : Z) :
  single_spaced b s = true -> s !! i = Some x -> is_space x = true ->
  x = SPACE /\ forall y, s !! S i = Some y -> is_space y = false.
Proof.
  revert b i. induction s as [|z s IH]; intros b i H L S; [destruct i; discriminate|].
  destruct i as [|i].
  - injection L as ->. cbn [single_spaced] in H. rewrite S in H.
    apply andb_true_iff in H as [H H2]. apply andb_true_iff in H as [H _].
    split; [now apply Z.eqb_eq|]. intros y Ly.
    destruct s as [|z s]; [discriminate|]. injection Ly as ->.
    cbn [single_spaced] in H2. destruct (is_space y); [|reflexivity].
    rewrite andb_false_r in H2. discriminate.
  - cbn [single_spaced] in H. destruct (is_space z).
    + apply andb_true_iff in H as [_ H]. exact (IH _ _ H L S).
    + exact (IH _ _ H L S).
Qed.

(* the sanitized title before the fallback is looked at *)
Lemma sanitize_filename_cases (title : list Z) :
  let safe :=
    take 200 (strip (sub_whitespace_runs [SPACE] false
       (List.filter (fun x => negb (char_in x INVALID_FILENAME_CHARS)) title))) in
  (safe <> [] /\ sanitize_filename title = safe)
  \/ (safe = [] /\ sanitize_filename title = u "untitled").
Proof.
  intros safe. unfold sanitize_filename. fold safe.
  destruct safe; [right | left]; split; try reflexivity. discriminate.
Qed.

(** X1.  The file name sanitize_filename gives is never empty, has at most
    200 characters and holds none of the characters < > : / \ | ? * and no
    double quote. *)
Theorem sanitize_filename_safe (title : list Z) :
  sanitize_filename title <> []
  /\ (length (sanitize_filename title) <= 200)%nat
  /\ Forall (fun x => char_in x INVALID_FILENAME_CHARS = false)
            (sanitize_filename title).
Proof.
  destruct (sanitize_filename_cases title) as [(Hne & ->)|(_ & ->)].
  - split; [exact Hne|]. split.
    + rewrite length_take. lia.
    + apply List.Forall_forall. intros x H.
      apply list_elem_of_In, elem_of_take in H as (i & H & _).
      apply list_elem_of_lookup_2, list_elem_of_In in H.
      apply strip_incl, sub_whitespace_runs_in in H as [H|H].
      * apply filter_In in H as [_ H]. now apply negb_true_iff in H.
      * destruct H as [<-|[]]. reflexivity.
  - split; [discriminate|]. split; [vm_compute; lia|].
    apply List.Forall_forall. intros x H.
    assert (F : forallb (fun y => negb (char_in y INVALID_FILENAME_CHARS))
                        (u "untitled") = true) by (vm_compute; reflexivity).
    rewrite forallb_forall in F. apply negb_true_iff. now apply F.
Qed.

(** X2.  In the file name sanitize_filename gives, the first character is
    not whitespace, every whitespace character is a space, and no two
    whitespace characters are adjacent. *)
Theorem sanitize_filename_spacing (title : list Z) :
  let safe := sanitize_filename title in
  (forall x, safe !! 0%nat = Some x -> is_space x = false)
  /\ (forall (i : nat) (x : Z),
        safe !! i = Some x -> is_space x = true ->
        x = SPACE /\ forall y, safe !! S i = Some y -> is_space y = false).
Proof.
  intros safe. subst safe.
  destruct (sanitize_filename_cases title) as [(Hne & ->)|(_ & ->)].
  - set (t := sub_whitespace_runs [SPACE] false _).
    assert (Hs : single_spaced false (take 200 (strip t)) = true).
    { destruct (strip_infix t) as (w1 & w2 & E & _).
      pose proof (sub_whitespace_runs_spaced false
        (List.filter (fun x => negb (char_in x INVALID_FILENAME_CHARS)) title)) as H.
      fold t in H. rewrite E in H. apply single_spaced_suffix in H.
      apply single_spaced_prefix in H.
      rewrite <- (take_drop 200 (strip t)) in H.
      now apply single_spaced_prefix in H. }
    split.
    + intros x H. destruct (strip t) as [|y r] eqn:E; [discriminate|].
      injection H as ->. now apply (strip_head t x r).
    + intros i x L S. exact (single_spaced_lookup _ _ i x Hs L S).
  - split.
    + intros x [= <-]. reflexivity.
    + intros i x L S. exfalso.
      apply list_elem_of_lookup_2, list_elem_of_In in L.
      assert (F : forallb (fun y => negb (is_space y)) (u "untitled") = true)
        by (vm_compute; reflexivity).
      rewrite forallb_forall in F. specialize (F x L). now rewrite S in F.
Qed.

Lemma sub_whitespace_runs_fixed (b : bool) (s : list Z) :
  single_spaced b s = true -> sub_whitespace_runs [SPACE] b s = s.
Proof.
  revert b. induction s as [|x s IH]; intros b H; [reflexivity|].
  cbn [single_spaced sub_whitespace_runs] in *. destruct (is_space x).
  - apply andb_true_iff in H as [H H2]. apply andb_true_iff in H as [H1 Hb].
    apply Z.eqb_eq in H1. subst x. destruct b; [discriminate|].
    cbn [app]. f_equal. now apply IH.
  - f_equal. now apply IH.
Qed.

Lemma rstrip_fixed (s : list Z) :
  is_space (List.last s SPACE) = false -> rstrip s = s.
Proof.
  destruct s as [|x s] using rev_ind; [discriminate|]. clear IHs.
  rewrite last_last. intros H.
  assert (E : rstrip [x] = [x])
    by (unfold rstrip; cbn [rev app lstrip]; now rewrite H).
  now rewrite rstrip_app, E.
Qed.

(** X3.  A title that is already a safe name (at most 200 characters, none
    of the excluded characters, no whitespace other than single spaces
    between two other characters) is returned as it is. *)
Theorem sanitize_filename_fixed (title : list Z) :
  (length title <= 200)%nat ->
  Forall (fun x => char_in x INVALID_FILENAME_CHARS = false) title ->
  single_spaced true title = true ->
  is_space (List.last title SPACE) = false ->
  sanitize_filename title = title.
Proof.
  intros Hlen Hsafe Hsp Hlast. unfold sanitize_filename.
  assert (Hf : List.filter (fun x => negb (char_in x INVALID_FILENAME_CHARS)) title
               = title).
  { clear Hlen Hsp Hlast. induction Hsafe as [|x l Hx _ IH]; [reflexivity|].
    cbn [List.filter]. rewrite Hx. cbn [negb]. now f_equal. }
  rewrite Hf.
  rewrite (sub_whitespace_runs_fixed false title (single_spaced_weaken _ _ Hsp)).
  assert (Hl : lstrip title = title).
  { destruct title as [|x r]; [reflexivity|]. cbn [single_spaced] in Hsp.
    cbn [lstrip]. destruct (is_space x); [|reflexivity].
    rewrite andb_false_r in Hsp. discriminate. }
  unfold strip. rewrite Hl, (rstrip_fixed title Hlast).
  rewrite take_ge by exact Hlen.
  destruct title; [discriminate | reflexivity].
Qed.

(* The title of a book with a subtitle is kept as it is. *)
Lemma sanitize_filename_fixed_witness :
  sanitize_filename (u "吾輩は猫である 上") = u "吾輩は猫である 上".
Proof.
  apply sanitize_filename_fixed.
  - vm_compute. lia.
  - apply List.Forall_forall. intros x H.
    assert (F : forallb (fun y => negb (char_in y INVALID_FILENAME_CHARS))
                        (u "吾輩は猫である 上") = true) by (vm_compute; reflexivity).
    rewrite forallb_forall in F. apply negb_true_iff. now apply F.
  - vm_compute. reflexivity.
  - vm_compute. reflexivity.
Defined.

End FileNames.

(* ===================================================================== *)
(*  The reading converter: what the output is made of                    *)
(* ===================================================================== *)

Section ReadingConverterOutput.

Lemma get_vowel_is_vowel (prev : Z) :
  In (_get_vowel_for_long_mark prev) [HIRA_A; HIRA_I; HIRA_U].
Proof.
  rewrite get_vowel_by_row. unfold long_vowel_by_row.
  destruct (char_in prev _); [now left|].
  destruct (char_in prev _); [right; now left | right; right; now left].
Qed.

Lemma kana_shift_not_katakana (ch : Z) :
  full_width_katakana (kana_shift ch) = false.
Proof.
  unfold kana_shift. fold (full_width_katakana ch).
  destruct (full_width_katakana ch) eqn:E; [|exact E].
  unfold full_width_katakana in *. apply andb_true_iff in E as [E1 E2].
  apply Z.leb_le in E1, E2. apply andb_false_iff. left. apply Z.leb_gt. lia.
Qed.

Lemma kana_shift_mark (ch : Z) : kana_shift ch = LONG_MARK -> ch = LONG_MARK.
Proof.
  unfold kana_shift. destruct ((0x30A1 <=? ch) && (ch <=? 0x30F6)) eqn:E; [|auto].
  apply andb_true_iff in E as [E1 E2]. apply Z.leb_le in E1, E2.
  unfold LONG_MARK. lia.
Qed.

Lemma k2h_emit_not_katakana (p : bool) (i : nat) (result : list Z) (ch : Z) :
  full_width_katakana (k2h_emit p i result ch) = false.
Proof.
  unfold k2h_emit. destruct (ch =? LONG_MARK); [|apply kana_shift_not_katakana].
  destruct p; [reflexivity|].
  destruct ((0 <? Z.of_nat i) && truthy result); [|reflexivity].
  destruct (get_vowel_is_vowel (List.last result 0)) as [<-|[<-|[<-|[]]]];
    reflexivity.
Qed.

(* without preservation the mark is only written in first position *)
Lemma k2h_emit_mark (i : nat) (result : list Z) (ch : Z) :
  length result = i ->
  k2h_emit false i result ch = LONG_MARK -> i = 0%nat /\ ch = LONG_MARK.
Proof.
  intros L. unfold k2h_emit. destruct (ch =? LONG_MARK) eqn:E.
  - apply Z.eqb_eq in E. destruct i as [|i]; [auto|].
    replace (0 <? Z.of_nat (S i)) with true by (symmetry; apply Z.ltb_lt; lia).
    destruct result as [|x r]; [discriminate|]. cbn [andb truthy].
    intros H. exfalso.
    destruct (get_vowel_is_vowel (List.last (x :: r) 0)) as [V|[V|[V|[]]]];
      rewrite <- V in H; discriminate.
  - intros H. apply kana_shift_mark in H. apply Z.eqb_neq in E. contradiction.
Qed.

Lemma k2h_lookup (p : bool) (text : list Z) (j : nat) (x : Z) :
  _katakana_to_hiragana text p !! j = Some x ->
  exists ch, text !! j = Some ch
             /\ x = k2h_emit p j (take j (_katakana_to_hiragana text p)) ch.
Proof.
  intros H. destruct (k2h_positions p text) as (L & E).
  assert (Hj : (j < length text)%nat).
  { rewrite <- L. now apply lookup_lt_Some in H. }
  destruct (lookup_lt_is_Some_2 _ _ Hj) as (ch & Hch).
  exists ch. split; [exact Hch|]. rewrite (E j ch Hch) in H. now injection H.
Qed.

(** X4.  The converter leaves no full-width katakana letter in its output;
    and when long-vowel marks are not preserved, the only mark that can
    remain is one that opens the reading. *)
Theorem katakana_to_hiragana_no_katakana (text : list Z) :
  (forall p : bool,
     Forall (fun x => full_width_katakana x = false) (_katakana_to_hiragana text p))
  /\ (forall i : nat,
        _katakana_to_hiragana text false !! i = Some LONG_MARK ->
        i = 0%nat /\ text !! 0%nat = Some LONG_MARK).
Proof.
  split.
  - intros p. apply List.Forall_forall. intros x H.
    apply list_elem_of_In, list_elem_of_lookup_1 in H as (j & H).
    apply k2h_lookup in H as (ch & _ & ->). apply k2h_emit_not_katakana.
  - intros i H. apply k2h_lookup in H as (ch & Hch & E).
    symmetry in E. apply k2h_emit_mark in E as (-> & ->); [auto|].
    rewrite length_take. destruct (k2h_positions false text) as (L & _).
    apply lookup_lt_Some in Hch. lia.
Qed.

(* A reading without katakana letters, and whose marks are preserved or
   absent after the first position, is returned as it is. *)
Lemma katakana_to_hiragana_stable (text : list Z) (p : bool) :
  Forall (fun x => full_width_katakana x = false) text ->
  (p = true \/ forall i : nat, text !! S i <> Some LONG_MARK) ->
  _katakana_to_hiragana text p = text.
Proof.
  intros Hk Hm. destruct (k2h_positions p text) as (L & E).
  apply list_eq. intros j. destruct (text !! j) as [ch|] eqn:Hch.
  - rewrite (E j ch Hch). f_equal. unfold k2h_emit.
    destruct (ch =? LONG_MARK) eqn:M.
    + apply Z.eqb_eq in M. subst ch. destruct p; [reflexivity|].
      destruct Hm as [Hm|Hm]; [discriminate|].
      destruct j as [|j]; [reflexivity|]. destruct (Hm j Hch).
    + rewrite List.Forall_forall in Hk.
      apply list_elem_of_lookup_2, list_elem_of_In, Hk in Hch.
      unfold kana_shift. fold (full_width_katakana ch). now rewrite Hch.
  - apply lookup_ge_None. rewrite L. now apply lookup_ge_None.
Qed.

(** X5.  Converting a reading that is already converted changes nothing. *)
Theorem katakana_to_hiragana_idempotent (text : list Z) (p : bool) :
  _katakana_to_hiragana (_katakana_to_hiragana text p) p
  = _katakana_to_hiragana text p.
Proof.
  apply katakana_to_hiragana_stable.
  - apply List.Forall_forall. intros x H.
    apply list_elem_of_In, list_elem_of_lookup_1 in H as (j & H).
    apply k2h_lookup in H as (ch & _ & ->). apply k2h_emit_not_katakana.
  - destruct p; [now left | right]. intros i H.
    apply k2h_lookup in H as (ch & Hch & E).
    symmetry in E. apply k2h_emit_mark in E as (E & _); [discriminate|].
    rewrite length_take. destruct (k2h_positions false text) as (L & _).
    apply lookup_lt_Some in Hch. lia.
Qed.

End ReadingConverterOutput.

(* ===================================================================== *)
(*  Line repair: what a repair keeps                                     *)
(* ===================================================================== *)

Section VisibleText.

Lemma visible_app (a b : list Z) : visible (a ++ b) = visible a ++ visible b.
Proof. apply List.filter_app. Qed.

Lemma visible_blank (w : list Z) : forallb is_space w = true -> visible w = [].
Proof.
  induction w as [|x w IH]; [reflexivity|]. cbn [forallb visible List.filter].
  intros H. apply andb_true_iff in H as [-> H]. now apply IH.
Qed.

Lemma visible_lstrip (s : list Z) : visible (lstrip s) = visible s.
Proof.
  destruct (lstrip_suffix s) as (w & E & W). rewrite E at 2.
  now rewrite visible_app, (visible_blank w W).
Qed.

Lemma visible_rstrip (s : list Z) : visible (rstrip s) = visible s.
Proof.
  destruct (rstrip_prefix s) as (w & E & W). rewrite E at 2.
  now rewrite visible_app, (visible_blank w W), app_nil_r.
Qed.

Lemma visible_strip (s : list Z) : visible (strip s) = visible s.
Proof. unfold strip. now rewrite visible_rstrip, visible_lstrip. Qed.

Lemma visible_lines_app (a b : list (list Z)) :
  visible_lines (a ++ b) = visible_lines a ++ visible_lines b.
Proof. unfold visible_lines. now rewrite map_app, concat_app. Qed.

Lemma visible_join (ps : list (list Z)) :
  visible (join [NL] ps) = visible_lines ps.
Proof.
  induction ps as [|p ps IH]; [reflexivity|]. destruct ps as [|q ps].
  - unfold visible_lines. simpl. now rewrite app_nil_r.
  - change (join [NL] (p :: q :: ps)) with (p ++ [NL] ++ join [NL] (q :: ps)).
    rewrite !visible_app, IH. reflexivity.
Qed.

Lemma visible_split (s : list Z) : visible_lines (split NL s) = visible s.
Proof. now rewrite <- visible_join, join_split. Qed.

End VisibleText.

Section RepairKeeps.

Import FixRubyNewlines.

Lemma merge_forward_keeps (following : list (list Z)) :
  forall (cur : list Z) (i : nat) (ch : bool),
    let '(cur', following', _, _) := merge_forward cur following i ch in
    visible cur' ++ visible_lines following'
    = visible cur ++ visible_lines following
    /\ (length following' <= length following)%nat.
Proof.
  induction following as [|nxt following IH]; intros cur i ch; cbn [merge_forward].
  - split; [reflexivity | lia].
  - destruct (should_merge_with_next cur nxt).
    + specialize (IH (rstrip cur ++ strip nxt) (S i) true).
      destruct (merge_forward _ following (S i) true) as [[[cur' following'] i'] ch'].
      destruct IH as (E & L). split; [|simpl; lia].
      rewrite E, visible_app, visible_rstrip, visible_strip.
      unfold visible_lines. simpl. now rewrite <- app_assoc.
    + split; [reflexivity | lia].
Qed.

Lemma pass_loop_keeps (fuel : nat) :
  forall (i : nat) (remaining result : list (list Z)) (changed : bool),
    (length remaining <= fuel)%nat ->
    let out := fst (pass_loop fuel i remaining result changed) in
    visible_lines out = visible_lines result ++ visible_lines remaining
    /\ (length out <= length result + length remaining)%nat.
Proof.
  induction fuel as [|fuel IH]; intros i remaining result changed Hf out; subst out.
  - destruct remaining; [|simpl in Hf; lia]. simpl.
    rewrite app_nil_r. split; [reflexivity | lia].
  - destruct remaining as [|l following].
    + simpl. rewrite app_nil_r. split; [reflexivity | lia].
    + cbn [pass_loop]. simpl in Hf.
      destruct ((0 <? i)%nat && nonempty result
                && should_merge_with_prev (List.last result []) l) eqn:B.
      * apply andb_true_iff in B as [B _]. apply andb_true_iff in B as [_ B].
        destruct (IH (S i) following
                    (set_last result (List.last result [] ++ strip l)) true
                    ltac:(lia)) as (E & L).
        assert (Hr : result = removelast result ++ [List.last result []]).
        { apply app_removelast_last. destruct result; [discriminate | discriminate]. }
        split.
        -- rewrite E. unfold set_last. rewrite visible_lines_app.
           rewrite Hr at 3. rewrite visible_lines_app.
           unfold visible_lines at 2 4 5. simpl.
           rewrite !app_nil_r, visible_app, visible_strip.
           now rewrite <- !app_assoc.
        -- etransitivity; [exact L|]. unfold set_last. rewrite length_app.
           assert (Hl : length result = S (length (removelast result))).
           { rewrite Hr at 1. rewrite length_app. simpl. lia. }
           simpl. lia.
      * pose proof (merge_forward_keeps following l i changed) as MF.
        destruct (merge_forward l following i changed)
          as [[[cur' following'] i'] ch'].
        destruct MF as (E & L).
        destruct (IH (S i') following' (result ++ [cur']) ch' ltac:(lia))
          as (E' & L').
        split.
        -- rewrite E', visible_lines_app. unfold visible_lines at 2 4. simpl.
           rewrite app_nil_r, <- !app_assoc. f_equal. exact E.
        -- etransitivity; [exact L'|]. rewrite length_app. simpl. lia.
Qed.

Lemma passes_keeps (n : nat) (lines : list (list Z)) :
  visible_lines (passes n lines) = visible_lines lines
  /\ (length (passes n lines) <= length lines)%nat.
Proof.
  revert lines. induction n as [|n IH]; intros lines; cbn [passes].
  - split; [reflexivity | lia].
  - unfold one_pass.
    destruct (pass_loop_keeps (length lines) 0 lines [] false (Nat.le_refl _))
      as (E & L).
    destruct (pass_loop (length lines) 0 lines [] false) as [result changed].
    cbn [fst] in E, L. simpl in E, L. destruct changed.
    + destruct (IH result) as (E' & L'). split; [congruence | lia].
    + split; [exact E | exact L].
Qed.

(** X6.  The repair only takes out whitespace and line breaks: the
    characters of the text that are not whitespace are the same, in the
    same order, before and after, and the text has no more lines than
    before. *)
Theorem line_repair_keeps_text (content : list Z) :
  visible (fix_ruby_newlines content) = visible content
  /\ (length (split NL (fix_ruby_newlines content))
      <= length (split NL content))%nat.
Proof.
  unfold fix_ruby_newlines.
  destruct (passes_keeps 5 (split NL content)) as (E & L).
  change (passes 5 (split NL content)) with (repair (split NL content)) in E, L.
  split.
  - now rewrite visible_join, E, visible_split.
  - rewrite split_join; [exact L| |].
    + rewrite repair_one_pass. apply (one_pass_settled (split NL content)).
      apply split_nonempty.
    + rewrite repair_one_pass. apply (one_pass_settled (split NL content)).
      apply split_lines.
Qed.

End RepairKeeps.

Section RepairWithoutKanji.

Import FixRubyNewlines.

Lemma join_incl (sep : list Z) (ps : list (list Z)) (l : list Z) (x : Z) :
  In l ps -> In x l -> In x (join sep ps).
Proof.
  induction ps as [|p ps IH]; [intros []|]. intros Hl Hx.
  destruct ps as [|q ps].
  - destruct Hl as [->|[]]. exact Hx.
  - change (join sep (p :: q :: ps)) with (p ++ sep ++ join sep (q :: ps)).
    destruct Hl as [->|Hl]; apply in_or_app; [now left | right].
    apply in_or_app. right. now apply IH.
Qed.

Lemma split_incl (s l : list Z) (x : Z) :
  In l (split NL s) -> In x l -> In x s.
Proof.
  intros Hl Hx. rewrite <- (join_split s). now apply (join_incl _ _ l).
Qed.

Lemma before_final_newline_incl (s : list Z) (x : Z) :
  In x (before_final_newline s) -> In x s.
Proof.
  unfold before_final_newline. destruct (rev s) as [|y r] eqn:E; [auto|].
  destruct (y =? NL); [|auto]. intros H. apply in_rev in H.
  apply in_rev. rewrite E. now right.
Qed.

Section Line.

Variable s : list Z.
Hypothesis no_kanji : forall x, In x s -> kanji_class x = false.

Lemma kanji_1_3_without : forall t, (forall x, In x t -> In x s) -> kanji_1_3 t = false.
Proof.
  intros t Ht. unfold kanji_1_3. destruct t as [|x t]; [reflexivity|].
  cbn [forallb]. rewrite (no_kanji x (Ht x (or_introl eq_refl))).
  now rewrite andb_false_r.
Qed.

Lemma ends_in_kanji_without :
  forall t, (forall x, In x t -> In x s) -> ends_in_kanji t = false.
Proof.
  intros t Ht. unfold ends_in_kanji. destruct (rev t) as [|x r] eqn:E; [reflexivity|].
  apply no_kanji, Ht, in_rev. rewrite E. now left.
Qed.

Lemma KANJI_PATTERN_without : KANJI_PATTERN (strip s) = false.
Proof.
  unfold KANJI_PATTERN. rewrite !kanji_1_3_without; [reflexivity| |].
  - intros x H. now apply strip_incl, before_final_newline_incl.
  - intros x H. now apply strip_incl.
Qed.

Lemma KANJI_END_without : KANJI_END (strip s) = false.
Proof.
  unfold KANJI_END. rewrite !ends_in_kanji_without; [reflexivity| |].
  - intros x H. now apply strip_incl, before_final_newline_incl.
  - intros x H. now apply strip_incl.
Qed.

Lemma KANJI_START_without : KANJI_START (strip s) = false.
Proof.
  unfold KANJI_START. destruct (strip s) as [|x r] eqn:E; [reflexivity|].
  apply no_kanji, strip_incl. rewrite E. now left.
Qed.

End Line.

(* Two lines without kanji are never merged. *)
Lemma should_merge_without_kanji (cur nxt : list Z) :
  (forall x, In x cur -> kanji_class x = false) ->
  (forall x, In x nxt -> kanji_class x = false) ->
  should_merge_with_next cur nxt = false.
Proof.
  intros Hc Hn. unfold should_merge_with_next.
  rewrite (KANJI_PATTERN_without cur Hc), (KANJI_PATTERN_without nxt Hn),
    (KANJI_END_without cur Hc), (KANJI_START_without nxt Hn).
  destruct (negb (truthy (strip cur)) || negb (truthy (strip nxt)));
    [reflexivity|].
  cbn [andb orb]. rewrite !andb_false_r. reflexivity.
Qed.

Lemma settled_without_kanji (lines : list (list Z)) :
  (forall l x, In l lines -> In x l -> kanji_class x = false) ->
  settled lines = true.
Proof.
  induction lines as [|a lines IH]; intros H; [reflexivity|].
  destruct lines as [|b lines]; [reflexivity|].
  rewrite settled_cons. rewrite should_merge_without_kanji.
  - apply IH. intros l x Hl. apply H. now right.
  - intros x. apply H. now left.
  - intros x. apply H. right. now left.
Qed.

(** X7.  A text without any kanji is left as it is by the repair. *)
Theorem line_repair_without_kanji (content : list Z) :
  Forall (fun x => kanji_class x = false) content ->
  fix_ruby_newlines content = content.
Proof.
  intros H. rewrite List.Forall_forall in H. unfold fix_ruby_newlines.
  assert (Hs : settled (split NL content) = true).
  { apply settled_without_kanji. intros l x Hl Hx.
    apply H. now apply (split_incl content l). }
  rewrite repair_one_pass, (one_pass_id _ Hs). apply join_split.
Qed.

(* Two lines of kana, which the rules on kanji do not apply to. *)
Lemma line_repair_without_kanji_witness :
  fix_ruby_newlines (u "ふすま" ++ [NL] ++ u "をあける")
  = u "ふすま" ++ [NL] ++ u "をあける".
Proof.
  apply line_repair_without_kanji.
  apply List.Forall_forall. intros x H.
  assert (F : forallb (fun y => negb (kanji_class y))
                      (u "ふすま" ++ [NL] ++ u "をあける") = true)
    by (vm_compute; reflexivity).
  rewrite forallb_forall in F. apply negb_true_iff. now apply F.
Defined.

End RepairWithoutKanji.

(* ===================================================================== *)
(*  The markup walker: the shape of the text it returns                  *)
(* ===================================================================== *)

Section WalkerOutput.

Lemma calm_weaken (s : list Z) :
  forall r r' : nat, (r' <= r)%nat -> calm r s = true -> calm r' s = true.
Proof.
  induction s as [|x s IH]; intros r r' L; [reflexivity|]. cbn [calm].
  destruct (x =? NL); [|auto]. intros H.
  apply andb_true_iff in H as [H1 H2]. apply Nat.ltb_lt in H1.
  apply andb_true_iff. split; [apply Nat.ltb_lt; lia|].
  apply (IH (S r)); [lia | exact H2].
Qed.

Lemma calm_suffix (a t : list Z) :
  forall r : nat, calm r (a ++ t) = true -> calm 0 t = true.
Proof.
  induction a as [|x a IH]; intros r; cbn [app].
  - apply calm_weaken. lia.
  - cbn [calm]. destruct (x =? NL); [|apply IH].
    intros H. apply andb_true_iff in H as [_ H]. now apply IH in H.
Qed.

Lemma calm_prefix (s a : list Z) :
  forall r : nat, calm r (s ++ a) = true -> calm r s = true.
Proof.
  induction s as [|x s IH]; intros r; [reflexivity|]. cbn [app calm].
  destruct (x =? NL); [|apply IH].
  intros H. apply andb_true_iff in H as [-> H]. now apply IH in H.
Qed.

Lemma calm_flush (k : nat) (x : Z) (t : list Z) :
  x <> NL -> calm 0 (flush_newlines k ++ x :: t) = calm 0 t.
Proof.
  intros Hx. apply Z.eqb_neq in Hx. unfold flush_newlines.
  destruct k as [|[|[|k]]]; cbn; now rewrite Hx.
Qed.

Lemma collapse_calm (s : list Z) :
  forall k : nat, calm 0 (collapse_newlines_from k s) = true.
Proof.
  induction s as [|x s IH]; intros k; cbn [collapse_newlines_from].
  - unfold flush_newlines. destruct k as [|[|[|k]]]; reflexivity.
  - destruct (x =? NL) eqn:E; [apply IH|].
    apply Z.eqb_neq in E. rewrite (calm_flush k x _ E). apply IH.
Qed.

Lemma repeat_snoc_cons (k : nat) (x : Z) (t : list Z) :
  repeat x (S k) ++ t = repeat x k ++ x :: t.
Proof.
  induction k as [|k IH]; [reflexivity|].
  change (repeat x (S (S k))) with (x :: repeat x (S k)).
  cbn [app]. rewrite IH. reflexivity.
Qed.

(* A text without three line breaks in a row is left as it is by the
   clean-up of line breaks. *)
Lemma collapse_fixed (s : list Z) :
  forall k : nat, (k <= 2)%nat -> calm k s = true ->
                  collapse_newlines_from k s = repeat NL k ++ s.
Proof.
  induction s as [|x s IH]; intros k Hk H; cbn [collapse_newlines_from].
  - unfold flush_newlines. destruct k as [|[|[|k]]]; try reflexivity. lia.
  - cbn [calm] in H. destruct (x =? NL) eqn:E.
    + apply Z.eqb_eq in E. subst x.
      apply andb_true_iff in H as [H1 H2]. apply Nat.ltb_lt in H1.
      rewrite (IH (S k)) by (lia || assumption). apply repeat_snoc_cons.
    + rewrite (IH 0%nat) by (lia || assumption).
      unfold flush_newlines. destruct k as [|[|[|k]]]; try reflexivity. lia.
Qed.

Lemma calm_strip (s : list Z) : calm 0 s = true -> calm 0 (strip s) = true.
Proof.
  intros H. destruct (strip_infix s) as (w1 & w2 & E & _).
  rewrite E in H. apply calm_suffix in H. now apply calm_prefix in H.
Qed.

Lemma calm_no_triple (s a b : list Z) :
  calm 0 s = true -> s <> a ++ [NL; NL; NL] ++ b.
Proof.
  intros H E. rewrite E in H. apply calm_suffix in H. discriminate.
Qed.

(** X8.  The text the markup walker returns neither starts nor ends with
    whitespace and never has three line breaks in a row: cleaning it up
    again, as the caller does, changes nothing. *)
Theorem preserve_existing_ruby_normal_form
    (generator_add_furigana : list Z -> bool -> list Z) (filter_n3_plus : bool)
    (html : Node) :
  let text := preserve_existing_ruby generator_add_furigana filter_n3_plus html in
  collapse_newlines text = text
  /\ strip text = text
  /\ forall a b : list Z, text <> a ++ [NL; NL; NL] ++ b.
Proof.
  intros text. subst text. unfold preserve_existing_ruby.
  set (raw := extract_text_with_ruby _ _ _).
  assert (C : calm 0 (strip (collapse_newlines raw)) = true)
    by (apply calm_strip, collapse_calm).
  split; [|split].
  - unfold collapse_newlines at 1. now rewrite (collapse_fixed _ 0%nat) by (lia || exact C).
  - apply strip_idem.
  - intros a b. now apply calm_no_triple.
Qed.

End WalkerOutput.

(* ===================================================================== *)
(*  The annotator and line breaks                                        *)
(* ===================================================================== *)

Section AnnotatorLines.

Lemma split_pieces_incl (sep : Z) (s l : list Z) (x : Z) :
  In l (split sep s) -> In x l -> In x s.
Proof.
  revert l. induction s as [|y s IH]; intros l; cbn [split].
  - intros [<-|[]] [].
  - pose proof (split_nonempty sep s) as Hne. destruct (y =? sep).
    + intros [<-|H] Hx; [destruct Hx|]. right. now apply (IH l).
    + destruct (split sep s) as [|p ps]; [congruence|].
      intros [<-|H] Hx.
      * destruct Hx as [->|Hx]; [now left|]. right. apply (IH p); [now left | exact Hx].
      * right. apply (IH l); [now right | exact Hx].
Qed.

Lemma nth_piece_incl (sep : Z) (s : list Z) (i : nat) (x : Z) :
  In x (nth i (split sep s) []) -> In x s.
Proof.
  intros H. destruct (nth_in_or_default i (split sep s) []) as [Hin|E].
  - now apply (split_pieces_incl sep s _ x Hin).
  - rewrite E in H. destruct H.
Qed.

Lemma k2h_one_line (reading : list Z) (p : bool) :
  one_line reading -> one_line (_katakana_to_hiragana reading p).
Proof.
  intros H Hin. apply list_elem_of_In, list_elem_of_lookup_1 in Hin as (j & Hj).
  apply k2h_lookup in Hj as (ch & Hch & E).
  apply H. apply list_elem_of_lookup_2, list_elem_of_In in Hch.
  replace NL with ch; [exact Hch|].
  unfold k2h_emit in E. destruct (ch =? LONG_MARK).
  - destruct p; [discriminate|].
    destruct ((0 <? Z.of_nat j) && truthy _); [|discriminate].
    destruct (get_vowel_is_vowel (List.last (take j (_katakana_to_hiragana reading false)) 0))
      as [V|[V|[V|[]]]]; rewrite <- V in E; discriminate.
  - unfold kana_shift in E.
    destruct ((12449 <=? ch) && (ch <=? 12534)) eqn:R; [|now symmetry].
    apply andb_true_iff in R as [R1 R2]. apply Z.leb_le in R1, R2.
    unfold NL in E. lia.
Qed.

Lemma span_text_one_line (s : AnnotatedSpan) :
  one_line (span_base s) ->
  (forall surface rd, s = Ruby surface rd -> one_line rd) ->
  one_line (span_text s).
Proof.
  destruct s as [surface|surface rd]; cbn [span_base span_text]; [auto|].
  intros Hs Hr H. specialize (Hr surface rd eq_refl).
  rewrite !in_app_iff in H.
  destruct H as [H|[H|[H|[H|H]]]]; try contradiction;
    revert H; vm_compute; intuition discriminate.
Qed.

Variable tagger_parse : list Z -> list Z.
Variable name_dictionary : gmap (list Z) (list Z).
Variable preserve_long_vowel : bool.

Hypothesis dictionary_lines : map_Forall (fun _ rd => one_line rd) name_dictionary.

Lemma annotate_line_one_line (f : bool) (line : list Z) (s : AnnotatedSpan) :
  one_line line ->
  annotate_line name_dictionary preserve_long_vowel f line = Some s ->
  one_line (span_text s).
Proof.
  intros Hl H.
  assert (Hsurf : one_line (nth 0 (split TAB line) [])).
  { intros Hin. apply Hl. now apply (nth_piece_incl TAB line 0). }
  assert (Hread : one_line (_katakana_to_hiragana (nth 1 (split TAB line) [])
                              preserve_long_vowel)).
  { apply k2h_one_line. intros Hin. apply Hl. now apply (nth_piece_incl TAB line 1). }
  assert (Hdict : one_line (default [] (name_dictionary !! nth 0 (split TAB line) []))).
  { destruct (name_dictionary !! nth 0 (split TAB line) []) as [rd|] eqn:E.
    - exact (dictionary_lines _ _ E).
    - intros []. }
  unfold annotate_line in H.
  destruct (str_eqb line EOS || negb (truthy line)); [discriminate|].
  destruct (length (split TAB line) <? 2)%nat; [discriminate|].
  cbv zeta in H.
  repeat match type of H with
         | (if ?c then _ else _) = Some _ => destruct c
         end;
    injection H as <-; apply span_text_one_line; cbn [span_base]; try assumption;
    intros surface rd [= <- <-]; assumption.
Qed.

Lemma add_furigana_result_one_line (text : list Z) (f : bool) :
  Forall (fun s => one_line (span_text s))
         (add_furigana_result tagger_parse name_dictionary preserve_long_vowel text f).
Proof.
  unfold add_furigana_result. apply List.Forall_forall. intros s Hs.
  apply list_elem_of_In, list_elem_of_omap in Hs as (line & Hline & Hs).
  apply (annotate_line_one_line f line s); [|exact Hs].
  pose proof (split_lines (tagger_parse text)) as F.
  rewrite List.Forall_forall in F. apply F. now apply list_elem_of_In.
Qed.

Lemma concat_one_line (pieces : list (list Z)) :
  Forall one_line pieces -> one_line (concat pieces).
Proof.
  intros F Hin. apply in_concat in Hin as (piece & Hp & Hx).
  rewrite List.Forall_forall in F. exact (F piece Hp Hx).
Qed.

(** X9.  The annotated text of a text that is not blank never holds a line
    break, whatever line breaks the text has, provided no reading of the
    name dictionary holds one: the annotator writes its spans one after the
    other. *)
Theorem add_furigana_one_line (text : list Z) (f : bool) :
  truthy (strip text) = true ->
  forall x : Z,
    In x (add_furigana tagger_parse name_dictionary preserve_long_vowel text f) ->
    x <> NL.
Proof.
  intros Hb x Hin ->. revert Hin. unfold add_furigana. rewrite Hb.
  assert (Ht : truthy text = true) by (destruct text; [discriminate | reflexivity]).
  rewrite Ht. cbn [negb orb]. rewrite join_nil_concat.
  apply concat_one_line. apply Forall_map.
  pose proof (add_furigana_result_one_line text f) as F.
  rewrite List.Forall_forall in F. apply List.Forall_forall. exact F.
Qed.

Import AddFuriganaToText.

Local Abbreviation generator := (add_furigana tagger_parse name_dictionary preserve_long_vowel).

Lemma add_furigana_to_line_one_line (f : bool) (line : list Z) :
  one_line line -> one_line (add_furigana_to_line generator f line).
Proof.
  intros H. unfold add_furigana_to_line.
  destruct (truthy (strip line)) eqn:B; [|exact H]. cbn [negb].
  destruct (contains line (u "<ruby>")); [exact H|].
  unfold add_furigana. rewrite B.
  assert (Ht : truthy line = true) by (destruct line; [discriminate | reflexivity]).
  rewrite Ht. cbn [negb orb]. rewrite join_nil_concat.
  apply concat_one_line. apply Forall_map.
  pose proof (add_furigana_result_one_line line f) as F.
  rewrite List.Forall_forall in F. apply List.Forall_forall. exact F.
Qed.

Lemma take_while_incl (p : Z -> bool) (s : list Z) (x : Z) :
  In x (ExtractRubySmart.take_while p s) -> In x s.
Proof.
  induction s as [|y s IH]; [auto|]. cbn [ExtractRubySmart.take_while].
  destruct (p y); [|intros []]. intros [->|H]; [now left | right; auto].
Qed.

Lemma drop_incl (n : nat) (s : list Z) (x : Z) : In x (drop n s) -> In x s.
Proof.
  intros H. rewrite <- (take_drop n s). apply in_or_app. now right.
Qed.

Lemma plain_line_one_line (f : bool) (line : list Z) :
  one_line line -> one_line (plain_line generator f line).
Proof.
  intros H. unfold plain_line. destruct (negb (truthy (strip line))); [exact H|].
  now apply add_furigana_to_line_one_line.
Qed.

Lemma rephrase_line_one_line (f : bool) (line : list Z) :
  one_line line -> one_line (rephrase_line generator f line).
Proof.
  intros H. unfold rephrase_line.
  assert (Hs : one_line (strip line)) by (intros Hin; now apply H, strip_incl).
  assert (Hp : forall prefix,
             one_line prefix ->
             one_line (prefix ++ add_furigana_to_line generator f
                                   (drop (length prefix) (strip line)))).
  { intros prefix Hpre Hin. apply in_app_or in Hin as [Hin|Hin]; [now apply Hpre|].
    revert Hin. apply add_furigana_to_line_one_line.
    intros Hin. now apply Hs, (drop_incl (length prefix)). }
  destruct (negb (truthy (strip line))); [exact H|].
  destruct (startswith (strip line) (u "<") && negb (startswith (strip line) (u "<ruby>"))).
  - destruct (heading_prefix (strip line)) as [prefix|] eqn:E; [|exact H].
    apply Hp. unfold heading_prefix in E.
    destruct (strip line) as [|x rest]; [discriminate|].
    destruct ((x =? c1 "<") || (x =? c1 "＜")); [|discriminate].
    injection E as <-. intros [Hx|Hx].
    + apply Hs. now left.
    + apply Hs. right. now apply (take_while_incl is_space).
  - destruct (startswith (strip line) (u ">>")).
    + destruct (subitem_prefix (strip line)) as [prefix|] eqn:E; [|exact H].
      apply Hp. unfold subitem_prefix in E.
      destruct (startswith (strip line) (u ">>")); [|discriminate].
      injection E as <-. intros [Hx|[Hx|Hx]]; try discriminate.
      apply Hs. apply (drop_incl 2). now apply (take_while_incl is_space).
    + now apply add_furigana_to_line_one_line.
Qed.

Lemma split_join_map (g : list Z -> list Z) (content : list Z) :
  (forall l, one_line l -> one_line (g l)) ->
  split NL (join [NL] (map g (split NL content))) = map g (split NL content).
Proof.
  intros Hg. apply split_join.
  - pose proof (split_nonempty NL content). destruct (split NL content);
      [congruence | discriminate].
  - apply List.Forall_forall. intros l Hl. apply in_map_iff in Hl as (l0 & <- & Hl0).
    apply Hg. pose proof (split_lines content) as F.
    rewrite List.Forall_forall in F. now apply F.
Qed.

(** X10.  Both ways of processing a file work line by line: the text
    written has as many lines as the text read, and each of its lines is
    what the loop body gives for the line at the same place (provided no
    reading of the name dictionary holds a line break). *)
Theorem process_text_line_by_line (f : bool) (content : list Z) :
  split NL (process_plain_text generator f content)
  = map (plain_line generator f) (split NL content)
  /\ split NL (process_rephrase_format generator f content)
     = map (rephrase_line generator f) (split NL content)
  /\ length (split NL (process_content generator f content))
     = length (split NL content).
Proof.
  assert (H1 := split_join_map (plain_line generator f) content
                  (plain_line_one_line f)).
  assert (H2 := split_join_map (rephrase_line generator f) content
                  (rephrase_line_one_line f)).
  split; [exact H1|]. split; [exact H2|].
  unfold process_content. destruct (detect_format content).
  - unfold process_rephrase_format. rewrite H2. apply length_map.
  - unfold process_plain_text. rewrite H1. apply length_map.
Qed.

End AnnotatorLines.

(* 神崎は is written on one line. *)
Lemma add_furigana_one_line_witness :
  truthy (strip (u "神崎は")) = true /\ c1 "は" <> NL.
Proof.
  split; [vm_compute; reflexivity|].
  apply (add_furigana_one_line
           (fun _ => mecab_output [mecab_line (u "神崎") (u "カンザキ");
                                   mecab_line (u "は") (u "ハ")])
           ∅ false (map_Forall_empty _) (u "神崎は") false).
  - vm_compute. reflexivity.
  - vm_compute. tauto.
Defined.

(* Two lines, the second one annotated already: two lines are written. *)
Lemma process_text_line_by_line_witness :
  length (split NL (AddFuriganaToText.process_content
                      (add_furigana
                         (fun _ => mecab_output [mecab_line (u "神崎") (u "カンザキ")])
                         ∅ false)
                      false
                      (u "神崎" ++ [NL] ++ u "<ruby>上手<rt>じょうず</rt></ruby>")))
  = length (split NL (u "神崎" ++ [NL] ++ u "<ruby>上手<rt>じょうず</rt></ruby>")).
Proof.
  apply (process_text_line_by_line _ ∅ false (map_Forall_empty _) false).
Defined.

(* ===================================================================== *)
(*  Deduplication of rephrase files                                      *)
(* ===================================================================== *)

Section Duplicates.

Import DedupeRephrase.

Example parse_two_sections :
  map header (parse_sections (u "Title" ++ [NL] ++ u "< 一" ++ [NL] ++ u ">> a"
                                ++ [NL] ++ u "< 二"))
  = [PREAMBLE; u "一"; u "二"].
Proof. vm_compute. reflexivity. Qed.

(* The loop of find_duplicates, from any state: the sections kept and
   removed are added to those kept and removed before. *)
Lemma dedupe_loop (sections : list RephraseSection) :
  forall (seen : gset (list Z)) (unique removed : list RephraseSection),
    let '(_, unique', removed') := foldl dedupe_step (seen, unique, removed) sections in
    unique' = unique ++ fst (first_of_each seen sections)
    /\ removed' = removed ++ snd (first_of_each seen sections).
Proof.
  induction sections as [|s sections IH]; intros seen unique removed.
  - simpl. now rewrite !app_nil_r.
  - cbn [foldl first_of_each dedupe_step].
    destruct (str_eqb (normalized s) PREAMBLE).
    + specialize (IH seen (unique ++ [s]) removed).
      destruct (foldl dedupe_step _ sections) as [[seen' u'] r'].
      destruct (first_of_each seen sections) as [u r]. cbn [fst snd] in *.
      destruct IH as (-> & ->). now rewrite <- app_assoc.
    + destruct (negb (bool_decide (normalized s ∈ seen))).
      * specialize (IH ({[normalized s]} ∪ seen) (unique ++ [s]) removed).
        destruct (foldl dedupe_step _ sections) as [[seen' u'] r'].
        destruct (first_of_each _ sections) as [u r]. cbn [fst snd] in *.
        destruct IH as (-> & ->). now rewrite <- app_assoc.
      * specialize (IH seen unique (removed ++ [s])).
        destruct (foldl dedupe_step _ sections) as [[seen' u'] r'].
        destruct (first_of_each seen sections) as [u r]. cbn [fst snd] in *.
        destruct IH as (-> & ->). now rewrite <- app_assoc.
Qed.

Lemma find_duplicates_first_of_each (sections : list RephraseSection) :
  find_duplicates sections = first_of_each ∅ sections.
Proof.
  unfold find_duplicates. pose proof (dedupe_loop sections ∅ [] []) as H.
  destruct (foldl dedupe_step _ sections) as [[seen' u'] r'].
  destruct H as (-> & ->). now destruct (first_of_each ∅ sections).
Qed.

Lemma first_of_each_spec (sections : list RephraseSection) :
  forall seen : gset (list Z),
    let unique := fst (first_of_each seen sections) in
    let removed := snd (first_of_each seen sections) in
    Permutation (unique ++ removed) sections
    /\ sublist unique sections
    /\ NoDup (map normalized (List.filter titled unique))
    /\ (forall s, In s unique -> titled s = true -> normalized s ∉ seen)
    /\ (forall s, In s removed ->
          titled s = true
          /\ (normalized s ∈ seen
              \/ exists s', In s' unique /\ normalized s' = normalized s))
    /\ (forall before s after,
          sections = before ++ s :: after ->
          normalized s ∉ seen ->
          Forall (fun s' => normalized s' <> normalized s) before ->
          In s unique).
Proof.
  induction sections as [|s sections IH]; intros seen unique removed;
    subst unique removed.
  - cbn [first_of_each fst snd app map List.filter].
    split; [constructor|]. split; [constructor|]. split; [constructor|].
    split; [intros s []|]. split; [intros s []|].
    intros before s after E. destruct before; discriminate.
  - cbn [first_of_each].
    destruct (str_eqb (normalized s) PREAMBLE) eqn:P.
    + specialize (IH seen). destruct (first_of_each seen sections) as [u r].
      cbn [fst snd] in *. destruct IH as (I1 & I2 & I3 & I4 & I5 & I6).
      split; [cbn [app]; now constructor|]. split; [now constructor|].
      split; [cbn [List.filter]; unfold titled at 1; now rewrite P|].
      split.
      { intros s0 [<-|H] T; [unfold titled in T; rewrite P in T; discriminate|].
        now apply I4. }
      split.
      { intros s0 H. destruct (I5 s0 H) as (T & [Hs|(s' & Hs' & E)]);
          (split; [exact T|]); [now left | right]. exists s'. split; [now right | exact E]. }
      intros [|b before] s0 after E Hn F.
      * injection E as <- _. now left.
      * injection E as <- E. apply Forall_cons in F as [_ F].
        right. now apply (I6 before s0 after).
    + destruct (bool_decide (normalized s ∈ seen)) eqn:B; cbn [negb].
      * apply bool_decide_eq_true in B.
        specialize (IH seen). destruct (first_of_each seen sections) as [u r].
        cbn [fst snd] in *. destruct IH as (I1 & I2 & I3 & I4 & I5 & I6).
        split.
        { rewrite <- I1. symmetry. apply Permutation_middle. }
        split; [now apply sublist_cons|]. split; [exact I3|]. split; [exact I4|].
        split.
        { intros s0 [<-|H]; [|now apply I5].
          split; [unfold titled; now rewrite P | now left]. }
        intros [|b before] s0 after E Hn F.
        -- injection E as <- _. contradiction.
        -- injection E as <- E. apply Forall_cons in F as [_ F].
           now apply (I6 before s0 after).
      * apply bool_decide_eq_false in B.
        specialize (IH ({[normalized s]} ∪ seen)).
        destruct (first_of_each _ sections) as [u r].
        cbn [fst snd] in *. destruct IH as (I1 & I2 & I3 & I4 & I5 & I6).
        split; [cbn [app]; now constructor|]. split; [now constructor|].
        split.
        { cbn [List.filter]. unfold titled at 1. rewrite P. cbn [negb map].
          apply NoDup_cons. split; [|exact I3].
          intros Hin. apply list_elem_of_In, in_map_iff in Hin as (s' & E & Hs').
          apply filter_In in Hs' as (Hs' & T).
          apply (I4 s' Hs' T). rewrite E.
          apply elem_of_union. left. now apply elem_of_singleton. }
        split.
        { intros s0 [<-|H] T; [exact B|].
          specialize (I4 s0 H T). intros Hin. apply I4.
          apply elem_of_union. now right. }
        split.
        { intros s0 H. destruct (I5 s0 H) as (T & [Hs|(s' & Hs' & E)]);
            (split; [exact T|]).
          - apply elem_of_union in Hs as [Hs|Hs]; [|now left].
            apply elem_of_singleton in Hs. right. exists s. split; [now left | now symmetry].
          - right. exists s'. split; [now right | exact E]. }
        intros [|b before] s0 after E Hn F.
        -- injection E as <- _. now left.
        -- injection E as <- E. apply Forall_cons in F as [Hb F].
           right. apply (I6 before s0 after E); [|exact F].
           intros Hin. apply elem_of_union in Hin as [Hin|Hin]; [|now apply Hn].
           apply elem_of_singleton in Hin. now apply Hb.
Qed.

(** X11.  find_duplicates splits the sections into those kept and those
    removed without losing or reordering any: the sections kept are the
    preamble sections and, for every header (compared in its normalized
    form), the first section that has it; every section removed has the
    header of a section kept. *)
Theorem find_duplicates_keeps_first (sections : list RephraseSection) :
  let unique := fst (find_duplicates sections) in
  let removed := snd (find_duplicates sections) in
  Permutation (unique ++ removed) sections
  /\ sublist unique sections
  /\ NoDup (map normalized (List.filter titled unique))
  /\ (forall s, In s sections -> titled s = false -> In s unique)
  /\ (forall s, In s removed ->
        titled s = true
        /\ exists s', In s' unique /\ normalized s' = normalized s)
  /\ (forall before s after,
        sections = before ++ s :: after ->
        Forall (fun s' => normalized s' <> normalized s) before ->
        In s unique).
Proof.
  intros unique removed. subst unique removed.
  rewrite find_duplicates_first_of_each.
  destruct (first_of_each_spec sections ∅) as (I1 & I2 & I3 & I4 & I5 & I6).
  split; [exact I1|]. split; [exact I2|]. split; [exact I3|]. split; [|split].
  - intros s Hs T. apply (Permutation_in _ (Permutation_sym I1)) in Hs.
    apply in_app_or in Hs as [Hs|Hs]; [exact Hs|].
    destruct (I5 s Hs) as (T' & _). congruence.
  - intros s Hs. destruct (I5 s Hs) as (T & [Hin|H]); [|now split].
    apply elem_of_empty in Hin. destruct Hin.
  - intros before s after E F.
    apply (I6 before s after E); [apply not_elem_of_empty | exact F].
Qed.

Lemma first_of_each_again (sections : list RephraseSection) :
  forall seen : gset (list Z),
    first_of_each seen (fst (first_of_each seen sections))
    = (fst (first_of_each seen sections), []).
Proof.
  induction sections as [|s sections IH]; intros seen; [reflexivity|].
  cbn [first_of_each]. destruct (str_eqb (normalized s) PREAMBLE) eqn:P.
  - specialize (IH seen). destruct (first_of_each seen sections) as [u r].
    cbn [fst] in *. cbn [first_of_each]. now rewrite P, IH.
  - destruct (bool_decide (normalized s ∈ seen)) eqn:B; cbn [negb].
    + specialize (IH seen). destruct (first_of_each seen sections) as [u r].
      exact IH.
    + specialize (IH ({[normalized s]} ∪ seen)).
      destruct (first_of_each _ sections) as [u r].
      cbn [fst] in *. cbn [first_of_each]. now rewrite P, B, IH.
Qed.

(** X12.  Looking for duplicates among the sections kept finds none: they
    are all kept again. *)
Theorem find_duplicates_idempotent (sections : list RephraseSection) :
  find_duplicates (fst (find_duplicates sections))
  = (fst (find_duplicates sections), []).
Proof.
  rewrite !find_duplicates_first_of_each. apply first_of_each_again.
Qed.

End Duplicates.

Section Sections.

Import DedupeRephrase.

Lemma add_line_section_of (line : list Z) (body : list (list Z)) (l : list Z) :
  add_line (section_of line body) l = section_of line (body ++ [l]).
Proof. reflexivity. Qed.

Lemma new_section_of (line : list Z) : new_section line = section_of line [].
Proof. reflexivity. Qed.

Lemma header_line_start (line : list Z) :
  header_line line = true -> section_start (strip line) = true.
Proof. unfold header_line. intros H. now apply andb_true_iff in H as [H _]. Qed.

(* the loop, a section being open *)
Lemma parse_loop_open (content_lines : list (list Z)) :
  forall (sections : list RephraseSection) (current : RephraseSection),
    let '(sections', current') :=
      foldl parse_step (sections, Some current) content_lines in
    match current' with
    | Some c => sections' ++ [c]
    | None => sections'
    end = sections ++ sections_from current content_lines.
Proof.
  induction content_lines as [|l ls IH]; intros sections current; [reflexivity|].
  cbn [foldl sections_from]. unfold parse_step at 2, header_line.
  destruct (section_start (strip l)); cbn [andb].
  - destruct (markup_start (strip l)); cbn [negb].
    + apply IH.
    + specialize (IH (sections ++ [current]) (new_section l)).
      destruct (foldl parse_step _ ls) as [s' c']. rewrite IH.
      now rewrite <- app_assoc.
  - apply IH.
Qed.

(* the loop, no section being open *)
Lemma parse_loop_closed (content_lines : list (list Z)) :
  forall sections : list RephraseSection,
    let '(sections', current') :=
      foldl parse_step (sections, None) content_lines in
    match current' with
    | Some c => sections' ++ [c]
    | None => sections'
    end = sections_before sections content_lines.
Proof.
  induction content_lines as [|l ls IH]; intros sections; [reflexivity|].
  cbn [foldl sections_before]. unfold parse_step at 2, header_line.
  destruct (section_start (strip l)); cbn [andb].
  - destruct (markup_start (strip l)); cbn [negb].
    + apply IH.
    + apply (parse_loop_open ls sections (new_section l)).
  - destruct sections as [|s0 sections]; apply IH.
Qed.

Lemma parse_lines_sections (content_lines : list (list Z)) :
  parse_lines content_lines = sections_before [] content_lines.
Proof.
  unfold parse_lines. pose proof (parse_loop_closed content_lines []) as H.
  now destruct (foldl parse_step _ content_lines) as [s' c'].
Qed.

(* no line is lost once a section is open *)
Lemma sections_from_lines (content_lines : list (list Z)) :
  forall current : RephraseSection,
    concat (map lines (sections_from current content_lines))
    = lines current ++ content_lines.
Proof.
  induction content_lines as [|l ls IH]; intros current; cbn [sections_from].
  - cbn. reflexivity.
  - destruct (header_line l).
    + cbn [map concat]. now rewrite IH.
    + rewrite IH. cbn [add_line lines]. now rewrite <- app_assoc.
Qed.

(** X13.  When the text starts with a header line, or with one line that
    does not begin with < followed by a header line (or by nothing),
    cutting it into sections and writing the sections out again gives the
    text back. *)
Theorem parse_sections_round_trip (content : list Z) :
  starts_with_sections (split NL content) = true ->
  sections_to_content (parse_sections content) = content.
Proof.
  intros H. unfold sections_to_content, parse_sections.
  rewrite parse_lines_sections. rewrite <- (join_split content) at 2.
  f_equal. destruct (split NL content) as [|l rest]; [discriminate|].
  cbn [starts_with_sections] in H. cbn [sections_before].
  destruct (header_line l) eqn:Hl.
  - cbn [app]. now rewrite sections_from_lines.
  - cbn [orb] in H. apply andb_true_iff in H as [Hs H].
    apply negb_true_iff in Hs. rewrite Hs.
    destruct rest as [|h rest]; [reflexivity|].
    cbn [sections_before]. rewrite H.
    rewrite map_app, concat_app, sections_from_lines. reflexivity.
Qed.

(* A title line, a section and its rephrasing. *)
Lemma parse_sections_round_trip_witness :
  sections_to_content
    (parse_sections (u "Title" ++ [NL] ++ u "< 一" ++ [NL] ++ u ">> a"))
  = u "Title" ++ [NL] ++ u "< 一" ++ [NL] ++ u ">> a".
Proof.
  apply parse_sections_round_trip. vm_compute. reflexivity.
Defined.

Lemma sections_before_skip (dropped rest : list (list Z)) (s : RephraseSection)
    (sections : list RephraseSection) :
  Forall (fun l => header_line l = false) dropped ->
  sections_before (s :: sections) (dropped ++ rest)
  = sections_before (s :: sections) rest.
Proof.
  induction 1 as [|l dropped Hl _ IH]; [reflexivity|].
  cbn [app sections_before]. rewrite Hl.
  destruct (section_start (strip l)); exact IH.
Qed.

(** X14.  Before the first header line only one line is kept: the lines
    between the first line of the preamble and the first header line are
    dropped from the sections, and so from every file that is rewritten. *)
Theorem preamble_keeps_one_line (first : list Z) (dropped rest : list (list Z)) :
  section_start (strip first) = false ->
  Forall (fun l => header_line l = false) dropped ->
  parse_lines (first :: dropped ++ rest) = parse_lines (first :: rest).
Proof.
  intros Hf Hd. rewrite !parse_lines_sections. cbn [sections_before].
  unfold header_line. rewrite Hf. cbn [andb].
  now apply sections_before_skip.
Qed.

(* The author line after the title line is lost. *)
Lemma preamble_keeps_one_line_witness :
  parse_lines [u "Title: 本"; u "Author: 私"; []; u "< 一"]
  = parse_lines [u "Title: 本"; u "< 一"].
Proof.
  apply (preamble_keeps_one_line (u "Title: 本") [u "Author: 私"; []] [u "< 一"]).
  - vm_compute. reflexivity.
  - repeat constructor.
Defined.

End Sections.

Section DedupeTwice.

Import DedupeRephrase.

Lemma sections_from_shape (content_lines : list (list Z)) :
  forall (line : list Z) (body : list (list Z)),
    header_line line = true ->
    Forall (fun l => header_line l = false) body ->
    Forall titled_section (sections_from (section_of line body) content_lines).
Proof.
  induction content_lines as [|l ls IH]; intros line body Hh Hb; cbn [sections_from].
  - apply Forall_cons. split; [|constructor]. now exists line, body.
  - destruct (header_line l) eqn:Hl.
    + apply Forall_cons. split; [now exists line, body|].
      rewrite new_section_of. apply IH; [exact Hl | constructor].
    + rewrite add_line_section_of. apply IH; [exact Hh|].
      apply Forall_app. split; [exact Hb|]. apply Forall_cons. split; [exact Hl | constructor].
Qed.

Lemma sections_before_shape (content_lines : list (list Z)) :
  forall sections : list RephraseSection,
    (sections = [] \/ exists s, sections = [s] /\ preamble_section s) ->
    parsed_shape (sections_before sections content_lines).
Proof.
  induction content_lines as [|l ls IH]; intros sections Hs; cbn [sections_before].
  - exists sections, []. rewrite app_nil_r. split; [reflexivity|]. split; [constructor | exact Hs].
  - destruct (header_line l) eqn:Hl.
    + exists sections, (sections_from (new_section l) ls).
      split; [reflexivity|]. split; [|exact Hs].
      rewrite new_section_of. apply sections_from_shape; [exact Hl | constructor].
    + destruct (section_start (strip l)) eqn:St; [now apply IH|].
      destruct sections as [|s0 sections]; [|now apply IH].
      apply IH. right. eexists. split; [reflexivity|]. now exists l.
Qed.

Lemma parse_lines_shape (content_lines : list (list Z)) :
  parsed_shape (parse_lines content_lines).
Proof. rewrite parse_lines_sections. apply sections_before_shape. now left. Qed.

Lemma sections_before_lines (content_lines : list (list Z)) :
  forall (sections : list RephraseSection) (l : list Z),
    In l (concat (map lines (sections_before sections content_lines))) ->
    In l (concat (map lines sections)) \/ In l content_lines.
Proof.
  induction content_lines as [|l0 ls IH]; intros sections l; cbn [sections_before].
  - now left.
  - destruct (header_line l0).
    + rewrite map_app, concat_app, sections_from_lines. cbn [new_section lines app].
      intros H. apply in_app_or in H as [H|H]; [now left | now right].
    + assert (G : forall S,
                 (In l (concat (map lines S)) -> In l (concat (map lines sections)) \/ In l (l0 :: ls)) ->
                 In l (concat (map lines (sections_before S ls))) ->
                 In l (concat (map lines sections)) \/ In l (l0 :: ls)).
      { intros S HS H. apply IH in H as [H|H]; [now apply HS | right; now right]. }
      destruct (section_start (strip l0)); [apply G; tauto|].
      destruct sections as [|s0 sections]; [|apply G; tauto].
      apply G. cbn. intros [H|[]]. right. now left.
Qed.

Lemma first_of_each_titled (sections : list RephraseSection) :
  forall seen : gset (list Z),
    Forall titled_section sections ->
    Forall titled_section (fst (first_of_each seen sections)).
Proof.
  induction sections as [|s sections IH]; intros seen H; [constructor|].
  apply Forall_cons in H as [Hs H]. cbn [first_of_each].
  destruct (str_eqb (normalized s) PREAMBLE).
  - specialize (IH seen H). destruct (first_of_each seen sections) as [u0 r0].
    cbn [fst] in *. now constructor.
  - destruct (negb (bool_decide (normalized s ∈ seen))).
    + specialize (IH ({[normalized s]} ∪ seen) H).
      destruct (first_of_each _ sections) as [u0 r0]. cbn [fst] in *. now constructor.
    + specialize (IH seen H). now destruct (first_of_each seen sections) as [u0 r0].
Qed.

Lemma first_of_each_shape (sections : list RephraseSection) :
  parsed_shape sections -> parsed_shape (fst (first_of_each ∅ sections)).
Proof.
  intros (pre & ts & -> & Ht & [->|(s & -> & l0 & -> & Hl)]).
  - exists [], (fst (first_of_each ∅ ts)). split; [reflexivity|].
    split; [now apply first_of_each_titled | now left].
  - cbn [app first_of_each normalized].
    change (str_eqb PREAMBLE PREAMBLE) with true. cbv iota.
    pose proof (first_of_each_titled ts ∅ Ht) as Hu.
    destruct (first_of_each ∅ ts) as [u0 r0]. cbn [fst] in *.
    exists [mkSection PREAMBLE [l0] PREAMBLE], u0. split; [reflexivity|].
    split; [exact Hu|]. right. eexists. split; [reflexivity|]. now exists l0.
Qed.

Lemma sections_from_body (body rest : list (list Z)) :
  forall (line : list Z) (before : list (list Z)),
    Forall (fun l => header_line l = false) body ->
    sections_from (section_of line before) (body ++ rest)
    = sections_from (section_of line (before ++ body)) rest.
Proof.
  induction body as [|l body IH]; intros line before H; cbn [app].
  - now rewrite app_nil_r.
  - apply Forall_cons in H as [Hl H]. cbn [sections_from]. rewrite Hl.
    rewrite add_line_section_of, IH by exact H. now rewrite <- app_assoc.
Qed.

(* Sections that start with their header line are read back from their
   lines. *)
Lemma sections_from_sections (sections : list RephraseSection) :
  forall current : RephraseSection,
    Forall titled_section sections ->
    sections_from current (concat (map lines sections)) = current :: sections.
Proof.
  induction sections as [|s sections IH]; intros current H; [reflexivity|].
  apply Forall_cons in H as [(line & body & -> & Hh & Hb) H].
  cbn [map concat lines section_of app sections_from]. rewrite Hh. f_equal.
  rewrite new_section_of, sections_from_body by exact Hb. cbn [app].
  now apply IH.
Qed.

Lemma reparse (sections : list RephraseSection) :
  parsed_shape sections ->
  parse_lines (concat (map lines sections)) = sections.
Proof.
  intros (pre & ts & -> & Ht & Hpre). rewrite parse_lines_sections.
  assert (Hts : forall S, sections_before S (concat (map lines ts)) = S ++ ts).
  { intros S. destruct ts as [|s ts]; [cbn; now rewrite app_nil_r|].
    apply Forall_cons in Ht as [(line & body & -> & Hh & Hb) Ht].
    cbn [map concat lines section_of app sections_before]. rewrite Hh. f_equal.
    rewrite new_section_of, sections_from_body by exact Hb. cbn [app].
    now apply sections_from_sections. }
  destruct Hpre as [->|(s & -> & l0 & -> & Hl)]; [apply Hts|].
  cbn [app map concat lines sections_before].
  unfold header_line. rewrite Hl. cbn [andb]. apply Hts.
Qed.

Lemma shape_lines (sections : list RephraseSection) :
  parsed_shape sections -> sections <> [] -> concat (map lines sections) <> [].
Proof.
  intros (pre & ts & -> & Ht & [->|(s & -> & l0 & -> & Hl)]) Hne.
  - destruct ts as [|s ts]; [exfalso; now apply Hne|].
    apply Forall_cons in Ht as [(line & body & -> & _) _]. discriminate.
  - discriminate.
Qed.

Lemma first_of_each_lines (sections : list RephraseSection) :
  forall (seen : gset (list Z)) (l : list Z),
    In l (concat (map lines (fst (first_of_each seen sections)))) ->
    In l (concat (map lines sections)).
Proof.
  induction sections as [|s sections IH]; intros seen l; [auto|].
  cbn [first_of_each map concat].
  destruct (str_eqb (normalized s) PREAMBLE).
  - specialize (IH seen l). destruct (first_of_each seen sections) as [u0 r0].
    cbn [fst map concat] in *. rewrite !in_app_iff. tauto.
  - destruct (negb (bool_decide (normalized s ∈ seen))).
    + specialize (IH ({[normalized s]} ∪ seen) l).
      destruct (first_of_each _ sections) as [u0 r0].
      cbn [fst map concat] in *. rewrite !in_app_iff. tauto.
    + specialize (IH seen l). destruct (first_of_each seen sections) as [u0 r0].
      cbn [fst] in *. rewrite in_app_iff. tauto.
Qed.

Lemma new_content_sections (content : list Z) :
  new_content content
  = sections_to_content (fst (first_of_each ∅ (parse_sections content))).
Proof.
  unfold new_content. rewrite find_duplicates_first_of_each.
  now destruct (first_of_each ∅ (parse_sections content)).
Qed.

(** X15.  Removing the duplicate sections of a file that has been through
    it already changes nothing: the content written is cut into the
    sections it was written from, and none of them is a duplicate. *)
Theorem new_content_idempotent (content : list Z) :
  new_content (new_content content) = new_content content.
Proof.
  rewrite (new_content_sections content).
  set (kept := fst (first_of_each ∅ (parse_sections content))).
  assert (Hshape : parsed_shape kept).
  { apply first_of_each_shape, parse_lines_shape. }
  destruct kept as [|s kept'] eqn:E; [vm_compute; reflexivity|].
  rewrite <- E in *. rewrite new_content_sections.
  unfold sections_to_content at 2, parse_sections. rewrite split_join.
  - rewrite (reparse kept Hshape). subst kept.
    now rewrite first_of_each_again.
  - apply shape_lines; [exact Hshape | congruence].
  - apply List.Forall_forall. intros l Hl. subst kept.
    apply first_of_each_lines in Hl. unfold parse_sections in Hl.
    rewrite parse_lines_sections in Hl.
    apply sections_before_lines in Hl as [[]|Hl].
    pose proof (split_lines content) as F. rewrite List.Forall_forall in F.
    now apply F.
Qed.

End DedupeTwice.

Section Headers.

Import DedupeRephrase.

Lemma sub_whitespace_runs_nil (b : bool) (s : list Z) :
  sub_whitespace_runs [] b s = visible s.
Proof.
  revert b. induction s as [|x s IH]; intros b; [reflexivity|].
  cbn [sub_whitespace_runs visible List.filter]. destruct (is_space x); cbn [negb].
  - destruct b; cbn [app]; apply IH.
  - f_equal. apply IH.
Qed.

Lemma visible_no_space (s : list Z) : Forall (fun x => is_space x = false) (visible s).
Proof.
  apply List.Forall_forall. intros x H. apply filter_In in H as [_ H].
  now apply negb_true_iff.
Qed.

Lemma startswith_app (p rest : list Z) : startswith (p ++ rest) p = true.
Proof.
  induction p as [|x p IH]; [apply startswith_nil|].
  cbn [app startswith]. now rewrite Z.eqb_refl.
Qed.

Lemma match_markup_other (x : Z) (s : list Z) : x <> LT -> match_markup (x :: s) = None.
Proof.
  intros H. apply Z.eqb_neq in H. unfold match_markup, RUBY_MARKUP.
  cbn [List.find startswith]. unfold LT in H. now rewrite H.
Qed.

(* text without < is copied *)
Lemma remove_matches_copy (a rest : list Z) :
  ~ In LT a ->
  remove_matches match_markup 0 (a ++ rest) = a ++ remove_matches match_markup 0 rest.
Proof.
  induction a as [|x a IH]; intros H; [reflexivity|].
  cbn [app remove_matches]. rewrite match_markup_other by (intros ->; apply H; now left).
  f_equal. apply IH. intros Hin. apply H. now right.
Qed.

Lemma remove_matches_skip (a rest : list Z) :
  remove_matches match_markup (length a) (a ++ rest)
  = remove_matches match_markup 0 rest.
Proof. induction a as [|x a IH]; [reflexivity | exact IH]. Qed.

Lemma match_markup_tag (tag rest : list Z) :
  In tag RUBY_MARKUP ->
  exists (x : Z) (t : list Z),
    tag = x :: t /\ match_markup (tag ++ rest) = Some (S (length t)).
Proof.
  intros H. unfold RUBY_MARKUP in H.
  repeat (destruct H as [<-|H];
          [eexists _, _; split; [reflexivity|];
           unfold match_markup, RUBY_MARKUP; cbn [List.find];
           repeat match goal with
                  | |- context [startswith (?p ++ rest) ?p] =>
                      rewrite (startswith_app p rest)
                  | |- context [startswith ?s ?p] =>
                      change (startswith s p) with false
                  end;
           reflexivity|]).
  destruct H.
Qed.

(* a tag of the pattern is passed over *)
Lemma remove_matches_tag (tag rest : list Z) :
  In tag RUBY_MARKUP ->
  remove_matches match_markup 0 (tag ++ rest) = remove_matches match_markup 0 rest.
Proof.
  intros H. destruct (match_markup_tag tag rest H) as (x & t & -> & E).
  cbn [app remove_matches]. cbn [app] in E. rewrite E.
  apply remove_matches_skip.
Qed.

Lemma remove_matches_span (s : AnnotatedSpan) (rest : list Z) :
  span_without_lt s ->
  remove_matches match_markup 0 (span_text s ++ rest)
  = span_base s ++ span_reading s ++ remove_matches match_markup 0 rest.
Proof.
  intros (Hb & Hr). destruct s as [surface|surface rd];
    cbn [span_text span_base span_reading] in *.
  - cbn [app]. now apply remove_matches_copy.
  - rewrite <- !app_assoc.
    rewrite (remove_matches_tag (u "<ruby>")) by (vm_compute; tauto).
    rewrite remove_matches_copy by exact Hb. f_equal.
    rewrite (remove_matches_tag (u "<rt>")) by (vm_compute; tauto).
    rewrite remove_matches_copy by exact Hr. f_equal.
    change (u "</rt></ruby>") with (u "</rt>" ++ u "</ruby>").
    rewrite <- app_assoc.
    rewrite (remove_matches_tag (u "</rt>")) by (vm_compute; tauto).
    now rewrite (remove_matches_tag (u "</ruby>")) by (vm_compute; tauto).
Qed.

Lemma remove_matches_spans (spans : list AnnotatedSpan) :
  Forall span_without_lt spans ->
  remove_matches match_markup 0 (concat (map span_text spans))
  = concat (map (fun s => span_base s ++ span_reading s) spans).
Proof.
  induction 1 as [|s spans Hs _ IH]; [reflexivity|].
  cbn [map concat]. rewrite (remove_matches_span s _ Hs), IH.
  now rewrite <- app_assoc.
Qed.

(** X16.  The normalized form of a header, whatever the header, holds no
    whitespace.  For a header made of annotated spans it is the surfaces
    and the readings run together: the markup is taken out, the readings
    are not, so a header with furigana and the same header without are two
    different headers. *)
Theorem normalize_header_annotated :
  (forall header : list Z,
     Forall (fun x => is_space x = false) (normalize_header header))
  /\ (forall spans : list AnnotatedSpan,
        Forall span_without_lt spans ->
        normalize_header (concat (map span_text spans))
        = visible (concat (map (fun s => span_base s ++ span_reading s) spans)))
  /\ (forall surface rd : list Z,
        ~ In LT surface -> ~ In LT rd -> visible rd <> [] ->
        normalize_header (span_text (Ruby surface rd)) <> normalize_header surface).
Proof.
  assert (Hspans : forall spans : list AnnotatedSpan,
             Forall span_without_lt spans ->
             normalize_header (concat (map span_text spans))
             = visible (concat (map (fun s => span_base s ++ span_reading s) spans))).
  { intros spans H. unfold normalize_header.
    now rewrite sub_whitespace_runs_nil, (remove_matches_spans spans H). }
  split; [|split].
  - intros header. unfold normalize_header. rewrite sub_whitespace_runs_nil.
    apply visible_no_space.
  - exact Hspans.
  - intros surface rd Hs Hr Hv E.
    pose proof (Hspans [Ruby surface rd]) as E1.
    pose proof (Hspans [Plain surface]) as E2.
    cbn [map concat span_base span_reading] in E1, E2.
    rewrite !app_nil_r in E1, E2. cbn [span_text] in E2.
    rewrite E1 in E by (repeat constructor; assumption).
    rewrite E2 in E by (repeat constructor; [assumption | intros []]).
    rewrite !visible_app in E. change (visible []) with (@nil Z) in E.
    rewrite app_nil_r in E.
    apply (f_equal (@length Z)) in E. rewrite length_app in E.
    destruct (visible rd); [now apply Hv | cbn [length] in E; lia].
Qed.

(* A header with a ruby element: the reading stays in the normalized form. *)
Lemma normalize_header_annotated_witness :
  normalize_header (u "第一章 <ruby>神崎<rt>かんざき</rt></ruby>")
  = u "第一章神崎かんざき".
Proof.
  apply (proj1 (proj2 normalize_header_annotated)
               [Plain (u "第一章 "); Ruby (u "神崎") (u "かんざき")]
               ltac:(repeat constructor; vm_compute; intuition discriminate)).
Defined.

Lemma startswith_inv (s p : list Z) :
  startswith s p = true -> exists rest, s = p ++ rest.
Proof.
  revert s. induction p as [|y p IH]; intros s H; [now exists s|].
  destruct s as [|x s]; [discriminate|]. cbn [startswith] in H.
  apply andb_true_iff in H as [E H]. apply Z.eqb_eq in E. subst y.
  destruct (IH s H) as (rest & ->). now exists rest.
Qed.

Lemma contains_inv (s sub : list Z) :
  contains s sub = true -> exists a c, s = a ++ sub ++ c.
Proof.
  induction s as [|x s IH]; cbn [contains]; intros H.
  - rewrite orb_false_r in H. apply startswith_inv in H as (rest & E).
    now exists [], rest.
  - apply orb_true_iff in H as [H|H].
    + apply startswith_inv in H as (rest & E). now exists [], rest.
    + destruct (IH H) as (a & c & ->). now exists (x :: a), c.
Qed.

Lemma contains_app (a sub c : list Z) : contains (a ++ sub ++ c) sub = true.
Proof.
  induction a as [|x a IH]; cbn [app].
  - destruct (sub ++ c) eqn:E; cbn [contains]; rewrite <- E, startswith_app;
      reflexivity.
  - cbn [contains]. rewrite IH. apply orb_true_r.
Qed.

(** X17.  A bookmark whose text is found in the content as it stands is
    always reported as preserved, as is a missing or empty bookmark; and
    the report does not depend on the whitespace of the content or of the
    bookmark. *)
Theorem bookmark_in_content_preserved (content text : list Z) :
  check_bookmark_preserved content None = true
  /\ check_bookmark_preserved content (Some []) = true
  /\ (contains content text = true ->
      check_bookmark_preserved content (Some text) = true)
  /\ (text <> [] ->
      check_bookmark_preserved content (Some text)
      = contains (visible content) (visible text)).
Proof.
  split; [reflexivity|]. split; [reflexivity|]. split.
  - intros H. unfold check_bookmark_preserved.
    destruct (str_eqb text []); [reflexivity|].
    rewrite !sub_whitespace_runs_nil.
    apply contains_inv in H as (a & c & ->).
    rewrite !visible_app. apply contains_app.
  - intros H. unfold check_bookmark_preserved.
    destruct (str_eqb text []) eqn:E; [apply str_eqb_eq in E; contradiction|].
    now rewrite !sub_whitespace_runs_nil.
Qed.

End Headers.

(* ===================================================================== *)
(*  Reading ruby markup back from text                                   *)
(* ===================================================================== *)

Example clean_nested :
  clean_existing_ruby_tags
    (u "<ruby><ruby>神<rt>かみ</rt></ruby>崎<rt>かんざき</rt></ruby>と<rp>(</rp>")
  = u "神崎と".
Proof. vm_compute. reflexivity. Qed.

Example migrate_pairs :
  MigrateRubyRegistry.extract_ruby_pairs
    (u "<ruby>神崎<rt>かんざき</rt></ruby>と<ruby>神崎<rt>かんざき</rt></ruby>")
  = [(u "神崎", (u "かんざき", 2%nat))].
Proof. vm_compute. reflexivity. Qed.

Section Scanning.

Lemma sub_matches_skip (m : list Z -> option (nat * list Z)) (a rest : list Z) :
  sub_matches m (length a) (a ++ rest) = sub_matches m 0 rest.
Proof. induction a as [|x a IH]; [reflexivity | exact IH]. Qed.

Lemma find_matches_skip {G : Type} (m : list Z -> option (nat * G)) (a rest : list Z) :
  find_matches m (length a) (a ++ rest) = find_matches m 0 rest.
Proof. induction a as [|x a IH]; [reflexivity | exact IH]. Qed.

Lemma sub_matches_copy (m : list Z -> option (nat * list Z)) (a rest : list Z) :
  (forall x t, x <> LT -> m (x :: t) = None) -> ~ In LT a ->
  sub_matches m 0 (a ++ rest) = a ++ sub_matches m 0 rest.
Proof.
  intros Hm. induction a as [|x a IH]; intros H; [reflexivity|].
  cbn [app sub_matches]. rewrite Hm by (intros ->; apply H; now left).
  f_equal. apply IH. intros Hin. apply H. now right.
Qed.

Lemma find_matches_copy {G : Type} (m : list Z -> option (nat * G)) (a rest : list Z) :
  (forall x t, x <> LT -> m (x :: t) = None) -> ~ In LT a ->
  find_matches m 0 (a ++ rest) = find_matches m 0 rest.
Proof.
  intros Hm. induction a as [|x a IH]; intros H; [reflexivity|].
  cbn [app find_matches]. rewrite Hm by (intros ->; apply H; now left).
  apply IH. intros Hin. apply H. now right.
Qed.

Lemma remove_matches_same (m : list Z -> option nat) (a : list Z) :
  (forall x t, x <> LT -> m (x :: t) = None) -> ~ In LT a ->
  remove_matches m 0 a = a.
Proof.
  intros Hm. induction a as [|x a IH]; intros H; [reflexivity|].
  cbn [remove_matches]. rewrite Hm by (intros ->; apply H; now left).
  f_equal. apply IH. intros Hin. apply H. now right.
Qed.

(* a match at the start of the text *)
Lemma sub_matches_head (m : list Z -> option (nat * list Z))
    (matched rest repl : list Z) :
  matched <> [] -> m (matched ++ rest) = Some (length matched, repl) ->
  sub_matches m 0 (matched ++ rest) = repl ++ sub_matches m 0 rest.
Proof.
  intros Hne H. destruct matched as [|x t]; [congruence|].
  cbn [app sub_matches]. cbn [app length] in H. rewrite H.
  f_equal. apply sub_matches_skip.
Qed.

Lemma find_matches_head {G : Type} (m : list Z -> option (nat * G))
    (matched rest : list Z) (g : G) :
  matched <> [] -> m (matched ++ rest) = Some (length matched, g) ->
  find_matches m 0 (matched ++ rest) = g :: find_matches m 0 rest.
Proof.
  intros Hne H. destruct matched as [|x t]; [congruence|].
  cbn [app find_matches]. cbn [app length] in H. rewrite H.
  f_equal. apply find_matches_skip.
Qed.

Lemma take_while_stop (p : Z -> bool) (run rest : list Z) (y : Z) :
  Forall (fun x => p x = true) run -> p y = false ->
  ExtractRubySmart.take_while p (run ++ y :: rest) = run.
Proof.
  intros H Hy. induction H as [|x run Hx _ IH]; cbn [app ExtractRubySmart.take_while].
  - now rewrite Hy.
  - rewrite Hx. now f_equal.
Qed.

Lemma startswith_other (x y : Z) (s p : list Z) :
  x <> y -> startswith (x :: s) (y :: p) = false.
Proof. intros H. cbn [startswith]. apply Z.eqb_neq in H. now rewrite H. Qed.

(* the lazy run stops at the closing text, which the run does not start *)
Lemma lazy_until_run (closing run rest : list Z) (c : Z) (closing' : list Z) :
  closing = c :: closing' -> ~ In c run -> ~ In NL run ->
  lazy_until closing (run ++ closing ++ rest) = Some (length run).
Proof.
  intros -> Hc Hn. change ((c :: closing') ++ rest) with (c :: closing' ++ rest).
  induction run as [|x run IH]; cbn [app length].
  - cbn [lazy_until startswith]. now rewrite Z.eqb_refl, startswith_app.
  - cbn [lazy_until]. rewrite startswith_other by (intros ->; apply Hc; now left).
    assert (E : (x =? NL) = false) by (apply Z.eqb_neq; intros ->; apply Hn; now left).
    rewrite E, IH; [reflexivity| |]; intros H; [apply Hc | apply Hn]; now right.
Qed.

Lemma not_in_forall (p : Z -> bool) (run : list Z) :
  (forall x, In x run -> p x = true) -> Forall (fun x => p x = true) run.
Proof. intros H. now apply List.Forall_forall. Qed.

End Scanning.

Section CleanRuby.

Lemma INNERMOST_RUBY_other (x : Z) (t : list Z) :
  x <> LT -> INNERMOST_RUBY (x :: t) = None.
Proof.
  intros H. unfold INNERMOST_RUBY.
  change (u "<ruby>") with (LT :: u "ruby>").
  now rewrite startswith_other.
Qed.

Lemma RP_ELEMENT_other (x : Z) (t : list Z) :
  x <> LT -> RP_ELEMENT (x :: t) = None.
Proof.
  intros H. unfold RP_ELEMENT.
  change (u "<rp>") with (LT :: u "rp>").
  now rewrite startswith_other.
Qed.

Lemma not_angle_true (x : Z) : x <> LT -> x <> GT -> not_angle x = true.
Proof.
  intros H1 H2. unfold not_angle. apply Z.eqb_neq in H1, H2. now rewrite H1, H2.
Qed.

(* the pattern at a ruby span *)
Lemma INNERMOST_RUBY_span (surface rd rest : list Z) :
  span_readable (Ruby surface rd) ->
  INNERMOST_RUBY (span_text (Ruby surface rd) ++ rest)
  = Some (length (span_text (Ruby surface rd)), surface).
Proof.
  intros (H1 & H2 & H3 & H4). unfold span_text. rewrite <- !app_assoc.
  set (after_rt := rd ++ u "</rt></ruby>" ++ rest).
  set (after_base := u "<rt>" ++ after_rt).
  set (after_ruby := surface ++ after_base).
  unfold INNERMOST_RUBY. cbv zeta. rewrite startswith_app.
  assert (D1 : drop 6 (u "<ruby>" ++ after_ruby) = after_ruby)
    by apply (drop_app_length (u "<ruby>")).
  assert (T : ExtractRubySmart.take_while not_angle after_ruby = surface).
  { subst after_ruby after_base.
    change (u "<rt>" ++ after_rt) with (LT :: (u "rt>" ++ after_rt)).
    apply take_while_stop; [|reflexivity].
    apply not_in_forall. intros x Hx. apply not_angle_true; intros ->; contradiction. }
  assert (D2 : drop (length surface) after_ruby = after_base)
    by apply drop_app_length.
  assert (D3 : drop 4 after_base = after_rt)
    by apply (drop_app_length (u "<rt>")).
  rewrite D1, T, D2. subst after_base. rewrite startswith_app, D3.
  subst after_rt.
  rewrite (lazy_until_run (u "</rt></ruby>") rd rest LT (u "/rt></ruby>"))
    by (reflexivity || assumption).
  do 2 f_equal. rewrite !length_app.
  change (length (u "<ruby>")) with 6%nat.
  change (length (u "<rt>")) with 4%nat.
  change (length (u "</rt></ruby>")) with 12%nat. lia.
Qed.

Lemma sub_innermost_spans (spans : list AnnotatedSpan) :
  Forall span_readable spans ->
  sub_matches INNERMOST_RUBY 0 (concat (map span_text spans))
  = concat (map span_base spans).
Proof.
  induction 1 as [|s spans Hs _ IH]; [reflexivity|].
  cbn [map concat]. destruct s as [surface|surface rd].
  - cbn [span_text span_base].
    rewrite sub_matches_copy by (exact INNERMOST_RUBY_other || exact Hs).
    now rewrite IH.
  - rewrite (sub_matches_head _ _ _ surface).
    + now rewrite IH.
    + discriminate.
    + now apply INNERMOST_RUBY_span.
Qed.

Lemma bases_without_lt (spans : list AnnotatedSpan) :
  Forall span_readable spans -> ~ In LT (concat (map span_base spans)).
Proof.
  induction 1 as [|s spans Hs _ IH]; [intros []|].
  cbn [map concat]. intros H. apply in_app_or in H as [H|H]; [|now apply IH].
  destruct s as [surface|surface rd]; cbn [span_base span_readable] in *;
    [contradiction|]. now destruct Hs.
Qed.

Lemma sub_innermost_same (s : list Z) :
  ~ In LT s -> sub_matches INNERMOST_RUBY 0 s = s.
Proof.
  intros H. rewrite <- (app_nil_r s) at 1.
  rewrite sub_matches_copy by (exact INNERMOST_RUBY_other || exact H).
  cbn. apply app_nil_r.
Qed.

(* the loop ends on a text without < in one more pass *)
Lemma clean_loop_same (fuel : nat) (s : list Z) :
  ~ In LT s -> clean_loop fuel s = s.
Proof.
  intros H. destruct fuel as [|fuel]; [reflexivity|]. cbn [clean_loop].
  rewrite (sub_innermost_same s H). now rewrite Nat.eqb_refl.
Qed.

Lemma clean_spans (spans : list AnnotatedSpan) :
  Forall span_readable spans ->
  clean_existing_ruby_tags (concat (map span_text spans))
  = concat (map span_base spans).
Proof.
  intros H. unfold clean_existing_ruby_tags. cbn [clean_loop].
  rewrite (sub_innermost_spans spans H).
  pose proof (bases_without_lt spans H) as Hb.
  assert (E : (if (length (concat (map span_base spans))
                   =? length (concat (map span_text spans)))%nat
               then concat (map span_base spans)
               else clean_loop (length (concat (map span_text spans)))
                      (concat (map span_base spans)))
              = concat (map span_base spans)).
  { destruct (_ =? _)%nat; [reflexivity | now apply clean_loop_same]. }
  rewrite E. apply remove_matches_same; [exact RP_ELEMENT_other | exact Hb].
Qed.

Variable tagger_parse : list Z -> list Z.
Variable name_dictionary : gmap (list Z) (list Z).
Variable preserve_long_vowel : bool.

(** X18.  Cleaning the ruby markup out of an annotated text gives the text
    back: when the surfaces of the tokens make up the text, and the spans
    written hold no < (and no > in a glossed surface, no line break in a
    reading), clean_existing_ruby_tags undoes add_furigana. *)
Theorem clean_undoes_add_furigana (text : list Z) (f : bool) :
  Forall span_readable
         (annotate tagger_parse name_dictionary preserve_long_vowel text f) ->
  concat (map surface_of (token_lines (tagger_parse text))) = text ->
  clean_existing_ruby_tags
    (add_furigana tagger_parse name_dictionary preserve_long_vowel text f)
  = text.
Proof.
  intros Hs Ht.
  assert (E : add_furigana tagger_parse name_dictionary preserve_long_vowel text f
              = concat (map span_text
                  (annotate tagger_parse name_dictionary preserve_long_vowel text f))).
  { unfold add_furigana, annotate.
    destruct (negb (truthy text) || negb (truthy (strip text))).
    - cbn. now rewrite app_nil_r.
    - apply join_nil_concat. }
  rewrite E, (clean_spans _ Hs). unfold annotate in *.
  destruct (negb (truthy text) || negb (truthy (strip text))).
  - cbn. apply app_nil_r.
  - unfold add_furigana_result. rewrite result_bases. exact Ht.
Qed.

End CleanRuby.

(* 神崎は: annotated, then cleaned. *)
Lemma clean_undoes_add_furigana_witness :
  clean_existing_ruby_tags
    (add_furigana
       (fun _ => mecab_output [mecab_line (u "神崎") (u "カンザキ");
                               mecab_line (u "は") (u "ハ")])
       ∅ false (u "神崎は") false)
  = u "神崎は".
Proof.
  apply clean_undoes_add_furigana.
  - vm_compute. repeat constructor; intuition discriminate.
  - vm_compute. reflexivity.
Defined.

Section MigratePairs.

Import MigrateRubyRegistry.

Lemma RUBY_PATTERN_other (x : Z) (t : list Z) :
  x <> LT -> RUBY_PATTERN (x :: t) = None.
Proof.
  intros H. unfold RUBY_PATTERN.
  change (u "<ruby>") with (LT :: u "ruby>").
  now rewrite startswith_other.
Qed.

Lemma not_lt_true (x : Z) : x <> LT -> not_lt x = true.
Proof. intros H. unfold not_lt. apply Z.eqb_neq in H. now rewrite H. Qed.

Lemma RUBY_PATTERN_span (surface rd rest : list Z) :
  span_matchable (Ruby surface rd) ->
  RUBY_PATTERN (span_text (Ruby surface rd) ++ rest)
  = Some (length (span_text (Ruby surface rd)), (surface, rd)).
Proof.
  intros (H1 & H2 & H3 & H4). unfold span_text. rewrite <- !app_assoc.
  set (closing := u "</rt></ruby>" ++ rest).
  set (after_rt := rd ++ closing).
  set (after_base := u "<rt>" ++ after_rt).
  set (after_ruby := surface ++ after_base).
  unfold RUBY_PATTERN. cbv zeta. rewrite startswith_app.
  assert (D1 : drop 6 (u "<ruby>" ++ after_ruby) = after_ruby)
    by apply (drop_app_length (u "<ruby>")).
  assert (T1 : ExtractRubySmart.take_while not_lt after_ruby = surface).
  { subst after_ruby after_base.
    change (u "<rt>" ++ after_rt) with (LT :: (u "rt>" ++ after_rt)).
    apply take_while_stop; [|reflexivity].
    apply not_in_forall. intros x Hx. apply not_lt_true. intros ->. contradiction. }
  assert (D2 : drop (length surface) after_ruby = after_base)
    by apply drop_app_length.
  assert (D3 : drop 4 after_base = after_rt)
    by apply (drop_app_length (u "<rt>")).
  assert (T2 : ExtractRubySmart.take_while not_lt after_rt = rd).
  { subst after_rt closing.
    change (u "</rt></ruby>" ++ rest) with (LT :: (u "/rt></ruby>" ++ rest)).
    apply take_while_stop; [|reflexivity].
    apply not_in_forall. intros x Hx. apply not_lt_true. intros ->. contradiction. }
  assert (D4 : drop (length rd) after_rt = closing) by apply drop_app_length.
  rewrite D1, T1, D2.
  assert (Q1 : truthy surface = true) by (destruct surface; [congruence | reflexivity]).
  assert (Q2 : truthy rd = true) by (destruct rd; [congruence | reflexivity]).
  rewrite Q1. subst after_base. rewrite startswith_app, D3, T2, Q2, D4.
  subst closing. rewrite startswith_app.
  do 2 f_equal. rewrite !length_app.
  change (length (u "<ruby>")) with 6%nat.
  change (length (u "<rt>")) with 4%nat.
  change (length (u "</rt></ruby>")) with 12%nat. lia.
Qed.

(** X19.  The pattern of the migration reads back the ruby spans of an
    annotated text: its matches are the pairs (surface, reading) of the
    ruby spans, in order, when no surface and no reading holds a < and
    those of the ruby spans are not empty. *)
Theorem ruby_pattern_reads_spans (spans : list AnnotatedSpan) :
  Forall span_matchable spans ->
  find_matches RUBY_PATTERN 0 (concat (map span_text spans))
  = omap span_pair spans.
Proof.
  induction 1 as [|s spans Hs _ IH]; [reflexivity|].
  cbn [map concat]. destruct s as [surface|surface rd].
  - cbn [span_text]. rewrite find_matches_copy
      by (exact RUBY_PATTERN_other || exact Hs).
    exact IH.
  - rewrite (find_matches_head _ _ _ (surface, rd)).
    + cbn. now rewrite IH.
    + discriminate.
    + now apply RUBY_PATTERN_span.
Qed.

(* The pair of 神崎 is read back from the text the annotator writes. *)
Lemma ruby_pattern_reads_spans_witness :
  find_matches RUBY_PATTERN 0 (u "<ruby>神崎<rt>かんざき</rt></ruby>は")
  = [(u "神崎", u "かんざき")].
Proof.
  apply (ruby_pattern_reads_spans [Ruby (u "神崎") (u "かんざき"); Plain (u "は")]).
  repeat constructor; vm_compute; intuition discriminate.
Defined.

Lemma str_eqb_sym (a b : list Z) : str_eqb a b = str_eqb b a.
Proof.
  destruct (str_eqb a b) eqn:E.
  - apply str_eqb_eq in E. subst. now rewrite str_eqb_refl.
  - destruct (str_eqb b a) eqn:E'; [|reflexivity].
    apply str_eqb_eq in E'. subst. now rewrite str_eqb_refl in E.
Qed.

Lemma pairs_get_set (kanji : list Z) (v : list Z * nat)
    (pairs : list (list Z * (list Z * nat))) (k : list Z) :
  pairs_get k (pairs_set kanji v pairs)
  = if str_eqb kanji k then Some v else pairs_get k pairs.
Proof.
  induction pairs as [|[k0 v0] pairs IH]; cbn [pairs_set pairs_get].
  - reflexivity.
  - destruct (str_eqb k0 kanji) eqn:E; cbn [pairs_get].
    + apply str_eqb_eq in E. subst k0. destruct (str_eqb kanji k); reflexivity.
    + rewrite IH. destruct (str_eqb k0 k) eqn:E'; [|reflexivity].
      apply str_eqb_eq in E'. subst k0. now rewrite (str_eqb_sym kanji k), E.
Qed.

Lemma pairs_set_keys (kanji : list Z) (v : list Z * nat)
    (pairs : list (list Z * (list Z * nat))) :
  map fst (pairs_set kanji v pairs)
  = if bool_decide (kanji ∈ map fst pairs) then map fst pairs
    else map fst pairs ++ [kanji].
Proof.
  induction pairs as [|[k0 v0] pairs IH]; cbn [pairs_set map fst].
  - reflexivity.
  - destruct (str_eqb k0 kanji) eqn:E.
    + apply str_eqb_eq in E. subst k0. cbn [map fst].
      rewrite bool_decide_eq_true_2 by (now left). reflexivity.
    + cbn [map fst]. rewrite IH.
      assert (N : k0 <> kanji) by (intros ->; now rewrite str_eqb_refl in E).
      destruct (bool_decide (kanji ∈ map fst pairs)) eqn:B.
      * apply bool_decide_eq_true in B.
        rewrite bool_decide_eq_true_2 by (now right). reflexivity.
      * apply bool_decide_eq_false in B.
        rewrite bool_decide_eq_false_2; [reflexivity|].
        intros H. apply elem_of_cons in H as [H|H]; [congruence | contradiction].
Qed.

Lemma pairs_get_keys (k : list Z) (pairs : list (list Z * (list Z * nat))) :
  pairs_get k pairs = None <-> k ∉ map fst pairs.
Proof.
  induction pairs as [|[k0 v0] pairs IH]; cbn [pairs_get map fst].
  - split; [intros _ H; now apply elem_of_nil in H | reflexivity].
  - destruct (str_eqb k0 k) eqn:E.
    + apply str_eqb_eq in E. subst k0. split; [discriminate|].
      intros H. exfalso. apply H. now left.
    + rewrite IH. assert (N : k0 <> k) by (intros ->; now rewrite str_eqb_refl in E).
      split; intros H Hin.
      * apply elem_of_cons in Hin as [Hin|Hin]; [congruence | contradiction].
      * apply H. now right.
Qed.

Lemma first_reading_snoc (k : list Z) (pairs : list (list Z * list Z))
    (p : list Z * list Z) :
  first_reading k (pairs ++ [p])
  = match first_reading k pairs with
    | Some r => Some r
    | None => if str_eqb (fst p) k then Some (snd p) else None
    end.
Proof.
  unfold first_reading. induction pairs as [|q pairs IH]; cbn [app List.find].
  - destruct (str_eqb (fst p) k); reflexivity.
  - destruct (str_eqb (fst q) k); [reflexivity | exact IH].
Qed.

Lemma first_reading_none (k : list Z) (pairs : list (list Z * list Z)) (r : list Z) :
  first_reading k pairs = None -> occurrences (k, r) pairs = 0%nat.
Proof.
  unfold first_reading, occurrences.
  induction pairs as [|q pairs IH]; cbn [List.find List.filter]; [reflexivity|].
  destruct (str_eqb (fst q) k) eqn:E; [discriminate|]. intros H.
  unfold pair_eqb at 1. cbn [fst snd].
  assert (E' : str_eqb k (fst q) = false).
  { destruct (str_eqb k (fst q)) eqn:E'; [|reflexivity].
    apply str_eqb_eq in E'. subst k. now rewrite str_eqb_refl in E. }
  rewrite E'. cbn [andb]. now apply IH.
Qed.

Lemma pair_step_counted (pairs : list (list Z * (list Z * nat)))
    (g : list Z * list Z) :
  pair_step pairs g
  = match counted_pair g with
    | None => pairs
    | Some (kanji, rd) =>
      match pairs_get kanji pairs with
      | Some (existing_reading, count) =>
        if str_eqb existing_reading rd
        then pairs_set kanji (rd, (count + 1)%nat) pairs
        else pairs
      | None => pairs_set kanji (rd, 1%nat) pairs
      end
    end.
Proof.
  unfold pair_step, counted_pair.
  destruct (negb (truthy (strip (fst g))) || negb (truthy (strip (snd g))));
    [reflexivity|].
  destruct (str_eqb (strip (fst g)) (strip (snd g))); reflexivity.
Qed.

(* The dictionary after the loop has read the matches: a base is mapped
   to the reading first counted for it and to the number of times this
   pair is counted. *)
Lemma pair_loop_spec (matches : list (list Z * list Z)) :
  let pairs := foldl pair_step [] matches in
  let counted := omap counted_pair matches in
  NoDup (map fst pairs)
  /\ forall k : list Z,
       pairs_get k pairs
       = option_map (fun r => (r, occurrences (k, r) counted))
                    (first_reading k counted).
Proof.
  induction matches as [|g matches IH] using rev_ind.
  - split; [constructor | reflexivity].
  - cbv zeta in *. rewrite foldl_app, omap_app. cbn [foldl].
    destruct IH as (ND & IH).
    set (pairs := foldl pair_step [] matches) in *.
    set (counted := omap counted_pair matches) in *.
    rewrite pair_step_counted.
    change (omap counted_pair [g])
      with (match counted_pair g with Some y => [y] | None => [] end).
    destruct (counted_pair g) as [[kanji rd]|];
      [|rewrite app_nil_r; now split].
    assert (Hsnoc : forall k,
               option_map (fun r => (r, occurrences (k, r) (counted ++ [(kanji, rd)])))
                          (first_reading k (counted ++ [(kanji, rd)]))
               = match first_reading k counted with
                 | Some r =>
                   Some (r, (occurrences (k, r) counted
                             + (if pair_eqb (k, r) (kanji, rd) then 1 else 0))%nat)
                 | None => if str_eqb kanji k then Some (rd, 1%nat) else None
                 end).
    { intros k. rewrite first_reading_snoc. cbn [fst snd].
      destruct (first_reading k counted) as [r|] eqn:F; cbn [option_map].
      - now rewrite occurrences_snoc.
      - destruct (str_eqb kanji k) eqn:E; [|reflexivity]. cbn [option_map].
        apply str_eqb_eq in E. subst k.
        rewrite occurrences_snoc, (first_reading_none _ _ rd F), pair_eqb_refl.
        reflexivity. }
    destruct (pairs_get kanji pairs) as [[existing count]|] eqn:G.
    + pose proof (IH kanji) as Hk. rewrite G in Hk.
      destruct (first_reading kanji counted) as [r0|] eqn:F; [|discriminate].
      cbn [option_map] in Hk. injection Hk as -> ->.
      destruct (str_eqb r0 rd) eqn:E.
      * apply str_eqb_eq in E. subst r0. split.
        { rewrite pairs_set_keys. rewrite bool_decide_eq_true_2; [exact ND|].
          destruct (bool_decide (kanji ∈ map fst pairs)) eqn:B;
            [now apply bool_decide_eq_true in B|].
          apply bool_decide_eq_false, pairs_get_keys in B. congruence. }
        intros k. rewrite pairs_get_set, Hsnoc.
        destruct (str_eqb kanji k) eqn:E.
        -- apply str_eqb_eq in E. subst k. rewrite F, pair_eqb_refl. reflexivity.
        -- rewrite IH. destruct (first_reading k counted) as [r|]; [|reflexivity].
           cbn [option_map]. unfold pair_eqb. cbn [fst snd].
           assert (E' : str_eqb k kanji = false) by (now rewrite str_eqb_sym).
           rewrite E'. cbn [andb]. now rewrite Nat.add_0_r.
      * split; [exact ND|]. intros k. rewrite Hsnoc, IH.
        destruct (first_reading k counted) as [r|] eqn:Fk.
        -- cbn [option_map]. unfold pair_eqb. cbn [fst snd].
           destruct (str_eqb k kanji) eqn:E'.
           ++ apply str_eqb_eq in E'. subst k.
              assert (r = r0) by congruence. subst r.
              rewrite E. cbn [andb]. now rewrite Nat.add_0_r.
           ++ cbn [andb]. now rewrite Nat.add_0_r.
        -- cbn [option_map]. destruct (str_eqb kanji k) eqn:E'; [|reflexivity].
           apply str_eqb_eq in E'. subst k. congruence.
    + pose proof (IH kanji) as Hk. rewrite G in Hk.
      destruct (first_reading kanji counted) as [r0|] eqn:F; [discriminate|].
      split.
      { rewrite pairs_set_keys. apply pairs_get_keys in G.
        rewrite bool_decide_eq_false_2 by exact G.
        apply NoDup_app. split; [exact ND|]. split.
        - intros x Hx Hx'. apply list_elem_of_singleton in Hx'. now subst x.
        - apply NoDup_singleton. }
      intros k. rewrite pairs_get_set, Hsnoc.
      destruct (str_eqb kanji k) eqn:E.
      * apply str_eqb_eq in E. subst k. now rewrite F.
      * rewrite IH. destruct (first_reading k counted) as [r|]; [|reflexivity].
        cbn [option_map]. unfold pair_eqb. cbn [fst snd].
        assert (E' : str_eqb k kanji = false) by (now rewrite str_eqb_sym).
        rewrite E'. cbn [andb]. now rewrite Nat.add_0_r.
Qed.

Lemma counted_pair_ok (g p : list Z * list Z) :
  counted_pair g = Some p ->
  fst p <> [] /\ snd p <> [] /\ fst p <> snd p
  /\ strip (fst p) = fst p /\ strip (snd p) = snd p.
Proof.
  unfold counted_pair.
  destruct (truthy (strip (fst g))) eqn:T1; [|discriminate].
  destruct (truthy (strip (snd g))) eqn:T2; [|discriminate]. cbn [negb orb].
  destruct (str_eqb (strip (fst g)) (strip (snd g))) eqn:E; [discriminate|].
  intros [= <-]. cbn [fst snd]. repeat split.
  - intros H. now rewrite H in T1.
  - intros H. now rewrite H in T2.
  - intros H. rewrite H, str_eqb_refl in E. discriminate.
  - apply strip_idem.
  - apply strip_idem.
Qed.

Lemma find_some_in {A : Type} (p : A -> bool) (l : list A) (x : A) :
  List.find p l = Some x -> In x l /\ p x = true.
Proof. apply find_some. Qed.

(** X20.  The dictionary extract_ruby_pairs builds maps every base to the
    reading first found for it and to the number of matches that give this
    base this reading; matches that give the base another reading are not
    counted.  A base and its reading are stripped, not empty and different,
    and the count is at least one. *)
Theorem migrate_pairs_first_reading (text : list Z) :
  let pairs := extract_ruby_pairs text in
  let counted := omap counted_pair (find_matches RUBY_PATTERN 0 text) in
  NoDup (map fst pairs)
  /\ (forall k : list Z,
        pairs_get k pairs
        = option_map (fun r => (r, occurrences (k, r) counted))
                     (first_reading k counted))
  /\ (forall (k r : list Z) (n : nat),
        pairs_get k pairs = Some (r, n) ->
        k <> [] /\ r <> [] /\ k <> r /\ strip k = k /\ strip r = r
        /\ (1 <= n)%nat).
Proof.
  intros pairs counted. subst pairs counted. unfold extract_ruby_pairs.
  destruct (pair_loop_spec (find_matches RUBY_PATTERN 0 text)) as (ND & H).
  split; [exact ND|]. split; [exact H|].
  intros k r n Hk. rewrite H in Hk.
  destruct (first_reading k _) as [r0|] eqn:F; [|discriminate].
  cbn [option_map] in Hk. injection Hk as <- <-.
  unfold first_reading in F.
  destruct (List.find _ _) as [p|] eqn:Fp; [|discriminate].
  cbn [option_map] in F. injection F as <-.
  apply find_some_in in Fp as (Hin & E). apply str_eqb_eq in E. subst k.
  pose proof Hin as Hin'.
  apply list_elem_of_In, list_elem_of_omap in Hin' as (g & _ & Hg).
  destruct (counted_pair_ok g p Hg) as (A & B & C & D & D').
  repeat (split; [assumption|]).
  apply (occurrences_pos (fst p, snd p)). now destruct p.
Qed.

End MigratePairs.

Section CleanBounds.

Lemma startswith_length (s p : list Z) :
  startswith s p = true -> (length p <= length s)%nat.
Proof.
  intros H. apply startswith_inv in H as (rest & ->). rewrite length_app. lia.
Qed.

Lemma lazy_until_length (closing : list Z) (s : list Z) (k : nat) :
  lazy_until closing s = Some k -> (k + length closing <= length s)%nat.
Proof.
  revert k. induction s as [|x s IH]; intros k; cbn [lazy_until].
  - destruct (startswith [] closing) eqn:E; [|discriminate].
    intros [= <-]. now apply startswith_length in E.
  - destruct (startswith (x :: s) closing) eqn:E.
    + intros [= <-]. now apply startswith_length in E.
    + destruct (x =? NL); [discriminate|].
      destruct (lazy_until closing s) as [k'|]; [|discriminate].
      intros [= <-]. specialize (IH k' eq_refl). cbn [length]. lia.
Qed.

Lemma take_while_length (p : Z -> bool) (s : list Z) :
  (length (ExtractRubySmart.take_while p s) <= length s)%nat.
Proof.
  induction s as [|x s IH]; cbn [ExtractRubySmart.take_while length]; [lia|].
  destruct (p x); cbn [length]; lia.
Qed.

(* a match of the pattern lies in the text, and what replaces it is not
   longer than the match *)
Lemma INNERMOST_RUBY_length (s : list Z) (n : nat) (repl : list Z) :
  INNERMOST_RUBY s = Some (n, repl) ->
  (length repl <= n)%nat /\ (n <= length s)%nat.
Proof.
  unfold INNERMOST_RUBY. destruct (startswith s (u "<ruby>")) eqn:S1; [|discriminate].
  cbv zeta. set (after_ruby := drop 6 s).
  set (group1 := ExtractRubySmart.take_while not_angle after_ruby).
  set (after_base := drop (length group1) after_ruby).
  destruct (startswith after_base (u "<rt>")) eqn:S2; [|discriminate].
  destruct (lazy_until (u "</rt></ruby>") (drop 4 after_base)) as [k|] eqn:L;
    [|discriminate].
  intros [= <- <-]. split; [lia|].
  apply lazy_until_length in L. apply startswith_length in S1, S2.
  change (length (u "</rt></ruby>")) with 12%nat in L.
  change (length (u "<ruby>")) with 6%nat in S1.
  change (length (u "<rt>")) with 4%nat in S2.
  rewrite length_drop in L.
  pose proof (take_while_length not_angle after_ruby) as T. fold group1 in T.
  subst after_base after_ruby. rewrite !length_drop in *. lia.
Qed.

Lemma sub_matches_length (m : list Z -> option (nat * list Z)) :
  (forall s n repl, m s = Some (n, repl) ->
                    (length repl <= n)%nat /\ (n <= length s)%nat) ->
  forall (s : list Z) (k : nat),
    (length (sub_matches m k s) + min k (length s) <= length s)%nat.
Proof.
  intros Hm. induction s as [|x s IH]; intros k; cbn [sub_matches length]; [lia|].
  destruct k as [|k].
  - destruct (m (x :: s)) as [[[|n] repl]|] eqn:E.
    + cbn [length]. specialize (IH 0%nat). lia.
    + apply Hm in E as (E1 & E2). cbn [length] in E2.
      rewrite length_app. specialize (IH n). lia.
    + cbn [length]. specialize (IH 0%nat). lia.
  - specialize (IH k). lia.
Qed.

Lemma remove_matches_length (m : list Z -> option nat) (s : list Z) :
  forall k : nat, (length (remove_matches m k s) <= length s)%nat.
Proof.
  induction s as [|x s IH]; intros k; cbn [remove_matches length]; [lia|].
  destruct k as [|k]; [|specialize (IH k); lia].
  destruct (m (x :: s)) as [[|n]|].
  - cbn [length]. specialize (IH 0%nat). lia.
  - specialize (IH n). lia.
  - cbn [length]. specialize (IH 0%nat). lia.
Qed.

Lemma sub_innermost_length (s : list Z) :
  (length (sub_matches INNERMOST_RUBY 0 s) <= length s)%nat.
Proof.
  pose proof (sub_matches_length INNERMOST_RUBY INNERMOST_RUBY_length s 0). lia.
Qed.

(* The loop ends before its bound is reached: a higher bound gives the
   same text. *)
Lemma clean_loop_fuel (fuel : nat) :
  forall s : list Z,
    (length s < fuel)%nat -> clean_loop fuel s = clean_loop (S (length s)) s.
Proof.
  induction fuel as [fuel IH] using lt_wf_ind. intros s Hs.
  destruct fuel as [|fuel]; [lia|]. cbn [clean_loop].
  pose proof (sub_innermost_length s) as L.
  destruct (length (sub_matches INNERMOST_RUBY 0 s) =? length s)%nat eqn:E;
    [reflexivity|].
  apply Nat.eqb_neq in E.
  rewrite (IH fuel) by lia.
  symmetry. apply IH; lia.
Qed.

Lemma clean_loop_length (fuel : nat) :
  forall s : list Z, (length (clean_loop fuel s) <= length s)%nat.
Proof.
  induction fuel as [|fuel IH]; intros s; cbn [clean_loop]; [lia|].
  pose proof (sub_innermost_length s) as L.
  destruct (_ =? _)%nat; [exact L|].
  specialize (IH (sub_matches INNERMOST_RUBY 0 s)). lia.
Qed.

(** X21.  Cleaning never makes a text longer, and a text without any < is
    returned as it is.  The loop that takes the ruby elements out stops by
    its own test, the text no longer getting shorter, before as many
    rounds as the text has characters plus one are made. *)
Theorem clean_existing_ruby_tags_bounds (text : list Z) :
  (length (clean_existing_ruby_tags text) <= length text)%nat
  /\ (~ In LT text -> clean_existing_ruby_tags text = text)
  /\ (forall fuel : nat,
        (length text < fuel)%nat ->
        clean_loop fuel text = clean_loop (S (length text)) text).
Proof.
  unfold clean_existing_ruby_tags. split; [|split].
  - pose proof (remove_matches_length RP_ELEMENT
                  (clean_loop (S (length text)) text) 0) as H1.
    pose proof (clean_loop_length (S (length text)) text) as H2. lia.
  - intros H. rewrite (clean_loop_same _ text H).
    apply remove_matches_same; [exact RP_ELEMENT_other | exact H].
  - intros fuel H. now apply clean_loop_fuel.
Qed.

End CleanBounds.

(* ===================================================================== *)
(*  The extractions of ruby pairs compared                               *)
(* ===================================================================== *)

Section PairExtractions.

Lemma pairs_has_filter (p : list Z -> bool) (k : list Z)
    (pairs : list (list Z * list Z)) :
  p k = true ->
  ExtractAllRuby.pairs_has k (List.filter (fun q => p (fst q)) pairs)
  = ExtractAllRuby.pairs_has k pairs.
Proof.
  intros Hk. induction pairs as [|[k0 v0] pairs IH]; [reflexivity|].
  cbn [List.filter fst ExtractAllRuby.pairs_has].
  destruct (p k0) eqn:E; cbn [ExtractAllRuby.pairs_has].
  - now rewrite IH.
  - rewrite IH. destruct (str_eqb k0 k) eqn:E'; [|reflexivity].
    apply str_eqb_eq in E'. subst k0. congruence.
Qed.

(* One ruby tag: the filtered loop keeps the tree the unfiltered loop
   keeps, and of its pairs those whose base passes the tests. *)
Lemma filtered_step (root : Node) (pairs : list (list Z * list Z)) (ruby : nat) :
  ExtractRubyFromEpub.ruby_step
    (root, List.filter (fun q => registry_word (fst q)) pairs) ruby
  = (fst (ExtractAllRuby.ruby_step (root, pairs) ruby),
     List.filter (fun q => registry_word (fst q))
                 (snd (ExtractAllRuby.ruby_step (root, pairs) ruby))).
Proof.
  unfold ExtractRubyFromEpub.ruby_step, ExtractAllRuby.ruby_step.
  destruct (path_of_id ruby root) as [position|]; [|reflexivity].
  destruct (node_at root position) as [ruby_tag|]; [|reflexivity].
  destruct (find (u "rt") ruby_tag) as [rt|]; [|reflexivity].
  destruct (truthy (strip (get_text rt))) eqn:T; [|reflexivity]. cbn [negb].
  destruct (ExtractRubySmart.extract_ruby_base ruby_tag) as [[kanji x] ruby_tag'].
  destruct (truthy kanji) eqn:K; [|reflexivity]. cbn [negb orb andb].
  destruct (str_eqb kanji (strip (get_text rt))) eqn:E; [reflexivity|]. cbn [negb].
  destruct (registry_word kanji) eqn:R.
  - pose proof R as R'. unfold registry_word in R'.
    repeat (apply andb_true_iff in R' as [R' ?]).
    repeat match goal with
           | H : negb ?b = true |- _ => apply negb_true_iff in H; rewrite H
           end.
    rewrite H0. cbn [negb].
    rewrite (pairs_has_filter registry_word kanji pairs R).
    destruct (ExtractAllRuby.pairs_has kanji pairs); cbn [negb fst snd];
      [reflexivity|].
    rewrite List.filter_app. cbn [List.filter fst]. now rewrite R.
  - assert (Hskip :
      (if (length kanji =? 1)%nat then (update_at root position ruby_tag',
                                         List.filter (fun q => registry_word (fst q)) pairs)
       else if ExtractRubyFromEpub.HIRAGANA_PATTERN kanji
       then (update_at root position ruby_tag',
             List.filter (fun q => registry_word (fst q)) pairs)
       else if ExtractRubyFromEpub.KATAKANA_PATTERN kanji
       then (update_at root position ruby_tag',
             List.filter (fun q => registry_word (fst q)) pairs)
       else if negb (ExtractRubyFromEpub.KANJI_PATTERN kanji)
       then (update_at root position ruby_tag',
             List.filter (fun q => registry_word (fst q)) pairs)
       else if str_in kanji ExtractRubyFromEpub.COMMON_WORDS
       then (update_at root position ruby_tag',
             List.filter (fun q => registry_word (fst q)) pairs)
       else if negb (ExtractAllRuby.pairs_has kanji
                       (List.filter (fun q => registry_word (fst q)) pairs))
       then (update_at root position ruby_tag',
             List.filter (fun q => registry_word (fst q)) pairs
               ++ [(kanji, strip (get_text rt))])
       else (update_at root position ruby_tag',
             List.filter (fun q => registry_word (fst q)) pairs))
      = (update_at root position ruby_tag',
         List.filter (fun q => registry_word (fst q)) pairs)).
    { unfold registry_word in R.
      destruct (length kanji =? 1)%nat; [reflexivity|].
      destruct (ExtractRubyFromEpub.HIRAGANA_PATTERN kanji); [reflexivity|].
      destruct (ExtractRubyFromEpub.KATAKANA_PATTERN kanji); [reflexivity|].
      destruct (ExtractRubyFromEpub.KANJI_PATTERN kanji); [|reflexivity].
      destruct (str_in kanji ExtractRubyFromEpub.COMMON_WORDS); [reflexivity|].
      discriminate. }
    rewrite Hskip.
    destruct (ExtractAllRuby.pairs_has kanji pairs); cbn [negb fst snd];
      [reflexivity|].
    rewrite List.filter_app. cbn [List.filter fst]. rewrite R. now rewrite app_nil_r.
Qed.

Lemma filtered_loop (rubies : list nat) :
  forall (root : Node) (pairs : list (list Z * list Z)),
    foldl ExtractRubyFromEpub.ruby_step
          (root, List.filter (fun q => registry_word (fst q)) pairs) rubies
    = (fst (foldl ExtractAllRuby.ruby_step (root, pairs) rubies),
       List.filter (fun q => registry_word (fst q))
                   (snd (foldl ExtractAllRuby.ruby_step (root, pairs) rubies))).
Proof.
  induction rubies as [|r rubies IH]; intros root pairs; [reflexivity|].
  cbn [foldl]. rewrite filtered_step.
  destruct (ExtractAllRuby.ruby_step (root, pairs) r) as [root' pairs'].
  apply IH.
Qed.

Lemma whole_run_class (class : Z -> bool) (s : list Z) (x : Z) :
  ExtractRubyFromEpub.whole_run class s = true -> In x s ->
  class x = true \/ x = NL.
Proof.
  unfold ExtractRubyFromEpub.whole_run. intros H Hx.
  apply orb_true_iff in H as [H|H]; apply andb_true_iff in H as [_ H];
    rewrite forallb_forall in H.
  - left. now apply H.
  - unfold FixRubyNewlines.before_final_newline in H.
    destruct (rev s) as [|y r] eqn:E; [left; now apply H|].
    destruct (y =? NL) eqn:N; [|left; now apply H].
    apply Z.eqb_eq in N. subst y.
    assert (Es : s = rev r ++ [NL]).
    { rewrite <- (rev_involutive s), E. reflexivity. }
    rewrite Es in Hx. apply in_app_or in Hx as [Hx|[<-|[]]]; [left; now apply H | now right].
Qed.

(* a base that is all hiragana or all katakana holds no kanji *)
Lemma kana_run_no_kanji (class : Z -> bool) (s : list Z) :
  (forall x, class x = true -> ExtractRubyFromEpub.kanji_class x = false) ->
  ExtractRubyFromEpub.whole_run class s = true ->
  ExtractRubyFromEpub.KANJI_PATTERN s = false.
Proof.
  intros Hc H. unfold ExtractRubyFromEpub.KANJI_PATTERN.
  destruct (existsb ExtractRubyFromEpub.kanji_class s) eqn:E; [|reflexivity].
  apply existsb_exists in E as (x & Hx & Kx).
  destruct (whole_run_class class s x H Hx) as [C| ->].
  - rewrite (Hc x C) in Kx. discriminate.
  - discriminate.
Qed.

Lemma hiragana_not_kanji (x : Z) :
  ExtractRubyFromEpub.hiragana_class x = true ->
  ExtractRubyFromEpub.kanji_class x = false.
Proof.
  unfold ExtractRubyFromEpub.hiragana_class, ExtractRubyFromEpub.kanji_class.
  intros H. apply andb_true_iff in H as [H1 H2]. apply Z.leb_le in H1, H2.
  apply orb_false_iff. split; apply andb_false_iff.
  - left. apply Z.leb_gt. lia.
  - left. apply Z.leb_gt. lia.
Qed.

Lemma katakana_not_kanji (x : Z) :
  ExtractRubyFromEpub.katakana_class x = true ->
  ExtractRubyFromEpub.kanji_class x = false.
Proof.
  unfold ExtractRubyFromEpub.katakana_class, ExtractRubyFromEpub.kanji_class.
  intros H. apply andb_true_iff in H as [H1 H2]. apply Z.leb_le in H1, H2.
  apply orb_false_iff. split; apply andb_false_iff.
  - left. apply Z.leb_gt. lia.
  - left. apply Z.leb_gt. lia.
Qed.

(** X22.  The filtered extraction gives the pairs of the unfiltered one
    whose base passes its tests, in the same order.  Of these tests, those
    on hiragana and on katakana never decide: a base passes when it has
    more than one character (or none), holds a kanji and is not a common
    word. *)
Theorem filtered_extraction_is_filter (html : Node) :
  ExtractRubyFromEpub.extract_ruby_from_html html
  = List.filter (fun q => registry_word (fst q))
                (snd (EpubToText.extract_ruby_pairs html))
  /\ forall kanji : list Z,
       registry_word kanji
       = negb (length kanji =? 1)%nat
         && existsb ExtractRubyFromEpub.kanji_class kanji
         && negb (str_in kanji ExtractRubyFromEpub.COMMON_WORDS).
Proof.
  split.
  - unfold ExtractRubyFromEpub.extract_ruby_from_html, EpubToText.extract_ruby_pairs.
    change (@nil (list Z * list Z))
      with (List.filter (fun q : list Z * list Z => registry_word (fst q)) []) at 1.
    now rewrite filtered_loop.
  - intros kanji. unfold registry_word.
    fold (ExtractRubyFromEpub.KANJI_PATTERN kanji).
    destruct (ExtractRubyFromEpub.HIRAGANA_PATTERN kanji) eqn:H.
    + rewrite (kana_run_no_kanji _ kanji hiragana_not_kanji H).
      now rewrite !andb_false_r.
    + destruct (ExtractRubyFromEpub.KATAKANA_PATTERN kanji) eqn:K.
      * rewrite (kana_run_no_kanji _ kanji katakana_not_kanji K).
        now rewrite !andb_false_r.
      * cbn [negb]. now rewrite !andb_true_r.
Qed.

(* The pairs recorded are never changed by what follows: a ruby tag adds
   a pair at the end, or nothing. *)
Lemma all_ruby_step_extends (st : Node * list (list Z * list Z)) (ruby : nat) :
  NoDup (map fst (snd st)) ->
  (exists more, snd (ExtractAllRuby.ruby_step st ruby) = snd st ++ more)
  /\ NoDup (map fst (snd (ExtractAllRuby.ruby_step st ruby))).
Proof.
  destruct st as [root pairs]. cbn [snd]. intros ND.
  assert (Same : (exists more, pairs = pairs ++ more) /\ NoDup (map fst pairs)).
  { split; [exists []; now rewrite app_nil_r | exact ND]. }
  unfold ExtractAllRuby.ruby_step.
  destruct (path_of_id ruby root) as [position|]; [|exact Same].
  destruct (node_at root position) as [ruby_tag|]; [|exact Same].
  destruct (find (u "rt") ruby_tag) as [rt|]; [|exact Same].
  destruct (negb (truthy (strip (get_text rt)))); [exact Same|].
  destruct (ExtractRubySmart.extract_ruby_base ruby_tag) as [[kanji x] ruby_tag'].
  destruct (truthy kanji && truthy (strip (get_text rt))
            && negb (str_eqb kanji (strip (get_text rt)))); [|exact Same].
  destruct (ExtractAllRuby.pairs_has kanji pairs) eqn:Hh; cbn [negb snd]; [exact Same|].
  split; [now eexists|]. rewrite map_app. cbn [map fst].
  apply NoDup_app. split; [exact ND|]. split; [|apply NoDup_singleton].
  intros k Hk Hk'. apply list_elem_of_singleton in Hk'. subst k.
  apply list_elem_of_In, in_map_iff in Hk as ([k0 v0] & E & Hin). cbn [fst] in E. subst k0.
  clear -Hh Hin. induction pairs as [|[k1 v1] pairs IH]; [destruct Hin|].
  cbn [ExtractAllRuby.pairs_has] in Hh. apply orb_false_iff in Hh as [H1 H2].
  destruct Hin as [[= -> ->]|Hin]; [now rewrite str_eqb_refl in H1 | now apply IH].
Qed.

Lemma all_ruby_loop_extends (rubies : list nat) :
  forall st : Node * list (list Z * list Z),
    NoDup (map fst (snd st)) ->
    (exists more, snd (foldl ExtractAllRuby.ruby_step st rubies) = snd st ++ more)
    /\ NoDup (map fst (snd (foldl ExtractAllRuby.ruby_step st rubies))).
Proof.
  induction rubies as [|r rubies IH]; intros st ND.
  - split; [exists []; now rewrite app_nil_r | exact ND].
  - cbn [foldl]. destruct (all_ruby_step_extends st r ND) as ((m1 & E1) & ND1).
    destruct (IH _ ND1) as ((m2 & E2) & ND2). split; [|exact ND2].
    exists (m1 ++ m2). now rewrite E2, E1, <- app_assoc.
Qed.

Lemma all_ruby_documents (documents : list (option Node)) :
  forall pairs : list (list Z * list Z),
    NoDup (map fst pairs) ->
    let step := fun all_pairs (item : option Node) =>
                  match item with
                  | Some html =>
                    snd (foldl ExtractAllRuby.ruby_step (html, all_pairs)
                               (find_all_ids (u "ruby") html))
                  | None => all_pairs
                  end in
    (exists more, foldl step pairs documents = pairs ++ more)
    /\ NoDup (map fst (foldl step pairs documents)).
Proof.
  induction documents as [|d documents IH]; intros pairs ND step.
  - split; [exists []; now rewrite app_nil_r | exact ND].
  - cbn [foldl]. subst step. cbv beta.
    assert (H1 : (exists m1, match d with
                             | Some html =>
                               snd (foldl ExtractAllRuby.ruby_step (html, pairs)
                                          (find_all_ids (u "ruby") html))
                             | None => pairs
                             end = pairs ++ m1)
                 /\ NoDup (map fst match d with
                                   | Some html =>
                                     snd (foldl ExtractAllRuby.ruby_step (html, pairs)
                                                (find_all_ids (u "ruby") html))
                                   | None => pairs
                                   end)).
    { destruct d as [html|].
      - apply (all_ruby_loop_extends _ (html, pairs) ND).
      - split; [exists []; now rewrite app_nil_r | exact ND]. }
    destruct H1 as ((m1 & E1) & ND1).
    destruct (IH _ ND1) as ((m2 & E2) & ND2). cbv zeta in E2, ND2.
    split; [|exact ND2]. exists (m1 ++ m2). now rewrite E2, E1, <- app_assoc.
Qed.

(** X23.  Across the documents of a book the first reading found for a
    base is the one kept: the pairs collected from the first documents are
    the beginning of the pairs collected from all of them, and no base is
    recorded twice. *)
Theorem all_ruby_first_document_wins (first_documents more_documents : list (option Node)) :
  (exists more,
     ExtractAllRuby.extract_all_ruby_from_epub (first_documents ++ more_documents)
     = ExtractAllRuby.extract_all_ruby_from_epub first_documents ++ more)
  /\ NoDup (map fst (ExtractAllRuby.extract_all_ruby_from_epub
                       (first_documents ++ more_documents))).
Proof.
  unfold ExtractAllRuby.extract_all_ruby_from_epub. rewrite foldl_app.
  destruct (all_ruby_documents first_documents [] (NoDup_nil_2 (A:=list Z))) as (_ & ND1).
  cbv zeta in ND1.
  destruct (all_ruby_documents more_documents _ ND1) as (E & ND2).
  split; [exact E | exact ND2].
Qed.

End PairExtractions.

(* ===================================================================== *)
(*  The dictionary of words                                              *)
(* ===================================================================== *)

Section WordEntries.

(* the compound merge only appends to the base and to the reading *)
Lemma compound_merge_extends (fuel : nat) :
  forall (root : Node) (current_ruby : list nat) (base rd : list Z)
         (processed_rubies : list nat),
    exists more_base more_reading,
      snd (fst (ExtractRubySmart.compound_merge fuel root current_ruby base rd
                  processed_rubies))
      = (base ++ more_base, rd ++ more_reading).
Proof.
  induction fuel as [|fuel IH]; intros root current_ruby base rd processed_rubies.
  - exists [], []. cbn. now rewrite !app_nil_r.
  - cbn [ExtractRubySmart.compound_merge].
    destruct (ExtractRubySmart.get_next_sibling_ruby root current_ruby) as [next_ruby|].
    + destruct (ExtractRubySmart.extract_ruby_base_at root next_ruby)
        as [[next_base next_reading] root'].
      destruct (ExtractRubySmart.is_all_kanji base
                && ExtractRubySmart.is_all_kanji next_base).
      * destruct (IH root' next_ruby (base ++ next_base) (rd ++ next_reading)
                     (id_at root next_ruby :: processed_rubies)) as (b & r & E).
        exists (next_base ++ b), (next_reading ++ r). rewrite E.
        now rewrite <- !app_assoc.
      * exists [], []. cbn. now rewrite !app_nil_r.
    + exists [], []. cbn. now rewrite !app_nil_r.
Qed.

Lemma words_has_false (base : list Z)
    (words : list (list Z * ExtractRubySmart.WordEntry)) :
  ExtractRubySmart.words_has base words = false -> ~ In base (map fst words).
Proof.
  induction words as [|[k e] words IH]; [intros _ []|].
  cbn [ExtractRubySmart.words_has map fst]. intros H.
  apply orb_false_iff in H as [H1 H2]. intros [E|Hin].
  - subst k. now rewrite str_eqb_refl in H1.
  - now apply IH.
Qed.

Lemma words_step_ok (st : ExtractRubySmart.loop_state) (ruby : nat) :
  words_ok (snd (fst st)) ->
  words_ok (snd (fst (ExtractRubySmart.ruby_step st ruby))).
Proof.
  destruct st as [[root words] processed_rubies]. cbn [fst snd]. intros H.
  unfold ExtractRubySmart.ruby_step.
  destruct (ExtractRubySmart.id_in ruby processed_rubies); [exact H|].
  destruct (path_of_id ruby root) as [position|]; [|exact H].
  destruct (ExtractRubySmart.extract_ruby_base_at root position) as [[base rd] root1].
  destruct (truthy base) eqn:Tb; [|exact H].
  destruct (truthy rd) eqn:Tr; [|exact H]. cbn [negb orb].
  destruct (startswith base [ExtractRubySmart.REPETITION_MARK]) eqn:Sm; [exact H|].
  destruct (compound_merge_extends
              (length (fst (siblings_at root1 position)))
              root1 position base rd (ruby :: processed_rubies)) as (mb & mr & E).
  destruct (ExtractRubySmart.compound_merge _ root1 position base rd
              (ruby :: processed_rubies)) as [[[root2 current_ruby] [base2 rd2]] processed2].
  cbn [fst snd] in E. injection E as -> ->.
  set (found_suffix := ExtractRubySmart.okurigana_suffix _ _).
  set (base3 := if truthy found_suffix then _ else _).
  set (rd3 := if truthy found_suffix then _ else _).
  destruct (str_eqb base3 rd3) eqn:Eq; [exact H|]. cbn [negb].
  destruct (ExtractRubySmart.words_has base3 words) eqn:Hh; [exact H|].
  cbn [negb fst snd]. destruct H as [F ND]. split.
  - apply Forall_app. split; [exact F|]. apply Forall_cons. split; [|constructor].
    cbn [fst snd ExtractRubySmart.new_entry ExtractRubySmart.word].
    split; [reflexivity|].
    assert (Hb : exists x r, base = x :: r /\ x <> ExtractRubySmart.REPETITION_MARK).
    { destruct base as [|x r]; [discriminate|]. exists x, r. split; [reflexivity|].
      intros ->.
      pose proof (startswith_app [ExtractRubySmart.REPETITION_MARK] r) as Q.
      cbn [app] in Q. congruence. }
    destruct Hb as (x & r & -> & Hx).
    assert (Hb3 : exists t, base3 = x :: t).
    { subst base3. destruct (truthy found_suffix); eexists; cbn [app]; reflexivity. }
    destruct Hb3 as (t & Hb3).
    assert (Hr3 : rd3 <> []).
    { subst rd3. destruct rd as [|y rd]; [discriminate|].
      destruct (truthy found_suffix); discriminate. }
    change (base3 <> [] /\ rd3 <> [] /\ base3 <> rd3
            /\ head base3 <> Some ExtractRubySmart.REPETITION_MARK
            /\ u "epub" = u "epub" /\ @nil Z = []).
    split; [rewrite Hb3; discriminate|]. split; [exact Hr3|].
    split; [intros E'; rewrite E', str_eqb_refl in Eq; discriminate|].
    split; [rewrite Hb3; cbn [head]; congruence|]. split; reflexivity.
  - rewrite map_app. cbn [map fst]. apply NoDup_app. split; [exact ND|].
    split; [|apply NoDup_singleton].
    intros k Hk Hk'. apply list_elem_of_singleton in Hk'. subst k.
    apply list_elem_of_In in Hk. now apply (words_has_false base3 words Hh).
Qed.

Lemma words_loop_ok (rubies : list nat) :
  forall st : ExtractRubySmart.loop_state,
    words_ok (snd (fst st)) ->
    words_ok (snd (fst (foldl ExtractRubySmart.ruby_step st rubies))).
Proof.
  induction rubies as [|r rubies IH]; intros st H; [exact H|].
  cbn [foldl]. apply IH. now apply words_step_ok.
Qed.

(** X24.  Every entry of the dictionary extract_words_from_html returns
    has a word and a reading that are not empty and differ, a word that
    does not begin with the repetition mark, the source epub and an empty
    note; and no two entries have the same word. *)
Theorem extract_words_entries (html : Node) :
  Forall entry_ok (ExtractRubySmart.extract_words_from_html html)
  /\ NoDup (map ExtractRubySmart.word (ExtractRubySmart.extract_words_from_html html)).
Proof.
  unfold ExtractRubySmart.extract_words_from_html.
  pose proof (words_loop_ok (find_all_ids (u "ruby") html) (html, [], [])) as H.
  destruct (foldl ExtractRubySmart.ruby_step (html, [], [])
                  (find_all_ids (u "ruby") html)) as [[root words] processed].
  cbn [fst snd] in H.
  destruct H as [F ND]; [split; [constructor | apply NoDup_nil_2]|].
  split.
  - apply Forall_map. eapply Forall_impl; [exact F|]. now intros p [_ Hp].
  - assert (E : map ExtractRubySmart.word (map snd words) = map fst words).
    { clear ND. induction F as [|p l [Hp _] _ IH]; [reflexivity|].
      cbn [map]. now rewrite IH, Hp. }
    now rewrite E.
Qed.

End WordEntries.

(* ===================================================================== *)
(*  update_registry                                                      *)
(* ===================================================================== *)

Section RegistryUpdate.

Lemma str_ltb_asym (a : list Z) :
  forall b, str_ltb a b = true -> str_ltb b a = false.
Proof.
  induction a as [|x a IH]; intros [|y b] H; try reflexivity; try discriminate.
  cbn [str_ltb] in *. apply orb_true_iff in H as [H|H].
  - apply Z.ltb_lt in H. apply orb_false_iff. split.
    + apply Z.ltb_ge. lia.
    + apply andb_false_iff. left. apply Z.eqb_neq. lia.
  - apply andb_true_iff in H as [E H]. apply Z.eqb_eq in E. subst y.
    rewrite Z.ltb_irrefl, Z.eqb_refl. cbn [orb andb]. now apply IH.
Qed.

Lemma insert_sorted_perm {A : Type} (lt : A -> A -> bool) (x : A) (l : list A) :
  Permutation (insert_sorted lt x l) (x :: l).
Proof.
  induction l as [|y l IH]; [reflexivity|]. cbn [insert_sorted].
  destruct (lt y x); [|reflexivity].
  rewrite IH. apply perm_swap.
Qed.

Lemma stable_sort_perm {A : Type} (lt : A -> A -> bool) (l : list A) :
  Permutation (stable_sort lt l) l.
Proof.
  induction l as [|x l IH]; [reflexivity|].
  unfold stable_sort in *. cbn [foldr]. rewrite insert_sorted_perm. now constructor.
Qed.

Lemma insert_sorted_ascending {A : Type} (lt : A -> A -> bool) (x : A) (l : list A) :
  (forall a b, lt a b = true -> lt b a = false) ->
  ascending lt l = true -> ascending lt (insert_sorted lt x l) = true.
Proof.
  intros Asym. induction l as [|y l IH]; intros H; [reflexivity|].
  cbn [insert_sorted]. destruct (lt y x) eqn:E.
  - cbn [ascending] in H. apply andb_true_iff in H as [Hd Hs].
    specialize (IH Hs). cbn [ascending]. rewrite IH, andb_true_r.
    destruct l as [|z l]; cbn [insert_sorted].
    + now rewrite (Asym y x E).
    + destruct (lt z x); [exact Hd | now rewrite (Asym y x E)].
  - change (negb (lt y x) && ascending lt (y :: l) = true). now rewrite E, H.
Qed.

Lemma stable_sort_ascending {A : Type} (lt : A -> A -> bool) (l : list A) :
  (forall a b, lt a b = true -> lt b a = false) ->
  ascending lt (stable_sort lt l) = true.
Proof.
  intros Asym. induction l as [|x l IH]; [reflexivity|].
  unfold stable_sort in *. cbn [foldr]. now apply insert_sorted_ascending.
Qed.

(* a list in ascending order is left as it is *)
Lemma stable_sort_fixed {A : Type} (lt : A -> A -> bool) (l : list A) :
  ascending lt l = true -> stable_sort lt l = l.
Proof.
  induction l as [|x l IH]; intros H; [reflexivity|].
  cbn [ascending] in H. apply andb_true_iff in H as [Hd Hs].
  unfold stable_sort in *. cbn [foldr]. rewrite (IH Hs).
  destruct l as [|y l]; [reflexivity|]. cbn [insert_sorted].
  apply negb_true_iff in Hd. now rewrite Hd.
Qed.

Lemma kanji_ltb_asym (a b : UpdateRegistry.RegistryEntry) :
  UpdateRegistry.kanji_ltb a b = true -> UpdateRegistry.kanji_ltb b a = false.
Proof. apply str_ltb_asym. Qed.

(* the loop that collects the new entries *)
Lemma new_entries_loop (old : list UpdateRegistry.RegistryEntry)
    (items : list (list Z * list Z)) :
  forall new_entries : list UpdateRegistry.RegistryEntry,
    foldl (UpdateRegistry.new_entry_step (list_to_set (map UpdateRegistry.kanji old)))
          new_entries items
    = new_entries ++ omap (entry_of_item old) items.
Proof.
  induction items as [|[k r] items IH]; intros new_entries; cbn [foldl].
  - now rewrite app_nil_r.
  - rewrite IH.
    change (omap (entry_of_item old) ((k, r) :: items))
      with (match entry_of_item old (k, r) with
            | Some e => e :: omap (entry_of_item old) items
            | None => omap (entry_of_item old) items
            end).
    destruct (decide (k ∈ map UpdateRegistry.kanji old)) as [Hin|Hout].
    + assert (E1 : entry_of_item old (k, r) = None).
      { unfold entry_of_item. cbn [fst]. now rewrite bool_decide_eq_true_2. }
      assert (E2 : UpdateRegistry.new_entry_step
                     (list_to_set (map UpdateRegistry.kanji old)) new_entries (k, r)
                   = new_entries).
      { unfold UpdateRegistry.new_entry_step.
        rewrite bool_decide_eq_true_2; [reflexivity|]. now apply elem_of_list_to_set. }
      now rewrite E1, E2.
    + assert (E1 : entry_of_item old (k, r)
                   = Some (UpdateRegistry.mkRegistryEntry k r (u "epub") [])).
      { unfold entry_of_item. cbn [fst snd]. now rewrite bool_decide_eq_false_2. }
      assert (E2 : UpdateRegistry.new_entry_step
                     (list_to_set (map UpdateRegistry.kanji old)) new_entries (k, r)
                   = new_entries ++ [UpdateRegistry.mkRegistryEntry k r (u "epub") []]).
      { unfold UpdateRegistry.new_entry_step.
        rewrite bool_decide_eq_false_2; [reflexivity|].
        intros H. apply Hout. now apply elem_of_list_to_set in H. }
      rewrite E1, E2. now rewrite <- app_assoc.
Qed.

Lemma update_registry_entries {Suggestion : Type}
    (registry_file : option (UpdateRegistry.Registry Suggestion))
    (pairs : list (list Z * list Z)) (book_title : list Z) :
  let old := match registry_file with
             | Some registry => UpdateRegistry.entries registry
             | None => []
             end in
  let new_entries :=
    omap (entry_of_item old) (stable_sort UpdateRegistry.item_ltb pairs) in
  UpdateRegistry.update_registry registry_file pairs book_title
  = (UpdateRegistry.mkRegistry
       match registry_file with
       | Some registry => UpdateRegistry.bookTitle registry
       | None => book_title
       end
       (stable_sort UpdateRegistry.kanji_ltb (old ++ new_entries))
       match registry_file with
       | Some registry => UpdateRegistry.suggestions registry
       | None => []
       end,
     (length new_entries,
      length (stable_sort UpdateRegistry.kanji_ltb (old ++ new_entries)))).
Proof.
  intros old new_entries. unfold UpdateRegistry.update_registry.
  destruct registry_file as [registry|]; cbn [UpdateRegistry.entries
    UpdateRegistry.bookTitle UpdateRegistry.suggestions];
    now rewrite new_entries_loop.
Qed.

Lemma entry_of_item_new (old : list UpdateRegistry.RegistryEntry)
    (items : list (list Z * list Z)) (e : UpdateRegistry.RegistryEntry) :
  In e (omap (entry_of_item old) items) ->
  In (UpdateRegistry.kanji e, UpdateRegistry.reading e) items
  /\ ~ In (UpdateRegistry.kanji e) (map UpdateRegistry.kanji old)
  /\ UpdateRegistry.source e = u "epub" /\ UpdateRegistry.note e = [].
Proof.
  intros H. apply list_elem_of_In, list_elem_of_omap in H as ([k r] & Hin & He).
  unfold entry_of_item in He. cbn [fst snd] in He.
  destruct (decide (k ∈ map UpdateRegistry.kanji old)) as [Hk|Hk].
  - rewrite (bool_decide_eq_true_2 _ Hk) in He. discriminate.
  - rewrite (bool_decide_eq_false_2 _ Hk) in He. injection He as <-.
    cbn [UpdateRegistry.kanji UpdateRegistry.reading UpdateRegistry.source
         UpdateRegistry.note].
    split; [now apply list_elem_of_In|]. split; [|split; reflexivity].
    intros Hin'. apply Hk. now apply list_elem_of_In.
Qed.

Lemma entry_of_item_covers (old : list UpdateRegistry.RegistryEntry)
    (items : list (list Z * list Z)) (k r : list Z) :
  In (k, r) items ->
  In k (map UpdateRegistry.kanji (old ++ omap (entry_of_item old) items)).
Proof.
  intros H. rewrite map_app. apply in_or_app.
  destruct (decide (k ∈ map UpdateRegistry.kanji old)) as [Hk|Hk].
  - left. now apply list_elem_of_In.
  - right. apply in_map_iff.
    exists (UpdateRegistry.mkRegistryEntry k r (u "epub") []). split; [reflexivity|].
    apply list_elem_of_In, list_elem_of_omap. exists (k, r).
    split; [now apply list_elem_of_In|]. unfold entry_of_item. cbn [fst snd].
    now rewrite (bool_decide_eq_false_2 _ Hk).
Qed.

Lemma omap_none {A B : Type} (f : A -> option B) (l : list A) :
  (forall x, In x l -> f x = None) -> omap f l = [].
Proof.
  induction l as [|x l IH]; intros H; [reflexivity|].
  change (omap f (x :: l))
    with (match f x with Some y => y :: omap f l | None => omap f l end).
  rewrite (H x (or_introl eq_refl)). apply IH. intros y Hy. apply H. now right.
Qed.

Lemma omap_perm {A B : Type} (f : A -> option B) (l1 l2 : list A) :
  Permutation l1 l2 -> Permutation (omap f l1) (omap f l2).
Proof.
  assert (C : forall x l, omap f (x :: l)
                          = match f x with Some y => y :: omap f l | None => omap f l end)
    by reflexivity.
  induction 1 as [|x l l' _ IH|x y l|l l' l'' _ IH1 _ IH2].
  - reflexivity.
  - rewrite !C. destruct (f x); [now constructor | exact IH].
  - rewrite !C. destruct (f x), (f y); try reflexivity. apply perm_swap.
  - now rewrite IH1.
Qed.

(* the new entries, written with filter and map *)
Lemma entry_of_item_filter (old : list UpdateRegistry.RegistryEntry)
    (pairs : list (list Z * list Z)) :
  omap (entry_of_item old) pairs
  = map (fun p => UpdateRegistry.mkRegistryEntry (fst p) (snd p) (u "epub") [])
        (List.filter
           (fun p => negb (bool_decide (fst p ∈ map UpdateRegistry.kanji old)))
           pairs).
Proof.
  induction pairs as [|p pairs IH]; [reflexivity|].
  change (omap (entry_of_item old) (p :: pairs))
    with (match entry_of_item old p with
          | Some e => e :: omap (entry_of_item old) pairs
          | None => omap (entry_of_item old) pairs
          end).
  cbn [List.filter]. unfold entry_of_item at 1.
  destruct (bool_decide (fst p ∈ map UpdateRegistry.kanji old)); cbn [negb map];
    now rewrite IH.
Qed.

(** X25.  update_registry keeps every entry of the registry as it is and
    adds exactly one entry, with the source epub and an empty note, for
    each pair whose kanji the registry does not have: the entries written
    are, up to their order, the old entries followed by these new ones.
    They are written in ascending order of their kanji, and the numbers
    returned are the number of pairs whose kanji was missing and the
    number of entries written. *)
Theorem update_registry_merges {Suggestion : Type}
    (registry_file : option (UpdateRegistry.Registry Suggestion))
    (pairs : list (list Z * list Z)) (book_title : list Z) :
  let old := match registry_file with
             | Some registry => UpdateRegistry.entries registry
             | None => []
             end in
  let missing :=
    List.filter (fun p => negb (bool_decide (fst p ∈ map UpdateRegistry.kanji old)))
                pairs in
  let written := fst (UpdateRegistry.update_registry registry_file pairs book_title) in
  let counts := snd (UpdateRegistry.update_registry registry_file pairs book_title) in
  Permutation (UpdateRegistry.entries written)
    (old ++ map (fun p => UpdateRegistry.mkRegistryEntry (fst p) (snd p) (u "epub") [])
                missing)
  /\ fst counts = length missing
  /\ snd counts = (length old + length missing)%nat
  /\ (forall k r, In (k, r) pairs ->
        In k (map UpdateRegistry.kanji (UpdateRegistry.entries written)))
  /\ ascending UpdateRegistry.kanji_ltb (UpdateRegistry.entries written) = true
  /\ UpdateRegistry.bookTitle written
     = match registry_file with
       | Some registry => UpdateRegistry.bookTitle registry
       | None => book_title
       end.
Proof.
  intros old missing written counts. subst written counts.
  rewrite update_registry_entries. fold old.
  cbn [fst snd UpdateRegistry.entries UpdateRegistry.bookTitle].
  set (items := stable_sort UpdateRegistry.item_ltb pairs).
  assert (Hitems : Permutation items pairs) by apply stable_sort_perm.
  assert (Hnew : Permutation (omap (entry_of_item old) items)
                   (map (fun p => UpdateRegistry.mkRegistryEntry (fst p) (snd p)
                                    (u "epub") []) missing)).
  { subst missing. rewrite <- entry_of_item_filter. now apply omap_perm. }
  assert (Hlen : length (omap (entry_of_item old) items) = length missing).
  { rewrite (Permutation_length Hnew). apply length_map. }
  split; [|split; [|split; [|split; [|split]]]].
  - rewrite stable_sort_perm. now apply Permutation_app_head.
  - exact Hlen.
  - rewrite (Permutation_length (stable_sort_perm _ _)), length_app. now rewrite Hlen.
  - intros k r H.
    assert (H' : In (k, r) items)
      by (eapply Permutation_in; [symmetry; exact Hitems | exact H]).
    apply (entry_of_item_covers old items k r) in H'.
    apply in_map_iff in H' as (e & Ek & He). apply in_map_iff. exists e.
    split; [exact Ek|].
    eapply Permutation_in; [symmetry; apply stable_sort_perm | exact He].
  - apply stable_sort_ascending. exact kanji_ltb_asym.
  - reflexivity.
Qed.

(** X26.  Updating the registry a second time with the same pairs adds
    nothing: the registry written is the one read, whatever the title
    given, and the numbers returned are 0 and the number of its entries. *)
Theorem update_registry_idempotent {Suggestion : Type}
    (registry_file : option (UpdateRegistry.Registry Suggestion))
    (pairs : list (list Z * list Z)) (book_title other_title : list Z) :
  let written := fst (UpdateRegistry.update_registry registry_file pairs book_title) in
  UpdateRegistry.update_registry (Some written) pairs other_title
  = (written, (0%nat, length (UpdateRegistry.entries written))).
Proof.
  intros written. subst written.
  rewrite (update_registry_entries registry_file). cbn [fst].
  set (old := match registry_file with
              | Some registry => UpdateRegistry.entries registry
              | None => []
              end).
  set (items := stable_sort UpdateRegistry.item_ltb pairs).
  set (entries1 := stable_sort UpdateRegistry.kanji_ltb
                     (old ++ omap (entry_of_item old) items)).
  rewrite update_registry_entries.
  cbn [UpdateRegistry.entries UpdateRegistry.bookTitle UpdateRegistry.suggestions].
  fold items.
  assert (Hnone : omap (entry_of_item entries1) items = []).
  { assert (Hall : forall p, In p items -> entry_of_item entries1 p = None).
    { intros [k r] Hp. unfold entry_of_item. cbn [fst].
      rewrite bool_decide_eq_true_2; [reflexivity|].
      apply list_elem_of_In.
      apply (entry_of_item_covers old items k r) in Hp.
      apply in_map_iff in Hp as (e & Ek & He). apply in_map_iff. exists e.
      split; [exact Ek|]. subst entries1.
      eapply Permutation_in; [symmetry; apply stable_sort_perm | exact He]. }
    now apply omap_none. }
  rewrite Hnone, app_nil_r.
  assert (Hfix : stable_sort UpdateRegistry.kanji_ltb entries1 = entries1).
  { apply stable_sort_fixed. subst entries1.
    apply stable_sort_ascending. exact kanji_ltb_asym. }
  rewrite Hfix. reflexivity.
Qed.

End RegistryUpdate.

(* ===================================================================== *)
(*  The entries made of the pairs of a text                              *)
(* ===================================================================== *)

Section MigrateEntries.

Example filter_entries_counts :
  MigrateFilter.filter_entries
    (MigrateRubyRegistry.extract_ruby_pairs
       (u "<ruby>神崎<rt>かんざき</rt></ruby>と<ruby>相沢<rt>あいざわ</rt></ruby>と<ruby>神崎<rt>かんざき</rt></ruby>と<ruby>私<rt>わたし</rt></ruby>"))
    1
  = [UpdateRegistry.mkRegistryEntry (u "相沢") (u "あいざわ") (u "text") [];
     UpdateRegistry.mkRegistryEntry (u "神崎") (u "かんざき") (u "text") (u "(2x)")].
Proof. vm_compute. reflexivity. Qed.

Lemma str_ltb_total (a : list Z) :
  forall b, str_ltb a b = false -> str_ltb b a = false -> a = b.
Proof.
  induction a as [|x a IH]; intros [|y b] H1 H2; try reflexivity; try discriminate.
  cbn [str_ltb] in *.
  apply orb_false_iff in H1 as [L1 E1]. apply orb_false_iff in H2 as [L2 E2].
  apply Z.ltb_ge in L1, L2. assert (x = y) by lia. subst y.
  rewrite Z.eqb_refl in E1, E2. cbn [andb] in E1, E2. f_equal. now apply IH.
Qed.

Lemma ascending_lookup {A : Type} (lt : A -> A -> bool) (l : list A) :
  ascending lt l = true ->
  forall (i : nat) (a b : A), l !! i = Some a -> l !! S i = Some b -> lt b a = false.
Proof.
  induction l as [|x l IH]; intros H i a b Ha Hb; [discriminate|].
  cbn [ascending] in H. apply andb_true_iff in H as [Hd Hs].
  destruct i as [|i].
  - injection Ha as ->. destruct l as [|y l]; [discriminate|].
    injection Hb as ->. now apply negb_true_iff in Hd.
  - exact (IH Hs i a b Ha Hb).
Qed.

Lemma filter_loop (min_occurrences : Z) (pairs : list (list Z * (list Z * nat))) :
  (min_occurrences <= 1)%Z ->
  Forall (fun p => (1 <= snd (snd p))%nat) pairs ->
  forall entries : list UpdateRegistry.RegistryEntry,
    foldl (MigrateFilter.filter_step min_occurrences) entries pairs
    = entries ++ omap entry_of_pair pairs.
Proof.
  intros Hm. induction 1 as [|[k [r n]] pairs Hn _ IH]; intros entries; cbn [foldl].
  - now rewrite app_nil_r.
  - rewrite IH.
    change (omap entry_of_pair ((k, (r, n)) :: pairs))
      with (match entry_of_pair (k, (r, n)) with
            | Some e => e :: omap entry_of_pair pairs
            | None => omap entry_of_pair pairs
            end).
    unfold MigrateFilter.filter_step, entry_of_pair. cbn [snd] in Hn.
    destruct ((length k =? 1)%nat && str_in k MigrateFilter.COMMON_SINGLE_KANJI);
      [reflexivity|].
    cbn [orb]. destruct (str_in k MigrateFilter.COMMON_WORDS); [reflexivity|].
    assert (E : (Z.of_nat n <? min_occurrences) = false) by (apply Z.ltb_ge; lia).
    rewrite E. now rewrite <- app_assoc.
Qed.

Lemma pairs_set_counts (kanji rd : list Z) (n : nat)
    (pairs : list (list Z * (list Z * nat))) :
  (1 <= n)%nat ->
  Forall (fun p => (1 <= snd (snd p))%nat) pairs ->
  Forall (fun p => (1 <= snd (snd p))%nat)
         (MigrateRubyRegistry.pairs_set kanji (rd, n) pairs).
Proof.
  intros Hn. induction 1 as [|[k0 v0] pairs H0 Hp IH];
    cbn [MigrateRubyRegistry.pairs_set].
  - repeat constructor. exact Hn.
  - destruct (str_eqb k0 kanji); constructor;
      [exact Hn | exact Hp | exact H0 | exact IH].
Qed.

Lemma pair_loop_counts (matches : list (list Z * list Z)) :
  forall pairs : list (list Z * (list Z * nat)),
    Forall (fun p => (1 <= snd (snd p))%nat) pairs ->
    Forall (fun p => (1 <= snd (snd p))%nat)
           (foldl MigrateRubyRegistry.pair_step pairs matches).
Proof.
  induction matches as [|g matches IH]; intros pairs H; [exact H|].
  cbn [foldl]. apply IH. unfold MigrateRubyRegistry.pair_step.
  destruct (negb (truthy (strip (fst g))) || negb (truthy (strip (snd g))));
    [exact H|].
  destruct (str_eqb (strip (fst g)) (strip (snd g))); [exact H|].
  destruct (MigrateRubyRegistry.pairs_get (strip (fst g)) pairs) as [[rd0 count]|].
  - destruct (str_eqb rd0 (strip (snd g))); [|exact H].
    apply pairs_set_counts; [lia | exact H].
  - apply pairs_set_counts; [lia | exact H].
Qed.

Lemma entry_of_pair_kanji (p : list Z * (list Z * nat))
    (e : UpdateRegistry.RegistryEntry) :
  entry_of_pair p = Some e -> UpdateRegistry.kanji e = fst p.
Proof.
  destruct p as [k [r n]]. unfold entry_of_pair.
  destruct (_ || _); [discriminate|]. now intros [= <-].
Qed.

Lemma entries_distinct (pairs : list (list Z * (list Z * nat))) :
  NoDup (map fst pairs) ->
  NoDup (map UpdateRegistry.kanji (omap entry_of_pair pairs)).
Proof.
  induction pairs as [|p pairs IH]; intros ND; [constructor|].
  cbn [map] in ND. apply NoDup_cons in ND as [Hp ND].
  change (omap entry_of_pair (p :: pairs))
    with (match entry_of_pair p with
          | Some e => e :: omap entry_of_pair pairs
          | None => omap entry_of_pair pairs
          end).
  destruct (entry_of_pair p) as [e|] eqn:E; [|now apply IH].
  cbn [map]. apply NoDup_cons. split; [|now apply IH].
  intros Hin. apply Hp. rewrite (entry_of_pair_kanji p e E) in Hin.
  apply list_elem_of_In, in_map_iff in Hin as (e' & Ek & He').
  apply list_elem_of_In, list_elem_of_omap in He' as (q & Hq & Eq).
  apply entry_of_pair_kanji in Eq. apply list_elem_of_In, in_map_iff.
  exists q. split; [congruence | now apply list_elem_of_In].
Qed.

(** X27.  The entries made of the pairs of a text, with the least number
    of occurrences 1 as process_file gives it: the test on the number of
    occurrences removes nothing, so the entries are those of the pairs
    whose kanji is not a common word, each once; and they are in strictly
    ascending order of their kanji. *)
Theorem migrate_entries_of_text (text : list Z) :
  let entries :=
    MigrateFilter.filter_entries (MigrateRubyRegistry.extract_ruby_pairs text) 1 in
  Permutation entries
    (omap entry_of_pair (MigrateRubyRegistry.extract_ruby_pairs text))
  /\ forall (i : nat) (e1 e2 : UpdateRegistry.RegistryEntry),
       entries !! i = Some e1 -> entries !! S i = Some e2 ->
       str_ltb (UpdateRegistry.kanji e1) (UpdateRegistry.kanji e2) = true.
Proof.
  intros entries. subst entries. unfold MigrateFilter.filter_entries.
  set (pairs := MigrateRubyRegistry.extract_ruby_pairs text).
  assert (Hc : Forall (fun p => (1 <= snd (snd p))%nat) pairs).
  { subst pairs. unfold MigrateRubyRegistry.extract_ruby_pairs.
    apply pair_loop_counts. constructor. }
  assert (ND : NoDup (map fst pairs)).
  { subst pairs. unfold MigrateRubyRegistry.extract_ruby_pairs.
    apply (pair_loop_spec (find_matches MigrateRubyRegistry.RUBY_PATTERN 0 text)). }
  rewrite (filter_loop 1 pairs (Z.le_refl 1) Hc []). cbn [app].
  set (made := omap entry_of_pair pairs).
  pose proof (stable_sort_perm UpdateRegistry.kanji_ltb made) as P.
  split; [exact P|].
  intros i e1 e2 H1 H2.
  pose proof (ascending_lookup UpdateRegistry.kanji_ltb _
                (stable_sort_ascending UpdateRegistry.kanji_ltb made kanji_ltb_asym)
                i e1 e2 H1 H2) as Hge.
  unfold UpdateRegistry.kanji_ltb in Hge.
  destruct (str_ltb (UpdateRegistry.kanji e1) (UpdateRegistry.kanji e2)) eqn:Hlt;
    [reflexivity|].
  exfalso.
  pose proof (str_ltb_total _ _ Hlt Hge) as Ek.
  assert (ND' : NoDup (map UpdateRegistry.kanji
                         (stable_sort UpdateRegistry.kanji_ltb made))).
  { pose proof (Permutation_map UpdateRegistry.kanji P) as Pm.
    rewrite Pm. apply (entries_distinct pairs ND). }
  assert (L1 : map UpdateRegistry.kanji (stable_sort UpdateRegistry.kanji_ltb made)
               !! i = Some (UpdateRegistry.kanji e1))
    by (rewrite list_lookup_fmap, H1; reflexivity).
  assert (L2 : map UpdateRegistry.kanji (stable_sort UpdateRegistry.kanji_ltb made)
               !! S i = Some (UpdateRegistry.kanji e1))
    by (rewrite list_lookup_fmap, H2, Ek; reflexivity).
  pose proof (NoDup_lookup _ _ _ _ ND' L1 L2). lia.
Qed.

End MigrateEntries.
